(** * jsmn: a shallow embedding of [jsmn.h] and its specification

    The three build switches of the header ([JSMN_PERMISSIVE],
    [JSMN_PARENT_LINKS], [JSMN_NEXT_SIBLING]) are the fields of a
    [config] value; every [#ifdef] of the source is an [if] on it.

    - [jsmnint_t] is [unsigned int]: values are [Z] and every [++], [--],
      [+ 1] and [- 1] of the source is followed by [wrap] (reduction modulo
      [2^32]).  [JSMN_NEG] is [(jsmnint_t)-1].
    - [jsmntype_t] is used as a bit mask: a [Z] tested with [Z.land] and
      extended with [Z.lor].
    - the input [js] is a list of bytes (as [Z], 0..255) together with the
      declared length [len]; the token pool is [option (list jsmntok_t)]
      ([None] is the [NULL] pool) together with [num_tokens].
    - an array access outside the list is undefined behaviour in C: the
      model stops with [Undef].
    - loops whose termination depends on the data take fuel and stop with
      [OutOfFuel] when it runs out. *)

From Stdlib Require Import ZArith Lia List String Ascii Bool.
From stdpp Require Import base tactics option list.
Import ListNotations.
Local Open Scope Z_scope.

(** ** Outcome of a run *)

Inductive run (A : Type) : Type :=
| Done (a : A)
| Undef
| OutOfFuel.
Arguments Done {A} a.
Arguments Undef {A}.
Arguments OutOfFuel {A}.

Definition bind {A B : Type} (m : run A) (k : A -> run B) : run B :=
  match m with
  | Done a => k a
  | Undef => Undef
  | OutOfFuel => OutOfFuel
  end.

Notation "'do' x <- m ; k" := (bind m (fun x => k))
  (at level 10, x pattern, m at level 100, k at level 200).

(** ** Types of the header *)

Record config := mk_config {
  JSMN_PERMISSIVE : bool;
  JSMN_PARENT_LINKS : bool;
  JSMN_NEXT_SIBLING : bool }.

Definition JSMN_UNDEFINED : Z := 0.
Definition JSMN_OBJECT : Z := 1.
Definition JSMN_ARRAY : Z := 2.
Definition JSMN_STRING : Z := 4.
Definition JSMN_PRIMITIVE : Z := 8.
Definition JSMN_KEY : Z := 16.
Definition JSMN_VALUE : Z := 32.
Definition JSMN_CLOSE : Z := 64.
Definition JSMN_DELIMITER : Z := 128.
Definition JSMN_CONTAINER : Z := Z.lor JSMN_OBJECT JSMN_ARRAY.
Definition JSMN_ANY_TYPE : Z :=
  Z.lor (Z.lor (Z.lor JSMN_OBJECT JSMN_ARRAY) JSMN_STRING) JSMN_PRIMITIVE.

Inductive jsmnerr := JSMN_SUCCESS | JSMN_ERROR_NOMEM | JSMN_ERROR_INVAL | JSMN_ERROR_PART.

Definition jsmnerr_code (e : jsmnerr) : Z :=
  match e with
  | JSMN_SUCCESS => 0
  | JSMN_ERROR_NOMEM => -1
  | JSMN_ERROR_INVAL => -2
  | JSMN_ERROR_PART => -3
  end.

Definition wrap (x : Z) : Z := x mod 2 ^ 32.
Definition JSMN_NEG : Z := wrap (-1).

(** What [jsmn_parse] returns: [return count] or [return <error>].  The C
    function returns both through one [jsmnint_t]; [as_jsmnint] is that
    value. *)
Inductive jsmn_result := Count (n : Z) | Err (e : jsmnerr).

Definition as_jsmnint (r : jsmn_result) : Z :=
  match r with
  | Count n => n
  | Err e => wrap (jsmnerr_code e)
  end.

Record jsmntok_t := mk_tok {
  tok_type : Z;
  tok_start : Z;
  tok_end : Z;
  tok_size : Z;
  tok_parent : Z;
  tok_next_sibling : Z }.

Record jsmn_parser := mk_parser {
  pos : Z;
  toknext : Z;
  toksuper : Z;
  expected : Z }.

Definition set_pos (p : jsmn_parser) (v : Z) : jsmn_parser :=
  mk_parser v (toknext p) (toksuper p) (expected p).
Definition set_toknext (p : jsmn_parser) (v : Z) : jsmn_parser :=
  mk_parser (pos p) v (toksuper p) (expected p).
Definition set_toksuper (p : jsmn_parser) (v : Z) : jsmn_parser :=
  mk_parser (pos p) (toknext p) v (expected p).
Definition set_expected (p : jsmn_parser) (v : Z) : jsmn_parser :=
  mk_parser (pos p) (toknext p) (toksuper p) v.

Definition set_type (t : jsmntok_t) (v : Z) : jsmntok_t :=
  mk_tok v (tok_start t) (tok_end t) (tok_size t) (tok_parent t) (tok_next_sibling t).
Definition set_start (t : jsmntok_t) (v : Z) : jsmntok_t :=
  mk_tok (tok_type t) v (tok_end t) (tok_size t) (tok_parent t) (tok_next_sibling t).
Definition set_end (t : jsmntok_t) (v : Z) : jsmntok_t :=
  mk_tok (tok_type t) (tok_start t) v (tok_size t) (tok_parent t) (tok_next_sibling t).
Definition set_size (t : jsmntok_t) (v : Z) : jsmntok_t :=
  mk_tok (tok_type t) (tok_start t) (tok_end t) v (tok_parent t) (tok_next_sibling t).
Definition set_parent (t : jsmntok_t) (v : Z) : jsmntok_t :=
  mk_tok (tok_type t) (tok_start t) (tok_end t) (tok_size t) v (tok_next_sibling t).
Definition set_next_sibling (t : jsmntok_t) (v : Z) : jsmntok_t :=
  mk_tok (tok_type t) (tok_start t) (tok_end t) (tok_size t) (tok_parent t) v.

(** [type |= v] and [size++] on a token. *)
Definition or_type (v : Z) (t : jsmntok_t) : jsmntok_t := set_type t (Z.lor (tok_type t) v).
Definition incr_size (t : jsmntok_t) : jsmntok_t := set_size t (wrap (tok_size t + 1)).

(** ** Memory: the input buffer and the token pool *)

(** [js[i]] *)
Definition js_at (js : list Z) (i : Z) : run Z :=
  match js !! Z.to_nat i with
  | Some c => Done c
  | None => Undef
  end.

(** [tokens[i]] read *)
Definition tok_get (tokens : list jsmntok_t) (i : Z) : run jsmntok_t :=
  match tokens !! Z.to_nat i with
  | Some t => Done t
  | None => Undef
  end.

(** [tokens[i]] updated in place by [f] *)
Definition tok_upd (tokens : list jsmntok_t) (i : Z) (f : jsmntok_t -> jsmntok_t)
  : run (list jsmntok_t) :=
  match tokens !! Z.to_nat i with
  | Some t => Done (<[Z.to_nat i := f t]> tokens)
  | None => Undef
  end.

(** A nonzero mask is true in a C condition. *)
Definition nz (x : Z) : bool := negb (x =? 0).

(** ** Helpers of the header *)

Definition jsmn_is_type (token : jsmntok_t) (type : Z) : Z := Z.land (tok_type token) type.
Definition jsmn_is_expected (parser : jsmn_parser) (type : Z) : Z := Z.land (expected parser) type.

(** [jsmn_alloc_token]: [None] is the [NULL] result; otherwise the parser
    with [toknext] advanced, the pool with the slot reset, and the index of
    the slot (the returned pointer). *)
Definition jsmn_alloc_token (cfg : config) (parser : jsmn_parser)
    (tokens : list jsmntok_t) (num_tokens : Z)
  : run (option (jsmn_parser * list jsmntok_t * Z)) :=
  if num_tokens <=? toknext parser then Done None
  else
    let i := toknext parser in
    let reset t :=
      let t := set_size (set_end (set_start t JSMN_NEG) JSMN_NEG) 0 in
      let t := if JSMN_PARENT_LINKS cfg then set_parent t JSMN_NEG else t in
      if JSMN_NEXT_SIBLING cfg then set_next_sibling t JSMN_NEG else t in
    do tokens' <- tok_upd tokens i reset;
    Done (Some (set_toknext parser (wrap (i + 1)), tokens', i)).

Definition jsmn_fill_token (type start end_ : Z) (token : jsmntok_t) : jsmntok_t :=
  set_size (set_end (set_start (set_type token type) start) end_) 0.

(** The [while] of [jsmn_next_sibling]: follow [next_sibling] until it is
    [JSMN_NEG]. *)
Fixpoint last_sibling (fuel : nat) (tokens : list jsmntok_t) (sibling : Z) : run Z :=
  match fuel with
  | O => OutOfFuel
  | S fuel' =>
    do t <- tok_get tokens sibling;
    if tok_next_sibling t =? JSMN_NEG then Done sibling
    else last_sibling fuel' tokens (tok_next_sibling t)
  end.

Definition jsmn_next_sibling (fuel : nat) (parser : jsmn_parser) (tokens : list jsmntok_t)
  : run (list jsmntok_t) :=
  let sibling := if toksuper parser =? JSMN_NEG then 0 else wrap (toksuper parser + 1) in
  if sibling =? wrap (toknext parser - 1) then Done tokens
  else
    do s <- last_sibling fuel tokens sibling;
    tok_upd tokens s (fun t => set_next_sibling t (wrap (toknext parser - 1))).

(** A token whose opening bracket was scanned and whose closing bracket was
    not: [start != JSMN_NEG && end == JSMN_NEG]. *)
Definition is_open (t : jsmntok_t) : bool :=
  negb (tok_start t =? JSMN_NEG) && (tok_end t =? JSMN_NEG).

(** ** Bytes the scanners compare with *)

Abbreviation NUL := 0 (only parsing).
Abbreviation TAB := 9 (only parsing).
Abbreviation LF := 10 (only parsing).
Abbreviation CR := 13 (only parsing).
Abbreviation SPACE := 32 (only parsing).
Abbreviation QUOTE := 34 (only parsing).
Abbreviation COMMA := 44 (only parsing).
Abbreviation MINUS := 45 (only parsing).
Abbreviation SLASH := 47 (only parsing).
Abbreviation COLON := 58 (only parsing).
Abbreviation LBRACKET := 91 (only parsing).
Abbreviation BACKSLASH := 92 (only parsing).
Abbreviation RBRACKET := 93 (only parsing).
Abbreviation LBRACE := 123 (only parsing).
Abbreviation RBRACE := 125 (only parsing).

(** ** [jsmn_parse_primitive] *)

(** The [case] labels of the scanning loop that [goto found]. *)
Definition primitive_end (cfg : config) (c : Z) : bool :=
  (JSMN_PERMISSIVE cfg && (c =? COLON))
  || (c =? SPACE) || (c =? TAB) || (c =? LF) || (c =? CR)
  || (c =? COMMA) || (c =? RBRACKET) || (c =? RBRACE).

Inductive primitive_scan :=
| PrimFound (p : Z)      (* [goto found] with the cursor at [p] *)
| PrimInval              (* a byte outside 32..126 *)
| PrimEnd (p : Z).       (* the loop condition failed at [p] *)

Fixpoint primitive_loop (fuel : nat) (cfg : config) (js : list Z) (len : Z) (p : Z)
  : run primitive_scan :=
  match fuel with
  | O => OutOfFuel
  | S fuel' =>
    if p <? len then
      do c <- js_at js p;
      if c =? NUL then Done (PrimEnd p)
      else if primitive_end cfg c then Done (PrimFound p)
      else if (c <? 32) || (127 <=? c) then Done PrimInval
      else primitive_loop fuel' cfg js len (wrap (p + 1))
    else Done (PrimEnd p)
  end.

(** The permissive loop that adds [JSMN_ANY_TYPE] to [expected] when no
    container is found from [toksuper] down to token 0 (parent links off):
    [k] is [i + 1]. *)
Fixpoint no_container_below (tokens : list jsmntok_t) (k : nat) : run bool :=
  match k with
  | O => Done false
  | S i =>
    do t <- tok_get tokens (Z.of_nat i);
    if nz (jsmn_is_type t JSMN_CONTAINER) then Done false
    else match i with
         | O => Done true
         | S _ => no_container_below tokens i
         end
  end.

Definition jsmn_parse_primitive (fuel : nat) (cfg : config) (parser : jsmn_parser)
    (js : list Z) (len : Z) (tokens : option (list jsmntok_t)) (num_tokens : Z)
  : run (jsmnerr * jsmn_parser * option (list jsmntok_t)) :=
  if match tokens with
     | Some _ => negb (nz (jsmn_is_expected parser JSMN_PRIMITIVE))
     | None => false
     end
  then Done (JSMN_ERROR_INVAL, parser, tokens)
  else
  do parser <-
    (if JSMN_PERMISSIVE cfg && JSMN_PARENT_LINKS cfg then
       match tokens with
       | Some toks =>
         if (2 <=? toknext parser) && nz (jsmn_is_expected parser JSMN_DELIMITER) then
           do prev <- tok_get toks (wrap (toknext parser - 2));
           if nz (jsmn_is_type prev JSMN_KEY) then
             do sup <- tok_get toks (toksuper parser);
             Done (set_toksuper parser (tok_parent sup))
           else Done parser
         else Done parser
       | None => Done parser
       end
     else Done parser);
  let start := pos parser in
  do scan <- primitive_loop fuel cfg js len (pos parser);
  match scan with
  | PrimInval => Done (JSMN_ERROR_INVAL, set_pos parser start, tokens)
  | PrimEnd p | PrimFound p =>
    if match scan with PrimEnd _ => negb (JSMN_PERMISSIVE cfg) | _ => false end
    then Done (JSMN_ERROR_PART, set_pos parser start, tokens)
    else
    let parser := set_pos parser p in
    match tokens with
    | None => Done (JSMN_SUCCESS, set_pos parser (wrap (pos parser - 1)), None)
    | Some toks =>
      do a <- jsmn_alloc_token cfg parser toks num_tokens;
      match a with
      | None => Done (JSMN_ERROR_NOMEM, set_pos parser start, Some toks)
      | Some (parser, toks, token) =>
        do toks <- tok_upd toks token (jsmn_fill_token JSMN_PRIMITIVE start (pos parser));
        do toks <-
          (if negb (JSMN_PERMISSIVE cfg) then tok_upd toks token (or_type JSMN_VALUE)
           else if toksuper parser =? JSMN_NEG then Done toks
           else
             do sup <- tok_get toks (toksuper parser);
             if nz (jsmn_is_type sup JSMN_KEY) then tok_upd toks token (or_type JSMN_VALUE)
             else Done toks);
        let parser := set_expected parser (Z.lor JSMN_DELIMITER JSMN_CLOSE) in
        do parser <-
          (if JSMN_PERMISSIVE cfg then
             if toksuper parser =? JSMN_NEG then Done parser
             else if JSMN_PARENT_LINKS cfg then
               do sup <- tok_get toks (toksuper parser);
               if tok_parent sup =? JSMN_NEG
               then Done (set_expected parser (Z.lor (expected parser) JSMN_ANY_TYPE))
               else Done parser
             else
               do b <- no_container_below toks (S (Z.to_nat (toksuper parser)));
               if b then Done (set_expected parser (Z.lor (expected parser) JSMN_ANY_TYPE))
               else Done parser
           else Done parser);
        do toks <-
          (if JSMN_PARENT_LINKS cfg
           then tok_upd toks token (fun t => set_parent t (toksuper parser))
           else Done toks);
        do toks <-
          (if JSMN_NEXT_SIBLING cfg then jsmn_next_sibling fuel parser toks else Done toks);
        Done (JSMN_SUCCESS, set_pos parser (wrap (pos parser - 1)), Some toks)
      end
    end
  end.

(** ** [jsmn_parse_string] *)

Definition is_hex (c : Z) : bool :=
  ((48 <=? c) && (c <=? 57)) || ((65 <=? c) && (c <=? 70)) || ((97 <=? c) && (c <=? 102)).

(** The [for] over the (at most four) hex digits after a backslash-u: [n] is
    [4 - i]; [None] when a byte is not a hex digit, otherwise the cursor
    after the loop. *)
Fixpoint hex_loop (n : nat) (js : list Z) (len : Z) (p : Z) : run (option Z) :=
  match n with
  | O => Done (Some p)
  | S n' =>
    if p <? len then
      do c <- js_at js p;
      if c =? NUL then Done (Some p)
      else if is_hex c then hex_loop n' js len (wrap (p + 1))
      else Done None
    else Done (Some p)
  end.

(** The escapes accepted after a backslash, the u escape apart:
    quote, backslash, slash, b, f, n, r, t. *)
Definition simple_escape (c : Z) : bool :=
  (c =? QUOTE) || (c =? BACKSLASH) || (c =? SLASH) || (c =? 98) || (c =? 102)
  || (c =? 110) || (c =? 114) || (c =? 116).

Inductive string_scan :=
| StrQuote (p : Z)       (* the closing quote is at [p] *)
| StrInval               (* a malformed escape *)
| StrEnd.                (* the loop condition failed *)

Fixpoint string_loop (fuel : nat) (js : list Z) (len : Z) (p : Z) : run string_scan :=
  match fuel with
  | O => OutOfFuel
  | S fuel' =>
    if p <? len then
      do c <- js_at js p;
      if c =? NUL then Done StrEnd
      else if c =? QUOTE then Done (StrQuote p)
      else if (c =? BACKSLASH) && (wrap (p + 1) <? len) then
        let p := wrap (p + 1) in
        do e <- js_at js p;
        if simple_escape e then string_loop fuel' js len (wrap (p + 1))
        else if e =? 117 then
          do h <- hex_loop 4 js len (wrap (p + 1));
          match h with
          | None => Done StrInval
          | Some p => string_loop fuel' js len (wrap (wrap (p - 1) + 1))
          end
        else Done StrInval
      else string_loop fuel' js len (wrap (p + 1))
    else Done StrEnd
  end.

Definition jsmn_parse_string (fuel : nat) (cfg : config) (parser : jsmn_parser)
    (js : list Z) (len : Z) (tokens : option (list jsmntok_t)) (num_tokens : Z)
  : run (jsmnerr * jsmn_parser * option (list jsmntok_t)) :=
  if match tokens with
     | Some _ => negb (nz (jsmn_is_expected parser JSMN_STRING))
     | None => false
     end
  then Done (JSMN_ERROR_INVAL, parser, tokens)
  else
  do parser <-
    (if JSMN_PERMISSIVE cfg && JSMN_PARENT_LINKS cfg then
       match tokens with
       | Some toks =>
         if (2 <=? toknext parser) && nz (jsmn_is_expected parser JSMN_DELIMITER) then
           do prev <- tok_get toks (wrap (toknext parser - 2));
           if nz (jsmn_is_type prev JSMN_KEY) then
             do sup <- tok_get toks (toksuper parser);
             Done (set_toksuper parser (tok_parent sup))
           else Done parser
         else Done parser
       | None => Done parser
       end
     else Done parser);
  let start := pos parser in
  do scan <- string_loop fuel js len (wrap (pos parser + 1));
  match scan with
  | StrInval => Done (JSMN_ERROR_INVAL, set_pos parser start, tokens)
  | StrEnd => Done (JSMN_ERROR_PART, set_pos parser start, tokens)
  | StrQuote p =>
    let parser := set_pos parser p in
    match tokens with
    | None => Done (JSMN_SUCCESS, parser, None)
    | Some toks =>
      do a <- jsmn_alloc_token cfg parser toks num_tokens;
      match a with
      | None => Done (JSMN_ERROR_NOMEM, set_pos parser start, Some toks)
      | Some (parser, toks, token) =>
        do toks <- tok_upd toks token (jsmn_fill_token JSMN_STRING (wrap (start + 1)) (pos parser));
        do (parser, toks) <-
          (if negb (JSMN_PERMISSIVE cfg) then
             do sup <- tok_get toks (toksuper parser);
             do is_key <-
               (if nz (jsmn_is_type sup JSMN_OBJECT) then
                  do prev <- tok_get toks (wrap (toknext parser - 2));
                  Done (nz (jsmn_is_type prev (Z.lor JSMN_OBJECT JSMN_VALUE)))
                else Done false);
             if is_key then
               do toks <- tok_upd toks token (or_type JSMN_KEY);
               Done (set_expected parser JSMN_DELIMITER, toks)
             else
               do toks <- tok_upd toks token (or_type JSMN_VALUE);
               Done (set_expected parser (Z.lor JSMN_DELIMITER JSMN_CLOSE), toks)
           else
             do toks <-
               (if 2 <=? toknext parser then
                  do prev <- tok_get toks (wrap (toknext parser - 2));
                  if nz (jsmn_is_type prev JSMN_KEY)
                  then tok_upd toks token (or_type JSMN_VALUE)
                  else Done toks
                else Done toks);
             Done (set_expected parser
                     (Z.lor (Z.lor JSMN_ANY_TYPE JSMN_DELIMITER) JSMN_CLOSE), toks));
        do toks <-
          (if JSMN_PARENT_LINKS cfg
           then tok_upd toks token (fun t => set_parent t (toksuper parser))
           else Done toks);
        do toks <-
          (if JSMN_NEXT_SIBLING cfg then jsmn_next_sibling fuel parser toks else Done toks);
        Done (JSMN_SUCCESS, parser, Some toks)
      end
    end
  end.

(** ** [jsmn_parse] *)

(** One pass of the body of the [for] of [jsmn_parse]: either [break] out of
    the [switch] (the loop goes on with the next byte) or [return]. *)
Inductive flow :=
| Next (parser : jsmn_parser) (tokens : option (list jsmntok_t)) (count : Z)
| Return (r : jsmn_result) (parser : jsmn_parser) (tokens : option (list jsmntok_t)).

(** [case '{': case '[':] *)
Definition parse_open (fuel : nat) (cfg : config) (parser : jsmn_parser)
    (tokens : option (list jsmntok_t)) (num_tokens : Z) (count : Z) (c : Z) : run flow :=
  let count := wrap (count + 1) in
  match tokens with
  | None => Done (Next parser None count)
  | Some toks =>
    do a <- jsmn_alloc_token cfg parser toks num_tokens;
    match a with
    | None => Done (Return (Err JSMN_ERROR_NOMEM) parser (Some toks))
    | Some (parser, toks, token) =>
      let type := if c =? LBRACE then JSMN_OBJECT else JSMN_ARRAY in
      do toks <- tok_upd toks token (fun t => set_type t type);
      if negb (nz (jsmn_is_expected parser type))
      then Done (Return (Err JSMN_ERROR_INVAL) parser (Some toks))
      else
      do toks <- tok_upd toks token (or_type JSMN_VALUE);
      do t <- tok_get toks token;
      let parser :=
        set_expected parser
          (if negb (JSMN_PERMISSIVE cfg) && nz (jsmn_is_type t JSMN_OBJECT)
           then Z.lor JSMN_STRING JSMN_CLOSE
           else Z.lor JSMN_ANY_TYPE JSMN_CLOSE) in
      do toks <-
        (if toksuper parser =? JSMN_NEG then Done toks
         else
           do toks <- tok_upd toks (toksuper parser) incr_size;
           do toks <-
             (if JSMN_PARENT_LINKS cfg
              then tok_upd toks token (fun t => set_parent t (toksuper parser))
              else Done toks);
           if JSMN_NEXT_SIBLING cfg then jsmn_next_sibling fuel parser toks else Done toks);
      do toks <- tok_upd toks token (fun t => set_start t (pos parser));
      Done (Next (set_toksuper parser (wrap (toknext parser - 1))) (Some toks) count)
    end
  end.

(** The [for (;;)] of the closing bracket with parent links: walk from
    [token] up the parent links to the innermost open token.  [None] is
    [return JSMN_ERROR_INVAL]. *)
Fixpoint close_by_parent (fuel : nat) (parser : jsmn_parser) (tokens : list jsmntok_t)
    (type : Z) (token : Z) : run (option (jsmn_parser * list jsmntok_t)) :=
  match fuel with
  | O => OutOfFuel
  | S fuel' =>
    do t <- tok_get tokens token;
    if is_open t then
      if negb (nz (jsmn_is_type t type)) then Done None
      else
        do tokens <- tok_upd tokens token (fun t => set_end t (wrap (pos parser + 1)));
        Done (Some (set_toksuper parser (tok_parent t), tokens))
    else if tok_parent t =? JSMN_NEG then
      if negb (nz (jsmn_is_type t type)) || (toksuper parser =? JSMN_NEG) then Done None
      else Done (Some (parser, tokens))
    else close_by_parent fuel' parser tokens type (tok_parent t)
  end.

(** [for (i = k - 1; i != JSMN_NEG; i--)] stopping at the first open token:
    its index, or [None] when [i] reached [JSMN_NEG]. *)
Fixpoint find_open (tokens : list jsmntok_t) (k : nat) : run (option Z) :=
  match k with
  | O => Done None
  | S i =>
    do t <- tok_get tokens (Z.of_nat i);
    if is_open t then Done (Some (Z.of_nat i)) else find_open tokens i
  end.

(** The same scan stopping at the first open container (the comma, parent
    links off). *)
Fixpoint find_open_container (tokens : list jsmntok_t) (k : nat) : run (option Z) :=
  match k with
  | O => Done None
  | S i =>
    do t <- tok_get tokens (Z.of_nat i);
    if nz (jsmn_is_type t JSMN_CONTAINER) && is_open t then Done (Some (Z.of_nat i))
    else find_open_container tokens i
  end.

(** The closing bracket without parent links. *)
Definition close_by_scan (parser : jsmn_parser) (tokens : list jsmntok_t) (type : Z)
  : run (option (jsmn_parser * list jsmntok_t)) :=
  do o <- find_open tokens (Z.to_nat (toknext parser));
  match o with
  | None => Done None
  | Some i =>
    do t <- tok_get tokens i;
    if negb (nz (jsmn_is_type t type)) then Done None
    else
      let parser := set_toksuper parser JSMN_NEG in
      do tokens <- tok_upd tokens i (fun t => set_end t (wrap (pos parser + 1)));
      do o <- find_open tokens (S (Z.to_nat i));
      match o with
      | Some j => Done (Some (set_toksuper parser j, tokens))
      | None => Done (Some (parser, tokens))
      end
  end.

(** [case '}': case ']':] *)
Definition parse_close (fuel : nat) (cfg : config) (parser : jsmn_parser)
    (tokens : option (list jsmntok_t)) (count : Z) (c : Z) : run flow :=
  match tokens with
  | None => Done (Next parser None count)
  | Some toks =>
    if negb (nz (jsmn_is_expected parser JSMN_CLOSE))
    then Done (Return (Err JSMN_ERROR_INVAL) parser tokens)
    else
    let type := if c =? RBRACE then JSMN_OBJECT else JSMN_ARRAY in
    do closed <-
      (if JSMN_PARENT_LINKS cfg then
         if toknext parser <? 1 then Done None
         else close_by_parent fuel parser toks type (wrap (toknext parser - 1))
       else close_by_scan parser toks type);
    match closed with
    | None => Done (Return (Err JSMN_ERROR_INVAL) parser tokens)
    | Some (parser, toks) =>
      if toksuper parser =? JSMN_NEG then
        if JSMN_PERMISSIVE cfg then
          do toks <- tok_upd toks (wrap (toknext parser - 1)) (or_type JSMN_VALUE);
          Done (Next (set_expected parser JSMN_ANY_TYPE) (Some toks) count)
        else Done (Next (set_expected parser JSMN_CONTAINER) (Some toks) count)
      else Done (Next (set_expected parser (Z.lor JSMN_DELIMITER JSMN_CLOSE)) (Some toks) count)
    end
  end.

(** [case ':':] *)
Definition parse_colon (cfg : config) (parser : jsmn_parser)
    (tokens : option (list jsmntok_t)) (count : Z) : run flow :=
  if negb (nz (jsmn_is_expected parser JSMN_DELIMITER))
  then Done (Return (Err JSMN_ERROR_INVAL) parser tokens)
  else
  let go_on tokens :=
    Done (Next (set_toksuper (set_expected parser JSMN_ANY_TYPE) (wrap (toknext parser - 1)))
               tokens count) in
  if JSMN_PERMISSIVE cfg then
    match tokens with
    | None => Undef
    | Some toks =>
      do toks <- tok_upd toks (wrap (toknext parser - 1)) (or_type JSMN_KEY);
      go_on (Some toks)
    end
  else
    match tokens with
    | None => go_on None
    | Some toks =>
      if toksuper parser =? JSMN_NEG
      then Done (Return (Err JSMN_ERROR_INVAL) parser tokens)
      else
        do prev <- tok_get toks (wrap (toknext parser - 1));
        if negb (nz (jsmn_is_type prev JSMN_KEY))
        then Done (Return (Err JSMN_ERROR_INVAL) parser tokens)
        else go_on tokens
    end.

(** [case ',':] *)
Definition parse_comma (cfg : config) (parser : jsmn_parser)
    (tokens : option (list jsmntok_t)) (count : Z) : run flow :=
  match tokens with
  | None => Done (Next parser None count)
  | Some toks =>
    if toksuper parser =? JSMN_NEG then Done (Next parser tokens count)
    else if negb (nz (jsmn_is_expected parser JSMN_DELIMITER))
    then Done (Return (Err JSMN_ERROR_INVAL) parser tokens)
    else
    do r <-
      (if JSMN_PERMISSIVE cfg then
         do toks <- tok_upd toks (wrap (toknext parser - 1)) (or_type JSMN_VALUE);
         Done (Some (set_expected parser JSMN_ANY_TYPE, toks))
       else
         do prev <- tok_get toks (wrap (toknext parser - 1));
         if nz (jsmn_is_type prev JSMN_KEY) then Done None
         else
           do sup <- tok_get toks (toksuper parser);
           if nz (jsmn_is_type sup JSMN_OBJECT)
           then Done (Some (set_expected parser JSMN_STRING, toks))
           else Done (Some (set_expected parser JSMN_ANY_TYPE, toks)));
    match r with
    | None => Done (Return (Err JSMN_ERROR_INVAL) parser tokens)
    | Some (parser, toks) =>
      do sup <- tok_get toks (toksuper parser);
      if negb (nz (jsmn_is_type sup JSMN_CONTAINER)) then
        if JSMN_PARENT_LINKS cfg
        then Done (Next (set_toksuper parser (tok_parent sup)) (Some toks) count)
        else
          do o <- find_open_container toks (Z.to_nat (toknext parser));
          match o with
          | Some i => Done (Next (set_toksuper parser i) (Some toks) count)
          | None => Done (Next parser (Some toks) count)
          end
      else Done (Next parser (Some toks) count)
    end
  end.

(** After a string or a primitive was scanned: [return r] on an error,
    otherwise [count++] and the [size++] of the superior token. *)
Definition after_scalar (count : Z)
    (res : jsmnerr * jsmn_parser * option (list jsmntok_t)) : run flow :=
  let '(r, parser, tokens) := res in
  match r with
  | JSMN_SUCCESS =>
    let count := wrap (count + 1) in
    match tokens with
    | Some toks =>
      if toksuper parser =? JSMN_NEG then Done (Next parser tokens count)
      else
        do toks <- tok_upd toks (toksuper parser) incr_size;
        Done (Next parser (Some toks) count)
    | None => Done (Next parser None count)
    end
  | e => Done (Return (Err e) parser tokens)
  end.

Definition is_space (c : Z) : bool :=
  (c =? SPACE) || (c =? TAB) || (c =? LF) || (c =? CR).

(** The [case] labels of the strict dialect that start a primitive:
    minus, the digits, t, f, n. *)
Definition primitive_start (c : Z) : bool :=
  (c =? MINUS) || ((48 <=? c) && (c <=? 57)) || (c =? 116) || (c =? 102) || (c =? 110).

(** The [switch (c)]. *)
Definition jsmn_step (fuel : nat) (cfg : config) (js : list Z) (len : Z) (num_tokens : Z)
    (parser : jsmn_parser) (tokens : option (list jsmntok_t)) (count : Z) (c : Z) : run flow :=
  if (c =? LBRACE) || (c =? LBRACKET) then parse_open fuel cfg parser tokens num_tokens count c
  else if (c =? RBRACE) || (c =? RBRACKET) then parse_close fuel cfg parser tokens count c
  else if c =? QUOTE then
    do res <- jsmn_parse_string fuel cfg parser js len tokens num_tokens;
    after_scalar count res
  else if is_space c then Done (Next parser tokens count)
  else if c =? COLON then parse_colon cfg parser tokens count
  else if c =? COMMA then parse_comma cfg parser tokens count
  else if JSMN_PERMISSIVE cfg || primitive_start c then
    do res <- jsmn_parse_primitive fuel cfg parser js len tokens num_tokens;
    after_scalar count res
  else Done (Return (Err JSMN_ERROR_INVAL) parser tokens).

(** The code after the [for]: a token still open is a truncated document. *)
Definition jsmn_finish (parser : jsmn_parser) (tokens : option (list jsmntok_t)) (count : Z)
  : run (jsmn_result * jsmn_parser * option (list jsmntok_t)) :=
  match tokens with
  | Some toks =>
    do o <- find_open toks (Z.to_nat (toknext parser));
    match o with
    | Some _ => Done (Err JSMN_ERROR_PART, parser, tokens)
    | None => Done (Count count, parser, tokens)
    end
  | None => Done (Count count, parser, tokens)
  end.

(** The [for] of [jsmn_parse]: [n] bounds its passes, [fuel] is handed to
    the loops inside. *)
Fixpoint jsmn_loop (n : nat) (fuel : nat) (cfg : config) (js : list Z) (len : Z)
    (num_tokens : Z) (parser : jsmn_parser) (tokens : option (list jsmntok_t)) (count : Z)
  : run (jsmn_result * jsmn_parser * option (list jsmntok_t)) :=
  match n with
  | O => OutOfFuel
  | S n' =>
    if pos parser <? len then
      do c <- js_at js (pos parser);
      if c =? NUL then jsmn_finish parser tokens count
      else
        do fl <- jsmn_step fuel cfg js len num_tokens parser tokens count c;
        match fl with
        | Next parser tokens count =>
          jsmn_loop n' fuel cfg js len num_tokens
            (set_pos parser (wrap (pos parser + 1))) tokens count
        | Return r parser tokens => Done (r, parser, tokens)
        end
    else jsmn_finish parser tokens count
  end.

Definition jsmn_parse (fuel : nat) (cfg : config) (parser : jsmn_parser)
    (js : list Z) (len : Z) (tokens : option (list jsmntok_t)) (num_tokens : Z)
  : run (jsmn_result * jsmn_parser * option (list jsmntok_t)) :=
  jsmn_loop fuel fuel cfg js len num_tokens parser tokens (toknext parser).

Definition jsmn_init (cfg : config) : jsmn_parser :=
  mk_parser 0 0 JSMN_NEG (if JSMN_PERMISSIVE cfg then JSMN_ANY_TYPE else JSMN_CONTAINER).

(** ** Concrete inputs *)

(** The bytes of a text, an apostrophe standing for the double quote. *)
Definition js_of (s : string) : list Z :=
  map (fun a => let c := Z.of_N (N_of_ascii a) in if c =? 39 then QUOTE else c)
      (list_ascii_of_string s).

Definition len_of (js : list Z) : Z := Z.of_nat (length js).

Definition strict (parent_links next_sibling : bool) : config :=
  mk_config false parent_links next_sibling.
Definition permissive (parent_links next_sibling : bool) : config :=
  mk_config true parent_links next_sibling.

(** An unused slot of the pool. *)
Definition blank : jsmntok_t := mk_tok 0 0 0 0 0 0.


(** ** Notions used by the statements *)

(** [r'] is [r], or [r] ran out of fuel. *)
Definition refines {A : Type} (r r' : run A) : Prop := r = OutOfFuel \/ r' = r.

(** The errors after which the caller may call again. *)
Definition resumable (e : jsmnerr) : Prop :=
  e = JSMN_ERROR_NOMEM \/ e = JSMN_ERROR_PART.

(** The results that depend neither on where a pool of [num1] slots ends nor,
    when the input is cut at [len1] instead of [len2], on where it ends. *)
Definition kept (len1 len2 : Z) (e : jsmnerr) : Prop :=
  e <> JSMN_ERROR_NOMEM /\ (e = JSMN_ERROR_PART -> len1 = len2).

(** What a pass that ran with the shorter input and the smaller pool tells
    about the same pass ([again]) with the longer input and the larger
    pool. *)
Definition flow_resume (len1 len2 : Z) (parser : jsmn_parser)
    (tokens : option (list jsmntok_t)) (fl : flow) (again : run flow) : Prop :=
  match fl with
  | Next _ _ _ => again = Done fl
  | Return (Err e) p t =>
    (resumable e -> p = parser /\ t = tokens) /\ (kept len1 len2 e -> again = Done fl)
  | Return (Count _) _ _ => False
  end.

(** The bytes of [js] from [start] up to [end_] (excluded): the text a token
    spans. *)
Definition slice (js : list Z) (start end_ : Z) : list Z :=
  take (Z.to_nat (end_ - start)) (drop (Z.to_nat start) js).

(** A pool of [n] unused slots. *)
Definition pool (n : nat) : option (list jsmntok_t) := Some (replicate n blank).

(** The state of the [for] of [jsmn_parse] at the head of a pass: the
    parser, the pool and the local [count]. *)
Record iter := mk_iter {
  it_parser : jsmn_parser;
  it_tokens : option (list jsmntok_t);
  it_count : Z }.

(** One pass that ends in [break]: the byte under the cursor is inside the
    input and is not the null terminator, the [switch] goes through, and
    the [pos++] of the loop gives the next state. *)
Definition pass (fuel : nat) (cfg : config) (js : list Z) (len num_tokens : Z)
    (s s' : iter) : Prop :=
  pos (it_parser s) < len /\
  exists c p t n,
    js_at js (pos (it_parser s)) = Done c /\ c <> 0 /\
    jsmn_step fuel cfg js len num_tokens (it_parser s) (it_tokens s) (it_count s) c
      = Done (Next p t n) /\
    s' = mk_iter (set_pos p (wrap (pos p + 1))) t n.

(** The states the loop goes through. *)
Inductive reaches (fuel : nat) (cfg : config) (js : list Z) (len num_tokens : Z)
  : iter -> iter -> Prop :=
| reaches_here s : reaches fuel cfg js len num_tokens s s
| reaches_pass s s' s'' :
    pass fuel cfg js len num_tokens s s' ->
    reaches fuel cfg js len num_tokens s' s'' ->
    reaches fuel cfg js len num_tokens s s''.

(** The state in which [jsmn_parse] enters its loop. *)
Definition entry (parser : jsmn_parser) (tokens : option (list jsmntok_t)) : iter :=
  mk_iter parser tokens (toknext parser).

(** The bytes on which the [switch] of [jsmn_parse] begins a token: an
    opening bracket, a quote, or a byte that is handed to
    [jsmn_parse_primitive]. *)
Definition starts_token (cfg : config) (c : Z) : bool :=
  (c =? LBRACE) || (c =? LBRACKET) || (c =? QUOTE)
  || (negb ((c =? RBRACE) || (c =? RBRACKET) || is_space c || (c =? COLON) || (c =? COMMA))
      && (JSMN_PERMISSIVE cfg || primitive_start c)).

(** A byte the primitive scanner steps over: printable and not one of the
    bytes that end a primitive. *)
Definition primitive_byte (cfg : config) (c : Z) : bool :=
  negb (primitive_end cfg c) && (32 <=? c) && (c <? 127).

(** A byte the primitive scanner refuses: outside 32..126, the null
    terminator and the three white-space bytes below 32 apart. *)
Definition illegal_byte (c : Z) : bool :=
  ((c <? 32) || (127 <=? c))
  && negb ((c =? NUL) || (c =? TAB) || (c =? LF) || (c =? CR)).

(** A byte the string scanner steps over on its own: not the quote, not the
    backslash, not the null terminator. *)
Definition string_byte (c : Z) : bool :=
  negb ((c =? NUL) || (c =? QUOTE) || (c =? BACKSLASH)).

(** The contents of a string the scanner accepts: such bytes, a backslash
    before one of the eight bytes of [simple_escape], and a backslash, the
    byte u and four hex digits. *)
Inductive string_body : list Z -> Prop :=
| body_end : string_body []
| body_byte c b : string_byte c = true -> string_body b -> string_body (c :: b)
| body_escape e b :
    simple_escape e = true -> string_body b -> string_body (BACKSLASH :: e :: b)
| body_unicode h1 h2 h3 h4 b :
    is_hex h1 = true -> is_hex h2 = true -> is_hex h3 = true -> is_hex h4 = true ->
    string_body b -> string_body (BACKSLASH :: 117 :: h1 :: h2 :: h3 :: h4 :: b).

(** White space: bytes the [switch] of [jsmn_parse] skips. *)
Definition spaces (w : list Z) : Prop := Forall (fun c => is_space c = true) w.

(** ** Well-formed documents

    A document of the strict dialect: the abstract syntax, the bytes it is
    written as, and the tokens it stands for when parent links are on
    (sibling links off), for a pool of unused slots.  A primitive and the
    contents of a string are kept as their bytes, and so is the white space:
    around a value ([JPad]), inside an empty container or before a closing
    bracket ([ENil], [MNil]), before a key and between a key and its
    colon ([MCons]). *)

Inductive json :=
| JPrim (s : list Z)
| JStr (s : list Z)
| JArr (l : elems)
| JObj (m : members)
| JPad (w1 : list Z) (v : json) (w2 : list Z)
with elems :=
| ENil (w : list Z)
| ECons (v : json) (l : elems)
with members :=
| MNil (w : list Z)
| MCons (w1 : list Z) (k : list Z) (w2 : list Z) (v : json) (m : members).

Scheme json_mut := Induction for json Sort Prop
  with elems_mut := Induction for elems Sort Prop
  with members_mut := Induction for members Sort Prop.
Combined Scheme json_elems_members_ind from json_mut, elems_mut, members_mut.

(** The bytes of a document; [first] tells whether a comma is due before
    the next element or member. *)
Fixpoint print (v : json) : list Z :=
  match v with
  | JPrim s => s
  | JStr s => QUOTE :: s ++ [QUOTE]
  | JArr l => LBRACKET :: print_elems true l ++ [RBRACKET]
  | JObj m => LBRACE :: print_members true m ++ [RBRACE]
  | JPad w1 v w2 => w1 ++ print v ++ w2
  end
with print_elems (first : bool) (l : elems) : list Z :=
  match l with
  | ENil w => w
  | ECons v l' => (if first then [] else [COMMA]) ++ print v ++ print_elems false l'
  end
with print_members (first : bool) (m : members) : list Z :=
  match m with
  | MNil w => w
  | MCons w1 k w2 v m' =>
    (if first then [] else [COMMA]) ++ w1 ++ (QUOTE :: k ++ [QUOTE]) ++ w2 ++ [COLON]
    ++ print v ++ print_members false m'
  end.

(** The bytes are those of a document of the strict dialect: a primitive
    begins with a minus, a digit, t, f or n and goes on with printable bytes
    that do not end it; a string holds the bytes and escapes of
    [string_body]; white space is made of the four bytes of [is_space]. *)
Fixpoint wf (v : json) : Prop :=
  match v with
  | JPrim s =>
    match s with
    | [] => False
    | c :: _ => primitive_start c = true
    end /\ Forall (fun c => primitive_byte (mk_config false true false) c = true) s
  | JStr s => string_body s
  | JArr l => wf_elems l
  | JObj m => wf_members m
  | JPad w1 v w2 => spaces w1 /\ wf v /\ spaces w2
  end
with wf_elems (l : elems) : Prop :=
  match l with
  | ENil w => spaces w
  | ECons v l' => wf v /\ wf_elems l'
  end
with wf_members (m : members) : Prop :=
  match m with
  | MNil w => spaces w
  | MCons w1 k w2 v m' =>
    spaces w1 /\ string_body k /\ spaces w2 /\ wf v /\ wf_members m'
  end.

(** The number of tokens of a document. *)
Fixpoint ntok (v : json) : nat :=
  match v with
  | JPrim _ | JStr _ => 1
  | JArr l => S (ntok_elems l)
  | JObj m => S (ntok_members m)
  | JPad _ v _ => ntok v
  end
with ntok_elems (l : elems) : nat :=
  match l with
  | ENil _ => 0
  | ECons v l' => ntok v + ntok_elems l'
  end
with ntok_members (m : members) : nat :=
  match m with
  | MNil _ => 0
  | MCons _ _ _ v m' => S (ntok v + ntok_members m')
  end.

Fixpoint count_elems (l : elems) : nat :=
  match l with
  | ENil _ => 0
  | ECons _ l' => S (count_elems l')
  end.

Fixpoint count_members (m : members) : nat :=
  match m with
  | MNil _ => 0
  | MCons _ _ _ _ m' => S (count_members m')
  end.

(** The tokens of a document whose first token has index [n] and parent
    [s] and whose first byte is at [q].  A member's value has the key for
    parent, and the key has size 1. *)
Fixpoint block (v : json) (n : nat) (s : Z) (q : nat) : list jsmntok_t :=
  match v with
  | JPrim b =>
    [mk_tok (Z.lor JSMN_PRIMITIVE JSMN_VALUE) (Z.of_nat q) (Z.of_nat (q + length b)) 0 s 0]
  | JStr b =>
    [mk_tok (Z.lor JSMN_STRING JSMN_VALUE) (Z.of_nat (S q)) (Z.of_nat (S q + length b)) 0 s 0]
  | JArr l =>
    mk_tok (Z.lor JSMN_ARRAY JSMN_VALUE) (Z.of_nat q)
      (Z.of_nat (q + S (length (print_elems true l) + 1))) (Z.of_nat (count_elems l)) s 0
    :: block_elems true l (S n) (Z.of_nat n) (S q)
  | JObj m =>
    mk_tok (Z.lor JSMN_OBJECT JSMN_VALUE) (Z.of_nat q)
      (Z.of_nat (q + S (length (print_members true m) + 1))) (Z.of_nat (count_members m)) s 0
    :: block_members true m (S n) (Z.of_nat n) (S q)
  | JPad w1 v _ => block v n s (q + length w1)
  end
with block_elems (first : bool) (l : elems) (n : nat) (s : Z) (q : nat) : list jsmntok_t :=
  match l with
  | ENil _ => []
  | ECons v l' =>
    let q := if first then q else S q in
    block v n s q ++ block_elems false l' (n + ntok v) s (q + length (print v))
  end
with block_members (first : bool) (m : members) (n : nat) (s : Z) (q : nat)
  : list jsmntok_t :=
  match m with
  | MNil _ => []
  | MCons w1 k w2 v m' =>
    let q := ((if first then q else S q) + length w1)%nat in
    mk_tok (Z.lor JSMN_STRING JSMN_KEY) (Z.of_nat (S q)) (Z.of_nat (S q + length k)) 1 s 0
    :: block v (S n) (Z.of_nat n) (q + length k + 2 + length w2 + 1)
    ++ block_members false m' (S n + ntok v) s
         (q + length k + 2 + length w2 + 1 + length (print v))
  end.

(** The number of containers around each token of a document that lies
    inside [d] containers: its nesting depth. *)
Fixpoint nesting (v : json) (d : nat) : list nat :=
  match v with
  | JPrim _ | JStr _ => [d]
  | JArr l => d :: nesting_elems l (S d)
  | JObj m => d :: nesting_members m (S d)
  | JPad _ v _ => nesting v d
  end
with nesting_elems (l : elems) (d : nat) : list nat :=
  match l with
  | ENil _ => []
  | ECons v l' => nesting v d ++ nesting_elems l' d
  end
with nesting_members (m : members) (d : nat) : list nat :=
  match m with
  | MNil _ => []
  | MCons _ _ _ v m' => d :: nesting v d ++ nesting_members m' d
  end.

(** The number of containers and of keys around each token: a member's
    value lies inside its key. *)
Fixpoint depths (v : json) (d : nat) : list nat :=
  match v with
  | JPrim _ | JStr _ => [d]
  | JArr l => d :: depths_elems l (S d)
  | JObj m => d :: depths_members m (S d)
  | JPad _ v _ => depths v d
  end
with depths_elems (l : elems) (d : nat) : list nat :=
  match l with
  | ENil _ => []
  | ECons v l' => depths v d ++ depths_elems l' d
  end
with depths_members (m : members) (d : nat) : list nat :=
  match m with
  | MNil _ => []
  | MCons _ _ _ v m' => d :: depths v (S d) ++ depths_members m' d
  end.

(** Following the parent links from token [i]: the token reached that has
    no parent, and the number of links followed. *)
Fixpoint parent_walk (fuel : nat) (tokens : list jsmntok_t) (i : Z) : option (Z * nat) :=
  match fuel with
  | O => None
  | S fuel' =>
    match tokens !! Z.to_nat i with
    | None => None
    | Some t =>
      if tok_parent t =? JSMN_NEG then Some (i, O)
      else
        match parent_walk fuel' tokens (tok_parent t) with
        | Some (r, d) => Some (r, S d)
        | None => None
        end
    end
  end.

(** The configuration of that reading: strict dialect, parent links on,
    sibling links off. *)
Definition links : config := mk_config false true false.

(** [size += k] on a token, and on the token of index [s] of a pool; the
    pool is left as it is when [s] is [JSMN_NEG] or [k] is 0. *)
Definition add_size (k : Z) (t : jsmntok_t) : jsmntok_t := set_size t (wrap (tok_size t + k)).

Definition bump (k : Z) (s : Z) (tokens : list jsmntok_t) : list jsmntok_t :=
  if (s =? JSMN_NEG) || (k =? 0) then tokens
  else alter (add_size k) (Z.to_nat s) tokens.

(** The state of the loop with the cursor at [q], [n] tokens allocated, the
    superior token [s], the expected mask [e] and the pool [tokens]. *)
Definition at_state (q n : nat) (s e : Z) (tokens : list jsmntok_t) : iter :=
  mk_iter (mk_parser (Z.of_nat q) (Z.of_nat n) s e) (Some tokens) (Z.of_nat n).

(** The expected mask after a value whose superior token is [s]. *)
Definition after_value (s : Z) : Z :=
  if s =? JSMN_NEG then JSMN_CONTAINER else Z.lor JSMN_DELIMITER JSMN_CLOSE.

(** The category of the first token of a document. *)
Fixpoint category (v : json) : Z :=
  match v with
  | JPrim _ => JSMN_PRIMITIVE
  | JStr _ => JSMN_STRING
  | JArr _ => JSMN_ARRAY
  | JObj _ => JSMN_OBJECT
  | JPad _ v _ => category v
  end.

Fixpoint is_container (v : json) : bool :=
  match v with
  | JArr _ | JObj _ => true
  | JPad _ v _ => is_container v
  | _ => false
  end.

(** The last byte of the document is the last byte of a primitive: the
    scanner of primitives reads the byte after it. *)
Fixpoint ends_bare (v : json) : bool :=
  match v with
  | JPrim _ => true
  | JPad _ v w2 =>
    match w2 with
    | [] => ends_bare v
    | _ => false
    end
  | _ => false
  end.

(** The tokens of a region whose first token has index [g] are closed and
    each has its parent at an index from [lo] on and below its own. *)
Definition well_linked (lo : Z) (g : nat) (region : list jsmntok_t) : Prop :=
  forall j t, region !! j = Some t ->
    is_open t = false /\ lo <= tok_parent t < Z.of_nat (g + j).

(** The type of a token that is a value. *)
Definition value_type (ty : Z) : Prop :=
  ty = Z.lor JSMN_OBJECT JSMN_VALUE \/ ty = Z.lor JSMN_ARRAY JSMN_VALUE \/
  ty = Z.lor JSMN_STRING JSMN_VALUE \/ ty = Z.lor JSMN_PRIMITIVE JSMN_VALUE.

(** What the loop does on the bytes of a value, from the state in which a
    value is expected: [U] holds the tokens allocated so far, [f] slots are
    free, the superior token [s] is none (for the document itself) or a
    token that is no object (an array, or the key of the value).  The loop
    reaches the state after the value, the one the tokens of the value are
    appended in and the size of the superior token is one more. *)
Definition parses_value (js : list Z) (F : nat) (num_tokens : Z) (v : json) : Prop :=
  forall pre suf U f s e,
    js = pre ++ print v ++ suf ->
    wf v ->
    (ends_bare v = true ->
     exists c suf', suf = c :: suf' /\ primitive_end links c = true /\ c <> 0) ->
    nz (Z.land e (category v)) = true ->
    (s = JSMN_NEG /\ is_container v = true) \/
    (exists ts, 0 <= s /\ U !! Z.to_nat s = Some ts /\
                nz (Z.land (tok_type ts) JSMN_OBJECT) = false) ->
    (ntok v <= f)%nat -> Z.of_nat (length U + ntok v) <= num_tokens ->
    reaches F links js (Z.of_nat (length js)) num_tokens
      (at_state (length pre) (length U) s e (U ++ replicate f blank))
      (at_state (length pre + length (print v)) (length U + ntok v) s (after_value s)
         (bump 1 s U ++ block v (length U) s (length pre) ++ replicate (f - ntok v) blank)).

(** The same for the elements of an array whose token has index [n0], up
    to the closing bracket. *)
Definition parses_elems (js : list Z) (F : nat) (num_tokens : Z) (l : elems) : Prop :=
  forall first pre suf U f (n0 : nat) tarr e,
    js = pre ++ print_elems first l ++ RBRACKET :: suf ->
    wf_elems l ->
    U !! n0 = Some tarr ->
    nz (Z.land (tok_type tarr) JSMN_OBJECT) = false ->
    nz (Z.land (tok_type tarr) JSMN_CONTAINER) = true ->
    (exists tl, last U = Some tl /\ value_type (tok_type tl)) ->
    e = (if first then Z.lor JSMN_ANY_TYPE JSMN_CLOSE else Z.lor JSMN_DELIMITER JSMN_CLOSE) ->
    (ntok_elems l <= f)%nat -> Z.of_nat (length U + ntok_elems l) <= num_tokens ->
    exists e',
      nz (Z.land e' JSMN_CLOSE) = true /\
      reaches F links js (Z.of_nat (length js)) num_tokens
        (at_state (length pre) (length U) (Z.of_nat n0) e (U ++ replicate f blank))
        (at_state (length pre + length (print_elems first l)) (length U + ntok_elems l)
           (Z.of_nat n0) e'
           (bump (Z.of_nat (count_elems l)) (Z.of_nat n0) U
            ++ block_elems first l (length U) (Z.of_nat n0) (length pre)
            ++ replicate (f - ntok_elems l) blank)).

(** The same for the members of an object whose token has index [n0], up
    to the closing brace; the superior token is the object before the first
    member and the key of the member before after it. *)
Definition parses_members (js : list Z) (F : nat) (num_tokens : Z) (m : members) : Prop :=
  forall first pre suf U f (n0 : nat) tobj sup e,
    js = pre ++ print_members first m ++ RBRACE :: suf ->
    wf_members m ->
    U !! n0 = Some tobj ->
    nz (Z.land (tok_type tobj) JSMN_OBJECT) = true ->
    (exists tl, last U = Some tl /\ value_type (tok_type tl)) ->
    (if first then sup = Z.of_nat n0 /\ e = Z.lor JSMN_STRING JSMN_CLOSE
     else exists tk, 0 <= sup /\ U !! Z.to_nat sup = Some tk /\
                     tok_type tk = Z.lor JSMN_STRING JSMN_KEY /\
                     tok_parent tk = Z.of_nat n0 /\
                     e = Z.lor JSMN_DELIMITER JSMN_CLOSE) ->
    (ntok_members m <= f)%nat -> Z.of_nat (length U + ntok_members m) <= num_tokens ->
    exists sup' e',
      nz (Z.land e' JSMN_CLOSE) = true /\
      reaches F links js (Z.of_nat (length js)) num_tokens
        (at_state (length pre) (length U) sup e (U ++ replicate f blank))
        (at_state (length pre + length (print_members first m)) (length U + ntok_members m)
           sup' e'
           (bump (Z.of_nat (count_members m)) (Z.of_nat n0) U
            ++ block_members first m (length U) (Z.of_nat n0) (length pre)
            ++ replicate (f - ntok_members m) blank)).

(** ** What the pool tells about a document *)

(** What a reader of the pool takes from a token: its type, the bytes of
    the input it spans, and its size. *)
Definition view (js : list Z) (t : jsmntok_t) : Z * list Z * Z :=
  (tok_type t, slice js (tok_start t) (tok_end t), tok_size t).

(** The tokens a document stands for, as a reader sees them, in the order
    of the input: a container with its brackets and the number of its
    elements or members, a key with size 1 before its value, a string
    without its quotes, a primitive. *)
Fixpoint outline (v : json) : list (Z * list Z * Z) :=
  match v with
  | JPrim b => [(Z.lor JSMN_PRIMITIVE JSMN_VALUE, b, 0)]
  | JStr b => [(Z.lor JSMN_STRING JSMN_VALUE, b, 0)]
  | JArr l =>
    (Z.lor JSMN_ARRAY JSMN_VALUE, print (JArr l), Z.of_nat (count_elems l))
    :: outline_elems l
  | JObj m =>
    (Z.lor JSMN_OBJECT JSMN_VALUE, print (JObj m), Z.of_nat (count_members m))
    :: outline_members m
  | JPad _ v _ => outline v
  end
with outline_elems (l : elems) : list (Z * list Z * Z) :=
  match l with
  | ENil _ => []
  | ECons v l' => outline v ++ outline_elems l'
  end
with outline_members (m : members) : list (Z * list Z * Z) :=
  match m with
  | MNil _ => []
  | MCons _ k _ v m' =>
    (Z.lor JSMN_STRING JSMN_KEY, k, 1) :: outline v ++ outline_members m'
  end.

(** ** The parser inside its pool *)

(** The parent link of the token of index [i] names no token or a token
    before it, and a token that is no container has a parent. *)
Definition link_ok (i : nat) (t : jsmntok_t) : Prop :=
  (tok_parent t = JSMN_NEG \/ 0 <= tok_parent t < Z.of_nat i) /\
  (nz (jsmn_is_type t JSMN_CONTAINER) = false -> tok_parent t <> JSMN_NEG).

Definition linked (toks : list jsmntok_t) (k : Z) : Prop :=
  forall i t, Z.of_nat i < k -> toks !! i = Some t -> link_ok i t.

(** The sibling link of the token of index [i] names no token or a token
    allocated after it, among the first [k]. *)
Definition chain_ok (k : Z) (i : nat) (t : jsmntok_t) : Prop :=
  tok_next_sibling t = JSMN_NEG \/ Z.of_nat i < tok_next_sibling t < k.

Definition chained (toks : list jsmntok_t) (k : Z) : Prop :=
  forall i t, Z.of_nat i < k -> toks !! i = Some t -> chain_ok k i t.

(** What the strict parser keeps between two passes: the allocated tokens
    are in the pool, the superior token is none or one of them, the top
    level expects containers only, with parent links the allocated tokens
    are linked, and with sibling links they are chained. *)
Definition safe (cfg : config) (num_tokens : Z) (parser : jsmn_parser)
    (toks : list jsmntok_t) : Prop :=
  0 <= toknext parser <= num_tokens /\ num_tokens <= Z.of_nat (length toks) /\
  (toksuper parser = JSMN_NEG \/ 0 <= toksuper parser < toknext parser) /\
  (toksuper parser = JSMN_NEG -> expected parser = JSMN_CONTAINER) /\
  (JSMN_PARENT_LINKS cfg = true -> linked toks (toknext parser)) /\
  (JSMN_NEXT_SIBLING cfg = true -> chained toks (toknext parser)).

(** The pool [toks'] is [toks] with changes in the slots below [k] only. *)
Definition same_from (k : Z) (toks toks' : list jsmntok_t) : Prop :=
  length toks' = length toks /\
  forall i : nat, k <= Z.of_nat i -> toks' !! i = toks !! i.

(** The parser and the pool a pass of the loop leaves. *)
Definition flow_state (fl : flow) : jsmn_parser * option (list jsmntok_t) :=
  match fl with
  | Next p t _ => (p, t)
  | Return _ p t => (p, t)
  end.

(** The state [st] reached from [parser] and the pool [toks] is safe again;
    the pool has changed below the new [toknext] only, the cursor has not
    moved back and is still inside the buffer, and [toknext] has not
    decreased. *)
Definition safe_after (cfg : config) (num_tokens len : Z) (parser : jsmn_parser)
    (toks : list jsmntok_t) (st : jsmn_parser * option (list jsmntok_t)) : Prop :=
  exists toks', snd st = Some toks' /\ safe cfg num_tokens (fst st) toks' /\
                same_from (toknext (fst st)) toks toks' /\
                pos parser <= pos (fst st) < len /\
                toknext parser <= toknext (fst st).

(** The two offsets of a token. *)
Definition span (t : jsmntok_t) : Z * Z := (tok_start t, tok_end t).

(** The offsets [se] lie in the first [p] bytes: the start is one of them,
    and the end is [JSMN_NEG] (the token is open) or between the start and
    [p]. *)
Definition span_ok (p : Z) (se : Z * Z) : Prop :=
  0 <= fst se < p /\ (snd se = JSMN_NEG \/ fst se <= snd se <= p).

(** The offsets of the first [k] tokens of the pool lie in the first [p]
    bytes. *)
Definition ranged (p k : Z) (toks : list jsmntok_t) : Prop :=
  forall (i : nat) (t : jsmntok_t),
    Z.of_nat i < k -> toks !! i = Some t -> span_ok p (span t).

(** The same on the list of the offsets. *)
Definition spans_ranged (p k : Z) (S : list (Z * Z)) : Prop :=
  forall (i : nat) (se : Z * Z), Z.of_nat i < k -> S !! i = Some se -> span_ok p se.

(** Documents written one after the other, the number of their tokens, and
    the tokens: each document is a top-level value, its tokens begin at
    the total of the documents before. *)
Fixpoint print_all (vs : list json) : list Z :=
  match vs with
  | [] => []
  | v :: vs' => print v ++ print_all vs'
  end.

Fixpoint ntok_all (vs : list json) : nat :=
  match vs with
  | [] => 0
  | v :: vs' => ntok v + ntok_all vs'
  end.

Fixpoint block_all (vs : list json) (n q : nat) : list jsmntok_t :=
  match vs with
  | [] => []
  | v :: vs' => block v n JSMN_NEG q ++ block_all vs' (n + ntok v) (q + length (print v))
  end.

(** The parent and the size of a token. *)
Definition ps (t : jsmntok_t) : Z * Z := (tok_parent t, tok_size t).

(** The number of the first [k] tokens whose parent is the token [i]. *)
Definition children (toks : list jsmntok_t) (k : nat) (i : Z) : nat :=
  length (filter (fun p => p = i) (take k (tok_parent <$> toks))).

(** The size of each of the first [k] tokens is the number of its
    children among them. *)
Definition sized (toks : list jsmntok_t) (k : Z) : Prop :=
  forall (i : nat) (t : jsmntok_t),
    Z.of_nat i < k -> toks !! i = Some t ->
    tok_size t = Z.of_nat (children toks (Z.to_nat k) (Z.of_nat i)).

(** The parents and sizes [P'] are [P] after the token [k] was added under
    the token [s] ([JSMN_NEG] for none): the new token has the parent [s]
    and the size 0, the size of the token [s] is one more, and the tokens
    before [k] are as they were otherwise. *)
Definition grown (P P' : list (Z * Z)) (k : nat) (s : Z) : Prop :=
  P' !! k = Some (s, 0) /\
  forall i : nat, (i < k)%nat ->
    P' !! i = (if decide (Z.of_nat i = s)
               then (fun pz => (fst pz, wrap (snd pz + 1))) <$> P !! i
               else P !! i).

(** The types the strict dialect gives to its tokens: a container or a
    primitive is a value, a string is a key or a value. *)
Definition strict_type (ty : Z) : Prop :=
  ty = Z.lor JSMN_OBJECT JSMN_VALUE \/ ty = Z.lor JSMN_ARRAY JSMN_VALUE \/
  ty = Z.lor JSMN_STRING JSMN_KEY \/ ty = Z.lor JSMN_STRING JSMN_VALUE \/
  ty = Z.lor JSMN_PRIMITIVE JSMN_VALUE.

(** Each of the first [k] tokens of the pool has such a type. *)
Definition typed (toks : list jsmntok_t) (k : Z) : Prop :=
  forall (i : nat) (t : jsmntok_t),
    Z.of_nat i < k -> toks !! i = Some t -> strict_type (tok_type t).

(** ** Notions used by the amended statements *)

(** The categories the expected mask is made of: the four token types,
    the closing bracket and the delimiter. *)
Definition categories : Z := Z.lor (Z.lor JSMN_ANY_TYPE JSMN_CLOSE) JSMN_DELIMITER.

(** The mask holds at least one category. *)
Definition has_category (e : Z) : Prop := Z.land e categories <> 0.

(** The category the [switch] of [jsmn_parse] tests the expected mask for
    on a byte that is not white space. *)
Definition byte_category (c : Z) : Z :=
  if c =? LBRACE then JSMN_OBJECT
  else if c =? LBRACKET then JSMN_ARRAY
  else if (c =? RBRACE) || (c =? RBRACKET) then JSMN_CLOSE
  else if c =? QUOTE then JSMN_STRING
  else if (c =? COLON) || (c =? COMMA) then JSMN_DELIMITER
  else JSMN_PRIMITIVE.

(** The input ends at the index [e]: [e] is the length handed to
    [jsmn_parse], or the byte at [e] is the null terminator. *)
Definition ends_at (js : list Z) (len : Z) (e : nat) : Prop :=
  len = Z.of_nat e \/ (Z.of_nat e < len /\ js !! e = Some NUL).

(** The escape a string is cut in: none, or a backslash, the byte u and
    fewer than four hex digits. *)
Inductive cut_escape : list Z -> Prop :=
| cut_none : cut_escape []
| cut_unicode hs :
    Forall (fun h => is_hex h = true) hs -> (length hs < 4)%nat ->
    cut_escape (BACKSLASH :: 117 :: hs).

(** The input ends in the string whose opening quote is at the index [q]:
    after the quote come the contents of a string ([string_body]: no
    quote, every escape well formed) and then the end of the input, an
    escape that the end of the input cuts after the byte u or a hex digit,
    or a backslash that is the last byte before [len]. *)
Definition unterminated (js : list Z) (len : Z) (q : nat) : Prop :=
  exists pre body tail rest,
    js = pre ++ QUOTE :: body ++ tail ++ rest /\ length pre = q /\ string_body body /\
    Z.of_nat (q + 1 + length body + length tail) < 2 ^ 32 - 1 /\
    ((cut_escape tail /\ ends_at js len (q + 1 + length body + length tail)) \/
     (tail = [BACKSLASH] /\ len = Z.of_nat (q + 1 + length body + length tail))).

(** The reads of the fix-up of [toksuper] that opens both scanners in the
    permissive dialect with parent links are inside the pool. *)
Definition fixup_in_pool (cfg : config) (parser : jsmn_parser) (toks : list jsmntok_t)
  : Prop :=
  JSMN_PERMISSIVE cfg && JSMN_PARENT_LINKS cfg = true ->
  (2 <=? toknext parser) && nz (jsmn_is_expected parser JSMN_DELIMITER) = true ->
  exists prev,
    toks !! Z.to_nat (wrap (toknext parser - 2)) = Some prev /\
    (nz (jsmn_is_type prev JSMN_KEY) = true ->
     is_Some (toks !! Z.to_nat (toksuper parser))).

(** The bytes the [switch] of [jsmn_parse] hands to
    [jsmn_parse_primitive]: none of the brackets, the quote, white space,
    the colon and the comma, and, in the strict dialect, one of the bytes
    of [primitive_start]. *)
Definition primitive_first (cfg : config) (c : Z) : bool :=
  negb ((c =? LBRACE) || (c =? LBRACKET) || (c =? RBRACE) || (c =? RBRACKET)
        || (c =? QUOTE) || is_space c || (c =? COLON) || (c =? COMMA))
  && (JSMN_PERMISSIVE cfg || primitive_start c).
(** * Properties *)

(** ** More fuel never changes a result *)


Lemma refines_refl {A : Type} (r : run A) : refines r r.
Proof. by right. Qed.

Lemma refines_bind {A B : Type} (m m' : run A) (k k' : A -> run B) :
  refines m m' -> (forall a, refines (k a) (k' a)) -> refines (bind m k) (bind m' k').
Proof.
  intros [-> | ->] Hk; [by left |].
  destruct m as [a | |]; simpl; [apply Hk | by right | by left].
Qed.

Lemma refines_done {A : Type} (r r' : run A) (a : A) :
  refines r r' -> r = Done a -> r' = Done a.
Proof. intros [-> | ->]; congruence. Qed.

Create HintDb fuel.

(** Splits a goal [refines e e'] along the shape that [e] and [e'] share. *)
Ltac fuel_mono :=
  repeat first
    [ apply refines_refl
    | solve [eauto with fuel]
    | apply refines_bind; [| intros ?]
    | match goal with
      | |- refines (if ?b then _ else _) (if ?b then _ else _) => destruct b
      | |- refines (match ?x with _ => _ end) (match ?x with _ => _ end) => destruct x
      | |- refines (let '(_, _) := ?x in _) (let '(_, _) := ?x in _) => destruct x
      end ].

Lemma last_sibling_fuel (fuel fuel' : nat) tokens sibling :
  (fuel <= fuel')%nat ->
  refines (last_sibling fuel tokens sibling) (last_sibling fuel' tokens sibling).
Proof.
  revert fuel' sibling. induction fuel as [| fuel IH]; intros fuel' sibling Hle; [by left |].
  destruct fuel' as [| fuel']; [lia |]. simpl.
  assert (fuel <= fuel')%nat by lia. fuel_mono.
Qed.
#[export] Hint Resolve last_sibling_fuel : fuel.

Lemma jsmn_next_sibling_fuel (fuel fuel' : nat) parser tokens :
  (fuel <= fuel')%nat ->
  refines (jsmn_next_sibling fuel parser tokens) (jsmn_next_sibling fuel' parser tokens).
Proof. intros Hle. unfold jsmn_next_sibling. fuel_mono. Qed.
#[export] Hint Resolve jsmn_next_sibling_fuel : fuel.

Lemma primitive_loop_fuel (fuel fuel' : nat) cfg js len p :
  (fuel <= fuel')%nat ->
  refines (primitive_loop fuel cfg js len p) (primitive_loop fuel' cfg js len p).
Proof.
  revert fuel' p. induction fuel as [| fuel IH]; intros fuel' p Hle; [by left |].
  destruct fuel' as [| fuel']; [lia |]. simpl.
  assert (fuel <= fuel')%nat by lia. fuel_mono.
Qed.
#[export] Hint Resolve primitive_loop_fuel : fuel.

Lemma string_loop_fuel (fuel fuel' : nat) js len p :
  (fuel <= fuel')%nat ->
  refines (string_loop fuel js len p) (string_loop fuel' js len p).
Proof.
  revert fuel' p. induction fuel as [| fuel IH]; intros fuel' p Hle; [by left |].
  destruct fuel' as [| fuel']; [lia |]. cbn [string_loop].
  assert (fuel <= fuel')%nat by lia. fuel_mono.
Qed.
#[export] Hint Resolve string_loop_fuel : fuel.

Lemma close_by_parent_fuel (fuel fuel' : nat) parser tokens type token :
  (fuel <= fuel')%nat ->
  refines (close_by_parent fuel parser tokens type token)
          (close_by_parent fuel' parser tokens type token).
Proof.
  revert fuel' token. induction fuel as [| fuel IH]; intros fuel' token Hle; [by left |].
  destruct fuel' as [| fuel']; [lia |]. simpl.
  assert (fuel <= fuel')%nat by lia. fuel_mono.
Qed.
#[export] Hint Resolve close_by_parent_fuel : fuel.

Lemma jsmn_parse_primitive_fuel (fuel fuel' : nat) cfg parser js len tokens num_tokens :
  (fuel <= fuel')%nat ->
  refines (jsmn_parse_primitive fuel cfg parser js len tokens num_tokens)
          (jsmn_parse_primitive fuel' cfg parser js len tokens num_tokens).
Proof. intros Hle. unfold jsmn_parse_primitive. fuel_mono. Qed.
#[export] Hint Resolve jsmn_parse_primitive_fuel : fuel.

Lemma jsmn_parse_string_fuel (fuel fuel' : nat) cfg parser js len tokens num_tokens :
  (fuel <= fuel')%nat ->
  refines (jsmn_parse_string fuel cfg parser js len tokens num_tokens)
          (jsmn_parse_string fuel' cfg parser js len tokens num_tokens).
Proof. intros Hle. unfold jsmn_parse_string. fuel_mono. Qed.
#[export] Hint Resolve jsmn_parse_string_fuel : fuel.

Lemma jsmn_step_fuel (fuel fuel' : nat) cfg js len num_tokens parser tokens count c :
  (fuel <= fuel')%nat ->
  refines (jsmn_step fuel cfg js len num_tokens parser tokens count c)
          (jsmn_step fuel' cfg js len num_tokens parser tokens count c).
Proof.
  intros Hle. unfold jsmn_step, parse_open, parse_close. fuel_mono.
Qed.
#[export] Hint Resolve jsmn_step_fuel : fuel.

Lemma jsmn_loop_fuel (n n' fuel fuel' : nat) cfg js len num_tokens parser tokens count :
  (n <= n')%nat -> (fuel <= fuel')%nat ->
  refines (jsmn_loop n fuel cfg js len num_tokens parser tokens count)
          (jsmn_loop n' fuel' cfg js len num_tokens parser tokens count).
Proof.
  revert n' parser tokens count.
  induction n as [| n IH]; intros n' parser tokens count Hn Hle; [by left |].
  destruct n' as [| n']; [lia |]. simpl.
  assert (n <= n')%nat by lia. fuel_mono.
Qed.

(** A result obtained with some fuel is the result with any larger fuel. *)
Lemma jsmn_parse_fuel (fuel fuel' : nat) cfg parser js len tokens num_tokens r :
  (fuel <= fuel')%nat ->
  jsmn_parse fuel cfg parser js len tokens num_tokens = Done r ->
  jsmn_parse fuel' cfg parser js len tokens num_tokens = Done r.
Proof.
  intros Hle. apply refines_done. unfold jsmn_parse. by apply jsmn_loop_fuel.
Qed.

(** ** Reading a result back *)

Lemma bind_done {A B : Type} (m : run A) (k : A -> run B) (b : B) :
  bind m k = Done b -> exists a, m = Done a /\ k a = Done b.
Proof. destruct m as [a | |]; simpl; [eauto | discriminate | discriminate]. Qed.

(** Opens every [bind] and every test of a hypothesis [H : _ = Done _]. *)
Ltac run_inv H :=
  repeat
    first
    [ progress cbn beta iota delta [bind] in H
    | match type of H with
     | bind ?m _ = Done _ =>
       let E := fresh "E" in destruct m eqn:E; [| discriminate H | discriminate H]
     | (if ?b then _ else _) = Done _ => let E := fresh "E" in destruct b eqn:E
     | match ?x with _ => _ end = Done _ => let E := fresh "E" in destruct x eqn:E
     | (let '(_, _) := ?x in _) = Done _ => destruct x
     | @Undef _ = Done _ => discriminate H
     | @OutOfFuel _ = Done _ => discriminate H
     end ].

Lemma set_pos_same parser : set_pos parser (pos parser) = parser.
Proof. by destruct parser. Qed.

Lemma set_pos_set_pos parser a b : set_pos (set_pos parser a) b = set_pos parser b.
Proof. done. Qed.

Lemma wrap_range x : 0 <= wrap x < 2 ^ 32.
Proof. unfold wrap. apply Z.mod_pos_bound. lia. Qed.

Lemma wrap_small x : 0 <= x < 2 ^ 32 -> wrap x = x.
Proof. unfold wrap. apply Z.mod_small. Qed.

Lemma wrap_pred_succ x : 0 <= x < 2 ^ 32 -> wrap (wrap (x - 1) + 1) = x.
Proof.
  intros Hx. unfold wrap. rewrite Zplus_mod_idemp_l.
  replace (x - 1 + 1) with x by lia. by apply Z.mod_small.
Qed.

(** Replays in the goal the tests that [run_inv] recorded. *)
Ltac replay :=
  repeat
    first
    [ progress cbn beta iota delta [bind]
    | match goal with
     | E : ?x = true |- context [?x] => rewrite E
     | E : ?x = false |- context [?x] => rewrite E
     | E : ?x = Done _ |- context [?x] => rewrite E
     | E : ?x = Some _ |- context [?x] => rewrite E
     | E : ?x = None |- context [?x] => rewrite E
     end ].

(** [run_inv] on every hypothesis it applies to. *)
Ltac run_inv_all :=
  repeat
    match goal with
    | H : bind _ _ = Done _ |- _ => progress run_inv H
    | H : (if _ then _ else _) = Done _ |- _ => progress run_inv H
    | H : match _ with _ => _ end = Done _ |- _ => progress run_inv H
    | H : @Undef _ = Done _ |- _ => discriminate H
    | H : @OutOfFuel _ = Done _ |- _ => discriminate H
    | H : Done _ = Done _ |- _ => injection H as H; subst
    | H : (_, _) = (_, _) |- _ => injection H as; subst
    | H : Some _ = Some _ |- _ => injection H as H; subst
    end;
  simplify_eq.

(** ** The token count follows [toknext] when a pool is present *)

Lemma jsmn_alloc_token_some cfg parser tokens num_tokens p t i :
  jsmn_alloc_token cfg parser tokens num_tokens = Done (Some (p, t, i)) ->
  p = set_toknext parser (wrap (toknext parser + 1)) /\ i = toknext parser /\
  toknext parser < num_tokens.
Proof.
  unfold jsmn_alloc_token. intros H. run_inv H; simplify_eq. repeat split; lia.
Qed.

Lemma jsmn_alloc_token_none cfg parser tokens num_tokens :
  jsmn_alloc_token cfg parser tokens num_tokens = Done None ->
  num_tokens <= toknext parser.
Proof. unfold jsmn_alloc_token. intros H. run_inv H; simplify_eq. lia. Qed.

Lemma jsmn_parse_string_toknext fuel cfg parser js len toks num_tokens p t :
  jsmn_parse_string fuel cfg parser js len (Some toks) num_tokens = Done (JSMN_SUCCESS, p, t) ->
  toknext p = wrap (toknext parser + 1) /\ exists toks', t = Some toks'.
Proof.
  unfold jsmn_parse_string. intros H. run_inv_all;
    repeat match goal with
           | E : jsmn_alloc_token _ _ _ _ = Done (Some _) |- _ =>
             apply jsmn_alloc_token_some in E as (-> & -> & _)
           end; simpl; eauto.
Qed.

Lemma jsmn_parse_primitive_toknext fuel cfg parser js len toks num_tokens p t :
  jsmn_parse_primitive fuel cfg parser js len (Some toks) num_tokens
    = Done (JSMN_SUCCESS, p, t) ->
  toknext p = wrap (toknext parser + 1) /\ exists toks', t = Some toks'.
Proof.
  unfold jsmn_parse_primitive. intros H. run_inv_all;
    repeat match goal with
           | E : jsmn_alloc_token _ _ _ _ = Done (Some _) |- _ =>
             apply jsmn_alloc_token_some in E as (-> & -> & _)
           end; simpl; eauto.
Qed.

Lemma after_scalar_next count r p t p' t' count' :
  after_scalar count (r, p, t) = Done (Next p' t' count') ->
  r = JSMN_SUCCESS /\ count' = wrap (count + 1) /\ toknext p' = toknext p /\
  (is_Some t -> is_Some t').
Proof.
  unfold after_scalar. intros H. run_inv H; simplify_eq; repeat split; eauto.
Qed.

Lemma set_toksuper_same parser : set_toksuper parser (toksuper parser) = parser.
Proof. by destruct parser. Qed.

Lemma close_by_parent_parser fuel parser tokens type token p t :
  close_by_parent fuel parser tokens type token = Done (Some (p, t)) ->
  exists s, p = set_toksuper parser s.
Proof.
  revert token. induction fuel as [| fuel IH]; intros token H; [done |].
  simpl in H. run_inv H; simplify_eq; eauto.
  exists (toksuper p). by rewrite set_toksuper_same.
Qed.

Lemma close_by_scan_parser parser tokens type p t :
  close_by_scan parser tokens type = Done (Some (p, t)) ->
  exists s, p = set_toksuper parser s.
Proof. unfold close_by_scan. intros H. run_inv H; simplify_eq; eauto. Qed.

Lemma parse_close_next fuel cfg parser tokens count c p t count' :
  parse_close fuel cfg parser tokens count c = Done (Next p t count') ->
  count' = count /\ pos p = pos parser /\ toknext p = toknext parser /\
  (is_Some tokens -> is_Some t).
Proof.
  unfold parse_close. intros H. run_inv_all;
    repeat match goal with
           | E : close_by_parent _ _ _ _ _ = Done (Some _) |- _ =>
             apply close_by_parent_parser in E as [? ->]
           | E : close_by_scan _ _ _ = Done (Some _) |- _ =>
             apply close_by_scan_parser in E as [? ->]
           end; simpl; eauto.
Qed.

Lemma parse_colon_next cfg parser tokens count p t count' :
  parse_colon cfg parser tokens count = Done (Next p t count') ->
  count' = count /\ pos p = pos parser /\ toknext p = toknext parser /\
  (is_Some tokens -> is_Some t).
Proof. unfold parse_colon. intros H. run_inv H; simplify_eq; simpl; eauto. Qed.

Lemma parse_comma_next cfg parser tokens count p t count' :
  parse_comma cfg parser tokens count = Done (Next p t count') ->
  count' = count /\ pos p = pos parser /\ toknext p = toknext parser /\
  (is_Some tokens -> is_Some t).
Proof. unfold parse_comma. intros H. run_inv_all; simpl; eauto 10. Qed.

Lemma jsmn_step_count fuel cfg js len num_tokens parser toks count c p t count' :
  jsmn_step fuel cfg js len num_tokens parser (Some toks) count c = Done (Next p t count') ->
  count = toknext parser ->
  count' = toknext p /\ is_Some t.
Proof.
  unfold jsmn_step. intros H ->.
  destruct ((c =? 123) || (c =? 91)).
  { unfold parse_open in H. run_inv_all.
    all: match goal with
         | E : jsmn_alloc_token _ _ _ _ = Done (Some _) |- _ =>
           apply jsmn_alloc_token_some in E as (-> & -> & _)
         end; simpl; eauto. }
  destruct ((c =? 125) || (c =? 93)).
  { apply parse_close_next in H as (-> & _ & -> & Hs). eauto. }
  destruct (c =? 34).
  { apply bind_done in H as ([[r p'] t'] & Hs & H).
    apply after_scalar_next in H as (-> & -> & -> & Ht).
    apply jsmn_parse_string_toknext in Hs as [-> [toks' ->]]. eauto. }
  destruct (is_space c); [simplify_eq; eauto |].
  destruct (c =? 58).
  { apply parse_colon_next in H as (-> & _ & -> & Hs). eauto. }
  destruct (c =? 44).
  { apply parse_comma_next in H as (-> & _ & -> & Hs). eauto. }
  destruct (JSMN_PERMISSIVE cfg || primitive_start c); [| done].
  apply bind_done in H as ([[r p'] t'] & Hs & H).
  apply after_scalar_next in H as (-> & -> & -> & Ht).
  apply jsmn_parse_primitive_toknext in Hs as [-> [toks' ->]]. eauto.
Qed.

(** ** The passes that can only fail with [JSMN_ERROR_INVAL] *)

Lemma parse_close_inval fuel cfg parser tokens count c r p t :
  parse_close fuel cfg parser tokens count c = Done (Return r p t) ->
  r = Err JSMN_ERROR_INVAL.
Proof. unfold parse_close. intros H. run_inv H; by simplify_eq. Qed.

Lemma parse_colon_inval cfg parser tokens count r p t :
  parse_colon cfg parser tokens count = Done (Return r p t) ->
  r = Err JSMN_ERROR_INVAL.
Proof. unfold parse_colon. intros H. run_inv H; by simplify_eq. Qed.

Lemma parse_comma_inval cfg parser tokens count r p t :
  parse_comma cfg parser tokens count = Done (Return r p t) ->
  r = Err JSMN_ERROR_INVAL.
Proof. unfold parse_comma. intros H. run_inv H; by simplify_eq. Qed.

(** ** A longer input and a larger pool (strict dialect)

  What a pass of the loop did with the input cut at [len1] and a pool of
  [num1] slots, it does again with [len2 >= len1] and [num2 >= num1]
  unless it stopped for lack of slots or of input, and then it left the
  parser and the pool as they were. *)

Section Resume.
Variable cfg : config.
Variable js : list Z.
Variables len1 len2 num1 num2 : Z.
Hypothesis Hstrict : JSMN_PERMISSIVE cfg = false.
Hypothesis Hlen : len1 <= len2.
Hypothesis Hnum : num1 <= num2.

Lemma hex_loop_range n len p q :
  0 <= p < 2 ^ 32 -> hex_loop n js len p = Done (Some q) -> 0 <= q < 2 ^ 32.
Proof.
  revert p. induction n as [| n IH]; intros p Hp H; simpl in H.
  - by simplify_eq.
  - run_inv H; simplify_eq; try done. eapply IH; [| done]. apply wrap_range.
Qed.

Lemma hex_loop_len n p q :
  hex_loop n js len1 p = Done (Some q) ->
  hex_loop n js len2 p = Done (Some q) \/ len1 <= q.
Proof.
  revert p. induction n as [| n IH]; intros p H; simpl in *.
  - by left.
  - destruct (p <? len1) eqn:Hp.
    + assert ((p <? len2) = true) as -> by lia.
      run_inv H; simplify_eq; replay; auto.
    + simplify_eq. right. lia.
Qed.

Lemma hex_loop_len_none n p :
  hex_loop n js len1 p = Done None -> hex_loop n js len2 p = Done None.
Proof.
  revert p. induction n as [| n IH]; intros p H; simpl in *; [done |].
  destruct (p <? len1) eqn:Hp; [| done].
  assert ((p <? len2) = true) as -> by lia.
  run_inv H; simplify_eq; replay; auto.
Qed.

Lemma string_loop_past fuel len p r :
  len <= p -> string_loop fuel js len p = Done r -> r = StrEnd.
Proof.
  intros Hp H. destruct fuel; simpl in H; [done |].
  assert ((p <? len) = false) as Hf by lia. rewrite Hf in H. by simplify_eq.
Qed.

Lemma string_loop_len fuel p r :
  string_loop fuel js len1 p = Done r -> r <> StrEnd ->
  string_loop fuel js len2 p = Done r.
Proof.
  revert p. induction fuel as [| fuel IH]; intros p H Hr; [done |].
  cbn [string_loop] in *.
  destruct (p <? len1) eqn:Hp; [| by simplify_eq].
  assert ((p <? len2) = true) as -> by lia.
  destruct (js_at js p) as [c | |]; [| done..]. cbn [bind] in *.
  destruct (c =? 0); [done |]. destruct (c =? 34); [done |].
  destruct (c =? 92); cbn [andb] in *; [| by apply IH].
  destruct (wrap (p + 1) <? len1) eqn:Hp1;
    [| apply string_loop_past in H; [done | lia]].
  assert ((wrap (p + 1) <? len2) = true) as -> by lia.
  destruct (js_at js (wrap (p + 1))) as [e | |]; [| done..]. cbn [bind] in *.
  destruct (simple_escape e); [by apply IH |].
  destruct (e =? 117); [| done].
  destruct (hex_loop 4 js len1 _) as [[q |] | |] eqn:Hh; [| | done..]; cbn [bind] in *.
  - pose proof (hex_loop_range _ _ _ _ (wrap_range _) Hh) as Hq.
    destruct (hex_loop_len _ _ _ Hh) as [-> | Hpast]; cbn [bind]; [by apply IH |].
    rewrite wrap_pred_succ in H by done.
    by apply string_loop_past in H.
  - by rewrite (hex_loop_len_none _ _ Hh).
Qed.

Lemma primitive_loop_len fuel p r :
  primitive_loop fuel cfg js len1 p = Done r -> (forall q, r <> PrimEnd q) ->
  primitive_loop fuel cfg js len2 p = Done r.
Proof.
  revert p. induction fuel as [| fuel IH]; intros p H Hr; [done |].
  cbn [primitive_loop] in *.
  destruct (p <? len1) eqn:Hp; [| simplify_eq; by destruct (Hr p)].
  assert ((p <? len2) = true) as -> by lia.
  destruct (js_at js p) as [c | |]; [| done..]. cbn [bind] in *.
  destruct (c =? 0); [done |]. destruct (primitive_end cfg c); [done |].
  destruct ((c <? 32) || (127 <=? c)); [done |]. by apply IH.
Qed.

Lemma jsmn_alloc_token_num parser tokens x :
  jsmn_alloc_token cfg parser tokens num1 = Done (Some x) ->
  jsmn_alloc_token cfg parser tokens num2 = Done (Some x).
Proof.
  unfold jsmn_alloc_token. intros H.
  destruct (num1 <=? toknext parser) eqn:Hn; [done |].
  by assert ((num2 <=? toknext parser) = false) as -> by lia.
Qed.

Lemma jsmn_parse_string_resume fuel parser tokens r p t :
  jsmn_parse_string fuel cfg parser js len1 tokens num1 = Done (r, p, t) ->
  (resumable r -> p = parser /\ t = tokens) /\
  (kept len1 len2 r -> jsmn_parse_string fuel cfg parser js len2 tokens num2 = Done (r, p, t)).
Proof.
  unfold jsmn_parse_string, resumable, kept. rewrite Hstrict. cbn [andb negb bind].
  intros H.
  match type of H with (if ?b then _ else _) = _ => destruct b end.
  { simplify_eq. split; [intros [|]; done | done]. }
  destruct (string_loop fuel js len1 _) as [scan | |] eqn:Es; [| done..].
  cbn [bind] in *. destruct scan as [q | |].
  - rewrite (string_loop_len _ _ _ Es) by done. cbn [bind].
    destruct tokens as [toks |]; [| simplify_eq; split; [intros [|]; done | done]].
    destruct (jsmn_alloc_token cfg _ toks num1) as [[[[parser' toks'] token] |] | |] eqn:Ea;
      [| | done..]; cbn [bind] in *.
    + rewrite (jsmn_alloc_token_num _ _ _ Ea). cbn [bind]. split; [| done].
      intros Hres. exfalso. run_inv H; simplify_eq; destruct Hres; done.
    + simplify_eq. rewrite set_pos_set_pos, set_pos_same.
      split; [done | intros [? _]; done].
  - simplify_eq. rewrite set_pos_same. split; [intros [|]; done |].
    intros _. by rewrite (string_loop_len _ _ _ Es).
  - simplify_eq. rewrite set_pos_same. split; [done |].
    intros [_ Heq]. rewrite <- Heq by done. by rewrite Es.
Qed.

Lemma jsmn_parse_primitive_resume fuel parser tokens r p t :
  jsmn_parse_primitive fuel cfg parser js len1 tokens num1 = Done (r, p, t) ->
  (resumable r -> p = parser /\ t = tokens) /\
  (kept len1 len2 r -> jsmn_parse_primitive fuel cfg parser js len2 tokens num2 = Done (r, p, t)).
Proof.
  unfold jsmn_parse_primitive, resumable, kept. rewrite Hstrict. cbn [andb negb bind].
  intros H.
  match type of H with (if ?b then _ else _) = _ => destruct b end.
  { simplify_eq. split; [intros [|]; done | done]. }
  destruct (primitive_loop fuel cfg js len1 _) as [scan | |] eqn:Es; [| done..].
  cbn [bind] in *. destruct scan as [q | | q].
  - rewrite (primitive_loop_len _ _ _ Es) by done. cbn [bind].
    destruct tokens as [toks |]; [| simplify_eq; split; [intros [|]; done | done]].
    destruct (jsmn_alloc_token cfg _ toks num1) as [[[[parser' toks'] token] |] | |] eqn:Ea;
      [| | done..]; cbn [bind] in *.
    + rewrite (jsmn_alloc_token_num _ _ _ Ea). cbn [bind]. split; [| done].
      intros Hres. exfalso. run_inv H; simplify_eq; destruct Hres; done.
    + simplify_eq. rewrite set_pos_set_pos, set_pos_same.
      split; [done | intros [? _]; done].
  - simplify_eq. rewrite set_pos_same. split; [intros [|]; done |].
    intros _. by rewrite (primitive_loop_len _ _ _ Es).
  - simplify_eq. rewrite set_pos_same. split; [done |].
    intros [_ Heq]. rewrite <- Heq by done. by rewrite Es.
Qed.

Lemma flow_resume_inval parser tokens fl :
  (forall r p t, fl = Return r p t -> r = Err JSMN_ERROR_INVAL) ->
  flow_resume len1 len2 parser tokens fl (Done fl).
Proof.
  intros H. destruct fl as [| r p t]; [done |].
  rewrite (H r p t eq_refl). split; [intros [|]; done | done].
Qed.

Lemma after_scalar_resume parser tokens count res (again : run _) fl :
  (let '(r, p, t) := res in
   (resumable r -> p = parser /\ t = tokens) /\ (kept len1 len2 r -> again = Done res)) ->
  after_scalar count res = Done fl ->
  flow_resume len1 len2 parser tokens fl (do res <- again; after_scalar count res).
Proof.
  destruct res as [[r p] t]. intros [Hres Hkept] H.
  destruct r; simpl in H.
  - rewrite Hkept by (split; done). cbn [bind]. simpl.
    run_inv H; simplify_eq; by replay.
  - simplify_eq. simpl. split; [done |]. by intros [].
  - simplify_eq. simpl. split; [intros [|]; done |].
    intros Hk. by rewrite (Hkept Hk).
  - simplify_eq. simpl. split; [done |].
    intros Hk. by rewrite (Hkept Hk).
Qed.

Lemma parse_open_resume fuel parser tokens count c fl :
  parse_open fuel cfg parser tokens num1 count c = Done fl ->
  flow_resume len1 len2 parser tokens fl (parse_open fuel cfg parser tokens num2 count c).
Proof.
  unfold parse_open. intros H.
  destruct tokens as [toks |]; [| by simplify_eq].
  destruct (jsmn_alloc_token cfg _ toks num1) as [[[[parser' toks'] token] |] | |] eqn:Ea;
    [| | done..]; cbn [bind] in *.
  - rewrite (jsmn_alloc_token_num _ _ _ Ea). cbn [bind]. rewrite H.
    apply flow_resume_inval. intros r p t ->.
    run_inv H; by simplify_eq.
  - simplify_eq. split; [done | by intros []].
Qed.


Lemma jsmn_step_resume fuel parser tokens count c fl :
  jsmn_step fuel cfg js len1 num1 parser tokens count c = Done fl ->
  flow_resume len1 len2 parser tokens fl (jsmn_step fuel cfg js len2 num2 parser tokens count c).
Proof.
  unfold jsmn_step. rewrite Hstrict. cbn [orb]. intros H.
  destruct ((c =? 123) || (c =? 91)); [by apply parse_open_resume |].
  destruct ((c =? 125) || (c =? 93)).
  { rewrite H. apply flow_resume_inval. intros r p t ->.
    by eapply parse_close_inval. }
  destruct (c =? 34).
  { apply bind_done in H as ([[r p] t] & Hs & H).
    eapply after_scalar_resume; [| done]. by apply jsmn_parse_string_resume. }
  destruct (is_space c); [by simplify_eq |].
  destruct (c =? 58).
  { rewrite H. apply flow_resume_inval. intros r p t ->.
    by eapply parse_colon_inval. }
  destruct (c =? 44).
  { rewrite H. apply flow_resume_inval. intros r p t ->.
    by eapply parse_comma_inval. }
  destruct (primitive_start c).
  { apply bind_done in H as ([[r p] t] & Hs & H).
    eapply after_scalar_resume; [| done]. by apply jsmn_parse_primitive_resume. }
  simplify_eq. split; [intros [|]; done | done].
Qed.

(** With the same input length, every result but lack of slots is kept. *)
Lemma jsmn_loop_kept n fuel parser tokens count r p t :
  len1 = len2 ->
  jsmn_loop n fuel cfg js len1 num1 parser tokens count = Done (r, p, t) ->
  r <> Err JSMN_ERROR_NOMEM ->
  jsmn_loop n fuel cfg js len2 num2 parser tokens count = Done (r, p, t).
Proof.
  intros Heq. revert parser tokens count.
  induction n as [| n IH]; intros parser tokens count H Hr; [done |].
  cbn [jsmn_loop] in *.
  assert ((pos parser <? len2) = (pos parser <? len1)) as -> by (by rewrite Heq).
  destruct (pos parser <? len1); [| done].
  destruct (js_at js (pos parser)) as [c | |]; [| done..]. cbn [bind] in *.
  destruct (c =? 0); [done |].
  apply bind_done in H as (fl & Hs & H).
  apply jsmn_step_resume in Hs.
  destruct fl as [p' t' c' | [k | e] p' t']; simpl in Hs.
  - rewrite Hs. cbn [bind]. by apply IH.
  - done.
  - destruct Hs as [_ Hk]. rewrite Hk; [done |]. split; [congruence | done].
Qed.

(** A run that stopped for lack of slots or of input is continued by the
    next call as the single run over the longer input and the larger pool
    would have gone on. *)
Lemma jsmn_loop_resume n1 fuel1 parser toks count e p1 t1 :
  jsmn_loop n1 fuel1 cfg js len1 num1 parser (Some toks) count = Done (Err e, p1, t1) ->
  resumable e -> count = toknext parser ->
  forall n fuel R,
    jsmn_loop n fuel cfg js len2 num2 p1 t1 (toknext p1) = Done R ->
    jsmn_loop (n1 + n) (fuel1 + fuel) cfg js len2 num2 parser (Some toks) count = Done R.
Proof.
  revert parser toks count.
  induction n1 as [| n1 IH]; intros parser toks count H He Hc n fuel R HR; [done |].
  assert (p1 = parser /\ t1 = Some toks ->
          jsmn_loop (S n1 + n) (fuel1 + fuel) cfg js len2 num2 parser (Some toks) count
          = Done R) as Hsame.
  { intros [-> ->]. rewrite Hc. eapply refines_done; [| exact HR].
    apply jsmn_loop_fuel; lia. }
  cbn [jsmn_loop] in H.
  assert (jsmn_finish parser (Some toks) count = Done (Err e, p1, t1) ->
          p1 = parser /\ t1 = Some toks) as Hfin.
  { unfold jsmn_finish. intros Hf. run_inv Hf; by simplify_eq. }
  destruct (pos parser <? len1) eqn:Hp; [| by eauto].
  destruct (js_at js (pos parser)) as [c | |] eqn:Hc0; [| done..]. cbn [bind] in H.
  destruct (c =? 0) eqn:Hnul; [by eauto |].
  apply bind_done in H as (fl & Hs & H).
  pose proof (jsmn_step_resume _ _ _ _ _ _ Hs) as Hs2.
  destruct fl as [p' t' c' | [k | e'] p' t']; simpl in Hs2.
  - destruct (jsmn_step_count _ _ _ _ _ _ _ _ _ _ _ _ Hs Hc) as [-> [toks' ->]].
    change (S n1 + n)%nat with (S (n1 + n)). cbn [jsmn_loop].
    assert ((pos parser <? len2) = true) as -> by lia.
    rewrite Hc0. cbn [bind]. rewrite Hnul.
    assert (jsmn_step (fuel1 + fuel) cfg js len2 num2 parser (Some toks) count c
            = Done (Next p' (Some toks') (toknext p'))) as ->.
    { eapply refines_done; [| exact Hs2]. apply jsmn_step_fuel. lia. }
    cbn [bind]. by eapply IH.
  - done.
  - simplify_eq. apply Hsame. by apply Hs2.
Qed.

(** Conversely the next call returns what the single run returns. *)
Lemma jsmn_loop_resume_conv n1 fuel1 parser toks count e p1 t1 :
  jsmn_loop n1 fuel1 cfg js len1 num1 parser (Some toks) count = Done (Err e, p1, t1) ->
  resumable e -> count = toknext parser ->
  forall n fuel R,
    jsmn_loop n fuel cfg js len2 num2 parser (Some toks) count = Done R ->
    jsmn_loop n fuel cfg js len2 num2 p1 t1 (toknext p1) = Done R.
Proof.
  revert parser toks count.
  induction n1 as [| n1 IH]; intros parser toks count H He Hc n fuel R HR; [done |].
  assert (p1 = parser /\ t1 = Some toks ->
          jsmn_loop n fuel cfg js len2 num2 p1 t1 (toknext p1) = Done R) as Hsame.
  { intros [-> ->]. by rewrite <- Hc. }
  cbn [jsmn_loop] in H.
  assert (jsmn_finish parser (Some toks) count = Done (Err e, p1, t1) ->
          p1 = parser /\ t1 = Some toks) as Hfin.
  { unfold jsmn_finish. intros Hf. run_inv Hf; by simplify_eq. }
  destruct (pos parser <? len1) eqn:Hp; [| by eauto].
  destruct (js_at js (pos parser)) as [c | |] eqn:Hc0; [| done..]. cbn [bind] in H.
  destruct (c =? 0) eqn:Hnul; [by eauto |].
  apply bind_done in H as (fl & Hs & H).
  pose proof (jsmn_step_resume _ _ _ _ _ _ Hs) as Hs2.
  destruct fl as [p' t' c' | [k | e'] p' t']; simpl in Hs2.
  - destruct (jsmn_step_count _ _ _ _ _ _ _ _ _ _ _ _ Hs Hc) as [-> [toks' ->]].
    destruct n as [| n]; [done |]. cbn [jsmn_loop] in HR.
    assert ((pos parser <? len2) = true) as Hp2 by lia.
    rewrite Hp2, Hc0 in HR. cbn [bind] in HR. rewrite Hnul in HR.
    apply bind_done in HR as (fl2 & Hs3 & HR).
    assert (fl2 = Next p' (Some toks') (toknext p')) as ->.
    { destruct (Nat.le_ge_cases fuel fuel1) as [Hf | Hf].
      - pose proof (refines_done _ _ _ (jsmn_step_fuel _ _ cfg js len2 num2 parser
                      (Some toks) count c Hf) Hs3). congruence.
      - pose proof (refines_done _ _ _ (jsmn_step_fuel _ _ cfg js len2 num2 parser
                      (Some toks) count c Hf) Hs2). congruence. }
    eapply refines_done; [| eapply IH; [exact H | done | done | exact HR]].
    apply jsmn_loop_fuel; lia.
  - done.
  - simplify_eq. apply Hsame. by apply Hs2.
Qed.
End Resume.

(** ** The document [{"a":1}] *)

Lemma parse_object_exact (pl ns : bool) (t0 t1 t2 : jsmntok_t) (rest : list jsmntok_t) :
  exists parser o ky v,
    jsmn_parse 8 (strict pl ns) (jsmn_init (strict pl ns)) (js_of "{'a':1}") 7
      (Some (t0 :: t1 :: t2 :: rest)) 3
    = Done (Count 3, parser, Some (o :: ky :: v :: rest)) /\
    toknext parser = 3 /\
    tok_type o = Z.lor JSMN_OBJECT JSMN_VALUE /\ tok_size o = 1 /\
    tok_type ky = Z.lor JSMN_STRING JSMN_KEY /\
    slice (js_of "{'a':1}") (tok_start ky) (tok_end ky) = [97] /\
    tok_type v = Z.lor JSMN_PRIMITIVE JSMN_VALUE /\
    slice (js_of "{'a':1}") (tok_start v) (tok_end v) = [49].
Proof.
  destruct pl, ns; vm_compute; do 4 eexists; repeat split; reflexivity.
Qed.

(** C1. In the strict dialect, parsing [{"a":1}] with a fresh parser and a
    pool of at least three slots returns 3; the pool then holds an OBJECT
    token of size 1, a STRING token with the KEY role that spans the byte
    [a], and a PRIMITIVE token with the VALUE role that spans the byte [1];
    the slots after the third are untouched. *)
Theorem parse_object_a_1 (k : nat) (pl ns : bool) (t0 t1 t2 : jsmntok_t)
    (rest : list jsmntok_t) (num_tokens : Z) :
  3 <= num_tokens ->
  exists parser o ky v,
    jsmn_parse (8 + k) (strict pl ns) (jsmn_init (strict pl ns)) (js_of "{'a':1}") 7
      (Some (t0 :: t1 :: t2 :: rest)) num_tokens
    = Done (Count 3, parser, Some (o :: ky :: v :: rest)) /\
    toknext parser = 3 /\
    tok_type o = Z.lor JSMN_OBJECT JSMN_VALUE /\ tok_size o = 1 /\
    tok_type ky = Z.lor JSMN_STRING JSMN_KEY /\
    slice (js_of "{'a':1}") (tok_start ky) (tok_end ky) = [97] /\
    tok_type v = Z.lor JSMN_PRIMITIVE JSMN_VALUE /\
    slice (js_of "{'a':1}") (tok_start v) (tok_end v) = [49].
Proof.
  intros Hnum.
  destruct (parse_object_exact pl ns t0 t1 t2 rest) as (parser & o & ky & v & H & Hrest).
  exists parser, o, ky, v. split; [| exact Hrest].
  apply (jsmn_parse_fuel 8); [lia |].
  unfold jsmn_parse in *.
  eapply (jsmn_loop_kept _ _ 7 7 3 num_tokens); [done | lia | lia | done | exact H | done].
Qed.

Lemma parse_object_a_1_witness :
  3 <= 5 /\
  exists parser o ky v,
    jsmn_parse (8 + 0) (strict true false) (jsmn_init (strict true false))
      (js_of "{'a':1}") 7 (Some (blank :: blank :: blank :: [blank; blank])) 5
    = Done (Count 3, parser, Some (o :: ky :: v :: [blank; blank])) /\
    toknext parser = 3 /\
    tok_type o = Z.lor JSMN_OBJECT JSMN_VALUE /\ tok_size o = 1 /\
    tok_type ky = Z.lor JSMN_STRING JSMN_KEY /\
    slice (js_of "{'a':1}") (tok_start ky) (tok_end ky) = [97] /\
    tok_type v = Z.lor JSMN_PRIMITIVE JSMN_VALUE /\
    slice (js_of "{'a':1}") (tok_start v) (tok_end v) = [49].
Proof.
  split; [lia |].
  apply (parse_object_a_1 0 true false blank blank blank [blank; blank] 5). lia.
Defined.

(** C2. A run without a pool over [{"a":1}] does not return 3: at the colon
    [jsmn_parse] tests [expected] for [JSMN_DELIMITER] although no pass of a
    run without a pool ever updates [expected], and returns
    [JSMN_ERROR_INVAL] with the cursor on the colon, in both dialects. *)
Theorem dry_run_object_inval (k : nat) (d pl ns : bool) (num_tokens : Z) :
  jsmn_parse (8 + k) (mk_config d pl ns) (jsmn_init (mk_config d pl ns))
    (js_of "{'a':1}") 7 None num_tokens
  = Done (Err JSMN_ERROR_INVAL, set_pos (jsmn_init (mk_config d pl ns)) 4, None)
  /\ as_jsmnint (Err JSMN_ERROR_INVAL) = 4294967294.
Proof. split; [| reflexivity]. destruct d, pl, ns; vm_compute; reflexivity. Qed.

(** C3. After the comma of [{"a":1,] the expected mask is [JSMN_ANY_TYPE],
    not [JSMN_STRING]: the comma tests the type of [tokens[toksuper]] while
    [toksuper] still names the key, and only then moves [toksuper] back to
    the object.  So [{"a":1,2}] is accepted with four tokens.  After the
    comma of [[1,] the mask is [JSMN_ANY_TYPE], as the claim says. *)
Theorem comma_in_object_expects_any (k : nat) (pl ns : bool) :
  (exists parser tokens,
     jsmn_parse (8 + k) (strict pl ns) (jsmn_init (strict pl ns)) (js_of "{'a':1,") 7
       (pool 3) 3
     = Done (Err JSMN_ERROR_PART, parser, tokens) /\
     pos parser = 7 /\ toksuper parser = 0 /\ expected parser = JSMN_ANY_TYPE) /\
  (exists parser tokens,
     jsmn_parse (10 + k) (strict pl ns) (jsmn_init (strict pl ns)) (js_of "{'a':1,2}") 9
       (pool 4) 4
     = Done (Count 4, parser, tokens)) /\
  (exists parser tokens,
     jsmn_parse (8 + k) (strict pl ns) (jsmn_init (strict pl ns)) (js_of "[1,") 3
       (pool 2) 2
     = Done (Err JSMN_ERROR_PART, parser, tokens) /\
     pos parser = 3 /\ toksuper parser = 0 /\ expected parser = JSMN_ANY_TYPE).
Proof.
  destruct pl, ns; vm_compute; repeat split; do 2 eexists; repeat split; reflexivity.
Qed.

(** C10. On an empty input, which is one of length 0 or one whose first
    byte is the null terminator, [jsmn_parse] on a fresh parser returns 0,
    with or without a pool and in both dialects, and changes nothing. *)
Theorem parse_empty_input (k : nat) (cfg : config) (js : list Z) (len : Z)
    (tokens : option (list jsmntok_t)) (num_tokens : Z) :
  jsmn_parse (S k) cfg (jsmn_init cfg) js 0 tokens num_tokens
  = Done (Count 0, jsmn_init cfg, tokens) /\
  jsmn_parse (S k) cfg (jsmn_init cfg) (0 :: js) len tokens num_tokens
  = Done (Count 0, jsmn_init cfg, tokens).
Proof.
  unfold jsmn_parse. simpl. split.
  - by destruct tokens.
  - destruct (0 <? len); by destruct tokens.
Qed.

(** ** Calling again after a stop *)

(** In the permissive dialect a primitive cut by the end of the input is a
    complete token: [[12]] cut after [[1] and parsed again from the retained
    state is rejected, while one run over [[12]] finds two tokens. *)
Lemma resume_differs_permissive :
  exists p1 t1 p2 t2 p t,
    jsmn_parse 10 (permissive false false) (jsmn_init (permissive false false))
      (js_of "[12]") 2 (pool 3) 3 = Done (Err JSMN_ERROR_PART, p1, t1) /\
    jsmn_parse 10 (permissive false false) p1 (js_of "[12]") 4 t1 3
      = Done (Err JSMN_ERROR_INVAL, p2, t2) /\
    jsmn_parse 10 (permissive false false) (jsmn_init (permissive false false))
      (js_of "[12]") 4 (pool 3) 3 = Done (Count 2, p, t).
Proof.
  do 6 eexists.
  split; [vm_compute; reflexivity |]. split; vm_compute; reflexivity.
Qed.

(** C5 (amended). In the strict dialect and with a pool: when [jsmn_parse]
    on the first [len1] bytes and [num1] slots stops with
    [JSMN_ERROR_NOMEM] or [JSMN_ERROR_PART], calling it again with the
    retained parser and pool, [len2 >= len1] bytes of the same buffer and
    [num2 >= num1] slots returns what a single call over the [len2] bytes
    with [num2] slots returns from the start: the same result, parser and
    tokens, each way. *)
Theorem resume_equals_single_pass (cfg : config) (js : list Z) (len1 len2 num1 num2 : Z)
    (fuel1 : nat) (parser : jsmn_parser) (toks : list jsmntok_t)
    (e : jsmnerr) (p1 : jsmn_parser) (t1 : option (list jsmntok_t)) :
  JSMN_PERMISSIVE cfg = false ->
  len1 <= len2 -> num1 <= num2 ->
  jsmn_parse fuel1 cfg parser js len1 (Some toks) num1 = Done (Err e, p1, t1) ->
  resumable e ->
  (forall fuel R,
     jsmn_parse fuel cfg p1 js len2 t1 num2 = Done R ->
     jsmn_parse (fuel1 + fuel) cfg parser js len2 (Some toks) num2 = Done R) /\
  (forall fuel R,
     jsmn_parse fuel cfg parser js len2 (Some toks) num2 = Done R ->
     jsmn_parse fuel cfg p1 js len2 t1 num2 = Done R).
Proof.
  unfold jsmn_parse. intros Hstrict Hlen Hnum H He. split; intros fuel R HR.
  - by eapply jsmn_loop_resume.
  - by eapply jsmn_loop_resume_conv.
Qed.

Lemma resume_equals_single_pass_witness :
  exists p1 t1 R,
    jsmn_parse 10 (strict true false) (jsmn_init (strict true false))
      (js_of "{'a':1}") 5 (pool 3) 2 = Done (Err JSMN_ERROR_PART, p1, t1) /\
    jsmn_parse 10 (strict true false) p1 (js_of "{'a':1}") 7 t1 3 = Done R /\
    jsmn_parse (10 + 10) (strict true false) (jsmn_init (strict true false))
      (js_of "{'a':1}") 7 (pool 3) 3 = Done R /\
    fst (fst R) = Count 3.
Proof.
  eexists _, _, _. split; [vm_compute; reflexivity |].
  split; [vm_compute; reflexivity |]. split; [| reflexivity].
  refine (proj1 (resume_equals_single_pass (strict true false) (js_of "{'a':1}") 5 7 2 3 10%nat
            (jsmn_init (strict true false)) (replicate 3 blank) JSMN_ERROR_PART _ _
            eq_refl _ _ _ _) 10%nat _ _).
  - lia.
  - lia.
  - vm_compute. reflexivity.
  - by right.
  - vm_compute. reflexivity.
Defined.

(** ** The loop and its states *)

Lemma reaches_trans fuel cfg js len num_tokens s s' s'' :
  reaches fuel cfg js len num_tokens s s' ->
  reaches fuel cfg js len num_tokens s' s'' ->
  reaches fuel cfg js len num_tokens s s''.
Proof.
  induction 1 as [| s1 s2 s3 Hp _ IH]; [done |].
  intros H. eapply reaches_pass; [exact Hp | by apply IH].
Qed.

(** The loop started in a state runs as the loop started in any state it
    goes through, some passes later. *)
Lemma reaches_loop fuel cfg js len num_tokens s s' :
  reaches fuel cfg js len num_tokens s s' ->
  exists n, forall m R,
    jsmn_loop m fuel cfg js len num_tokens (it_parser s') (it_tokens s') (it_count s')
      = Done R ->
    jsmn_loop (n + m) fuel cfg js len num_tokens (it_parser s) (it_tokens s) (it_count s)
      = Done R.
Proof.
  induction 1 as [s | s s' s'' (Hlt & c & p & t & k & Hc & Hnz & Hstep & ->) _ [n IH]].
  - by exists 0%nat.
  - exists (S n). intros m R HR. cbn [Nat.add jsmn_loop].
    assert ((pos (it_parser s) <? len) = true) as -> by lia.
    rewrite Hc. cbn [bind].
    assert ((c =? 0) = false) as -> by lia.
    rewrite Hstep. cbn [bind]. by apply IH.
Qed.

(** ** Lack of slots *)

Lemma jsmn_parse_string_nomem fuel cfg parser js len tokens num_tokens p t :
  jsmn_parse_string fuel cfg parser js len tokens num_tokens
    = Done (JSMN_ERROR_NOMEM, p, t) ->
  pos p = pos parser /\ toknext p = toknext parser /\ t = tokens /\
  num_tokens <= toknext parser.
Proof.
  unfold jsmn_parse_string. intros H. run_inv_all;
    match goal with
    | E : jsmn_alloc_token _ _ _ _ = Done None |- _ => apply jsmn_alloc_token_none in E
    end; simpl in *; done.
Qed.

Lemma jsmn_parse_primitive_nomem fuel cfg parser js len tokens num_tokens p t :
  jsmn_parse_primitive fuel cfg parser js len tokens num_tokens
    = Done (JSMN_ERROR_NOMEM, p, t) ->
  pos p = pos parser /\ toknext p = toknext parser /\ t = tokens /\
  num_tokens <= toknext parser.
Proof.
  unfold jsmn_parse_primitive. intros H. run_inv_all;
    match goal with
    | E : jsmn_alloc_token _ _ _ _ = Done None |- _ => apply jsmn_alloc_token_none in E
    end; simpl in *; done.
Qed.

Lemma after_scalar_return count r p t r' p' t' :
  after_scalar count (r, p, t) = Done (Return r' p' t') ->
  r' = Err r /\ p' = p /\ t' = t.
Proof. unfold after_scalar. intros H. run_inv H; by simplify_eq. Qed.

Lemma jsmn_step_nomem fuel cfg js len num_tokens parser tokens count c p t :
  jsmn_step fuel cfg js len num_tokens parser tokens count c
    = Done (Return (Err JSMN_ERROR_NOMEM) p t) ->
  starts_token cfg c = true /\
  pos p = pos parser /\ toknext p = toknext parser /\ t = tokens /\
  num_tokens <= toknext parser.
Proof.
  unfold jsmn_step, starts_token. intros H.
  destruct ((c =? 123) || (c =? 91)) eqn:Hopen.
  { split; [done |]. unfold parse_open in H. run_inv_all.
    match goal with
    | E : jsmn_alloc_token _ _ _ _ = Done None |- _ => apply jsmn_alloc_token_none in E
    end. done. }
  destruct ((c =? 125) || (c =? 93)) eqn:Hclose.
  { by apply parse_close_inval in H. }
  destruct (c =? 34) eqn:Hquote.
  { split; [done |].
    apply bind_done in H as ([[r p'] t'] & Hs & H).
    apply after_scalar_return in H as (? & -> & ->). simplify_eq.
    by eapply jsmn_parse_string_nomem. }
  destruct (is_space c) eqn:Hspace; [done |].
  destruct (c =? 58) eqn:Hcolon.
  { by apply parse_colon_inval in H. }
  destruct (c =? 44) eqn:Hcomma.
  { by apply parse_comma_inval in H. }
  destruct (JSMN_PERMISSIVE cfg || primitive_start c) eqn:Hprim; [| done].
  split; [done |].
  apply bind_done in H as ([[r p'] t'] & Hs & H).
  apply after_scalar_return in H as (? & -> & ->). simplify_eq.
  by eapply jsmn_parse_primitive_nomem.
Qed.

Lemma jsmn_loop_nomem n fuel cfg js len num_tokens s p t :
  jsmn_loop n fuel cfg js len num_tokens (it_parser s) (it_tokens s) (it_count s)
    = Done (Err JSMN_ERROR_NOMEM, p, t) ->
  exists s' c,
    reaches fuel cfg js len num_tokens s s' /\
    pos (it_parser s') < len /\ js_at js (pos (it_parser s')) = Done c /\
    starts_token cfg c = true /\
    pos p = pos (it_parser s') /\ toknext p = toknext (it_parser s') /\
    t = it_tokens s' /\ num_tokens <= toknext p.
Proof.
  revert s. induction n as [| n IH]; intros [parser tokens count] H; [done |].
  cbn [jsmn_loop it_parser it_tokens it_count] in H.
  assert (jsmn_finish parser tokens count <> Done (Err JSMN_ERROR_NOMEM, p, t)) as Hfin.
  { unfold jsmn_finish. intros Hf. run_inv Hf; by simplify_eq. }
  destruct (pos parser <? len) eqn:Hlt; [| done].
  destruct (js_at js (pos parser)) as [c | |] eqn:Hc; [| done..]. cbn [bind] in H.
  destruct (c =? 0) eqn:Hnul; [done |].
  apply bind_done in H as (fl & Hs & H). destruct fl as [p' t' c' | r p' t'].
  - destruct (IH (mk_iter (set_pos p' (wrap (pos p' + 1))) t' c') H)
      as (s' & c0 & Hreach & Hrest).
    exists s', c0. split; [| exact Hrest].
    eapply reaches_pass; [| exact Hreach].
    split; [simpl; lia |]. exists c, p', t', c'. simpl. repeat split; try done. lia.
  - simplify_eq. apply jsmn_step_nomem in Hs as (Hst & Hp & Ht & -> & Hn).
    exists (mk_iter parser tokens count), c. simpl.
    repeat split; try done; try lia. apply reaches_here.
Qed.

(** ** The expected mask *)

Lemma lor_any_type_nonzero x : Z.lor x JSMN_ANY_TYPE <> 0.
Proof. rewrite Z.lor_eq_0_iff. by intros [_ ?]. Qed.

(** Closes the goals [expected p <> 0] left by an inversion: [p] is the
    parser the pass started with, or one whose mask was assigned. *)
Ltac mask_nonzero :=
  simpl in *; try done; try apply lor_any_type_nonzero;
  try (by repeat match goal with |- context [if ?b then _ else _] => destruct b end).

Lemma jsmn_parse_string_expected fuel cfg parser js len tokens num_tokens r p t :
  expected parser <> 0 ->
  jsmn_parse_string fuel cfg parser js len tokens num_tokens = Done (r, p, t) ->
  expected p <> 0.
Proof.
  unfold jsmn_parse_string. intros Hne H. run_inv_all;
    repeat match goal with
           | E : jsmn_alloc_token _ _ _ _ = Done (Some _) |- _ =>
             apply jsmn_alloc_token_some in E as (-> & -> & _)
           end; mask_nonzero.
Qed.

Lemma jsmn_parse_primitive_expected fuel cfg parser js len tokens num_tokens r p t :
  expected parser <> 0 ->
  jsmn_parse_primitive fuel cfg parser js len tokens num_tokens = Done (r, p, t) ->
  expected p <> 0.
Proof.
  unfold jsmn_parse_primitive. intros Hne H. run_inv_all;
    repeat match goal with
           | E : jsmn_alloc_token _ _ _ _ = Done (Some _) |- _ =>
             apply jsmn_alloc_token_some in E as (-> & -> & _)
           end; mask_nonzero.
Qed.

Lemma after_scalar_parser count r p t fl :
  after_scalar count (r, p, t) = Done fl ->
  match fl with Next p' _ _ | Return _ p' _ => p' = p end.
Proof. unfold after_scalar. intros H. run_inv H; by simplify_eq. Qed.

Lemma jsmn_step_expected fuel cfg js len num_tokens parser tokens count c fl :
  expected parser <> 0 ->
  jsmn_step fuel cfg js len num_tokens parser tokens count c = Done fl ->
  match fl with Next p _ _ | Return _ p _ => expected p <> 0 end.
Proof.
  unfold jsmn_step. intros Hne H.
  destruct ((c =? 123) || (c =? 91)).
  { unfold parse_open in H. run_inv_all;
      repeat match goal with
             | E : jsmn_alloc_token _ _ _ _ = Done (Some _) |- _ =>
               apply jsmn_alloc_token_some in E as (-> & -> & _)
             end; mask_nonzero. }
  destruct ((c =? 125) || (c =? 93)).
  { unfold parse_close in H. run_inv_all;
      repeat match goal with
             | E : close_by_parent _ _ _ _ _ = Done (Some _) |- _ =>
               apply close_by_parent_parser in E as [? ->]
             | E : close_by_scan _ _ _ = Done (Some _) |- _ =>
               apply close_by_scan_parser in E as [? ->]
             end; mask_nonzero. }
  destruct (c =? 34).
  { apply bind_done in H as ([[r p] t] & Hs & H).
    apply after_scalar_parser in H.
    apply jsmn_parse_string_expected in Hs; [| done]. by destruct fl; subst. }
  destruct (is_space c); [by simplify_eq |].
  destruct (c =? 58).
  { unfold parse_colon in H. run_inv_all; mask_nonzero. }
  destruct (c =? 44).
  { unfold parse_comma in H. run_inv_all; mask_nonzero. }
  destruct (JSMN_PERMISSIVE cfg || primitive_start c); [| by simplify_eq].
  apply bind_done in H as ([[r p] t] & Hs & H).
  apply after_scalar_parser in H.
  apply jsmn_parse_primitive_expected in Hs; [| done]. by destruct fl; subst.
Qed.

Lemma reaches_expected fuel cfg js len num_tokens s s' :
  expected (it_parser s) <> 0 ->
  reaches fuel cfg js len num_tokens s s' ->
  expected (it_parser s') <> 0.
Proof.
  intros Hne H. induction H as [| s s' s'' (_ & c & p & t & n & _ & _ & Hs & ->) _ IH]; [done |].
  apply IH. by apply (jsmn_step_expected _ _ _ _ _ _ _ _ _ _ Hne) in Hs.
Qed.

Lemma jsmn_loop_expected n fuel cfg js len num_tokens parser tokens count r p t :
  expected parser <> 0 ->
  jsmn_loop n fuel cfg js len num_tokens parser tokens count = Done (r, p, t) ->
  expected p <> 0.
Proof.
  revert parser tokens count. induction n as [| n IH]; intros parser tokens count Hne H; [done |].
  cbn [jsmn_loop] in H.
  assert (jsmn_finish parser tokens count = Done (r, p, t) -> expected p <> 0) as Hfin.
  { unfold jsmn_finish. intros Hf. run_inv Hf; by simplify_eq. }
  destruct (pos parser <? len); [| by auto].
  destruct (js_at js (pos parser)) as [c | |]; [| done..]. cbn [bind] in H.
  destruct (c =? 0); [by auto |].
  apply bind_done in H as (fl & Hs & H).
  apply (jsmn_step_expected _ _ _ _ _ _ _ _ _ _ Hne) in Hs.
  destruct fl; [eapply IH; [| exact H]; done | by simplify_eq].
Qed.

(** Without a pool no pass assigns [expected], the colon apart, and the
    colon is refused while [JSMN_DELIMITER] is not expected. *)
Lemma jsmn_step_dry_expected fuel cfg js len num_tokens parser count c p t n :
  jsmn_is_expected parser JSMN_DELIMITER = 0 ->
  jsmn_step fuel cfg js len num_tokens parser None count c = Done (Next p t n) ->
  expected p = expected parser /\ t = None.
Proof.
  unfold jsmn_step, parse_open, parse_close, parse_colon, parse_comma,
    jsmn_parse_string, jsmn_parse_primitive.
  intros Hd H. unfold nz in H. rewrite Hd in H. simpl in H.
  run_inv_all; unfold after_scalar in *; run_inv_all; done.
Qed.

Lemma reaches_dry_expected fuel cfg js len num_tokens s s' :
  it_tokens s = None ->
  jsmn_is_expected (it_parser s) JSMN_DELIMITER = 0 ->
  reaches fuel cfg js len num_tokens s s' ->
  expected (it_parser s') = expected (it_parser s) /\ it_tokens s' = None.
Proof.
  intros Ht Hd H.
  induction H as [| s s' s'' (_ & c & p & t & n & _ & _ & Hs & ->) _ IH]; [done |].
  rewrite Ht in Hs. apply jsmn_step_dry_expected in Hs as [He ->]; [| done].
  destruct IH as [IH1 IH2]; [done | |].
  - unfold jsmn_is_expected in *. simpl. by rewrite He.
  - simpl in IH1. by rewrite IH1, He.
Qed.

(** ** The scanners on explicit bytes *)

Lemma js_at_app (pre rest : list Z) (c : Z) :
  js_at (pre ++ c :: rest) (Z.of_nat (length pre)) = Done c.
Proof.
  unfold js_at. rewrite Nat2Z.id.
  by rewrite (list_lookup_middle pre rest c (length pre) eq_refl).
Qed.

Lemma wrap_succ_nat (n : nat) :
  Z.of_nat n + 1 < 2 ^ 32 -> wrap (Z.of_nat n + 1) = Z.of_nat (S n).
Proof. intros H. rewrite wrap_small by lia. lia. Qed.

(** The primitive scanner steps over a run of primitive bytes. *)
Lemma primitive_loop_skip cfg len fuel (body pre rest : list Z) :
  Forall (fun c => primitive_byte cfg c = true) body ->
  Z.of_nat (length pre + length body) <= len ->
  Z.of_nat (length pre + length body) < 2 ^ 32 ->
  primitive_loop (length body + fuel) cfg (pre ++ body ++ rest) len (Z.of_nat (length pre))
  = primitive_loop fuel cfg (pre ++ body ++ rest) len (Z.of_nat (length pre + length body)).
Proof.
  revert pre. induction body as [| c body IH]; intros pre Hall Hlen Hmax.
  - simpl. by rewrite Nat.add_0_r.
  - apply Forall_cons in Hall as [Hc Hall]. simpl length in *.
    cbn [Nat.add primitive_loop].
    assert ((Z.of_nat (length pre) <? len) = true) as -> by (apply Z.ltb_lt; lia).
    simpl app. rewrite js_at_app. cbn [bind].
    unfold primitive_byte in Hc.
    apply andb_true_iff in Hc as [Hc H127]. apply andb_true_iff in Hc as [Hend H32].
    apply negb_true_iff in Hend. rewrite Hend.
    assert ((c =? 0) = false) as -> by lia.
    assert (((c <? 32) || (127 <=? c)) = false) as -> by lia.
    rewrite wrap_succ_nat by lia.
    specialize (IH (pre ++ [c])). rewrite length_app in IH. simpl length in IH.
    rewrite <- !app_assoc in IH. simpl app in IH.
    replace (length pre + 1)%nat with (S (length pre)) in IH by lia.
    rewrite IH; [| done | lia | lia]. f_equal. lia.
Qed.

(** The string scanner steps over a run of string bytes. *)
Lemma string_loop_skip len fuel (body pre rest : list Z) :
  Forall (fun c => string_byte c = true) body ->
  Z.of_nat (length pre + length body) <= len ->
  Z.of_nat (length pre + length body) < 2 ^ 32 ->
  string_loop (length body + fuel) (pre ++ body ++ rest) len (Z.of_nat (length pre))
  = string_loop fuel (pre ++ body ++ rest) len (Z.of_nat (length pre + length body)).
Proof.
  revert pre. induction body as [| c body IH]; intros pre Hall Hlen Hmax.
  - simpl. by rewrite Nat.add_0_r.
  - apply Forall_cons in Hall as [Hc Hall]. simpl length in *.
    cbn [Nat.add string_loop].
    assert ((Z.of_nat (length pre) <? len) = true) as -> by (apply Z.ltb_lt; lia).
    simpl app. rewrite js_at_app. cbn [bind].
    unfold string_byte in Hc. apply negb_true_iff in Hc.
    apply orb_false_iff in Hc as [Hc H92]. apply orb_false_iff in Hc as [H0 H34].
    rewrite H0, H34, H92. cbn [andb].
    rewrite wrap_succ_nat by lia.
    specialize (IH (pre ++ [c])). rewrite length_app in IH. simpl length in IH.
    rewrite <- !app_assoc in IH. simpl app in IH.
    replace (length pre + 1)%nat with (S (length pre)) in IH by lia.
    rewrite IH; [| done | lia | lia]. f_equal. lia.
Qed.

(** A byte outside 32..126 after a run of primitive bytes stops the
    primitive scanner. *)
Lemma primitive_loop_illegal cfg len fuel (body pre rest : list Z) (bad : Z) :
  Forall (fun c => primitive_byte cfg c = true) body ->
  illegal_byte bad = true ->
  Z.of_nat (length pre + length body) < len ->
  Z.of_nat (length pre + length body) < 2 ^ 32 ->
  primitive_loop (length body + S fuel) cfg (pre ++ body ++ bad :: rest) len
    (Z.of_nat (length pre)) = Done PrimInval.
Proof.
  intros Hall Hbad Hlen Hmax.
  rewrite primitive_loop_skip by (done || lia). cbn [primitive_loop].
  assert ((Z.of_nat (length pre + length body) <? len) = true) as -> by (apply Z.ltb_lt; lia).
  rewrite app_assoc, <- length_app, js_at_app. cbn [bind].
  unfold illegal_byte in Hbad. apply andb_true_iff in Hbad as [Hout Hws].
  apply negb_true_iff in Hws.
  assert (primitive_end cfg bad = false) as ->.
  { unfold primitive_end. destruct (JSMN_PERMISSIVE cfg); simpl; lia. }
  assert ((bad =? 0) = false) as -> by lia. by rewrite Hout.
Qed.

(** A backslash followed by a byte that begins no escape, after a run of
    string bytes, stops the string scanner. *)
Lemma string_loop_bad_escape len fuel (body pre rest : list Z) (x : Z) :
  Forall (fun c => string_byte c = true) body ->
  simple_escape x = false -> x <> 117 ->
  Z.of_nat (length pre + length body) + 1 < len ->
  Z.of_nat (length pre + length body) + 1 < 2 ^ 32 ->
  string_loop (length body + S fuel) (pre ++ body ++ BACKSLASH :: x :: rest) len
    (Z.of_nat (length pre)) = Done StrInval.
Proof.
  intros Hall Hx Hu Hlen Hmax.
  rewrite string_loop_skip by (done || lia). cbn [string_loop].
  assert ((Z.of_nat (length pre + length body) <? len) = true) as -> by (apply Z.ltb_lt; lia).
  rewrite app_assoc, <- length_app, js_at_app. cbn [bind]. simpl.
  rewrite wrap_succ_nat by (rewrite length_app; lia).
  assert ((Z.of_nat (S (length (pre ++ body))) <? len) = true) as ->
    by (apply Z.ltb_lt; rewrite length_app; lia).
  replace ((pre ++ body) ++ 92 :: x :: rest) with (((pre ++ body) ++ [92]) ++ x :: rest)
    by (by rewrite <- app_assoc).
  replace (S (length (pre ++ body))) with (length ((pre ++ body) ++ [92]))
    by (rewrite (length_app _ [92]); simpl; lia).
  rewrite js_at_app. cbn [bind]. rewrite Hx.
  by assert ((x =? 117) = false) as -> by lia.
Qed.

(** The string scanner reaches the end of an input that ends inside a run
    of string bytes. *)
Lemma string_loop_unterminated fuel (body pre : list Z) :
  Forall (fun c => string_byte c = true) body ->
  Z.of_nat (length pre + length body) < 2 ^ 32 ->
  string_loop (length body + S fuel) (pre ++ body) (Z.of_nat (length (pre ++ body)))
    (Z.of_nat (length pre)) = Done StrEnd.
Proof.
  intros Hall Hmax.
  pose proof (string_loop_skip (Z.of_nat (length (pre ++ body))) (S fuel) body pre []
                Hall) as H.
  rewrite app_nil_r in H. rewrite H by (rewrite ?length_app; lia).
  cbn [string_loop]. rewrite length_app.
  by rewrite Z.ltb_irrefl.
Qed.

(** ** Truncated input *)

Lemma reaches_fuel fuel fuel' cfg js len num_tokens s s' :
  (fuel <= fuel')%nat ->
  reaches fuel cfg js len num_tokens s s' ->
  reaches fuel' cfg js len num_tokens s s'.
Proof.
  intros Hle. induction 1 as [| s s' s'' (Hlt & c & p & t & n & Hc & Hnz & Hs & ->) _ IH].
  - apply reaches_here.
  - eapply reaches_pass; [| exact IH]. split; [done |]. exists c, p, t, n.
    repeat split; try done. eapply refines_done; [| exact Hs]. by apply jsmn_step_fuel.
Qed.

Lemma find_open_none tokens k i t :
  find_open tokens k = Done None ->
  (i < k)%nat -> tokens !! i = Some t -> is_open t = false.
Proof.
  induction k as [| k IH]; intros H Hi Ht; [lia |].
  simpl in H. unfold tok_get in H. rewrite Nat2Z.id in H.
  destruct (decide (i = k)) as [-> | Hne].
  - rewrite Ht in H. cbn [bind] in H. by destruct (is_open t).
  - destruct (tokens !! k) as [t' |]; [| done]. cbn [bind] in H.
    destruct (is_open t'); [done |]. apply IH; [done | lia | done].
Qed.

Lemma find_open_some tokens k i t :
  (k <= length tokens)%nat ->
  (i < k)%nat -> tokens !! i = Some t -> is_open t = true ->
  exists j, find_open tokens k = Done (Some j).
Proof.
  induction k as [| k IH]; intros Hk Hi Ht Hopen; [lia |].
  simpl. unfold tok_get. rewrite Nat2Z.id.
  destruct (lookup_lt_is_Some_2 tokens k) as [t' Ht']; [lia |].
  rewrite Ht'. cbn [bind].
  destruct (is_open t') eqn:Ho; [by eauto |].
  apply IH; [lia | | done | done].
  destruct (decide (i = k)) as [-> | Hne]; [congruence | lia].
Qed.

Lemma jsmn_loop_count_closed n fuel cfg js len num_tokens parser tokens count k p toks :
  jsmn_loop n fuel cfg js len num_tokens parser tokens count = Done (Count k, p, Some toks) ->
  forall i t, (i < Z.to_nat (toknext p))%nat -> toks !! i = Some t -> is_open t = false.
Proof.
  revert parser tokens count. induction n as [| n IH]; intros parser tokens count H; [done |].
  cbn [jsmn_loop] in H.
  assert (jsmn_finish parser tokens count = Done (Count k, p, Some toks) ->
          forall i t, (i < Z.to_nat (toknext p))%nat -> toks !! i = Some t ->
                      is_open t = false) as Hfin.
  { unfold jsmn_finish. intros Hf i t. run_inv Hf; simplify_eq. by apply find_open_none. }
  destruct (pos parser <? len); [| exact (Hfin H)].
  destruct (js_at js (pos parser)) as [c | |]; [| done..]. cbn [bind] in H.
  destruct (c =? 0); [exact (Hfin H) |].
  apply bind_done in H as (fl & Hs & H).
  destruct fl as [p' t' c' | r p' t']; [by eapply IH |].
  simplify_eq. unfold jsmn_step in Hs.
  destruct ((c =? 123) || (c =? 91)).
  { unfold parse_open in Hs. run_inv Hs; by simplify_eq. }
  destruct ((c =? 125) || (c =? 93)); [by apply parse_close_inval in Hs |].
  destruct (c =? 34).
  { apply bind_done in Hs as ([[r p'] t'] & _ & Hs).
    by apply after_scalar_return in Hs as (? & _). }
  destruct (is_space c); [done |].
  destruct (c =? 58); [by apply parse_colon_inval in Hs |].
  destruct (c =? 44); [by apply parse_comma_inval in Hs |].
  destruct (JSMN_PERMISSIVE cfg || primitive_start c); [| done].
  apply bind_done in Hs as ([[r p'] t'] & _ & Hs).
  by apply after_scalar_return in Hs as (? & _).
Qed.

Lemma jsmn_parse_string_part fuel cfg parser js len tokens num_tokens p t :
  jsmn_parse_string fuel cfg parser js len tokens num_tokens
    = Done (JSMN_ERROR_PART, p, t) ->
  pos p = pos parser /\ toknext p = toknext parser /\ t = tokens.
Proof. unfold jsmn_parse_string. intros H. run_inv_all; simpl in *; done. Qed.

(** The string scanner on a string that the input ends in. *)
Lemma jsmn_parse_string_unterminated k cfg parser (pre body : list Z) tokens num_tokens :
  pos parser = Z.of_nat (length pre) ->
  Forall (fun c => string_byte c = true) body ->
  Z.of_nat (length (pre ++ QUOTE :: body)) < 2 ^ 32 ->
  JSMN_PERMISSIVE cfg && JSMN_PARENT_LINKS cfg = false ->
  (tokens = None \/ nz (jsmn_is_expected parser JSMN_STRING) = true) ->
  jsmn_parse_string (length body + S k) cfg parser (pre ++ QUOTE :: body)
    (Z.of_nat (length (pre ++ QUOTE :: body))) tokens num_tokens
  = Done (JSMN_ERROR_PART, parser, tokens).
Proof.
  intros Hpos Hall Hmax Hcfg Hexp. unfold jsmn_parse_string. rewrite Hcfg.
  assert (match tokens with
          | Some _ => negb (nz (jsmn_is_expected parser JSMN_STRING))
          | None => false
          end = false) as ->.
  { destruct Hexp as [-> | ->]; [done | by destruct tokens]. }
  cbn [bind]. rewrite Hpos.
  rewrite length_app in Hmax. simpl length in Hmax.
  rewrite wrap_succ_nat by lia.
  replace (pre ++ 34 :: body) with ((pre ++ [34]) ++ body) by (by rewrite <- app_assoc).
  replace (S (length pre)) with (length (pre ++ [34])) by (rewrite length_app; simpl; lia).
  rewrite string_loop_unterminated; [| done | rewrite length_app; simpl; lia].
  cbn [bind]. rewrite <- Hpos. by rewrite set_pos_same.
Qed.

(** ** A run without a pool *)

(** The primitive scanner without a pool on a byte outside 32..126. *)
Lemma jsmn_parse_primitive_dry_illegal k cfg parser (pre body rest : list Z) bad len
    num_tokens :
  pos parser = Z.of_nat (length pre) ->
  Forall (fun c => primitive_byte cfg c = true) body ->
  illegal_byte bad = true ->
  Z.of_nat (length pre + length body) < len ->
  Z.of_nat (length pre + length body) < 2 ^ 32 ->
  jsmn_parse_primitive (length body + S k) cfg parser (pre ++ body ++ bad :: rest) len
    None num_tokens
  = Done (JSMN_ERROR_INVAL, parser, None).
Proof.
  intros Hpos Hall Hbad Hlen Hmax. unfold jsmn_parse_primitive.
  assert ((if JSMN_PERMISSIVE cfg && JSMN_PARENT_LINKS cfg then Done parser else Done parser)
          = Done parser) as -> by (by destruct (_ && _)).
  cbn [bind]. rewrite Hpos, primitive_loop_illegal by done.
  cbn [bind]. rewrite <- Hpos. by rewrite set_pos_same.
Qed.

(** The string scanner without a pool on a backslash followed by a byte that
    begins no escape. *)
Lemma jsmn_parse_string_dry_bad_escape k cfg parser (pre body rest : list Z) x len
    num_tokens :
  pos parser = Z.of_nat (length pre) ->
  Forall (fun c => string_byte c = true) body ->
  simple_escape x = false -> x <> 117 ->
  Z.of_nat (length pre + length body) + 2 < len ->
  Z.of_nat (length pre + length body) + 2 < 2 ^ 32 ->
  jsmn_parse_string (length body + S k) cfg parser
    (pre ++ QUOTE :: body ++ BACKSLASH :: x :: rest) len None num_tokens
  = Done (JSMN_ERROR_INVAL, parser, None).
Proof.
  intros Hpos Hall Hx Hu Hlen Hmax. unfold jsmn_parse_string.
  assert ((if JSMN_PERMISSIVE cfg && JSMN_PARENT_LINKS cfg then Done parser else Done parser)
          = Done parser) as -> by (by destruct (_ && _)).
  cbn [bind]. rewrite Hpos, wrap_succ_nat by lia.
  replace (pre ++ 34 :: body ++ 92 :: x :: rest)
    with ((pre ++ [34]) ++ body ++ 92 :: x :: rest) by (by rewrite <- app_assoc).
  replace (S (length pre)) with (length (pre ++ [34])) by (rewrite length_app; simpl; lia).
  rewrite string_loop_bad_escape;
    [| done | done | done | rewrite length_app; simpl; lia..].
  cbn [bind]. rewrite <- Hpos. by rewrite set_pos_same.
Qed.

(** In the strict dialect the scanners refuse the same bytes with and
    without a pool. *)
Lemma jsmn_parse_primitive_inval_iff fuel cfg parser js len toks num_tokens :
  JSMN_PERMISSIVE cfg = false ->
  nz (jsmn_is_expected parser JSMN_PRIMITIVE) = true ->
  jsmn_parse_primitive fuel cfg parser js len (Some toks) num_tokens
    = Done (JSMN_ERROR_INVAL, parser, Some toks) <->
  jsmn_parse_primitive fuel cfg parser js len None num_tokens
    = Done (JSMN_ERROR_INVAL, parser, None).
Proof.
  intros Hstrict Hexp. unfold jsmn_parse_primitive. rewrite Hstrict, Hexp.
  cbn [andb negb bind].
  destruct (primitive_loop fuel cfg js len (pos parser)) as [[q | | q] | |];
    cbn [bind]; try done.
  - split; intros H; [| done]. run_inv_all.
  - by rewrite set_pos_same.
Qed.

Lemma jsmn_parse_string_inval_iff fuel cfg parser js len toks num_tokens :
  JSMN_PERMISSIVE cfg = false ->
  nz (jsmn_is_expected parser JSMN_STRING) = true ->
  jsmn_parse_string fuel cfg parser js len (Some toks) num_tokens
    = Done (JSMN_ERROR_INVAL, parser, Some toks) <->
  jsmn_parse_string fuel cfg parser js len None num_tokens
    = Done (JSMN_ERROR_INVAL, parser, None).
Proof.
  intros Hstrict Hexp. unfold jsmn_parse_string. rewrite Hstrict, Hexp.
  cbn [andb negb bind].
  destruct (string_loop fuel js len (wrap (pos parser + 1))) as [[q | |] | |];
    cbn [bind]; try done.
  - split; intros H; [| done]. run_inv_all.
  - by rewrite set_pos_same.
Qed.

(** Without a pool an opening bracket is counted and a closing bracket is
    skipped, whatever the state; the code after the loop looks for no open
    token. *)
Lemma jsmn_step_dry_brackets fuel cfg js len num_tokens parser count :
  (forall c, c = LBRACE \/ c = LBRACKET ->
     jsmn_step fuel cfg js len num_tokens parser None count c
     = Done (Next parser None (wrap (count + 1)))) /\
  (forall c, c = RBRACE \/ c = RBRACKET ->
     jsmn_step fuel cfg js len num_tokens parser None count c
     = Done (Next parser None count)) /\
  jsmn_finish parser None count = Done (Count count, parser, None).
Proof. split; [| split]; [intros c [-> | ->].. |]; reflexivity. Qed.

(** Without a pool [[] returns 1, []] returns 0 and [[}] returns 1; with a
    pool the first is a truncated input and the other two are invalid. *)
Lemma dry_run_skips_brackets :
  let cfg := strict false false in
  (jsmn_parse 4 cfg (jsmn_init cfg) (js_of "[") 1 None 0
   = Done (Count 1, set_pos (jsmn_init cfg) 1, None) /\
   exists p t, jsmn_parse 4 cfg (jsmn_init cfg) (js_of "[") 1 (pool 2) 2
               = Done (Err JSMN_ERROR_PART, p, t)) /\
  (jsmn_parse 4 cfg (jsmn_init cfg) (js_of "]") 1 None 0
   = Done (Count 0, set_pos (jsmn_init cfg) 1, None) /\
   exists p t, jsmn_parse 4 cfg (jsmn_init cfg) (js_of "]") 1 (pool 2) 2
               = Done (Err JSMN_ERROR_INVAL, p, t)) /\
  (jsmn_parse 4 cfg (jsmn_init cfg) (js_of "[}") 2 None 0
   = Done (Count 1, set_pos (jsmn_init cfg) 2, None) /\
   exists p t, jsmn_parse 4 cfg (jsmn_init cfg) (js_of "[}") 2 (pool 2) 2
               = Done (Err JSMN_ERROR_INVAL, p, t)).
Proof.
  repeat split; try (vm_compute; reflexivity); do 2 eexists; vm_compute; reflexivity.
Qed.

(** ** The pool as the allocated tokens followed by the free slots *)

Lemma tok_get_lookup tokens i t :
  tokens !! Z.to_nat i = Some t -> tok_get tokens i = Done t.
Proof. unfold tok_get. by intros ->. Qed.

Lemma tok_upd_lookup tokens i t f :
  tokens !! Z.to_nat i = Some t ->
  tok_upd tokens i f = Done (<[Z.to_nat i := f t]> tokens).
Proof. unfold tok_upd. by intros ->. Qed.

Lemma tok_get_mid (U R : list jsmntok_t) x i :
  i = Z.of_nat (length U) -> tok_get (U ++ x :: R) i = Done x.
Proof.
  intros ->. apply tok_get_lookup. rewrite Nat2Z.id. by apply list_lookup_middle.
Qed.

Lemma tok_upd_mid (U R : list jsmntok_t) x i f :
  i = Z.of_nat (length U) -> tok_upd (U ++ x :: R) i f = Done (U ++ f x :: R).
Proof.
  intros ->. rewrite (tok_upd_lookup _ _ x); rewrite Nat2Z.id.
  - by rewrite insert_app_r_alt, Nat.sub_diag by lia.
  - by apply list_lookup_middle.
Qed.

Lemma tok_get_left (U R : list jsmntok_t) i t :
  0 <= i -> U !! Z.to_nat i = Some t -> tok_get (U ++ R) i = Done t.
Proof. intros Hi Ht. apply tok_get_lookup. by apply lookup_app_l_Some. Qed.

Lemma insert_alter_same (U : list jsmntok_t) i t f :
  U !! i = Some t -> <[i := f t]> U = alter f i U.
Proof.
  intros Ht. apply list_eq. intros j. destruct (decide (i = j)) as [<- | Hne].
  - rewrite list_lookup_insert_eq by (by eapply lookup_lt_Some).
    by rewrite list_lookup_alter_eq, Ht.
  - by rewrite list_lookup_insert_ne, list_lookup_alter_ne.
Qed.

Lemma tok_upd_left (U R : list jsmntok_t) i t f :
  0 <= i -> U !! Z.to_nat i = Some t ->
  tok_upd (U ++ R) i f = Done (alter f (Z.to_nat i) U ++ R).
Proof.
  intros Hi Ht. rewrite (tok_upd_lookup _ _ t) by (by apply lookup_app_l_Some).
  rewrite insert_app_l by (by eapply lookup_lt_Some).
  by rewrite (insert_alter_same _ _ _ _ Ht).
Qed.

Lemma wrap_add_add x a b : wrap (wrap (x + a) + b) = wrap (x + (a + b)).
Proof. unfold wrap. rewrite Zplus_mod_idemp_l. f_equal. lia. Qed.

Lemma add_size_add_size a b t : add_size b (add_size a t) = add_size (a + b) t.
Proof. unfold add_size. simpl. by rewrite wrap_add_add. Qed.

Lemma bump_bump a b s U :
  0 <= a -> 0 <= b -> bump b s (bump a s U) = bump (a + b) s U.
Proof.
  intros Ha Hb. unfold bump. destruct (s =? JSMN_NEG); [done |]. cbn [orb].
  destruct (Z.eqb_spec a 0) as [-> | Ha0]; [done |].
  destruct (Z.eqb_spec b 0) as [-> | Hb0].
  - rewrite Z.add_0_r. assert ((a =? 0) = false) as -> by lia. done.
  - assert ((a + b =? 0) = false) as -> by lia.
    rewrite list_alter_alter_eq. apply list_alter_ext; [| done].
    intros t _. apply add_size_add_size.
Qed.

Lemma bump_length k s U : length (bump k s U) = length U.
Proof. unfold bump. destruct (_ || _); [done |]. apply length_alter. Qed.

Lemma bump_app k s U R :
  0 <= s < Z.of_nat (length U) -> bump k s (U ++ R) = bump k s U ++ R.
Proof.
  intros Hs. unfold bump. destruct (_ || _); [done |].
  apply alter_app_l. lia.
Qed.

Lemma bump_last k U x :
  0 <= k < 2 ^ 32 -> Z.of_nat (length U) < 2 ^ 32 - 1 -> tok_size x = 0 ->
  bump k (Z.of_nat (length U)) (U ++ [x]) = U ++ [set_size x k].
Proof.
  intros Hk Hmax Hx. unfold bump.
  assert ((Z.of_nat (length U) =? JSMN_NEG) = false) as ->.
  { apply Z.eqb_neq. change JSMN_NEG with (2 ^ 32 - 1). lia. }
  cbn [orb]. destruct (Z.eqb_spec k 0) as [-> | Hk0].
  - f_equal. destruct x. simpl in Hx. by subst.
  - rewrite Nat2Z.id.
    replace (length U) with (length U + 0)%nat at 1 by lia.
    rewrite alter_app_r. simpl. unfold add_size. rewrite Hx.
    by rewrite wrap_small by lia.
Qed.

Lemma bump_lookup k s U i t :
  U !! i = Some t ->
  exists t', bump k s U !! i = Some t' /\ tok_type t' = tok_type t /\
             tok_parent t' = tok_parent t.
Proof.
  intros Ht. unfold bump. destruct (_ || _); [by eauto |].
  destruct (decide (Z.to_nat s = i)) as [<- | Hne].
  - rewrite list_lookup_alter_eq, Ht. simpl. by eauto.
  - rewrite list_lookup_alter_ne by done. by eauto.
Qed.

(** ** The scanners on a complete token *)

Lemma is_hex_not_null h : is_hex h = true -> (h =? 0) = false.
Proof. intros H. destruct (Z.eqb_spec h 0) as [-> |]; done. Qed.

(** The four hex digits of a u escape. *)
Lemma hex_loop_four len (pre rest : list Z) h1 h2 h3 h4 :
  is_hex h1 = true -> is_hex h2 = true -> is_hex h3 = true -> is_hex h4 = true ->
  Z.of_nat (length pre + 4) <= len -> Z.of_nat (length pre + 4) < 2 ^ 32 ->
  hex_loop 4 (pre ++ h1 :: h2 :: h3 :: h4 :: rest) len (Z.of_nat (length pre))
  = Done (Some (Z.of_nat (length pre + 4))).
Proof.
  intros H1 H2 H3 H4 Hlen Hmax.
  assert (Hstep : forall n (p : list Z) h r,
             is_hex h = true -> Z.of_nat (length p) < len -> Z.of_nat (length p) + 1 < 2 ^ 32 ->
             hex_loop (S n) (p ++ h :: r) len (Z.of_nat (length p))
             = hex_loop n ((p ++ [h]) ++ r) len (Z.of_nat (length (p ++ [h])))).
  { intros n p h r Hh Hp Hw. cbn [hex_loop].
    assert ((Z.of_nat (length p) <? len) = true) as -> by (apply Z.ltb_lt; lia).
    rewrite js_at_app. cbn [bind]. rewrite (is_hex_not_null h Hh), Hh.
    rewrite wrap_succ_nat by lia. rewrite <- app_assoc, length_app. cbn [app length].
    by replace (length p + 1)%nat with (S (length p)) by lia. }
  rewrite Hstep by (done || lia).
  do 3 (rewrite Hstep by (done || (rewrite !length_app; cbn [length]; lia))).
  cbn [hex_loop]. rewrite !length_app. cbn [length]. do 2 f_equal. lia.
Qed.

(** The string scanner steps over the contents of a string and stops at
    the closing quote. *)
Lemma string_loop_closed len (body : list Z) :
  string_body body -> forall fuel (pre rest : list Z),
  (length body < fuel)%nat ->
  Z.of_nat (length pre + length body) < len ->
  Z.of_nat (length pre + length body) < 2 ^ 32 - 1 ->
  string_loop fuel (pre ++ body ++ QUOTE :: rest) len (Z.of_nat (length pre))
  = Done (StrQuote (Z.of_nat (length pre + length body))).
Proof.
  induction 1 as [| c b Hc _ IH | e b He _ IH | h1 h2 h3 h4 b H1 H2 H3 H4 _ IH];
    intros fuel pre rest Hfuel Hlen Hmax; (destruct fuel as [| fuel]; [lia |]);
    cbn [length] in *; cbn [string_loop];
    (assert ((Z.of_nat (length pre) <? len) = true) as -> by (apply Z.ltb_lt; lia)).
  - cbn [app]. rewrite js_at_app. cbn [bind]. by rewrite Nat.add_0_r.
  - cbn [app]. rewrite js_at_app. cbn [bind].
    unfold string_byte in Hc. apply negb_true_iff in Hc.
    apply orb_false_iff in Hc as [Hc H92]. apply orb_false_iff in Hc as [H0 H34].
    rewrite H0, H34, H92. cbn [andb].
    rewrite wrap_succ_nat by lia.
    specialize (IH fuel (pre ++ [c]) rest). rewrite length_app in IH. cbn [length] in IH.
    rewrite <- !app_assoc in IH. cbn [app] in IH.
    replace (length pre + 1)%nat with (S (length pre)) in IH by lia.
    rewrite IH by lia. do 2 f_equal. lia.
  - cbn [app]. rewrite js_at_app. cbn [bind].
    change (92 =? 0) with false. change (92 =? 34) with false. change (92 =? 92) with true.
    cbn [andb]. rewrite wrap_succ_nat by lia.
    assert ((Z.of_nat (S (length pre)) <? len) = true) as -> by (apply Z.ltb_lt; lia).
    replace (pre ++ 92 :: e :: b ++ 34 :: rest) with ((pre ++ [92]) ++ e :: b ++ 34 :: rest)
      by (by rewrite <- app_assoc).
    replace (S (length pre)) with (length (pre ++ [92]))
      by (rewrite length_app; cbn [length]; lia).
    rewrite js_at_app. cbn [bind]. rewrite He.
    rewrite wrap_succ_nat by (rewrite length_app; cbn [length]; lia).
    specialize (IH fuel ((pre ++ [92]) ++ [e]) rest).
    rewrite !length_app in IH. cbn [length] in IH.
    rewrite <- !app_assoc in IH. cbn [app] in IH. rewrite <- !app_assoc. cbn [app].
    rewrite length_app. cbn [length].
    replace (S (length pre + 1)) with (length pre + 1 + 1)%nat by lia.
    rewrite IH by lia. do 2 f_equal. lia.
  - cbn [app]. rewrite js_at_app. cbn [bind].
    change (92 =? 0) with false. change (92 =? 34) with false. change (92 =? 92) with true.
    cbn [andb]. rewrite wrap_succ_nat by lia.
    assert ((Z.of_nat (S (length pre)) <? len) = true) as -> by (apply Z.ltb_lt; lia).
    replace (pre ++ 92 :: 117 :: h1 :: h2 :: h3 :: h4 :: b ++ 34 :: rest)
      with ((pre ++ [92]) ++ 117 :: h1 :: h2 :: h3 :: h4 :: b ++ 34 :: rest)
      by (by rewrite <- app_assoc).
    replace (S (length pre)) with (length (pre ++ [92]))
      by (rewrite length_app; cbn [length]; lia).
    rewrite js_at_app. cbn [bind].
    change (simple_escape 117) with false. change (117 =? 117) with true. cbv iota.
    rewrite wrap_succ_nat by (rewrite length_app; cbn [length]; lia).
    replace ((pre ++ [92]) ++ 117 :: h1 :: h2 :: h3 :: h4 :: b ++ 34 :: rest)
      with (((pre ++ [92]) ++ [117]) ++ h1 :: h2 :: h3 :: h4 :: b ++ 34 :: rest)
      by (by rewrite <- !app_assoc).
    replace (S (length (pre ++ [92]))) with (length ((pre ++ [92]) ++ [117]))
      by (rewrite !length_app; cbn [length]; lia).
    rewrite hex_loop_four by (done || (rewrite !length_app; cbn [length]; lia)).
    cbn [bind]. rewrite wrap_pred_succ by (rewrite !length_app; cbn [length]; lia).
    specialize (IH fuel ((((pre ++ [92]) ++ [117]) ++ [h1; h2; h3; h4])) rest).
    rewrite !length_app in IH. cbn [length] in IH.
    rewrite <- !app_assoc in IH. cbn [app] in IH. rewrite <- !app_assoc. cbn [app].
    rewrite !length_app. cbn [length].
    match goal with
    | |- string_loop _ _ _ (Z.of_nat ?x) = _ =>
      replace x with (length pre + 1 + 1 + 4)%nat by lia
    end.
    rewrite IH by lia. do 2 f_equal. lia.
Qed.

Lemma primitive_loop_found cfg len fuel (body pre rest : list Z) (c : Z) :
  Forall (fun c => primitive_byte cfg c = true) body ->
  primitive_end cfg c = true -> c <> 0 ->
  Z.of_nat (length pre + length body) < len ->
  Z.of_nat (length pre + length body) < 2 ^ 32 ->
  primitive_loop (length body + S fuel) cfg (pre ++ body ++ c :: rest) len
    (Z.of_nat (length pre)) = Done (PrimFound (Z.of_nat (length pre + length body))).
Proof.
  intros Hall Hend Hc Hlen Hmax.
  rewrite primitive_loop_skip by (done || lia). cbn [primitive_loop].
  assert ((Z.of_nat (length pre + length body) <? len) = true) as ->
    by (apply Z.ltb_lt; lia).
  rewrite app_assoc, <- length_app, js_at_app. cbn [bind].
  assert ((c =? 0) = false) as -> by (by apply Z.eqb_neq).
  by rewrite Hend.
Qed.

(** The bytes that begin a primitive are none of the bytes the [switch]
    tests before. *)
Lemma primitive_start_dispatch c :
  primitive_start c = true ->
  (c =? 123) || (c =? 91) = false /\ (c =? 125) || (c =? 93) = false /\
  (c =? 34) = false /\ is_space c = false /\ (c =? 58) = false /\ (c =? 44) = false.
Proof.
  unfold primitive_start, is_space. intros H.
  repeat match goal with
         | |- context [?a =? ?b] => destruct (Z.eqb_spec a b); [subst; try done |]
         end; done.
Qed.

(** ** One pass on a byte of a document *)

(** Unfolds the accessors of the parser, of a token and of [links]. *)
Ltac norm :=
  repeat
    (progress
       (try change (JSMN_PERMISSIVE links) with false;
        try change (JSMN_PARENT_LINKS links) with true;
        try change (JSMN_NEXT_SIBLING links) with false;
        cbv beta delta
            [set_pos set_toknext set_toksuper set_expected
             set_type set_start set_end set_size set_parent set_next_sibling
             or_type jsmn_fill_token jsmn_is_type jsmn_is_expected at_state];
        cbn [bind pos toknext toksuper expected andb negb orb
             tok_type tok_start tok_end tok_size tok_parent tok_next_sibling
             it_parser it_tokens it_count])).

(** Performs the reads and writes of the slot just allocated. *)
Ltac slot :=
  repeat (first [ rewrite tok_upd_mid by (by rewrite ?length_alter)
                | rewrite tok_get_mid by (by rewrite ?length_alter) ]; norm).

(** Evaluates a test of closed masks. *)
Ltac eval_nz :=
  repeat match goal with
         | |- context [nz ?x] =>
           let v := eval vm_compute in (nz x) in
           match v with
           | true => change (nz x) with true
           | false => change (nz x) with false
           end
         end.

Lemma neg_value : JSMN_NEG = 2 ^ 32 - 1.
Proof. reflexivity. Qed.

Lemma eqb_neg_false s bound :
  0 <= s < bound -> bound < 2 ^ 32 -> (s =? JSMN_NEG) = false.
Proof. intros Hs Hb. apply Z.eqb_neq. rewrite neg_value. lia. Qed.

Lemma wrap_pred_nat (n : nat) :
  Z.of_nat (S n) < 2 ^ 32 -> wrap (Z.of_nat (S n) - 1) = Z.of_nat n.
Proof. intros H. rewrite wrap_small by lia. lia. Qed.

Lemma jsmn_alloc_token_links q (U R : list jsmntok_t) x s e num_tokens :
  Z.of_nat (length U) < num_tokens -> Z.of_nat (length U) + 1 < 2 ^ 32 ->
  jsmn_alloc_token links (mk_parser q (Z.of_nat (length U)) s e) (U ++ x :: R) num_tokens
  = Done (Some (mk_parser q (Z.of_nat (S (length U))) s e,
               U ++ mk_tok (tok_type x) JSMN_NEG JSMN_NEG 0 JSMN_NEG (tok_next_sibling x) :: R,
               Z.of_nat (length U))).
Proof.
  intros Hn Hmax. unfold jsmn_alloc_token. norm.
  assert ((num_tokens <=? Z.of_nat (length U)) = false) as -> by (apply Z.leb_gt; lia).
  rewrite tok_upd_mid by done. norm. by rewrite wrap_succ_nat by lia.
Qed.

Lemma pass_intro fuel cfg js len num_tokens (q q' n n' : nat) s s' e e' P P' c x :
  js !! q = Some c -> c <> 0 -> Z.of_nat q < len ->
  jsmn_step fuel cfg js len num_tokens (mk_parser (Z.of_nat q) (Z.of_nat n) s e) (Some P)
    (Z.of_nat n) c = Done (Next (mk_parser x (Z.of_nat n') s' e') (Some P') (Z.of_nat n')) ->
  x + 1 = Z.of_nat q' -> 0 <= x -> Z.of_nat q' < 2 ^ 32 ->
  pass fuel cfg js len num_tokens (at_state q n s e P) (at_state q' n' s' e' P').
Proof.
  intros Hc Hnz Hlt Hstep Hx Hx0 Hmax. split; [done |].
  exists c, (mk_parser x (Z.of_nat n') s' e'), (Some P'), (Z.of_nat n').
  repeat split; try done.
  - unfold js_at. norm. by rewrite Nat2Z.id, Hc.
  - unfold at_state. norm. by rewrite Hx, wrap_small by lia.
Qed.

Lemma bump_here s U :
  0 <= s < Z.of_nat (length U) -> Z.of_nat (length U) < 2 ^ 32 ->
  bump 1 s U = alter incr_size (Z.to_nat s) U.
Proof. intros Hs Hmax. unfold bump. by rewrite (eqb_neg_false s _ Hs Hmax). Qed.

(** White space is none of the bytes the [switch] tests before. *)
Lemma space_dispatch c :
  is_space c = true ->
  (c =? 123) || (c =? 91) = false /\ (c =? 125) || (c =? 93) = false /\ (c =? 34) = false.
Proof.
  unfold is_space. intros H.
  repeat match goal with
         | |- context [?a =? ?b] => destruct (Z.eqb_spec a b); [subst; try done |]
         end; done.
Qed.

Section Passes.
Variable js : list Z.
Variable F : nat.
Variable num_tokens : Z.
Hypothesis Hjs : Z.of_nat (length js) < 2 ^ 32 - 1.
Hypothesis HF : (length js < F)%nat.
Hypothesis Hnum : num_tokens < 2 ^ 32.

(** A primitive, as an element of an array or as the value of a key. *)
Lemma pass_primitive (pre b rest : list Z) c0 c U f s e :
  js = pre ++ b ++ c :: rest ->
  head b = Some c0 -> primitive_start c0 = true ->
  Forall (fun c => primitive_byte links c = true) b ->
  primitive_end links c = true -> c <> 0 ->
  nz (Z.land e JSMN_PRIMITIVE) = true ->
  0 <= s < Z.of_nat (length U) -> Z.of_nat (length U) < num_tokens ->
  reaches F links js (Z.of_nat (length js)) num_tokens
    (at_state (length pre) (length U) s e (U ++ replicate (S f) blank))
    (at_state (length pre + length b) (S (length U)) s (Z.lor JSMN_DELIMITER JSMN_CLOSE)
       (bump 1 s U
        ++ mk_tok (Z.lor JSMN_PRIMITIVE JSMN_VALUE) (Z.of_nat (length pre))
             (Z.of_nat (length pre + length b)) 0 s 0
        :: replicate f blank)).
Proof.
  intros Hjs_eq Hhead Hstart Hall Hend Hc He Hs Hn.
  change (replicate (S f) blank) with (blank :: replicate f blank).
  destruct b as [| c0' b']; [done |]. simpl in Hhead. simplify_eq.
  assert (Hlen : length (pre ++ (c0 :: b') ++ c :: rest)
                 = (length pre + S (length b') + S (length rest))%nat).
  { rewrite !length_app. simpl. lia. }
  destruct (lookup_lt_is_Some_2 U (Z.to_nat s)) as [ts Hts]; [lia |].
  eapply reaches_pass; [| apply reaches_here].
  eapply (pass_intro _ _ _ _ _ _ _ _ _ _ _ _ _ _ _ c0
            (Z.of_nat (length pre + length (c0 :: b')) - 1)).
  - by apply list_lookup_middle.
  - unfold primitive_start in Hstart. intros ->. done.
  - rewrite Hlen. lia.
  - unfold jsmn_step.
    destruct (primitive_start_dispatch _ Hstart) as (-> & -> & -> & -> & -> & ->).
    rewrite Hstart. norm. unfold jsmn_parse_primitive. norm. rewrite He. norm.
    assert (primitive_loop F links (pre ++ (c0 :: b') ++ c :: rest)
              (Z.of_nat (length (pre ++ (c0 :: b') ++ c :: rest))) (Z.of_nat (length pre))
            = Done (PrimFound (Z.of_nat (length pre + length (c0 :: b'))))) as ->.
    { eapply refines_done;
        [apply (primitive_loop_fuel (length (c0 :: b') + 1)); simpl in *; lia |].
      apply primitive_loop_found; try done; rewrite ?Hlen; simpl in *; lia. }
    norm. rewrite jsmn_alloc_token_links by lia. norm.
    slot.
    unfold after_scalar. norm.
    rewrite (eqb_neg_false s _ Hs) by lia.
    rewrite (tok_upd_left _ _ _ ts) by (done || lia). norm.
    rewrite bump_here by lia.
    rewrite (wrap_small (Z.of_nat (length pre + length (c0 :: b')) - 1))
      by (simpl in *; lia).
    rewrite wrap_succ_nat by lia. reflexivity.
  - lia.
  - simpl. lia.
  - simpl in *. lia.
Qed.

(** A string that is a value: its superior token is no object. *)
Lemma pass_string_value (pre b rest : list Z) U f s ts e :
  js = pre ++ QUOTE :: b ++ QUOTE :: rest ->
  string_body b ->
  nz (Z.land e JSMN_STRING) = true ->
  0 <= s -> U !! Z.to_nat s = Some ts -> nz (Z.land (tok_type ts) JSMN_OBJECT) = false ->
  Z.of_nat (length U) < num_tokens ->
  reaches F links js (Z.of_nat (length js)) num_tokens
    (at_state (length pre) (length U) s e (U ++ replicate (S f) blank))
    (at_state (length pre + length b + 2) (S (length U)) s (Z.lor JSMN_DELIMITER JSMN_CLOSE)
       (bump 1 s U
        ++ mk_tok (Z.lor JSMN_STRING JSMN_VALUE) (Z.of_nat (S (length pre)))
             (Z.of_nat (S (length pre) + length b)) 0 s 0
        :: replicate f blank)).
Proof.
  intros Hjs_eq Hall He Hs0 Hts Hobj Hn.
  change (replicate (S f) blank) with (blank :: replicate f blank).
  assert (Hlen : length js = (length pre + S (length b + S (length rest)))%nat).
  { rewrite Hjs_eq, !length_app. simpl. rewrite length_app. simpl. lia. }
  assert (Hs : 0 <= s < Z.of_nat (length U)).
  { apply lookup_lt_Some in Hts. lia. }
  eapply reaches_pass; [| apply reaches_here].
  eapply (pass_intro _ _ _ _ _ _ _ _ _ _ _ _ _ _ _ QUOTE
            (Z.of_nat (length pre + length b + 1))).
  - rewrite Hjs_eq. by apply list_lookup_middle.
  - done.
  - lia.
  - unfold jsmn_step. cbn [Z.eqb Pos.eqb orb]. norm.
    unfold jsmn_parse_string. norm. rewrite He. norm.
    rewrite wrap_succ_nat by lia.
    assert (string_loop F js (Z.of_nat (length js)) (Z.of_nat (S (length pre)))
            = Done (StrQuote (Z.of_nat (length pre + length b + 1)))) as ->.
    { rewrite Hjs_eq at 1.
      replace (pre ++ 34 :: b ++ 34 :: rest) with ((pre ++ [34]) ++ b ++ 34 :: rest)
        by (by rewrite <- app_assoc).
      replace (S (length pre)) with (length (pre ++ [34]))
        by (rewrite length_app; simpl; lia).
      rewrite string_loop_closed; [| done | lia | rewrite length_app; simpl; lia..].
      do 2 f_equal. rewrite length_app. simpl. lia. }
    norm. rewrite jsmn_alloc_token_links by lia. norm.
    slot.
    rewrite (tok_get_left _ _ _ ts) by done. norm. rewrite Hobj. norm.
    slot.
    unfold after_scalar. norm.
    rewrite (eqb_neg_false s _ Hs) by lia.
    rewrite (tok_upd_left _ _ _ ts) by done. norm.
    rewrite bump_here by lia.
    replace (Z.of_nat (S (length pre) + length b))
      with (Z.of_nat (length pre + length b + 1)) by lia.
    rewrite wrap_succ_nat by lia. reflexivity.
  - lia.
  - lia.
  - lia.
Qed.

(** A string that is a key: its superior token is an object and the token
    before it is the object or a value. *)
Lemma pass_string_key (pre k rest : list Z) U f (n0 : nat) tobj tl e :
  js = pre ++ QUOTE :: k ++ QUOTE :: rest ->
  string_body k ->
  nz (Z.land e JSMN_STRING) = true ->
  U !! n0 = Some tobj -> nz (Z.land (tok_type tobj) JSMN_OBJECT) = true ->
  last U = Some tl ->
  nz (Z.land (tok_type tl) (Z.lor JSMN_OBJECT JSMN_VALUE)) = true ->
  Z.of_nat (length U) < num_tokens ->
  reaches F links js (Z.of_nat (length js)) num_tokens
    (at_state (length pre) (length U) (Z.of_nat n0) e (U ++ replicate (S f) blank))
    (at_state (length pre + length k + 2) (S (length U)) (Z.of_nat n0) JSMN_DELIMITER
       (bump 1 (Z.of_nat n0) U
        ++ mk_tok (Z.lor JSMN_STRING JSMN_KEY) (Z.of_nat (S (length pre)))
             (Z.of_nat (S (length pre) + length k)) 0 (Z.of_nat n0) 0
        :: replicate f blank)).
Proof.
  intros Hjs_eq Hall He Hobj Hty Hlast Hval Hn.
  change (replicate (S f) blank) with (blank :: replicate f blank).
  assert (Hlen : length js = (length pre + S (length k + S (length rest)))%nat).
  { rewrite Hjs_eq, !length_app. simpl. rewrite length_app. simpl. lia. }
  assert (Hs : 0 <= Z.of_nat n0 < Z.of_nat (length U)).
  { apply lookup_lt_Some in Hobj. lia. }
  rewrite last_lookup in Hlast.
  eapply reaches_pass; [| apply reaches_here].
  eapply (pass_intro _ _ _ _ _ _ _ _ _ _ _ _ _ _ _ QUOTE
            (Z.of_nat (length pre + length k + 1))).
  - rewrite Hjs_eq. by apply list_lookup_middle.
  - done.
  - lia.
  - unfold jsmn_step. cbn [Z.eqb Pos.eqb orb]. norm.
    unfold jsmn_parse_string. norm. rewrite He. norm.
    rewrite wrap_succ_nat by lia.
    assert (string_loop F js (Z.of_nat (length js)) (Z.of_nat (S (length pre)))
            = Done (StrQuote (Z.of_nat (length pre + length k + 1)))) as ->.
    { rewrite Hjs_eq at 1.
      replace (pre ++ 34 :: k ++ 34 :: rest) with ((pre ++ [34]) ++ k ++ 34 :: rest)
        by (by rewrite <- app_assoc).
      replace (S (length pre)) with (length (pre ++ [34]))
        by (rewrite length_app; simpl; lia).
      rewrite string_loop_closed; [| done | lia | rewrite length_app; simpl; lia..].
      do 2 f_equal. rewrite length_app. simpl. lia. }
    norm. rewrite jsmn_alloc_token_links by lia. norm.
    slot.
    rewrite (tok_get_left _ _ _ tobj) by (by rewrite ?Nat2Z.id || lia). norm.
    rewrite Hty. norm.
    rewrite (tok_get_left _ _ _ tl);
      [| rewrite wrap_small by lia; lia
       | rewrite wrap_small by lia;
         by replace (Z.to_nat (Z.of_nat (S (length U)) - 2)) with (pred (length U)) by lia].
    norm. rewrite Hval. norm.
    slot.
    unfold after_scalar. norm.
    rewrite (eqb_neg_false (Z.of_nat n0) _ Hs) by lia.
    rewrite (tok_upd_left _ _ _ tobj) by (by rewrite ?Nat2Z.id || lia). norm.
    rewrite bump_here by lia.
    replace (Z.of_nat (S (length pre) + length k))
      with (Z.of_nat (length pre + length k + 1)) by lia.
    rewrite wrap_succ_nat by lia. reflexivity.
  - lia.
  - lia.
  - lia.
Qed.

(** White space: the pass changes the cursor only. *)
Lemma pass_space (q n : nat) c s e T :
  js !! q = Some c -> is_space c = true ->
  reaches F links js (Z.of_nat (length js)) num_tokens
    (at_state q n s e T) (at_state (S q) n s e T).
Proof.
  intros Hc Hsp.
  pose proof (lookup_lt_Some _ _ _ Hc) as Hq.
  eapply reaches_pass; [| apply reaches_here].
  eapply (pass_intro _ _ _ _ _ _ _ _ _ _ _ _ _ _ _ c (Z.of_nat q)).
  - done.
  - intros ->. done.
  - lia.
  - unfold jsmn_step.
    destruct (space_dispatch _ Hsp) as (-> & -> & ->). by rewrite Hsp.
  - lia.
  - lia.
  - lia.
Qed.

Lemma skip_spaces (w pre rest : list Z) n s e T :
  js = pre ++ w ++ rest -> spaces w ->
  reaches F links js (Z.of_nat (length js)) num_tokens
    (at_state (length pre) n s e T) (at_state (length pre + length w) n s e T).
Proof.
  unfold spaces. revert pre. induction w as [| c w IH]; intros pre Hjs_eq Hw.
  - rewrite Nat.add_0_r. apply reaches_here.
  - apply Forall_cons in Hw as [Hc Hw]. eapply reaches_trans.
    + apply (pass_space (length pre) n c); [| done].
      rewrite Hjs_eq. by apply list_lookup_middle.
    + replace (length pre + length (c :: w))%nat with (length (pre ++ [c]) + length w)%nat
        by (rewrite length_app; cbn [length]; lia).
      replace (S (length pre)) with (length (pre ++ [c]))
        by (rewrite length_app; cbn [length]; lia).
      apply IH; [| done]. rewrite Hjs_eq. by rewrite <- app_assoc.
Qed.

(** The colon after a key. *)
Lemma pass_colon (q : nat) (U R : list jsmntok_t) tk s e :
  js !! q = Some COLON ->
  nz (Z.land e JSMN_DELIMITER) = true ->
  (s =? JSMN_NEG) = false ->
  nz (Z.land (tok_type tk) JSMN_KEY) = true ->
  Z.of_nat (S (length U)) < 2 ^ 32 ->
  reaches F links js (Z.of_nat (length js)) num_tokens
    (at_state q (S (length U)) s e (U ++ tk :: R))
    (at_state (S q) (S (length U)) (Z.of_nat (length U)) JSMN_ANY_TYPE (U ++ tk :: R)).
Proof.
  intros Hc He Hs Hkey Hmax.
  pose proof (lookup_lt_Some _ _ _ Hc) as Hq.
  eapply reaches_pass; [| apply reaches_here].
  eapply (pass_intro _ _ _ _ _ _ _ _ _ _ _ _ _ _ _ COLON (Z.of_nat q)); try done; try lia.
  unfold jsmn_step. cbn [Z.eqb Pos.eqb orb is_space]. norm.
  unfold parse_colon. norm. rewrite He, Hs. norm.
  rewrite wrap_pred_nat by lia. rewrite tok_get_mid by done. norm. by rewrite Hkey.
Qed.

(** The comma after a value: the superior token is the array, or the key of
    the value, and then its parent becomes the superior token. *)
Lemma pass_comma (q : nat) (U R : list jsmntok_t) tl ts s e :
  js !! q = Some COMMA ->
  nz (Z.land e JSMN_DELIMITER) = true ->
  last U = Some tl -> nz (Z.land (tok_type tl) JSMN_KEY) = false ->
  0 <= s -> U !! Z.to_nat s = Some ts ->
  nz (Z.land (tok_type ts) JSMN_OBJECT) = false ->
  Z.of_nat (length U) < 2 ^ 32 - 1 ->
  reaches F links js (Z.of_nat (length js)) num_tokens
    (at_state q (length U) s e (U ++ R))
    (at_state (S q) (length U)
       (if nz (Z.land (tok_type ts) JSMN_CONTAINER) then s else tok_parent ts)
       JSMN_ANY_TYPE (U ++ R)).
Proof.
  intros Hc He Hlast Hkey Hs0 Hts Hobj Hmax.
  pose proof (lookup_lt_Some _ _ _ Hc) as Hq.
  pose proof (lookup_lt_Some _ _ _ Hts) as Hs.
  rewrite last_lookup in Hlast.
  eapply reaches_pass; [| apply reaches_here].
  eapply (pass_intro _ _ _ _ _ _ _ _ _ _ _ _ _ _ _ COMMA (Z.of_nat q)); try done; try lia.
  unfold jsmn_step. cbn [Z.eqb Pos.eqb orb is_space]. norm.
  unfold parse_comma. norm.
  rewrite (eqb_neg_false s (Z.of_nat (length U))) by lia. rewrite He. norm.
  rewrite (tok_get_left _ _ _ tl);
    [| rewrite wrap_small by lia; lia
     | rewrite wrap_small by lia;
       by replace (Z.to_nat (Z.of_nat (length U) - 1)) with (pred (length U)) by lia].
  norm. rewrite Hkey. norm.
  rewrite (tok_get_left _ _ _ ts) by done. norm. rewrite Hobj. norm.
  rewrite (tok_get_left _ _ _ ts) by done. norm.
  by destruct (nz (Z.land (tok_type ts) JSMN_CONTAINER)).
Qed.

(** An opening bracket. *)
Lemma pass_open (q : nat) (U : list jsmntok_t) f c s e :
  js !! q = Some c -> c = LBRACE \/ c = LBRACKET ->
  nz (Z.land e (if c =? LBRACE then JSMN_OBJECT else JSMN_ARRAY)) = true ->
  s = JSMN_NEG \/ 0 <= s < Z.of_nat (length U) ->
  Z.of_nat (length U) < num_tokens ->
  reaches F links js (Z.of_nat (length js)) num_tokens
    (at_state q (length U) s e (U ++ replicate (S f) blank))
    (at_state (S q) (S (length U)) (Z.of_nat (length U))
       (if c =? LBRACE then Z.lor JSMN_STRING JSMN_CLOSE else Z.lor JSMN_ANY_TYPE JSMN_CLOSE)
       (bump 1 s U
        ++ mk_tok (Z.lor (if c =? LBRACE then JSMN_OBJECT else JSMN_ARRAY) JSMN_VALUE)
             (Z.of_nat q) JSMN_NEG 0 s 0
        :: replicate f blank)).
Proof.
  intros Hc Hcc He Hs Hn.
  change (replicate (S f) blank) with (blank :: replicate f blank).
  pose proof (lookup_lt_Some _ _ _ Hc) as Hq.
  eapply reaches_pass; [| apply reaches_here].
  eapply (pass_intro _ _ _ _ _ _ _ _ _ _ _ _ _ _ _ c (Z.of_nat q)); try done; try lia;
    try (by destruct Hcc; subst).
  unfold jsmn_step.
  assert ((c =? 123) || (c =? 91) = true) as -> by (destruct Hcc; by subst).
  unfold parse_open. rewrite jsmn_alloc_token_links by lia. norm. slot.
  rewrite He. norm. slot.
  rewrite wrap_succ_nat, wrap_pred_nat by lia.
  destruct Hs as [-> | Hs].
  - change (JSMN_NEG =? JSMN_NEG) with true. norm. slot.
    destruct Hcc; subst; reflexivity.
  - rewrite (eqb_neg_false s _ Hs) by lia.
    destruct (lookup_lt_is_Some_2 U (Z.to_nat s)) as [ts Hts]; [lia |].
    rewrite (tok_upd_left _ _ _ ts) by (done || lia). norm. slot.
    rewrite bump_here by lia.
    destruct Hcc; subst; reflexivity.
Qed.

(** From a token of a closed region the parent links lead to the open
    container before the region, which the bracket closes. *)
Lemma close_walk (U0 B R : list jsmntok_t) ctok parser type fuel (i : nat) :
  is_open ctok = true ->
  nz (Z.land (tok_type ctok) type) = true ->
  well_linked (Z.of_nat (length U0)) (S (length U0)) B ->
  Z.of_nat (length U0 + length B) < 2 ^ 32 - 1 ->
  (length U0 <= i <= length U0 + length B)%nat ->
  (i - length U0 + 1 <= fuel)%nat ->
  close_by_parent fuel parser (U0 ++ ctok :: B ++ R) type (Z.of_nat i)
  = Done (Some (set_toksuper parser (tok_parent ctok),
                U0 ++ set_end ctok (wrap (pos parser + 1)) :: B ++ R)).
Proof.
  intros Hopen Hty Hwl Hmax. revert i.
  induction fuel as [| fuel IH]; intros i Hi Hfuel; [lia |].
  cbn [close_by_parent].
  destruct (decide (i = length U0)) as [-> | Hne].
  - rewrite tok_get_mid by done. cbn [bind]. rewrite Hopen.
    unfold jsmn_is_type. rewrite Hty. cbn [negb].
    by rewrite tok_upd_mid by done.
  - destruct (lookup_lt_is_Some_2 B (i - S (length U0))) as [t Ht]; [lia |].
    destruct (Hwl _ _ Ht) as [Hclosed Hpar].
    rewrite (tok_get_lookup _ _ t).
    2:{ rewrite Nat2Z.id. rewrite lookup_app_r by lia.
        replace (i - length U0)%nat with (S (i - S (length U0))) by lia.
        simpl. by apply lookup_app_l_Some. }
    cbn [bind]. rewrite Hclosed.
    rewrite (eqb_neg_false (tok_parent t) (Z.of_nat (S (length U0) + (i - S (length U0)))))
      by lia.
    rewrite <- (Z2Nat.id (tok_parent t)) by lia. apply IH; lia.
Qed.

(** A closing bracket after the tokens of the container it closes. *)
Lemma pass_close (q : nat) (U0 B R : list jsmntok_t) ctok c s e :
  js !! q = Some c -> c = RBRACE \/ c = RBRACKET ->
  nz (Z.land e JSMN_CLOSE) = true ->
  is_open ctok = true ->
  nz (Z.land (tok_type ctok) (if c =? RBRACE then JSMN_OBJECT else JSMN_ARRAY)) = true ->
  well_linked (Z.of_nat (length U0)) (S (length U0)) B ->
  Z.of_nat (length U0 + length B) < 2 ^ 32 - 1 ->
  (length B + 2 <= F)%nat ->
  reaches F links js (Z.of_nat (length js)) num_tokens
    (at_state q (S (length U0) + length B) s e (U0 ++ ctok :: B ++ R))
    (at_state (S q) (S (length U0) + length B) (tok_parent ctok)
       (after_value (tok_parent ctok))
       (U0 ++ set_end ctok (Z.of_nat (S q)) :: B ++ R)).
Proof.
  intros Hc Hcc He Hopen Hty Hwl Hmax HFB.
  pose proof (lookup_lt_Some _ _ _ Hc) as Hq.
  eapply reaches_pass; [| apply reaches_here].
  eapply (pass_intro _ _ _ _ _ _ _ _ _ _ _ _ _ _ _ c (Z.of_nat q)); try done; try lia;
    try (by destruct Hcc; subst).
  unfold jsmn_step.
  assert ((c =? 123) || (c =? 91) = false) as -> by (destruct Hcc; by subst).
  assert ((c =? 125) || (c =? 93) = true) as -> by (destruct Hcc; by subst).
  unfold parse_close. norm. rewrite He. norm.
  assert ((Z.of_nat (S (length U0) + length B) <? 1) = false) as ->
    by (apply Z.ltb_ge; lia).
  rewrite wrap_small by lia.
  replace (Z.of_nat (S (length U0) + length B) - 1)
    with (Z.of_nat (length U0 + length B)) by lia.
  rewrite (close_walk U0 B R ctok) by (done || lia). norm.
  rewrite wrap_succ_nat by lia. unfold after_value.
  by destruct (tok_parent ctok =? JSMN_NEG).
Qed.
End Passes.

(** ** The tokens of a document *)

(** Brings lists built with [++] and [::] to one shape. *)
Ltac flat := repeat first [rewrite <- app_assoc | progress cbn [app]].

(** Computes the lengths of the lists built with [++] and [::]. *)
Ltac lens :=
  repeat first [ rewrite length_app in * | rewrite length_replicate in *
               | rewrite bump_length in * | progress cbn [length] in * ].

(** Proves an equation between terms that differ by arithmetic only. *)
Ltac same := first [reflexivity | lia | progress f_equal; same].

Lemma block_length :
  (forall v n s q, length (block v n s q) = ntok v) /\
  (forall l first n s q, length (block_elems first l n s q) = ntok_elems l) /\
  (forall m first n s q, length (block_members first m n s q) = ntok_members m).
Proof.
  apply json_elems_members_ind; intros; simpl; rewrite ?length_app; auto.
Qed.

(** A document has at most as many tokens as bytes. *)
Lemma ntok_le_print :
  (forall v, wf v -> (1 <= ntok v <= length (print v))%nat) /\
  (forall l, wf_elems l -> forall first, (ntok_elems l <= length (print_elems first l))%nat) /\
  (forall m, wf_members m ->
             forall first, (ntok_members m <= length (print_members first m))%nat).
Proof.
  apply json_elems_members_ind.
  - intros s [Hs _]. destruct s; [done |]. simpl. lia.
  - intros s _. simpl. lia.
  - intros l IH Hwf. simpl. rewrite length_app. specialize (IH Hwf true). simpl. lia.
  - intros m IH Hwf. simpl. rewrite length_app. specialize (IH Hwf true). simpl. lia.
  - intros w1 v IH w2 (_ & Hv & _). simpl. rewrite !length_app. specialize (IH Hv). lia.
  - intros w _ first. simpl. lia.
  - intros v IHv l IHl [Hv Hl] first. simpl. rewrite !length_app.
    specialize (IHv Hv). specialize (IHl Hl false). lia.
  - intros w _ first. simpl. lia.
  - intros w1 k w2 v IHv m IHm (_ & _ & _ & Hv & Hm) first.
    specialize (IHv Hv). specialize (IHm Hm false).
    cbn [ntok_members print_members]. lens. lia.
Qed.

Lemma well_linked_nil lo g : well_linked lo g [].
Proof. intros j t H. by rewrite lookup_nil in H. Qed.

Lemma well_linked_cons lo g t B :
  is_open t = false -> lo <= tok_parent t < Z.of_nat g ->
  well_linked lo (S g) B -> well_linked lo g (t :: B).
Proof.
  intros Ho Hp HB [| j] t' Ht; simpl in Ht.
  - simplify_eq. split; [done | lia].
  - destruct (HB _ _ Ht) as [? ?]. split; [done | lia].
Qed.

Lemma well_linked_app lo g B1 B2 :
  well_linked lo g B1 -> well_linked lo (g + length B1) B2 -> well_linked lo g (B1 ++ B2).
Proof.
  intros H1 H2 j t Ht. apply lookup_app_Some in Ht as [Ht | [Hj Ht]].
  - by apply H1.
  - destruct (H2 _ _ Ht) as [? ?]. split; [done | lia].
Qed.

Lemma well_linked_weaken lo lo' g B :
  lo' <= lo -> well_linked lo g B -> well_linked lo' g B.
Proof. intros Hlo H j t Ht. destruct (H _ _ Ht) as [? ?]. split; [done | lia]. Qed.

Lemma closed_token ty st en sz pa ns :
  en <> JSMN_NEG -> is_open (mk_tok ty st en sz pa ns) = false.
Proof.
  intros Hen. unfold is_open. simpl.
  assert ((en =? JSMN_NEG) = false) as -> by (by apply Z.eqb_neq).
  apply andb_false_r.
Qed.

(** The tokens of a document are closed and linked among themselves and to
    the parent of the first. *)
Lemma block_well_linked :
  (forall v n s q, 0 <= s < Z.of_nat n -> Z.of_nat (q + length (print v)) < 2 ^ 32 - 1 ->
     well_linked s n (block v n s q)) /\
  (forall l first n s q, 0 <= s < Z.of_nat n ->
     Z.of_nat (q + length (print_elems first l)) < 2 ^ 32 - 1 ->
     well_linked s n (block_elems first l n s q)) /\
  (forall m first n s q, 0 <= s < Z.of_nat n ->
     Z.of_nat (q + length (print_members first m)) < 2 ^ 32 - 1 ->
     well_linked s n (block_members first m n s q)).
Proof.
  apply json_elems_members_ind.
  - intros b n s q Hs Hq. cbn [block block_elems block_members print print_elems print_members] in *. apply well_linked_cons; [| cbn [tok_parent]; lia | apply well_linked_nil].
    apply closed_token. change JSMN_NEG with (2 ^ 32 - 1). lia.
  - intros b n s q Hs Hq. cbn [block block_elems block_members print print_elems print_members] in *. lens.
    apply well_linked_cons; [| cbn [tok_parent]; lia | apply well_linked_nil].
    apply closed_token. change JSMN_NEG with (2 ^ 32 - 1). lia.
  - intros l IH n s q Hs Hq. cbn [block block_elems block_members print print_elems print_members] in *. lens.
    apply well_linked_cons; [| cbn [tok_parent]; lia |].
    + apply closed_token. change JSMN_NEG with (2 ^ 32 - 1). lia.
    + apply (well_linked_weaken (Z.of_nat n)); [lia |]. apply IH; lia.
  - intros m IH n s q Hs Hq. cbn [block block_elems block_members print print_elems print_members] in *. lens.
    apply well_linked_cons; [| cbn [tok_parent]; lia |].
    + apply closed_token. change JSMN_NEG with (2 ^ 32 - 1). lia.
    + apply (well_linked_weaken (Z.of_nat n)); [lia |]. apply IH; lia.
  - intros w1 v IH w2 n s q Hs Hq. cbn [block print] in *. lens. apply IH; [done | lia].
  - intros. apply well_linked_nil.
  - intros v IHv l IHl first n s q Hs Hq. cbn [block block_elems block_members print print_elems print_members] in *. lens.
    apply well_linked_app.
    + apply IHv; [done |]. destruct first; lens; lia.
    + rewrite (proj1 block_length). apply IHl; [lia |]. destruct first; lens; lia.
  - intros. apply well_linked_nil.
  - intros w1 k w2 v IHv m IHm first n s q Hs Hq. cbn [block block_elems block_members print print_elems print_members] in *.
    lens.
    apply well_linked_cons; [| cbn [tok_parent]; lia |].
    + apply closed_token. change JSMN_NEG with (2 ^ 32 - 1). destruct first; lens; lia.
    + apply well_linked_app.
      * apply (well_linked_weaken (Z.of_nat n)); [lia |]. apply IHv; [lia |].
        destruct first; lens; lia.
      * rewrite (proj1 block_length).
        replace (S n + ntok v)%nat with (S (n + ntok v)) by lia.
        replace (S n + ntok v)%nat with (S (n + ntok v)) by lia.
        apply IHm; [lia |]. destruct first; lens; lia.
Qed.

Lemma value_type_bits ty :
  value_type ty ->
  nz (Z.land ty JSMN_KEY) = false /\
  nz (Z.land ty (Z.lor JSMN_OBJECT JSMN_VALUE)) = true.
Proof. intros [-> | [-> | [-> | ->]]]; by vm_compute. Qed.

(** The last token of a document, and of elements or members after a value,
    is a value. *)
Lemma block_last :
  (forall v n s q, exists t, last (block v n s q) = Some t /\ value_type (tok_type t)) /\
  (forall l first n s q U t0,
     last U = Some t0 -> value_type (tok_type t0) ->
     exists t, last (U ++ block_elems first l n s q) = Some t /\ value_type (tok_type t)) /\
  (forall m first n s q U t0,
     last U = Some t0 -> value_type (tok_type t0) ->
     exists t, last (U ++ block_members first m n s q) = Some t /\ value_type (tok_type t)).
Proof.
  apply json_elems_members_ind.
  - intros b n s q. eexists. split; [done |]. unfold value_type. simpl. auto.
  - intros b n s q. eexists. split; [done |]. unfold value_type. simpl. auto.
  - intros l IH n s q. cbn [block].
    match goal with |- context [?t :: block_elems ?a ?b ?c ?d ?e] =>
      destruct (IH a c d e [t] t eq_refl) as (t' & Ht' & Hv)
    end; [unfold value_type; simpl; auto |]. by eauto.
  - intros m IH n s q. cbn [block].
    match goal with |- context [?t :: block_members ?a ?b ?c ?d ?e] =>
      destruct (IH a c d e [t] t eq_refl) as (t' & Ht' & Hv)
    end; [unfold value_type; simpl; auto |]. by eauto.
  - intros w1 v IH w2 n s q. cbn [block]. apply IH.
  - intros w first n s q U t0 Hl Hv. cbn [block_elems]. rewrite app_nil_r. by eauto.
  - intros v IHv l IHl first n s q U t0 Hl Hv. cbn [block_elems].
    match goal with |- context [block v ?a ?b ?c ++ block_elems ?d ?e ?f ?g ?h] =>
      destruct (IHv a b c) as (t1 & Ht1 & Hv1);
      destruct (IHl d f g h (U ++ block v a b c) t1) as (t' & Ht' & Hv')
    end; [by rewrite last_app, Ht1 | done |].
    rewrite <- app_assoc in Ht'. by eauto.
  - intros w first n s q U t0 Hl Hv. cbn [block_members]. rewrite app_nil_r. by eauto.
  - intros w1 k w2 v IHv m IHm first n s q U t0 Hl Hv. cbn [block_members].
    match goal with |- context [?tk :: block v ?a ?b ?c ++ block_members ?d ?e ?f ?g ?h] =>
      destruct (IHv a b c) as (t1 & Ht1 & Hv1);
      destruct (IHm d f g h (U ++ tk :: block v a b c) t1) as (t' & Ht' & Hv')
    end; [by rewrite last_app, last_cons, Ht1 | done |].
    rewrite <- app_assoc in Ht'. by eauto.
Qed.

Lemma ntok_pos v : (1 <= ntok v)%nat.
Proof. induction v; simpl; lia. Qed.

Lemma count_elems_le l : (count_elems l <= ntok_elems l)%nat.
Proof.
  induction l as [w | v l IH]; simpl; [lia |]. pose proof (ntok_pos v). lia.
Qed.

Lemma count_members_le m : (count_members m <= ntok_members m)%nat.
Proof.
  induction m as [w | w1 k w2 v m IH]; simpl; lia.
Qed.

(** The tokens of a document are closed. *)
Lemma block_closed :
  (forall v n s q, Z.of_nat (q + length (print v)) < 2 ^ 32 - 1 ->
     Forall (fun t => is_open t = false) (block v n s q)) /\
  (forall l first n s q, Z.of_nat (q + length (print_elems first l)) < 2 ^ 32 - 1 ->
     Forall (fun t => is_open t = false) (block_elems first l n s q)) /\
  (forall m first n s q, Z.of_nat (q + length (print_members first m)) < 2 ^ 32 - 1 ->
     Forall (fun t => is_open t = false) (block_members first m n s q)).
Proof.
  apply json_elems_members_ind.
  - intros b n s q Hq. cbn [block print] in *. apply Forall_singleton.
    apply closed_token. rewrite neg_value. lia.
  - intros b n s q Hq. cbn [block print] in *. lens. apply Forall_singleton.
    apply closed_token. rewrite neg_value. lia.
  - intros l IH n s q Hq. cbn [block print] in *. lens. apply Forall_cons. split.
    + apply closed_token. rewrite neg_value. lia.
    + apply IH. lia.
  - intros m IH n s q Hq. cbn [block print] in *. lens. apply Forall_cons. split.
    + apply closed_token. rewrite neg_value. lia.
    + apply IH. lia.
  - intros w1 v IH w2 n s q Hq. cbn [block print] in *. lens. apply IH. lia.
  - intros. apply Forall_nil_2.
  - intros v IHv l IHl first n s q Hq. cbn [block_elems print_elems] in *. lens.
    apply Forall_app. split.
    + apply IHv. destruct first; lens; lia.
    + apply IHl. destruct first; lens; lia.
  - intros. apply Forall_nil_2.
  - intros w1 k w2 v IHv m IHm first n s q Hq. cbn [block_members print_members] in *. lens.
    apply Forall_cons. split; [| apply Forall_app; split].
    + apply closed_token. rewrite neg_value. destruct first; lens; lia.
    + apply IHv. destruct first; lens; lia.
    + apply IHm. destruct first; lens; lia.
Qed.

Lemma category_cases v :
  category v = JSMN_PRIMITIVE \/ category v = JSMN_STRING \/
  category v = JSMN_ARRAY \/ category v = JSMN_OBJECT.
Proof. induction v; cbn [category]; auto. Qed.

Lemma category_container v :
  is_container v = true -> category v = JSMN_ARRAY \/ category v = JSMN_OBJECT.
Proof. induction v; cbn [category is_container]; auto; done. Qed.

(** ** The loop on a document *)

Section Doc.
Variable js : list Z.
Variable F : nat.
Variable num_tokens : Z.
Hypothesis Hjs : Z.of_nat (length js) < 2 ^ 32 - 1.
Hypothesis HF : (length js < F)%nat.
Hypothesis Hnum : num_tokens < 2 ^ 32.

Lemma after_value_inside s bound :
  0 <= s < bound -> bound < 2 ^ 32 -> after_value s = Z.lor JSMN_DELIMITER JSMN_CLOSE.
Proof. intros Hs Hb. unfold after_value. by rewrite (eqb_neg_false s bound). Qed.

Lemma parses_prim b : parses_value js F num_tokens (JPrim b).
Proof.
  intros pre suf U f s e Hjs_eq [Hhead Hall] Hsuf He Hs Hf Hn.
  destruct (Hsuf eq_refl) as (c & suf' & -> & Hend & Hc).
  destruct Hs as [[_ ?] | (ts & Hs0 & Hts & _)]; [done |].
  pose proof (lookup_lt_Some _ _ _ Hts) as Hlt.
  cbn [print ntok block category] in *.
  destruct f as [| f]; [lia |]. destruct b as [| c0 b]; [done |].
  rewrite (after_value_inside s (Z.of_nat (length U))) by lia.
  replace (length U + 1)%nat with (S (length U)) by lia.
  replace (S f - 1)%nat with f by lia.
  eapply (pass_primitive js F num_tokens Hjs HF Hnum pre (c0 :: b) suf' c0 c); try done; lia.
Qed.

Lemma parses_str b : parses_value js F num_tokens (JStr b).
Proof.
  intros pre suf U f s e Hjs_eq Hall _ He Hs Hf Hn.
  destruct Hs as [[_ ?] | (ts & Hs0 & Hts & Hobj)]; [done |].
  pose proof (lookup_lt_Some _ _ _ Hts) as Hlt.
  cbn [print ntok block category] in *.
  destruct f as [| f]; [lia |].
  rewrite (after_value_inside s (Z.of_nat (length U))) by lia.
  replace (length U + 1)%nat with (S (length U)) by lia.
  replace (S f - 1)%nat with f by lia.
  lens. replace (length pre + S (length b + 1))%nat with (length pre + length b + 2)%nat
    by lia.
  eapply (pass_string_value js F num_tokens Hjs HF Hnum pre b suf U f s ts); try done; try lia.
  rewrite Hjs_eq. simpl. by rewrite <- app_assoc.
Qed.

Lemma at_state_ext q q' n n' s s' e e' P P' :
  q = q' -> n = n' -> s = s' -> e = e' -> P = P' ->
  at_state q n s e P = at_state q' n' s' e' P'.
Proof. by intros -> -> -> -> ->. Qed.

Lemma reaches_via s1 s2 s2' s3 :
  reaches F links js (Z.of_nat (length js)) num_tokens s1 s2 ->
  s2 = s2' ->
  reaches F links js (Z.of_nat (length js)) num_tokens s2' s3 ->
  reaches F links js (Z.of_nat (length js)) num_tokens s1 s3.
Proof. intros H1 <- H2. by eapply reaches_trans. Qed.

Lemma superior_cases s U (v : json) :
  (s = JSMN_NEG /\ is_container v = true) \/
  (exists ts, 0 <= s /\ U !! Z.to_nat s = Some ts /\
              nz (Z.land (tok_type ts) JSMN_OBJECT) = false) ->
  s = JSMN_NEG \/ 0 <= s < Z.of_nat (length U).
Proof.
  intros [[-> _] | (ts & Hs0 & Hts & _)]; [by left | right].
  apply lookup_lt_Some in Hts. lia.
Qed.

Lemma parses_arr l : parses_elems js F num_tokens l -> parses_value js F num_tokens (JArr l).
Proof.
  intros Helems pre suf U f s e Hjs_eq Hwf _ He Hs Hf Hn.
  apply superior_cases in Hs.
  cbn [print ntok block category is_container wf] in *.
  destruct f as [| f]; [lia |].
  pose proof (proj1 (proj2 ntok_le_print) l Hwf true) as Hntok.
  assert (Hlen : length js = (length pre + S (length (print_elems true l) + 1 + length suf))%nat).
  { rewrite Hjs_eq. lens. lia. }
  set (arr0 := mk_tok (Z.lor JSMN_ARRAY JSMN_VALUE) (Z.of_nat (length pre)) JSMN_NEG 0 s 0).
  set (B := block_elems true l (S (length U)) (Z.of_nat (length U)) (S (length pre))).
  assert (HB : length B = ntok_elems l) by apply block_length.
  (* the opening bracket *)
  eapply (reaches_via _ _
            (at_state (length (pre ++ [LBRACKET])) (length (bump 1 s U ++ [arr0]))
               (Z.of_nat (length U)) (Z.lor JSMN_ANY_TYPE JSMN_CLOSE)
               ((bump 1 s U ++ [arr0]) ++ replicate f blank))).
  { eapply (pass_open js F num_tokens Hjs HF Hnum (length pre) U f LBRACKET s e);
      [| by right | exact He | exact Hs | lia].
    rewrite Hjs_eq. by apply list_lookup_middle. }
  { apply at_state_ext; try done; lens; try lia. by flat. }
  (* the elements *)
  destruct (Helems true (pre ++ [LBRACKET]) suf (bump 1 s U ++ [arr0]) f (length U) arr0
              (Z.lor JSMN_ANY_TYPE JSMN_CLOSE)) as (e' & He' & Hreach).
  { rewrite Hjs_eq. by flat. }
  { done. }
  { apply list_lookup_middle. by rewrite bump_length. }
  { by vm_compute. }
  { by vm_compute. }
  { exists arr0. split; [by rewrite last_snoc |]. unfold value_type. simpl. auto. }
  { done. }
  { lia. }
  { lens. lia. }
  eapply (reaches_via _ _
            (at_state (S (length pre) + length (print_elems true l))
               (S (length (bump 1 s U)) + length B) (Z.of_nat (length U)) e'
               (bump 1 s U ++ set_size arr0 (Z.of_nat (count_elems l)) :: B
                ++ replicate (f - ntok_elems l) blank))); [exact Hreach | |].
  { apply at_state_ext; try done; lens; try lia.
    rewrite <- (bump_length 1 s U) at 1.
    rewrite bump_last; [| pose proof (count_elems_le l); lia | lens; lia | done].
    flat. unfold B. same. }
  (* the closing bracket *)
  eapply reaches_via; [| | apply reaches_here].
  { eapply (pass_close js F num_tokens Hjs HF (S (length pre) + length (print_elems true l))
              (bump 1 s U) B _ (set_size arr0 (Z.of_nat (count_elems l))) RBRACKET).
    - replace js with ((pre ++ LBRACKET :: print_elems true l) ++ RBRACKET :: suf)
        by (rewrite Hjs_eq; by flat).
      apply list_lookup_middle. lens. lia.
    - by right.
    - exact He'.
    - unfold is_open. cbn [set_size arr0 tok_start tok_end].
      by rewrite (eqb_neg_false (Z.of_nat (length pre)) (Z.of_nat (S (length pre)))) by lia.
    - by vm_compute.
    - rewrite bump_length. apply block_well_linked; lia.
    - lens. lia.
    - lia. }
  apply at_state_ext; try done; lens; try lia.
  cbn [block]. flat. fold B. unfold arr0, set_size, set_end. cbn. same.
Qed.

Lemma parses_obj m :
  parses_members js F num_tokens m -> parses_value js F num_tokens (JObj m).
Proof.
  intros Hmembers pre suf U f s e Hjs_eq Hwf _ He Hs Hf Hn.
  apply superior_cases in Hs.
  cbn [print ntok block category is_container wf] in *.
  destruct f as [| f]; [lia |].
  pose proof (proj2 (proj2 ntok_le_print) m Hwf true) as Hntok.
  assert (Hlen : length js
                 = (length pre + S (length (print_members true m) + 1 + length suf))%nat).
  { rewrite Hjs_eq. lens. lia. }
  set (obj0 := mk_tok (Z.lor JSMN_OBJECT JSMN_VALUE) (Z.of_nat (length pre)) JSMN_NEG 0 s 0).
  set (B := block_members true m (S (length U)) (Z.of_nat (length U)) (S (length pre))).
  assert (HB : length B = ntok_members m) by apply block_length.
  (* the opening brace *)
  eapply (reaches_via _ _
            (at_state (length (pre ++ [LBRACE])) (length (bump 1 s U ++ [obj0]))
               (Z.of_nat (length U)) (Z.lor JSMN_STRING JSMN_CLOSE)
               ((bump 1 s U ++ [obj0]) ++ replicate f blank))).
  { eapply (pass_open js F num_tokens Hjs HF Hnum (length pre) U f LBRACE s e);
      [| by left | exact He | exact Hs | lia].
    rewrite Hjs_eq. by apply list_lookup_middle. }
  { apply at_state_ext; try done; lens; try lia. by flat. }
  (* the members *)
  destruct (Hmembers true (pre ++ [LBRACE]) suf (bump 1 s U ++ [obj0]) f (length U) obj0
              (Z.of_nat (length U)) (Z.lor JSMN_STRING JSMN_CLOSE))
    as (sup' & e' & He' & Hreach).
  { rewrite Hjs_eq. by flat. }
  { done. }
  { apply list_lookup_middle. by rewrite bump_length. }
  { by vm_compute. }
  { exists obj0. split; [by rewrite last_snoc |]. unfold value_type. simpl. auto. }
  { done. }
  { lia. }
  { lens. lia. }
  eapply (reaches_via _ _
            (at_state (S (length pre) + length (print_members true m))
               (S (length (bump 1 s U)) + length B) sup' e'
               (bump 1 s U ++ set_size obj0 (Z.of_nat (count_members m)) :: B
                ++ replicate (f - ntok_members m) blank))); [exact Hreach | |].
  { apply at_state_ext; try done; lens; try lia.
    rewrite <- (bump_length 1 s U) at 1.
    rewrite bump_last; [| pose proof (count_members_le m); lia | lens; lia | done].
    flat. unfold B. same. }
  (* the closing brace *)
  eapply reaches_via; [| | apply reaches_here].
  { eapply (pass_close js F num_tokens Hjs HF (S (length pre) + length (print_members true m))
              (bump 1 s U) B _ (set_size obj0 (Z.of_nat (count_members m))) RBRACE).
    - replace js with ((pre ++ LBRACE :: print_members true m) ++ RBRACE :: suf)
        by (rewrite Hjs_eq; by flat).
      apply list_lookup_middle. lens. lia.
    - by left.
    - exact He'.
    - unfold is_open. cbn [set_size obj0 tok_start tok_end].
      by rewrite (eqb_neg_false (Z.of_nat (length pre)) (Z.of_nat (S (length pre)))) by lia.
    - by vm_compute.
    - rewrite bump_length. apply block_well_linked; lia.
    - lens. lia.
    - lia. }
  apply at_state_ext; try done; lens; try lia.
  cbn [block]. flat. fold B. unfold obj0, set_size, set_end. cbn. same.
Qed.

Lemma space_is_end c : is_space c = true -> primitive_end links c = true /\ c <> 0.
Proof.
  unfold is_space, primitive_end. intros H. split; [| by intros ->].
  cbn [JSMN_PERMISSIVE links andb orb].
  repeat (apply orb_true_iff in H as [H | H]); rewrite H; cbn [orb];
    by rewrite ?orb_true_r.
Qed.

(** White space around a value. *)
Lemma parses_pad w1 v w2 :
  parses_value js F num_tokens v -> parses_value js F num_tokens (JPad w1 v w2).
Proof.
  intros Hv pre suf U f s e Hjs_eq (Hw1 & Hwf & Hw2) Hsuf He Hs Hf Hn.
  cbn [print ntok block category is_container ends_bare] in *.
  opose proof* (Hv (pre ++ w1) (w2 ++ suf) U f s e) as Hval; try done.
  { rewrite Hjs_eq. by flat. }
  { intros Hb. destruct w2 as [| c w2]; [by apply Hsuf |].
    apply Forall_cons in Hw2 as [Hc _]. exists c, (w2 ++ suf).
    split; [done |]. by apply space_is_end. }
  rewrite length_app in Hval.
  eapply reaches_trans.
  { apply (skip_spaces js F num_tokens Hjs HF w1 pre (print v ++ w2 ++ suf)); [| done].
    rewrite Hjs_eq. by flat. }
  eapply reaches_via; [exact Hval | |].
  2: { eapply reaches_via;
       [apply (skip_spaces js F num_tokens Hjs HF w2 (pre ++ w1 ++ print v) suf); [| done]
       | | apply reaches_here].
       - rewrite Hjs_eq. by flat.
       - apply at_state_ext; try done; lens; lia. }
  apply at_state_ext; try done; lens; try lia.
Qed.

Lemma bump_zero s U : bump 0 s U = U.
Proof. unfold bump. by rewrite orb_true_r. Qed.

Lemma parses_enil w : parses_elems js F num_tokens (ENil w).
Proof.
  intros first pre suf U f n0 tarr e Hjs_eq Hw _ _ _ _ He _ _.
  exists e. split; [by destruct first; subst |].
  cbn [print_elems ntok_elems count_elems block_elems length wf_elems] in *.
  eapply reaches_via;
    [apply (skip_spaces js F num_tokens Hjs HF w pre (RBRACKET :: suf)); done
    | | apply reaches_here].
  change (Z.of_nat 0) with 0. rewrite bump_zero.
  apply at_state_ext; try done; try lia. cbn [app]. f_equal. f_equal. lia.
Qed.

Lemma parses_mnil w : parses_members js F num_tokens (MNil w).
Proof.
  intros first pre suf U f n0 tobj sup e Hjs_eq Hw _ _ _ He _ _.
  exists sup, e. split.
  { destruct first; [by destruct He as [_ ->] | by destruct He as (? & _ & _ & _ & _ & ->)]. }
  cbn [print_members ntok_members count_members block_members length wf_members] in *.
  eapply reaches_via;
    [apply (skip_spaces js F num_tokens Hjs HF w pre (RBRACE :: suf)); done
    | | apply reaches_here].
  change (Z.of_nat 0) with 0. rewrite bump_zero.
  apply at_state_ext; try done; try lia. cbn [app]. f_equal. f_equal. lia.
Qed.
End Doc.

(** ** Elements and members *)

(** Computes the lengths of the token blocks as well. *)
Ltac blens :=
  repeat first [ rewrite (proj1 block_length) in *
               | rewrite (proj1 (proj2 block_length)) in *
               | rewrite (proj2 (proj2 block_length)) in *
               | rewrite length_app in * | rewrite length_replicate in *
               | rewrite bump_length in * | progress cbn [length] in * ].

Lemma next_byte_elems l suf :
  wf_elems l ->
  exists c suf', print_elems false l ++ RBRACKET :: suf = c :: suf' /\
                 primitive_end links c = true /\ c <> 0.
Proof.
  destruct l as [[| c w] | v l]; cbn [print_elems wf_elems app]; intros Hwf.
  - eexists _, _. split; [reflexivity |]. split; [by vm_compute | done].
  - apply Forall_cons in Hwf as [Hc _]. eexists _, _. split; [reflexivity |].
    by apply space_is_end.
  - eexists _, _. split; [reflexivity |]. split; [by vm_compute | done].
Qed.

Lemma next_byte_members m suf :
  wf_members m ->
  exists c suf', print_members false m ++ RBRACE :: suf = c :: suf' /\
                 primitive_end links c = true /\ c <> 0.
Proof.
  destruct m as [[| c w] | w1 k w2 v m]; cbn [print_members wf_members app]; intros Hwf.
  - eexists _, _. split; [reflexivity |]. split; [by vm_compute | done].
  - apply Forall_cons in Hwf as [Hc _]. eexists _, _. split; [reflexivity |].
    by apply space_is_end.
  - eexists _, _. split; [reflexivity |]. split; [by vm_compute | done].
Qed.

Section Lists.
Variable js : list Z.
Variable F : nat.
Variable num_tokens : Z.
Hypothesis Hjs : Z.of_nat (length js) < 2 ^ 32 - 1.
Hypothesis HF : (length js < F)%nat.
Hypothesis Hnum : num_tokens < 2 ^ 32.

Lemma parses_econs v l :
  parses_value js F num_tokens v -> parses_elems js F num_tokens l ->
  parses_elems js F num_tokens (ECons v l).
Proof.
  intros Hv Hl first pre suf U f n0 tarr e Hjs_eq [Hwfv Hwfl] Htarr Hnobj Hcont
    (tl & Htl & Htlv) He Hf Hn.
  cbn [print_elems ntok_elems count_elems block_elems] in *.
  pose proof (lookup_lt_Some _ _ _ Htarr) as Hn0.
  pose proof (ntok_pos v) as Hpos.
  set (cm := if first then [] else [COMMA]) in *.
  set (q := if first then length pre else S (length pre)).
  assert (Hq : length (pre ++ cm) = q) by (unfold q, cm; destruct first; lens; lia).
  set (e1 := if first then Z.lor JSMN_ANY_TYPE JSMN_CLOSE else JSMN_ANY_TYPE).
  assert (Hcomma : reaches F links js (Z.of_nat (length js)) num_tokens
            (at_state (length pre) (length U) (Z.of_nat n0) e (U ++ replicate f blank))
            (at_state (length (pre ++ cm)) (length U) (Z.of_nat n0) e1
               (U ++ replicate f blank))).
  { unfold cm, e1 in *. destruct first; subst e.
    - rewrite app_nil_r. apply reaches_here.
    - eapply reaches_via;
        [eapply (pass_comma js F num_tokens Hjs HF (length pre) U _ tl tarr (Z.of_nat n0))
        | | apply reaches_here].
      + rewrite Hjs_eq. flat. by apply list_lookup_middle.
      + by vm_compute.
      + done.
      + by apply value_type_bits.
      + lia.
      + by rewrite Nat2Z.id.
      + done.
      + lia.
      + rewrite Hcont. apply at_state_ext; try done; lens; lia. }
  opose proof* (Hv (pre ++ cm) (print_elems false l ++ RBRACKET :: suf) U f (Z.of_nat n0) e1)
    as Hval.
  { rewrite Hjs_eq. by flat. }
  { done. }
  { intros _. by apply next_byte_elems. }
  { unfold e1. by destruct (category_cases v) as [-> | [-> | [-> | ->]]], first. }
  { right. exists tarr. rewrite Nat2Z.id. split; [lia | done]. }
  { lia. }
  { lia. }
  set (U1 := bump 1 (Z.of_nat n0) U ++ block v (length U) (Z.of_nat n0) q).
  destruct (bump_lookup 1 (Z.of_nat n0) U n0 tarr Htarr) as (tarr' & Htarr' & Hty & _).
  destruct (Hl false (pre ++ cm ++ print v) suf U1 (f - ntok v)%nat n0 tarr'
              (Z.lor JSMN_DELIMITER JSMN_CLOSE)) as (e' & He' & Hrest).
  { rewrite Hjs_eq. by flat. }
  { done. }
  { by apply lookup_app_l_Some. }
  { by rewrite Hty. }
  { by rewrite Hty. }
  { destruct (proj1 block_last v (length U) (Z.of_nat n0) q) as (t & Ht & Htv).
    exists t. split; [| done]. unfold U1. by rewrite last_app, Ht. }
  { done. }
  { lia. }
  { unfold U1. blens. lia. }
  exists e'. split; [done |].
  eapply reaches_trans; [exact Hcomma |].
  eapply reaches_via;
    [exact Hval | | eapply reaches_via; [exact Hrest | | apply reaches_here]].
  - rewrite Hq. rewrite (after_value_inside (Z.of_nat n0) (Z.of_nat (length U))) by lia.
    unfold U1. apply at_state_ext; try done; blens; try lia. by flat.
  - unfold U1. rewrite bump_app by (rewrite bump_length; lia).
    rewrite bump_bump by lia.
    apply at_state_ext; try done; blens; try lia.
    flat. same.
Qed.

Lemma bump_last_at k (U : list jsmntok_t) x (n : nat) :
  length U = n -> 0 <= k < 2 ^ 32 -> Z.of_nat n < 2 ^ 32 - 1 -> tok_size x = 0 ->
  bump k (Z.of_nat n) (U ++ [x]) = U ++ [set_size x k].
Proof. intros <-. apply bump_last. Qed.

Lemma parses_mcons w1 k w2 v m :
  parses_value js F num_tokens v -> parses_members js F num_tokens m ->
  parses_members js F num_tokens (MCons w1 k w2 v m).
Proof.
  intros Hv Hm first pre suf U f n0 tobj sup e Hjs_eq (Hw1 & Hwfk & Hw2 & Hwfv & Hwfm)
    Htobj Hobj (tl & Htl & Htlv) He Hf Hn.
  cbn [print_members ntok_members count_members block_members] in *.
  pose proof (lookup_lt_Some _ _ _ Htobj) as Hn0.
  pose proof (ntok_pos v) as Hpos.
  destruct f as [| f]; [lia |].
  set (cm := if first then [] else [COMMA]) in *.
  set (q := ((if first then length pre else S (length pre)) + length w1)%nat).
  set (pk := pre ++ cm ++ w1).
  set (pv := pk ++ (QUOTE :: k ++ [QUOTE]) ++ w2 ++ [COLON]).
  assert (Hq : length pk = q) by (unfold pk, q, cm; destruct first; lens; lia).
  assert (Hpv : length pv = (q + length k + 2 + length w2 + 1)%nat)
    by (unfold pv; lens; lia).
  assert (Hq' : q = (length pre + length cm + length w1)%nat)
    by (unfold q, cm; destruct first; cbn [length]; lia).
  assert (Hlen : (length pv + length (print v) < length js)%nat).
  { rewrite Hjs_eq. unfold pv, pk. lens. lia. }
  set (e1 := if first then Z.lor JSMN_STRING JSMN_CLOSE else JSMN_ANY_TYPE).
  set (key0 := mk_tok (Z.lor JSMN_STRING JSMN_KEY) (Z.of_nat (S (length pk)))
                 (Z.of_nat (S (length pk) + length k)) 0 (Z.of_nat n0) 0).
  (* the comma *)
  assert (Hcomma : reaches F links js (Z.of_nat (length js)) num_tokens
            (at_state (length pre) (length U) sup e (U ++ replicate (S f) blank))
            (at_state (length (pre ++ cm)) (length U) (Z.of_nat n0) e1
               (U ++ replicate (S f) blank))).
  { unfold cm, e1 in *. destruct first.
    - destruct He as [-> ->]. rewrite app_nil_r. apply reaches_here.
    - destruct He as (tk & Hsup & Htk & Htkty & Htkpar & ->).
      eapply reaches_via;
        [eapply (pass_comma js F num_tokens Hjs HF (length pre) U _ tl tk sup)
        | | apply reaches_here].
      + rewrite Hjs_eq. flat. by apply list_lookup_middle.
      + by vm_compute.
      + done.
      + by apply value_type_bits.
      + done.
      + done.
      + rewrite Htkty. by vm_compute.
      + lia.
      + rewrite Htkty, Htkpar. eval_nz. apply at_state_ext; try done; lens; lia. }
  (* the white space before the key *)
  opose proof* (skip_spaces js F num_tokens Hjs HF w1 (pre ++ cm)
                  ((QUOTE :: k ++ [QUOTE]) ++ w2 ++ [COLON] ++ print v
                   ++ print_members false m ++ RBRACE :: suf)
                  (length U) (Z.of_nat n0) e1 (U ++ replicate (S f) blank)) as Hsp1.
  { rewrite Hjs_eq. by flat. }
  { done. }
  (* the key *)
  opose proof* (pass_string_key js F num_tokens Hjs HF Hnum pk k
                  (w2 ++ COLON :: print v ++ print_members false m ++ RBRACE :: suf)
                  U f n0 tobj tl e1) as Hkey.
  { rewrite Hjs_eq. unfold pk. by flat. }
  { done. }
  { unfold e1. by destruct first; vm_compute. }
  { done. }
  { done. }
  { done. }
  { by apply value_type_bits. }
  { lia. }
  fold key0 in Hkey.
  (* the white space after the key *)
  opose proof* (skip_spaces js F num_tokens Hjs HF w2 (pk ++ QUOTE :: k ++ [QUOTE])
                  (COLON :: print v ++ print_members false m ++ RBRACE :: suf)
                  (S (length U)) (Z.of_nat n0) JSMN_DELIMITER
                  (bump 1 (Z.of_nat n0) U ++ key0 :: replicate f blank)) as Hsp2.
  { rewrite Hjs_eq. unfold pk. by flat. }
  { done. }
  (* the colon *)
  opose proof* (pass_colon js F num_tokens Hjs HF
                  (length (pk ++ QUOTE :: k ++ [QUOTE]) + length w2)
                  (bump 1 (Z.of_nat n0) U) (replicate f blank) key0 (Z.of_nat n0)
                  JSMN_DELIMITER) as Hcolon.
  { replace js with (((pk ++ QUOTE :: k ++ [QUOTE]) ++ w2) ++ COLON :: print v
                     ++ print_members false m ++ RBRACE :: suf)
      by (rewrite Hjs_eq; unfold pk; by flat).
    apply list_lookup_middle. lens. lia. }
  { by vm_compute. }
  { apply (eqb_neg_false _ (Z.of_nat (length U))); lia. }
  { by vm_compute. }
  { lens. lia. }
  (* the value *)
  opose proof* (Hv pv (print_members false m ++ RBRACE :: suf)
                  (bump 1 (Z.of_nat n0) U ++ [key0]) f (Z.of_nat (length U)) JSMN_ANY_TYPE)
    as Hval.
  { rewrite Hjs_eq. unfold pv, pk. by flat. }
  { done. }
  { intros _. by apply next_byte_members. }
  { by destruct (category_cases v) as [-> | [-> | [-> | ->]]]. }
  { right. exists key0. rewrite Nat2Z.id. split; [lia |]. split; [| by vm_compute].
    apply list_lookup_middle. by rewrite bump_length. }
  { lia. }
  { lens. lia. }
  rewrite (bump_last_at 1 (bump 1 (Z.of_nat n0) U) key0 (length U)) in Hval
    by (first [apply bump_length | done | lia]).
  (* the members after *)
  set (key1 := mk_tok (Z.lor JSMN_STRING JSMN_KEY) (Z.of_nat (S q))
                 (Z.of_nat (S q + length k)) 1 (Z.of_nat n0) 0).
  set (U3 := bump 1 (Z.of_nat n0) U
             ++ key1 :: block v (S (length U)) (Z.of_nat (length U))
                          (q + length k + 2 + length w2 + 1)).
  destruct (bump_lookup 1 (Z.of_nat n0) U n0 tobj Htobj) as (tobj' & Htobj' & Hty & _).
  destruct (Hm false (pv ++ print v) suf U3
              (f - ntok v)%nat n0 tobj' (Z.of_nat (length U))
              (Z.lor JSMN_DELIMITER JSMN_CLOSE)) as (sup' & e' & He' & Hrest).
  { rewrite Hjs_eq. unfold pv, pk. by flat. }
  { done. }
  { by apply lookup_app_l_Some. }
  { by rewrite Hty. }
  { destruct (proj1 block_last v (S (length U)) (Z.of_nat (length U))
                (q + length k + 2 + length w2 + 1)%nat) as (t & Ht & Htv).
    exists t. split; [| done]. unfold U3. by rewrite last_app, last_cons, Ht. }
  { exists key1. rewrite Nat2Z.id. split; [lia |]. split; [| done].
    unfold U3. apply list_lookup_middle. by rewrite bump_length. }
  { lia. }
  { unfold U3. blens. lia. }
  exists sup', e'. split; [done |].
  eapply reaches_trans; [exact Hcomma |].
  eapply reaches_via;
    [exact Hsp1 | |
     eapply reaches_via;
     [exact Hkey | |
      eapply reaches_via;
      [exact Hsp2 | |
       eapply reaches_via;
       [exact Hcolon | |
        eapply reaches_via;
        [exact Hval | | eapply reaches_via; [exact Hrest | | apply reaches_here]]]]]].
  - unfold pk. apply at_state_ext; try done; blens; lia.
  - unfold pk. apply at_state_ext; try done; blens; lia.
  - apply at_state_ext; try done; blens; lia.
  - apply at_state_ext; try done; blens; try lia. by flat.
  - rewrite (after_value_inside (Z.of_nat (length U)) (Z.of_nat (S (length U)))) by lia.
    unfold U3, key0, key1, set_size.
    cbn [tok_type tok_start tok_end tok_parent tok_next_sibling].
    rewrite Hq, Hpv.
    apply at_state_ext; try done; blens; try lia.
    flat. same.
  - unfold U3. rewrite bump_app by (rewrite bump_length; lia).
    rewrite bump_bump by lia.
    apply at_state_ext; try done; blens; try lia.
    flat. unfold key1. same.
Qed.
End Lists.

(** ** The whole document *)

Lemma parses_all js F num_tokens :
  Z.of_nat (length js) < 2 ^ 32 - 1 -> (length js < F)%nat -> num_tokens < 2 ^ 32 ->
  (forall v, parses_value js F num_tokens v) /\
  (forall l, parses_elems js F num_tokens l) /\
  (forall m, parses_members js F num_tokens m).
Proof.
  intros Hjs HF Hnum. apply json_elems_members_ind.
  - intros b. by apply parses_prim.
  - intros b. by apply parses_str.
  - intros l IH. by apply parses_arr.
  - intros m IH. by apply parses_obj.
  - intros w1 v IH w2. by apply parses_pad.
  - intros w. by apply parses_enil.
  - intros v IHv l IHl. by apply parses_econs.
  - intros w. by apply parses_mnil.
  - intros w1 k w2 v IHv m IHm. by apply parses_mcons.
Qed.

Lemma find_open_closed tokens k :
  (forall i, (i < k)%nat -> exists t, tokens !! i = Some t /\ is_open t = false) ->
  find_open tokens k = Done None.
Proof.
  induction k as [| k IH]; intros H; [done |].
  destruct (H k) as (t & Ht & Hclosed); [lia |].
  cbn [find_open]. unfold tok_get. rewrite Nat2Z.id, Ht. cbn [bind]. rewrite Hclosed.
  apply IH. intros i Hi. apply H. lia.
Qed.

Lemma container_not_bare v : is_container v = true -> ends_bare v = false.
Proof.
  induction v as [| | | | w1 v IH w2]; cbn [is_container ends_bare]; try done.
  intros H. destruct w2; [by apply IH | done].
Qed.

(** The strict parser with parent links reads a document whose top is a
    container in one call, given a pool of blank slots that is large
    enough. *)
Lemma parse_document v (n : nat) :
  wf v -> is_container v = true ->
  Z.of_nat (length (print v)) < 2 ^ 32 - 1 ->
  (ntok v <= n)%nat -> Z.of_nat n < 2 ^ 32 ->
  exists fuel0, forall fuel, (fuel0 <= fuel)%nat ->
    jsmn_parse fuel links (jsmn_init links) (print v) (Z.of_nat (length (print v)))
      (pool n) (Z.of_nat n)
    = Done (Count (Z.of_nat (ntok v)),
            mk_parser (Z.of_nat (length (print v))) (Z.of_nat (ntok v)) JSMN_NEG
              JSMN_CONTAINER,
            Some (block v 0 JSMN_NEG 0 ++ replicate (n - ntok v) blank)).
Proof.
  intros Hwf Hc Hlen Hn Hmax.
  opose proof* (proj1 (parses_all (print v) (S (length (print v))) (Z.of_nat n) _ _ _)
                  v [] [] [] n JSMN_NEG JSMN_CONTAINER) as Hreach;
    try done; try lia.
  { cbn [app]. by rewrite app_nil_r. }
  { intros H. by rewrite (container_not_bare v Hc) in H. }
  { by destruct (category_container v Hc) as [-> | ->]. }
  { by left. }
  { cbn [length]. lia. }
  apply reaches_loop in Hreach as [k Hk].
  exists (S (k + length (print v))). intros fuel Hfuel.
  unfold jsmn_parse.
  eapply refines_done;
    [apply (jsmn_loop_fuel (k + 1) fuel (S (length (print v))) fuel); lia |].
  apply Hk. cbn [at_state it_parser it_tokens it_count jsmn_loop pos length Nat.add].
  rewrite Z.ltb_irrefl. cbn [jsmn_finish toknext].
  rewrite Nat2Z.id, find_open_closed; [done |].
  intros i Hi. change (bump 1 JSMN_NEG []) with (@nil jsmntok_t). cbn [app].
  destruct (lookup_lt_is_Some_2 (block v 0 JSMN_NEG 0) i) as [t Ht];
    [by rewrite (proj1 block_length) |].
  exists t. split; [by apply lookup_app_l_Some |].
  eapply (Forall_lookup_1 _ _ _ _ (proj1 block_closed v 0%nat JSMN_NEG 0%nat Hlen) Ht).
Qed.

(** ** Following the parent links *)

Lemma depths_length :
  (forall v d, length (depths v d) = ntok v) /\
  (forall l d, length (depths_elems l d) = ntok_elems l) /\
  (forall m d, length (depths_members m d) = ntok_members m).
Proof.
  apply json_elems_members_ind; intros; cbn [depths depths_elems depths_members ntok
    ntok_elems ntok_members length]; rewrite ?length_app; cbn [length]; auto.
Qed.

Lemma parent_walk_S fuel tokens i :
  parent_walk (S fuel) tokens i
  = match tokens !! Z.to_nat i with
    | None => None
    | Some t =>
      if tok_parent t =? JSMN_NEG then Some (i, O)
      else
        match parent_walk fuel tokens (tok_parent t) with
        | Some (r, d) => Some (r, S d)
        | None => None
        end
    end.
Proof. reflexivity. Qed.

Lemma parent_walk_step T i t r d :
  T !! i = Some t -> tok_parent t <> JSMN_NEG ->
  parent_walk (S d) T (tok_parent t) = Some (r, d) ->
  parent_walk (S (S d)) T (Z.of_nat i) = Some (r, S d).
Proof.
  intros Ht Hp Hw. rewrite parent_walk_S, Nat2Z.id, Ht.
  apply Z.eqb_neq in Hp. by rewrite Hp, Hw.
Qed.

Lemma index_not_neg (T : list jsmntok_t) i t :
  T !! i = Some t -> Z.of_nat (length T) < 2 ^ 32 -> Z.of_nat i <> JSMN_NEG.
Proof. intros Ht Hmax. apply lookup_lt_Some in Ht. rewrite neg_value. lia. Qed.

(** The tokens of a document that lies in a pool, below a token from which
    the walk takes [d] steps, are at the depths of the document. *)
Lemma walk_block :
  (forall v n s q T d r,
     (forall j t, block v n s q !! j = Some t -> T !! (n + j)%nat = Some t) ->
     Z.of_nat (length T) < 2 ^ 32 -> s <> JSMN_NEG ->
     parent_walk (S d) T s = Some (r, d) ->
     forall j dj, depths v (S d) !! j = Some dj ->
       parent_walk (S dj) T (Z.of_nat (n + j)) = Some (r, dj)) /\
  (forall l first n s q T d r,
     (forall j t, block_elems first l n s q !! j = Some t -> T !! (n + j)%nat = Some t) ->
     Z.of_nat (length T) < 2 ^ 32 -> s <> JSMN_NEG ->
     parent_walk (S d) T s = Some (r, d) ->
     forall j dj, depths_elems l (S d) !! j = Some dj ->
       parent_walk (S dj) T (Z.of_nat (n + j)) = Some (r, dj)) /\
  (forall m first n s q T d r,
     (forall j t, block_members first m n s q !! j = Some t -> T !! (n + j)%nat = Some t) ->
     Z.of_nat (length T) < 2 ^ 32 -> s <> JSMN_NEG ->
     parent_walk (S d) T s = Some (r, d) ->
     forall j dj, depths_members m (S d) !! j = Some dj ->
       parent_walk (S dj) T (Z.of_nat (n + j)) = Some (r, dj)).
Proof.
  apply json_elems_members_ind.
  - intros b n s q T d r HT Hmax Hs Hw j dj Hj.
    destruct j as [| j]; [| done]. cbn in Hj. inversion Hj; subst dj.
    eapply parent_walk_step; [by apply HT | done | done].
  - intros b n s q T d r HT Hmax Hs Hw j dj Hj.
    destruct j as [| j]; [| done]. cbn in Hj. inversion Hj; subst dj.
    eapply parent_walk_step; [by apply HT | done | done].
  - intros l IH n s q T d r HT Hmax Hs Hw j dj Hj.
    cbn [block depths] in *.
    pose proof (HT 0%nat _ eq_refl) as H0. rewrite Nat.add_0_r in H0.
    assert (Htop : parent_walk (S (S d)) T (Z.of_nat n) = Some (r, S d))
      by (eapply parent_walk_step; [exact H0 | done | done]).
    destruct j as [| j]; cbn in Hj.
    + inversion Hj; subst dj. by rewrite Nat.add_0_r.
    + replace (n + S j)%nat with (S n + j)%nat by lia.
      eapply (IH true (S n) (Z.of_nat n) (S q) T (S d) r); try done.
      * intros i t Hi. replace (S n + i)%nat with (n + S i)%nat by lia. by apply HT.
      * eapply index_not_neg; [exact H0 | done].
  - intros m IH n s q T d r HT Hmax Hs Hw j dj Hj.
    cbn [block depths] in *.
    pose proof (HT 0%nat _ eq_refl) as H0. rewrite Nat.add_0_r in H0.
    assert (Htop : parent_walk (S (S d)) T (Z.of_nat n) = Some (r, S d))
      by (eapply parent_walk_step; [exact H0 | done | done]).
    destruct j as [| j]; cbn in Hj.
    + inversion Hj; subst dj. by rewrite Nat.add_0_r.
    + replace (n + S j)%nat with (S n + j)%nat by lia.
      eapply (IH true (S n) (Z.of_nat n) (S q) T (S d) r); try done.
      * intros i t Hi. replace (S n + i)%nat with (n + S i)%nat by lia. by apply HT.
      * eapply index_not_neg; [exact H0 | done].
  - intros w1 v IH w2 n s q T d r HT Hmax Hs Hw j dj Hj. cbn [block depths] in *.
    by eapply IH.
  - intros w first n s q T d r _ _ _ _ j dj Hj. by destruct j.
  - intros v IHv l IHl first n s q T d r HT Hmax Hs Hw j dj Hj.
    cbn [block_elems depths_elems] in *.
    apply lookup_app_Some in Hj as [Hj | [Hge Hj]].
    + eapply IHv; try done. intros i t Hi. apply HT. by apply lookup_app_l_Some.
    + rewrite (proj1 depths_length) in Hge, Hj.
      replace (n + j)%nat with (n + ntok v + (j - ntok v))%nat by lia.
      eapply IHl; try done. intros i t Hi.
      replace (n + ntok v + i)%nat with (n + (ntok v + i))%nat by lia. apply HT.
      rewrite lookup_app_r by (rewrite (proj1 block_length); lia).
      rewrite (proj1 block_length). by replace (ntok v + i - ntok v)%nat with i by lia.
  - intros w first n s q T d r _ _ _ _ j dj Hj. by destruct j.
  - intros w1 k w2 v IHv m IHm first n s q T d r HT Hmax Hs Hw j dj Hj.
    cbn [block_members depths_members] in *.
    pose proof (HT 0%nat _ eq_refl) as H0. rewrite Nat.add_0_r in H0.
    assert (Hkey : parent_walk (S (S d)) T (Z.of_nat n) = Some (r, S d))
      by (eapply parent_walk_step; [exact H0 | done | done]).
    destruct j as [| j]; cbn in Hj.
    { inversion Hj; subst dj. by rewrite Nat.add_0_r. }
    apply lookup_app_Some in Hj as [Hj | [Hge Hj]].
    + replace (n + S j)%nat with (S n + j)%nat by lia.
      eapply (IHv (S n) (Z.of_nat n) _ T (S d) r); try done.
      * intros i t Hi. replace (S n + i)%nat with (n + S i)%nat by lia. apply HT.
        cbn. by apply lookup_app_l_Some.
      * eapply index_not_neg; [exact H0 | done].
    + rewrite (proj1 depths_length) in Hge, Hj.
      replace (n + S j)%nat with (S n + ntok v + (j - ntok v))%nat by lia.
      eapply IHm; try done. intros i t Hi.
      replace (S n + ntok v + i)%nat with (n + S (ntok v + i))%nat by lia. apply HT.
      cbn. eapply eq_trans; [apply lookup_app_r; rewrite (proj1 block_length); lia |].
      rewrite (proj1 block_length). by replace (ntok v + i - ntok v)%nat with i by lia.
Qed.

(** The top token of a document has no parent. *)
Lemma block_top v :
  is_container v = true -> forall q R,
  exists top, (block v 0 JSMN_NEG q ++ R) !! 0%nat = Some top /\ tok_parent top = JSMN_NEG.
Proof.
  induction v as [| | | | w1 v IH w2]; cbn [is_container block]; try done; intros Hc q R.
  - eexists. split; reflexivity.
  - eexists. split; reflexivity.
  - by apply IH.
Qed.

(** From each token of a document on top of a pool the walk ends at token
    0, after as many steps as containers and keys lie around the token. *)
Lemma walk_document v :
  is_container v = true -> forall q R j,
  Z.of_nat (ntok v + length R) < 2 ^ 32 -> (j < ntok v)%nat ->
  exists dj, depths v 0 !! j = Some dj /\
             parent_walk (S dj) (block v 0 JSMN_NEG q ++ R) (Z.of_nat j) = Some (0, dj).
Proof.
  induction v as [| | l | m | w1 v IH w2]; cbn [is_container]; try done;
    intros Hc q R j Hmax Hj.
  - destruct (lookup_lt_is_Some_2 (depths (JArr l) 0) j) as [dj Hdj];
      [by rewrite (proj1 depths_length) |].
    exists dj. split; [done |].
    assert (Hlen : Z.of_nat (length (block (JArr l) 0 JSMN_NEG q ++ R)) < 2 ^ 32)
      by (rewrite length_app, (proj1 block_length); lia).
    cbn [block depths] in *.
    destruct j as [| j]; cbn in Hdj; [by inversion Hdj |].
    change (Z.of_nat (S j)) with (Z.of_nat (1 + j)).
    eapply (proj1 (proj2 walk_block) l true 1%nat 0 (S q) _ 0%nat 0); try done.
    intros i t Hi. cbn. by apply lookup_app_l_Some.
  - destruct (lookup_lt_is_Some_2 (depths (JObj m) 0) j) as [dj Hdj];
      [by rewrite (proj1 depths_length) |].
    exists dj. split; [done |].
    assert (Hlen : Z.of_nat (length (block (JObj m) 0 JSMN_NEG q ++ R)) < 2 ^ 32)
      by (rewrite length_app, (proj1 block_length); lia).
    cbn [block depths] in *.
    destruct j as [| j]; cbn in Hdj; [by inversion Hdj |].
    change (Z.of_nat (S j)) with (Z.of_nat (1 + j)).
    eapply (proj2 (proj2 walk_block) m true 1%nat 0 (S q) _ 0%nat 0); try done.
    intros i t Hi. cbn. by apply lookup_app_l_Some.
  - cbn [depths block ntok] in *. by apply IH.
Qed.

(** ** C9: the parent links *)




(** * Further properties of the parser *)

(** ** The count that is returned *)

(** A pass returns nothing but an error. *)
Lemma jsmn_step_return fuel cfg js len num_tokens parser tokens count c r p t :
  jsmn_step fuel cfg js len num_tokens parser tokens count c = Done (Return r p t) ->
  exists e, r = Err e.
Proof.
  unfold jsmn_step. intros H.
  destruct ((c =? 123) || (c =? 91)).
  { unfold parse_open in H. run_inv_all; eauto. }
  destruct ((c =? 125) || (c =? 93)); [apply parse_close_inval in H; eauto |].
  destruct (c =? 34).
  { apply bind_done in H as ([[r' p'] t'] & _ & H).
    apply after_scalar_return in H as (-> & _). eauto. }
  destruct (is_space c); [done |].
  destruct (c =? 58); [apply parse_colon_inval in H; eauto |].
  destruct (c =? 44); [apply parse_comma_inval in H; eauto |].
  destruct (JSMN_PERMISSIVE cfg || primitive_start c); [| simplify_eq; eauto].
  apply bind_done in H as ([[r' p'] t'] & _ & H).
  apply after_scalar_return in H as (-> & _). eauto.
Qed.

(** When the loop returns a count with a pool, the count is [toknext], the
    loop stopped at the end of the input or on a null byte, and the code
    after the loop found no open token. *)
Lemma jsmn_loop_count n fuel cfg js len num_tokens parser toks count k p t :
  count = toknext parser ->
  jsmn_loop n fuel cfg js len num_tokens parser (Some toks) count = Done (Count k, p, t) ->
  k = toknext p /\ is_Some t /\
  jsmn_finish p t k = Done (Count k, p, t) /\
  ((pos p <? len) = false \/ ((pos p <? len) = true /\ js_at js (pos p) = Done 0)).
Proof.
  revert parser toks count. induction n as [| n IH]; intros parser toks count Hc H; [done |].
  cbn [jsmn_loop] in H.
  assert (Hfin : jsmn_finish parser (Some toks) count = Done (Count k, p, t) ->
                 k = toknext p /\ is_Some t /\ jsmn_finish p t k = Done (Count k, p, t) /\
                 p = parser).
  { intros Hf. pose proof Hf as Hf'. unfold jsmn_finish in Hf. run_inv Hf; simplify_eq.
    by eauto. }
  destruct (pos parser <? len) eqn:Hlt.
  - destruct (js_at js (pos parser)) as [c | |] eqn:Hat; [| done..]. cbn [bind] in H.
    destruct (c =? 0) eqn:Hnul.
    + apply Z.eqb_eq in Hnul as ->. destruct (Hfin H) as (? & ? & ? & ->). by eauto 10.
    + destruct (jsmn_step fuel cfg js len num_tokens parser (Some toks) count c)
        as [[p' t' c' | r p' t'] | |] eqn:Hstep; [| | done..]; cbn [bind] in H.
      * destruct (jsmn_step_count _ _ _ _ _ _ _ _ _ _ _ _ Hstep Hc) as [-> [toks' ->]].
        eapply IH; [| exact H]. done.
      * apply jsmn_step_return in Hstep as [e ->]. by simplify_eq.
  - destruct (Hfin H) as (? & ? & ? & ->). by eauto.
Qed.

(** X1. With a pool, the number [jsmn_parse] returns is [parser->toknext]:
    the number of tokens of the pool that are filled in, those of earlier
    calls included. *)
Theorem count_is_toknext (fuel : nat) (cfg : config) (parser : jsmn_parser) (js : list Z)
    (len : Z) (toks : list jsmntok_t) (num_tokens : Z) (k : Z) (p : jsmn_parser)
    (t : option (list jsmntok_t)) :
  jsmn_parse fuel cfg parser js len (Some toks) num_tokens = Done (Count k, p, t) ->
  k = toknext p.
Proof. intros H. by eapply jsmn_loop_count in H as (? & _). Qed.

Lemma count_is_toknext_witness :
  2 = toknext (mk_parser 3 2 JSMN_NEG JSMN_CONTAINER).
Proof.
  apply (count_is_toknext 4 (strict false false) (jsmn_init (strict false false))
           (js_of "[1]") 3 [blank; blank] 2 2 _
           (Some [mk_tok 34 0 3 1 0 0; mk_tok 40 1 2 0 0 0])).
  vm_compute. reflexivity.
Defined.

(** X2. After [jsmn_parse] has returned a count with a pool, a second call
    with the same arguments returns the same count and changes neither the
    parser nor the pool. *)
Theorem parse_again_same (fuel fuel' : nat) (cfg : config) (parser : jsmn_parser)
    (js : list Z) (len : Z) (toks : list jsmntok_t) (num_tokens : Z) (k : Z)
    (p : jsmn_parser) (t : option (list jsmntok_t)) :
  jsmn_parse fuel cfg parser js len (Some toks) num_tokens = Done (Count k, p, t) ->
  jsmn_parse (S fuel') cfg p js len t num_tokens = Done (Count k, p, t).
Proof.
  intros H. apply jsmn_loop_count in H as (-> & _ & Hfin & Hend); [| done].
  unfold jsmn_parse. cbn [jsmn_loop].
  destruct Hend as [-> | [-> ->]]; [done |]. cbn [bind]. by rewrite Z.eqb_refl.
Qed.

Lemma parse_again_same_witness :
  jsmn_parse (S 0) (strict false false) (mk_parser 3 2 JSMN_NEG JSMN_CONTAINER)
    (js_of "[1]") 3 (Some [mk_tok 34 0 3 1 0 0; mk_tok 40 1 2 0 0 0]) 2
  = Done (Count 2, mk_parser 3 2 JSMN_NEG JSMN_CONTAINER,
          Some [mk_tok 34 0 3 1 0 0; mk_tok 40 1 2 0 0 0]).
Proof.
  apply (parse_again_same 4 0 (strict false false) (jsmn_init (strict false false))
           (js_of "[1]") 3 [blank; blank] 2).
  vm_compute. reflexivity.
Defined.

(** ** The top level of the input *)

(** At the top level, white space and commas leave the parser as it is. *)
Lemma jsmn_step_skip fuel cfg js len num_tokens parser tokens count c :
  toksuper parser = JSMN_NEG -> is_space c = true \/ c = COMMA ->
  jsmn_step fuel cfg js len num_tokens parser tokens count c
  = Done (Next parser tokens count).
Proof.
  intros Hs [Hc | ->]; unfold jsmn_step.
  - destruct (space_dispatch _ Hc) as (-> & -> & ->). by rewrite Hc.
  - cbn. unfold parse_comma. destruct tokens; [| done]. by rewrite Hs.
Qed.

Lemma jsmn_loop_skip (w pre rest : list Z) n fuel cfg len num_tokens parser tokens count :
  Forall (fun c => is_space c = true \/ c = COMMA) w ->
  toksuper parser = JSMN_NEG -> pos parser = Z.of_nat (length pre) ->
  Z.of_nat (length pre + length w) <= len -> Z.of_nat (length pre + length w) < 2 ^ 32 ->
  jsmn_loop (length w + n) fuel cfg (pre ++ w ++ rest) len num_tokens parser tokens count
  = jsmn_loop n fuel cfg (pre ++ w ++ rest) len num_tokens
      (set_pos parser (Z.of_nat (length pre + length w))) tokens count.
Proof.
  revert pre parser. induction w as [| c w IH]; intros pre parser Hw Hs Hp Hlen Hmax.
  - cbn [length Nat.add app]. rewrite Nat.add_0_r, <- Hp. by rewrite set_pos_same.
  - apply Forall_cons in Hw as [Hc Hw]. cbn [length] in *. cbn [Nat.add jsmn_loop].
    assert ((pos parser <? len) = true) as -> by (apply Z.ltb_lt; lia).
    rewrite Hp. cbn [app]. rewrite js_at_app. cbn [bind].
    assert ((c =? 0) = false) as ->.
    { destruct Hc as [Hc | ->]; [| done]. by destruct (space_is_end c Hc) as [_ ?%Z.eqb_neq]. }
    rewrite jsmn_step_skip by done. cbn [bind].
    rewrite Hp, wrap_succ_nat by lia.
    specialize (IH (pre ++ [c]) (set_pos parser (Z.of_nat (S (length pre))))).
    rewrite length_app in IH. cbn [length] in IH.
    rewrite <- !app_assoc in IH. cbn [app] in IH.
    rewrite IH; [| done | done | cbn; lia | lia | lia].
    rewrite set_pos_set_pos. do 2 f_equal. lia.
Qed.

(** X3. An input made of white space and commas only (the empty input
    included): [jsmn_parse] on a fresh parser returns 0 with the cursor at
    the end, in both dialects, with or without a pool, which it leaves as
    it is. *)
Theorem blank_input_is_zero (cfg : config) (w : list Z)
    (tokens : option (list jsmntok_t)) (num_tokens : Z) (k : nat) :
  Forall (fun c => is_space c = true \/ c = COMMA) w ->
  Z.of_nat (length w) < 2 ^ 32 ->
  jsmn_parse (length w + S k) cfg (jsmn_init cfg) w (Z.of_nat (length w)) tokens num_tokens
  = Done (Count 0, set_pos (jsmn_init cfg) (Z.of_nat (length w)), tokens).
Proof.
  intros Hw Hmax. unfold jsmn_parse. change (toknext (jsmn_init cfg)) with 0.
  pose proof (jsmn_loop_skip w [] [] (S k) (length w + S k) cfg (Z.of_nat (length w))
                num_tokens (jsmn_init cfg) tokens 0 Hw eq_refl eq_refl) as H.
  cbn [app length Nat.add] in H. rewrite app_nil_r in H. rewrite H by lia.
  cbn [jsmn_loop pos set_pos]. rewrite Z.ltb_irrefl. by destruct tokens.
Qed.

Lemma blank_input_is_zero_witness :
  jsmn_parse (length [32; 44; 10] + S 0) (strict true true) (jsmn_init (strict true true))
    [32; 44; 10] (Z.of_nat (length [32; 44; 10])) (pool 2) 2
  = Done (Count 0, set_pos (jsmn_init (strict true true)) (Z.of_nat (length [32; 44; 10])),
          pool 2).
Proof.
  apply (blank_input_is_zero (strict true true) [32; 44; 10] (pool 2) 2 0).
  - repeat first [apply Forall_nil_2 | apply Forall_cons_2; [first [by left | by right] |]].
  - vm_compute. reflexivity.
Defined.

(** In the strict dialect the top level takes containers only: on any
    other byte the pass returns [JSMN_ERROR_INVAL]. *)
Lemma jsmn_step_top_inval fuel cfg js len num_tokens parser toks count c :
  JSMN_PERMISSIVE cfg = false ->
  toksuper parser = JSMN_NEG -> expected parser = JSMN_CONTAINER ->
  is_space c = false -> c <> COMMA -> c <> LBRACE -> c <> LBRACKET ->
  jsmn_step fuel cfg js len num_tokens parser (Some toks) count c
  = Done (Return (Err JSMN_ERROR_INVAL) parser (Some toks)).
Proof.
  intros Hcfg Hs He Hsp H44 H123 H91. unfold jsmn_step.
  apply Z.eqb_neq in H44, H123, H91. rewrite H123, H91, Hsp, H44, Hcfg. cbn [orb].
  destruct ((c =? 125) || (c =? 93)).
  { unfold parse_close, jsmn_is_expected. by rewrite He. }
  destruct (c =? 34).
  { unfold jsmn_parse_string, jsmn_is_expected. by rewrite He. }
  destruct (c =? 58).
  { unfold parse_colon, jsmn_is_expected. by rewrite He. }
  destruct (primitive_start c); [| done].
  unfold jsmn_parse_primitive, jsmn_is_expected. by rewrite He.
Qed.

(** X4. In the strict dialect, with a pool, a parser that is at the top
    level (fresh, or after a complete document) skips white space and
    commas and then takes an opening bracket only: on any other byte
    [jsmn_parse] returns [JSMN_ERROR_INVAL] with the cursor on that byte, and
    the pool is as it was. *)
Theorem top_level_takes_containers_only (cfg : config) (parser : jsmn_parser)
    (pre w rest : list Z) (c : Z) (len : Z) (toks : list jsmntok_t) (num_tokens : Z)
    (k : nat) :
  JSMN_PERMISSIVE cfg = false ->
  toksuper parser = JSMN_NEG -> expected parser = JSMN_CONTAINER ->
  pos parser = Z.of_nat (length pre) ->
  Forall (fun c => is_space c = true \/ c = COMMA) w ->
  is_space c = false -> c <> COMMA -> c <> LBRACE -> c <> LBRACKET -> c <> NUL ->
  Z.of_nat (length pre + length w) < len -> len <= 2 ^ 32 ->
  jsmn_parse (length w + S k) cfg parser (pre ++ w ++ c :: rest) len (Some toks) num_tokens
  = Done (Err JSMN_ERROR_INVAL, set_pos parser (Z.of_nat (length pre + length w)),
          Some toks).
Proof.
  intros Hcfg Hs He Hp Hw Hsp H44 H123 H91 H0 Hlen Hmax. unfold jsmn_parse.
  rewrite jsmn_loop_skip by (done || lia).
  cbn [jsmn_loop pos set_pos].
  assert ((Z.of_nat (length pre + length w) <? len) = true) as -> by (apply Z.ltb_lt; lia).
  rewrite app_assoc, <- length_app, js_at_app. cbn [bind].
  apply Z.eqb_neq in H0. rewrite H0.
  by rewrite jsmn_step_top_inval.
Qed.

Lemma top_level_takes_containers_only_witness :
  jsmn_parse (length [32; 44] + S 0) (strict true false) (jsmn_init (strict true false))
    ([] ++ [32; 44] ++ 49 :: [44; 50]) 5 (Some [blank; blank]) 2
  = Done (Err JSMN_ERROR_INVAL,
          set_pos (jsmn_init (strict true false)) (Z.of_nat (length (@nil Z) + length [32; 44])),
          Some [blank; blank]).
Proof.
  apply (top_level_takes_containers_only (strict true false) (jsmn_init (strict true false))
           [] [32; 44] [44; 50] 49 5 [blank; blank] 2 0);
    try reflexivity; try discriminate; try lia.
  repeat first [apply Forall_nil_2 | apply Forall_cons_2; [first [by left | by right] |]].
Defined.

(** ** The tokens of a well-formed document *)

Lemma slice_middle (pre x suf : list Z) (a b : Z) :
  a = Z.of_nat (length pre) -> b = Z.of_nat (length pre + length x) ->
  slice (pre ++ x ++ suf) a b = x.
Proof.
  intros -> ->. unfold slice.
  replace (Z.to_nat (Z.of_nat (length pre + length x) - Z.of_nat (length pre)))
    with (length x) by lia.
  rewrite Nat2Z.id, drop_app_length. by rewrite take_app_length.
Qed.

(** The tokens of [block] span the bytes of [outline]. *)
Lemma block_view :
  (forall v n s q pre suf, q = length pre ->
     map (view (pre ++ print v ++ suf)) (block v n s q) = outline v) /\
  (forall l first n s q pre suf, q = length pre ->
     map (view (pre ++ print_elems first l ++ suf)) (block_elems first l n s q)
     = outline_elems l) /\
  (forall m first n s q pre suf, q = length pre ->
     map (view (pre ++ print_members first m ++ suf)) (block_members first m n s q)
     = outline_members m).
Proof.
  apply json_elems_members_ind.
  - intros b n s q pre suf ->. cbn [block outline print map]. unfold view.
    cbn [tok_type tok_start tok_end tok_size]. by rewrite slice_middle.
  - intros b n s q pre suf ->. cbn [block outline print map]. unfold view.
    cbn [tok_type tok_start tok_end tok_size].
    replace (pre ++ (QUOTE :: b ++ [QUOTE]) ++ suf) with ((pre ++ [QUOTE]) ++ b ++ QUOTE :: suf)
      by (by flat).
    rewrite slice_middle; [done | lens; lia | lens; lia].
  - intros l IH n s q pre suf ->. cbn [block outline map]. f_equal.
    + unfold view. cbn [tok_type tok_start tok_end tok_size].
      rewrite slice_middle; [done | done | cbn [print]; lens; lia].
    + cbn [print].
      replace (pre ++ (LBRACKET :: print_elems true l ++ [RBRACKET]) ++ suf)
        with ((pre ++ [LBRACKET]) ++ print_elems true l ++ RBRACKET :: suf) by (by flat).
      apply IH. lens. lia.
  - intros m IH n s q pre suf ->. cbn [block outline map]. f_equal.
    + unfold view. cbn [tok_type tok_start tok_end tok_size].
      rewrite slice_middle; [done | done | cbn [print]; lens; lia].
    + cbn [print].
      replace (pre ++ (LBRACE :: print_members true m ++ [RBRACE]) ++ suf)
        with ((pre ++ [LBRACE]) ++ print_members true m ++ RBRACE :: suf) by (by flat).
      apply IH. lens. lia.
  - intros w1 v IH w2 n s q pre suf ->. cbn [block outline print].
    replace (pre ++ (w1 ++ print v ++ w2) ++ suf) with ((pre ++ w1) ++ print v ++ w2 ++ suf)
      by (by flat).
    apply IH. lens. lia.
  - done.
  - intros v IHv l IHl first n s q pre suf ->. cbn [block_elems outline_elems print_elems].
    rewrite map_app. f_equal.
    + replace (pre ++ ((if first then [] else [COMMA]) ++ print v ++ print_elems false l)
               ++ suf)
        with ((pre ++ (if first then [] else [COMMA])) ++ print v
              ++ print_elems false l ++ suf) by (by flat).
      apply IHv. destruct first; lens; lia.
    + replace (pre ++ ((if first then [] else [COMMA]) ++ print v ++ print_elems false l)
               ++ suf)
        with ((pre ++ (if first then [] else [COMMA]) ++ print v)
              ++ print_elems false l ++ suf) by (by flat).
      apply IHl. destruct first; lens; lia.
  - done.
  - intros w1 k w2 v IHv m IHm first n s q pre suf ->.
    cbn [block_members outline_members print_members map].
    set (cm := if first then [] else [COMMA]).
    assert (Hcm : ((if first then length pre else S (length pre)) = length pre + length cm)%nat)
      by (unfold cm; destruct first; cbn [length]; lia).
    rewrite Hcm. f_equal; [| rewrite map_app; f_equal].
    + unfold view. cbn [tok_type tok_start tok_end tok_size].
      replace (pre ++ (cm ++ w1 ++ (QUOTE :: k ++ [QUOTE]) ++ w2 ++ [COLON] ++ print v
                       ++ print_members false m) ++ suf)
        with ((pre ++ cm ++ w1 ++ [QUOTE]) ++ k
              ++ (QUOTE :: w2 ++ [COLON] ++ print v ++ print_members false m ++ suf))
        by (by flat).
      rewrite slice_middle; [done | lens; lia | lens; lia].
    + replace (pre ++ (cm ++ w1 ++ (QUOTE :: k ++ [QUOTE]) ++ w2 ++ [COLON] ++ print v
                       ++ print_members false m) ++ suf)
        with ((pre ++ cm ++ w1 ++ (QUOTE :: k ++ [QUOTE]) ++ w2 ++ [COLON]) ++ print v
              ++ print_members false m ++ suf) by (by flat).
      apply IHv. lens. lia.
    + replace (pre ++ (cm ++ w1 ++ (QUOTE :: k ++ [QUOTE]) ++ w2 ++ [COLON] ++ print v
                       ++ print_members false m) ++ suf)
        with ((pre ++ cm ++ w1 ++ (QUOTE :: k ++ [QUOTE]) ++ w2 ++ [COLON] ++ print v)
              ++ print_members false m ++ suf) by (by flat).
      apply IHm. lens. lia.
Qed.



(** ** The scanners inside the buffer *)

Lemma js_at_in js p :
  0 <= p < Z.of_nat (length js) -> exists c, js_at js p = Done c.
Proof.
  intros Hp. unfold js_at.
  destruct (lookup_lt_is_Some_2 js (Z.to_nat p)) as [c Hc]; [lia |]. rewrite Hc. eauto.
Qed.

(** The loop over the hex digits stays between its start and [len]. *)
Lemma hex_loop_total n js len p :
  0 <= p <= len -> len <= Z.of_nat (length js) -> len < 2 ^ 32 ->
  exists o, hex_loop n js len p = Done o /\ forall q, o = Some q -> p <= q <= len.
Proof.
  revert p. induction n as [| n IH]; intros p Hp Hjs Hmax; cbn [hex_loop].
  { eexists. split; [done |]. intros q [= <-]. lia. }
  destruct (Z.ltb_spec p len) as [Hlt | Hge].
  - destruct (js_at_in js p) as [c ->]; [lia |]. cbn [bind].
    destruct (c =? 0); [eexists; split; [done |]; intros q [= <-]; lia |].
    destruct (is_hex c); [| by eexists].
    rewrite wrap_small by lia.
    destruct (IH (p + 1)) as (o & -> & Ho); [lia | done | done |].
    eexists. split; [done |]. intros q Hq. specialize (Ho q Hq). lia.
  - eexists. split; [done |]. intros q [= <-]. lia.
Qed.

(** The string scanner returns, and a closing quote it finds is inside the
    input. *)
Lemma string_loop_total fuel js len p :
  0 <= p -> len <= Z.of_nat (length js) -> len < 2 ^ 32 ->
  (Z.to_nat (len - p) < fuel)%nat ->
  exists r, string_loop fuel js len p = Done r /\ forall q, r = StrQuote q -> p <= q < len.
Proof.
  revert p. induction fuel as [| fuel IH]; intros p Hp Hjs Hmax Hfuel; [lia |].
  cbn [string_loop].
  destruct (Z.ltb_spec p len) as [Hlt | Hge]; [| by eexists].
  destruct (js_at_in js p) as [c ->]; [lia |]. cbn [bind].
  destruct (c =? 0); [by eexists |].
  destruct (c =? 34); [eexists; split; [done |]; intros q [= <-]; lia |].
  assert (Hnext : exists r, string_loop fuel js len (wrap (p + 1)) = Done r /\
                            forall q, r = StrQuote q -> p <= q < len).
  { rewrite wrap_small by lia.
    destruct (IH (p + 1)) as (r & -> & Hr); [lia | done | done | lia |].
    eexists. split; [done |]. intros q Hq. specialize (Hr q Hq). lia. }
  destruct (c =? 92); [| exact Hnext]. cbn [andb].
  rewrite (wrap_small (p + 1)) by lia.
  destruct (Z.ltb_spec (p + 1) len) as [Hlt1 | Hge1].
  2:{ rewrite <- (wrap_small (p + 1)) by lia. exact Hnext. }
  destruct (js_at_in js (p + 1)) as [e ->]; [lia |]. cbn [bind].
  rewrite (wrap_small (p + 1 + 1)) by lia.
  destruct (simple_escape e).
  { destruct (IH (p + 1 + 1)) as (r & -> & Hr); [lia | done | done | lia |].
    eexists. split; [done |]. intros q Hq. specialize (Hr q Hq). lia. }
  destruct (e =? 117); [| by eexists].
  destruct (hex_loop_total 4 js len (p + 1 + 1)) as (o & -> & Ho); [lia | done | done |].
  cbn [bind]. destruct o as [h |]; [| by eexists].
  specialize (Ho h eq_refl). rewrite wrap_pred_succ by lia.
  destruct (IH h) as (r & -> & Hr); [lia | done | done | lia |].
  eexists. split; [done |]. intros q Hq. specialize (Hr q Hq). lia.
Qed.

(** The primitive scanner returns, and it stops inside the input or at its
    end. *)
Lemma primitive_loop_total fuel cfg js len p :
  0 <= p -> len <= Z.of_nat (length js) -> len < 2 ^ 32 ->
  (Z.to_nat (len - p) < fuel)%nat ->
  exists r, primitive_loop fuel cfg js len p = Done r /\
            (forall q, r = PrimFound q -> p <= q < len) /\
            (forall q, r = PrimEnd q -> p <= q /\ (q <= len \/ q = p)).
Proof.
  revert p. induction fuel as [| fuel IH]; intros p Hp Hjs Hmax Hfuel; [lia |].
  cbn [primitive_loop].
  destruct (Z.ltb_spec p len) as [Hlt | Hge].
  2:{ eexists. split; [done |]. split; [done |]. intros q [= <-]. lia. }
  destruct (js_at_in js p) as [c ->]; [lia |]. cbn [bind].
  destruct (c =? 0).
  { eexists. split; [done |]. split; [done |]. intros q [= <-]. lia. }
  destruct (primitive_end cfg c).
  { eexists. split; [done |]. split; [| done]. intros q [= <-]. lia. }
  destruct ((c <? 32) || (127 <=? c)); [by eexists |].
  rewrite wrap_small by lia.
  destruct (IH (p + 1)) as (r & -> & Hf & He); [lia | done | done | lia |].
  eexists. split; [done |]. split; intros q Hq.
  - specialize (Hf q Hq). lia.
  - specialize (He q Hq). lia.
Qed.

Lemma primitive_loop_range fuel cfg js len p r :
  0 <= p -> len < 2 ^ 32 ->
  primitive_loop fuel cfg js len p = Done r ->
  (forall q, r = PrimFound q -> p <= q < len) /\
  (forall q, r = PrimEnd q -> p <= q /\ (q <= len \/ q = p)).
Proof.
  revert p. induction fuel as [| fuel IH]; intros p Hp Hmax H; [done |].
  cbn [primitive_loop] in H.
  destruct (Z.ltb_spec p len) as [Hlt | Hge].
  2:{ simplify_eq. split; [done |]. intros q [= <-]. lia. }
  destruct (js_at js p) as [c | |]; [| done..]. cbn [bind] in H.
  destruct (c =? 0).
  { simplify_eq. split; [done |]. intros q [= <-]. lia. }
  destruct (primitive_end cfg c).
  { simplify_eq. split; [| done]. intros q [= <-]. lia. }
  destruct ((c <? 32) || (127 <=? c)); [by simplify_eq |].
  rewrite wrap_small in H by lia.
  destruct (IH (p + 1)) as [Hf He]; [lia | done | done |].
  split; intros q Hq.
  - specialize (Hf q Hq). lia.
  - specialize (He q Hq). lia.
Qed.

(** After a first byte that does not end a primitive the scanner stops
    further on. *)
Lemma primitive_loop_advance fuel cfg js len p c r :
  0 <= p < len -> len < 2 ^ 32 ->
  js_at js p = Done c -> c <> 0 -> primitive_end cfg c = false ->
  primitive_loop fuel cfg js len p = Done r ->
  forall q, r = PrimFound q \/ r = PrimEnd q -> p < q <= len.
Proof.
  intros Hp Hmax Hc H0 Hend H q Hq.
  destruct fuel as [| fuel]; [done |]. cbn [primitive_loop] in H.
  assert ((p <? len) = true) as Hlt by (apply Z.ltb_lt; lia).
  rewrite Hlt, Hc in H. cbn [bind] in H.
  apply Z.eqb_neq in H0. rewrite H0, Hend in H.
  destruct ((c <? 32) || (127 <=? c)); [by destruct Hq; simplify_eq |].
  rewrite wrap_small in H by lia.
  assert (Hp1 : 0 <= p + 1) by lia.
  destruct (primitive_loop_range _ _ _ _ _ _ Hp1 Hmax H) as [Hf He].
  destruct Hq as [Hq | Hq]; [specialize (Hf q Hq) | specialize (He q Hq)]; lia.
Qed.

(** ** A run without a pool *)

(** The bytes that reach the primitive scanner do not end a primitive. *)
Lemma dispatch_not_end cfg c :
  (c =? 125) || (c =? 93) = false -> is_space c = false -> (c =? 58) = false ->
  (c =? 44) = false -> primitive_end cfg c = false.
Proof.
  unfold primitive_end, is_space. intros H1 H2 H3 H4.
  apply orb_false_iff in H1 as [H125 H93].
  rewrite H3, H4, H125, H93, andb_false_r. cbn [orb].
  by rewrite H2.
Qed.

Lemma jsmn_parse_string_dry fuel cfg parser js len num_tokens :
  0 <= pos parser < len -> len <= Z.of_nat (length js) -> len < 2 ^ 32 ->
  (Z.to_nat len < fuel)%nat ->
  exists r p,
    jsmn_parse_string fuel cfg parser js len None num_tokens = Done (r, p, None) /\
    r <> JSMN_ERROR_NOMEM /\ p = set_pos parser (pos p) /\
    (r = JSMN_SUCCESS -> pos parser < pos p < len) /\
    (r <> JSMN_SUCCESS -> p = parser).
Proof.
  intros Hp Hjs Hmax Hfuel. unfold jsmn_parse_string.
  assert ((if JSMN_PERMISSIVE cfg && JSMN_PARENT_LINKS cfg then Done parser else Done parser)
          = Done parser) as -> by (by destruct (_ && _)).
  cbn [bind]. rewrite wrap_small by lia.
  destruct (string_loop_total fuel js len (pos parser + 1)) as (r & -> & Hr);
    [lia | done | done | lia |].
  cbn [bind]. destruct r as [q | |].
  - specialize (Hr q eq_refl). eexists _, _. split; [done |].
    repeat split; try done; cbn [pos set_pos]; lia.
  - rewrite set_pos_same. eexists _, _. split; [done |].
    repeat split; try done. by rewrite set_pos_same.
  - rewrite set_pos_same. eexists _, _. split; [done |].
    repeat split; try done. by rewrite set_pos_same.
Qed.

Lemma jsmn_parse_primitive_dry fuel cfg parser js len num_tokens c :
  0 <= pos parser < len -> len <= Z.of_nat (length js) -> len < 2 ^ 32 ->
  (Z.to_nat len < fuel)%nat ->
  js_at js (pos parser) = Done c -> c <> 0 -> primitive_end cfg c = false ->
  exists r p,
    jsmn_parse_primitive fuel cfg parser js len None num_tokens = Done (r, p, None) /\
    r <> JSMN_ERROR_NOMEM /\ p = set_pos parser (pos p) /\
    (r = JSMN_SUCCESS -> pos parser <= pos p < len) /\
    (r <> JSMN_SUCCESS -> p = parser).
Proof.
  intros Hp Hjs Hmax Hfuel Hc H0 Hend. unfold jsmn_parse_primitive.
  assert ((if JSMN_PERMISSIVE cfg && JSMN_PARENT_LINKS cfg then Done parser else Done parser)
          = Done parser) as -> by (by destruct (_ && _)).
  cbn [bind].
  destruct (primitive_loop_total fuel cfg js len (pos parser)) as (r & Hr & _);
    [lia | done | done | lia |].
  rewrite Hr. cbn [bind].
  pose proof (primitive_loop_advance _ _ _ _ _ _ _ Hp Hmax Hc H0 Hend Hr) as Hq.
  destruct r as [q | | q].
  - specialize (Hq q (or_introl eq_refl)). eexists _, _. split; [done |].
    cbn [pos set_pos]. rewrite wrap_small by lia.
    repeat split; try done; lia.
  - rewrite set_pos_same. eexists _, _. split; [done |].
    repeat split; try done. by rewrite set_pos_same.
  - specialize (Hq q (or_intror eq_refl)). destruct (negb (JSMN_PERMISSIVE cfg)).
    + rewrite set_pos_same. eexists _, _. split; [done |].
      repeat split; try done. by rewrite set_pos_same.
    + eexists _, _. split; [done |].
      cbn [pos set_pos]. rewrite wrap_small by lia.
      repeat split; try done; lia.
Qed.

(** One pass without a pool, from a parser that does not expect a
    delimiter: it moves the cursor only, inside the input, or returns an
    error that is not [JSMN_ERROR_NOMEM] with the parser as it was. *)
Lemma jsmn_step_dry fuel cfg js len num_tokens parser count c :
  0 <= pos parser < len -> len <= Z.of_nat (length js) -> len < 2 ^ 32 ->
  (Z.to_nat len < fuel)%nat ->
  js_at js (pos parser) = Done c -> c <> 0 ->
  jsmn_is_expected parser JSMN_DELIMITER = 0 ->
  exists fl,
    jsmn_step fuel cfg js len num_tokens parser None count c = Done fl /\
    match fl with
    | Next p t _ => t = None /\ p = set_pos parser (pos p) /\ pos parser <= pos p < len
    | Return r p t =>
      t = None /\ p = parser /\ exists e, r = Err e /\ e <> JSMN_ERROR_NOMEM
    end.
Proof.
  intros Hp Hjs Hmax Hfuel Hc H0 He. unfold jsmn_step.
  destruct ((c =? 123) || (c =? 91)).
  { eexists. split; [done |]. cbn. rewrite set_pos_same. repeat split; try done; lia. }
  destruct ((c =? 125) || (c =? 93)) eqn:Hclose.
  { eexists. split; [done |]. cbn. rewrite set_pos_same. repeat split; try done; lia. }
  destruct (c =? 34).
  { destruct (jsmn_parse_string_dry fuel cfg parser js len num_tokens)
      as (r & p & -> & Hr & Hpp & Hok & Herr); try done.
    cbn [bind]. unfold after_scalar. destruct r.
    - eexists. split; [done |]. specialize (Hok eq_refl). repeat split; try done; lia.
    - done.
    - eexists. split; [done |]. split; [done |]. split; [by apply Herr |]. by eauto.
    - eexists. split; [done |]. split; [done |]. split; [by apply Herr |]. by eauto. }
  destruct (is_space c) eqn:Hsp.
  { eexists. split; [done |]. cbn. rewrite set_pos_same. repeat split; try done; lia. }
  destruct (c =? 58) eqn:H58.
  { unfold parse_colon. rewrite He. cbn. eexists. split; [done |].
    split; [done |]. split; [done |]. by eexists. }
  destruct (c =? 44) eqn:H44.
  { eexists. split; [done |]. cbn. rewrite set_pos_same. repeat split; try done; lia. }
  destruct (JSMN_PERMISSIVE cfg || primitive_start c).
  2:{ eexists. split; [done |]. split; [done |]. split; [done |]. by eexists. }
  destruct (jsmn_parse_primitive_dry fuel cfg parser js len num_tokens c)
    as (r & p & -> & Hr & Hpp & Hok & Herr); try done.
  { by apply dispatch_not_end. }
  cbn [bind]. unfold after_scalar. destruct r.
  - eexists. split; [done |]. specialize (Hok eq_refl). repeat split; try done; lia.
  - done.
  - eexists. split; [done |]. split; [done |]. split; [by apply Herr |]. by eauto.
  - eexists. split; [done |]. split; [done |]. split; [by apply Herr |]. by eauto.
Qed.

Lemma jsmn_loop_dry n fuel cfg js len num_tokens parser count :
  0 <= pos parser -> len <= Z.of_nat (length js) -> len < 2 ^ 32 ->
  (Z.to_nat len < fuel)%nat -> (Z.to_nat (len - pos parser) < n)%nat ->
  jsmn_is_expected parser JSMN_DELIMITER = 0 ->
  exists r p,
    jsmn_loop n fuel cfg js len num_tokens parser None count = Done (r, p, None) /\
    r <> Err JSMN_ERROR_NOMEM /\ p = set_pos parser (pos p) /\
    pos parser <= pos p /\ (pos p <= len \/ pos p = pos parser).
Proof.
  revert parser count. induction n as [| n IH]; intros parser count Hp Hjs Hmax Hfuel Hn He;
    [lia |].
  cbn [jsmn_loop].
  assert (Hfin : exists r p,
             jsmn_finish parser None count = Done (r, p, None) /\
             r <> Err JSMN_ERROR_NOMEM /\ p = set_pos parser (pos p) /\
             pos parser <= pos p /\ (pos p <= len \/ pos p = pos parser)).
  { eexists _, _. split; [done |]. rewrite set_pos_same. repeat split; try done; lia. }
  destruct (Z.ltb_spec (pos parser) len) as [Hlt | Hge]; [| exact Hfin].
  destruct (js_at_in js (pos parser)) as [c Hc]; [lia |]. rewrite Hc. cbn [bind].
  destruct (Z.eqb_spec c 0) as [-> | H0]; [exact Hfin |].
  destruct (jsmn_step_dry fuel cfg js len num_tokens parser count c)
    as (fl & -> & Hfl); try done; try lia.
  cbn [bind]. destruct fl as [p t c' | r p t].
  - destruct Hfl as (-> & Hpp & Hpos).
    destruct (IH (set_pos p (wrap (pos p + 1))) c') as (r & p' & -> & Hr & Hp' & Hle & Hle');
      try done.
    + cbn [pos set_pos]. pose proof (wrap_range (pos p + 1)). lia.
    + cbn [pos set_pos]. rewrite wrap_small by lia. lia.
    + rewrite Hpp. exact He.
    + cbn [pos set_pos] in *. rewrite wrap_small in * by lia.
      eexists _, _. split; [done |]. split; [done |].
      split; [by rewrite Hp', Hpp |]. lia.
  - destruct Hfl as (-> & -> & e & -> & Hne).
    eexists _, _. split; [done |]. rewrite set_pos_same.
    repeat split; try done; try lia. congruence.
Qed.

(** X6. Without a pool, [jsmn_parse] on a fresh parser returns for every
    input, in both dialects: it reads no byte outside [js[0..len)], it
    moves the cursor only (to a place inside the input or its end) and
    leaves the other fields of the parser as [jsmn_init] set them, and what
    it returns is a count, [JSMN_ERROR_INVAL] or [JSMN_ERROR_PART], never
    [JSMN_ERROR_NOMEM]. *)
Theorem dry_run_returns (fuel : nat) (cfg : config) (js : list Z) (len : Z)
    (num_tokens : Z) :
  0 <= len <= Z.of_nat (length js) -> len < 2 ^ 32 -> (Z.to_nat len < fuel)%nat ->
  exists r p,
    jsmn_parse fuel cfg (jsmn_init cfg) js len None num_tokens = Done (r, p, None) /\
    r <> Err JSMN_ERROR_NOMEM /\
    p = set_pos (jsmn_init cfg) (pos p) /\ 0 <= pos p <= len.
Proof.
  intros Hlen Hmax Hfuel. unfold jsmn_parse.
  destruct (jsmn_loop_dry fuel fuel cfg js len num_tokens (jsmn_init cfg)
              (toknext (jsmn_init cfg))) as (r & p & -> & Hr & Hp & Hle & Hle');
    try done; try lia.
  - cbn. lia.
  - by destruct cfg as [[] ? ?].
  - eexists _, _. split; [done |]. repeat split; try done; cbn in *; lia.
Qed.

Lemma dry_run_returns_witness :
  exists r p,
    jsmn_parse 8 (permissive true true) (jsmn_init (permissive true true))
      (js_of "{'a':1}") 7 None 0 = Done (r, p, None) /\
    r <> Err JSMN_ERROR_NOMEM /\
    p = set_pos (jsmn_init (permissive true true)) (pos p) /\ 0 <= pos p <= 7.
Proof.
  apply (dry_run_returns 8 (permissive true true) (js_of "{'a':1}") 7 0).
  - vm_compute. split; discriminate.
  - reflexivity.
  - vm_compute. lia.
Defined.

(** ** The strict parser inside its pool *)

Lemma tok_get_total toks i :
  0 <= i < Z.of_nat (length toks) ->
  exists t, toks !! Z.to_nat i = Some t /\ tok_get toks i = Done t.
Proof.
  intros Hi. destruct (lookup_lt_is_Some_2 toks (Z.to_nat i)) as [t Ht]; [lia |].
  exists t. split; [done |]. by apply tok_get_lookup.
Qed.

Lemma tok_upd_total toks i f :
  0 <= i < Z.of_nat (length toks) ->
  exists t, toks !! Z.to_nat i = Some t /\
            tok_upd toks i f = Done (<[Z.to_nat i := f t]> toks).
Proof.
  intros Hi. destruct (lookup_lt_is_Some_2 toks (Z.to_nat i)) as [t Ht]; [lia |].
  exists t. split; [done |]. by apply tok_upd_lookup.
Qed.

Lemma linked_insert toks k j x :
  linked toks k -> (Z.of_nat j < k -> link_ok j x) -> linked (<[j := x]> toks) k.
Proof.
  intros H Hx i t Hi Ht. apply list_lookup_insert_Some in Ht as [(-> & <- & _) | [_ Ht]].
  - by apply Hx.
  - by apply (H i).
Qed.

Lemma linked_grow toks k :
  0 <= k -> linked toks k ->
  (forall t, toks !! Z.to_nat k = Some t -> link_ok (Z.to_nat k) t) ->
  linked toks (k + 1).
Proof.
  intros Hk H Hnew i t Hi Ht. destruct (decide (Z.of_nat i = k)) as [<- | Hne].
  - rewrite Nat2Z.id in Hnew. by apply Hnew.
  - apply (H i); [lia | done].
Qed.

(** A change of the size, the start or the end of a token keeps its link. *)
Lemma link_ok_same i t t' :
  tok_parent t' = tok_parent t -> tok_type t' = tok_type t -> link_ok i t -> link_ok i t'.
Proof. unfold link_ok, jsmn_is_type. by intros -> ->. Qed.

Lemma chained_insert toks k j x :
  chained toks k -> (Z.of_nat j < k -> chain_ok k j x) -> chained (<[j := x]> toks) k.
Proof.
  intros H Hx i t Hi Ht. apply list_lookup_insert_Some in Ht as [(-> & <- & _) | [_ Ht]].
  - by apply Hx.
  - by apply (H i).
Qed.

Lemma chain_ok_mono k k' i t : chain_ok k i t -> k <= k' -> chain_ok k' i t.
Proof. intros [H | H] Hk; [by left | right; lia]. Qed.

Lemma chained_grow toks k :
  0 <= k -> chained toks k ->
  (forall t, toks !! Z.to_nat k = Some t -> tok_next_sibling t = JSMN_NEG) ->
  chained toks (k + 1).
Proof.
  intros Hk H Hnew i t Hi Ht. destruct (decide (Z.of_nat i = k)) as [<- | Hne].
  - rewrite Nat2Z.id in Hnew. left. by apply Hnew.
  - apply (chain_ok_mono k); [| lia]. apply (H i); [lia | done].
Qed.

(** A change that leaves the sibling link of a token keeps its place in the
    chain. *)
Lemma chain_ok_same k i t t' :
  tok_next_sibling t' = tok_next_sibling t -> chain_ok k i t -> chain_ok k i t'.
Proof. unfold chain_ok. by intros ->. Qed.

Lemma chained_same toks k j t t' :
  chained toks k -> toks !! j = Some t -> tok_next_sibling t' = tok_next_sibling t ->
  chained (<[j := t']> toks) k.
Proof.
  intros H Ht Hns. apply chained_insert; [done |]. intros Hj.
  apply (chain_ok_same _ _ t); [done |]. by apply (H j).
Qed.

Lemma linked_same toks k j t t' :
  linked toks k -> toks !! j = Some t ->
  tok_parent t' = tok_parent t -> tok_type t' = tok_type t ->
  linked (<[j := t']> toks) k.
Proof.
  intros H Ht Hp Hty. apply linked_insert; [done |]. intros Hj.
  apply (link_ok_same _ t); [done | done |]. by apply (H j).
Qed.

(** Reads the next token access of the goal. *)
Ltac in_pool := rewrite ?length_insert; lia.

Ltac get_tok t Ht :=
  match goal with
  | |- context [tok_get ?T ?i] =>
    destruct (tok_get_total T i) as (t & Ht & ->); [in_pool |]; cbn [bind]
  end.

Ltac upd_tok t Ht :=
  match goal with
  | |- context [tok_upd ?T ?i ?f] =>
    destruct (tok_upd_total T i f) as (t & Ht & ->); [in_pool |]; cbn [bind]
  end.

Ltac case_nz H :=
  match goal with
  | |- context [if nz ?b then _ else _] => destruct (nz b) eqn:H
  end.

Ltac unchanged :=
  eexists _, _, _; (split; [reflexivity |]); eexists; (split; [reflexivity |]);
  (split; [done |]); (split; [done |]); cbn; lia.

Ltac lookups :=
  repeat match goal with
  | H : <[_ := _]> _ !! _ = Some _ |- _ =>
    first [ rewrite list_lookup_insert_eq in H by in_pool; injection H as <-
          | rewrite list_lookup_insert_ne in H by lia ]
  end.

Lemma same_from_refl k toks : same_from k toks toks.
Proof. done. Qed.

Lemma same_from_insert k toks j x :
  Z.of_nat j < k -> same_from k toks (<[j := x]> toks).
Proof.
  intros Hj. split; [by rewrite length_insert |].
  intros i Hi. apply list_lookup_insert_ne. lia.
Qed.

Lemma same_from_trans k k' a b c :
  same_from k a b -> same_from k' b c -> k <= k' -> same_from k' a c.
Proof.
  intros [Hl1 H1] [Hl2 H2] Hk. split; [congruence |].
  intros i Hi. rewrite H2 by done. apply H1. lia.
Qed.

Ltac frame :=
  split;
  [ by rewrite ?length_insert
  | let i := fresh "i" in let Hi := fresh "Hi" in
    intros i Hi; cbn in Hi; rewrite ?list_lookup_insert_ne by lia; done ].
Section Safe.
Variable cfg : config.
Variable num_tokens : Z.
Hypothesis Hstrict : JSMN_PERMISSIVE cfg = false.
Hypothesis Hnum : num_tokens < 2 ^ 32.

Lemma safe_not_top parser toks m :
  safe cfg num_tokens parser toks ->
  nz (jsmn_is_expected parser m) = true -> Z.land JSMN_CONTAINER m = 0 ->
  0 <= toksuper parser < toknext parser.
Proof.
  intros (_ & _ & [Hs | Hs] & He & _) Hm Hc; [| done].
  unfold jsmn_is_expected in Hm. by rewrite (He Hs), Hc in Hm.
Qed.

Lemma jsmn_alloc_token_total parser toks :
  0 <= toknext parser -> num_tokens <= Z.of_nat (length toks) ->
  (num_tokens <= toknext parser /\
   jsmn_alloc_token cfg parser toks num_tokens = Done None) \/
  (toknext parser < num_tokens /\
   exists x, (JSMN_PARENT_LINKS cfg = true -> tok_parent x = JSMN_NEG) /\
     (JSMN_NEXT_SIBLING cfg = true -> tok_next_sibling x = JSMN_NEG) /\
     jsmn_alloc_token cfg parser toks num_tokens
     = Done (Some (set_toknext parser (toknext parser + 1),
                   <[Z.to_nat (toknext parser) := x]> toks, toknext parser))).
Proof.
  intros Hk Hlen. unfold jsmn_alloc_token.
  destruct (Z.leb_spec num_tokens (toknext parser)); [by left | right]. split; [done |].
  upd_tok t Ht. rewrite wrap_small by lia. eexists.
  split; [| split; [| reflexivity]].
  - intros Hpl. rewrite Hpl. by destruct (JSMN_NEXT_SIBLING cfg).
  - intros Hns. by rewrite Hns.
Qed.

(** The [while] of [jsmn_next_sibling] ends on a token before the new one. *)
Lemma last_sibling_total fuel toks k i :
  chained toks k -> k <= Z.of_nat (length toks) -> 0 <= i < k ->
  (Z.to_nat (k - i) <= fuel)%nat ->
  exists last t, last_sibling fuel toks i = Done last /\ i <= last < k /\
                 toks !! Z.to_nat last = Some t /\ tok_next_sibling t = JSMN_NEG.
Proof.
  intros Hc Hlen. revert i.
  induction fuel as [| fuel IH]; intros i Hi Hfuel; [lia |].
  cbn [last_sibling]. get_tok t Ht.
  destruct (Z.eqb_spec (tok_next_sibling t) JSMN_NEG) as [Heq | Hne].
  - exists i, t. split; [done |]. split; [lia | done].
  - destruct (Hc (Z.to_nat i) t ltac:(lia) Ht) as [Hneg | Hin]; [done |].
    destruct (IH (tok_next_sibling t)) as (last & tl & -> & ? & ? & ?); [lia | lia |].
    exists last, tl. split; [done |]. split; [lia | done].
Qed.

(** [jsmn_next_sibling] after the token [k] was allocated under the
    superior token. *)
Lemma sibling_step fuel p toks k tk :
  toknext p = k + 1 -> 0 <= toksuper p < k -> k < Z.of_nat (length toks) ->
  k < num_tokens -> (Z.to_nat num_tokens < fuel)%nat ->
  toks !! Z.to_nat k = Some tk ->
  (JSMN_NEXT_SIBLING cfg = true -> chained toks k /\ tok_next_sibling tk = JSMN_NEG) ->
  exists toks',
    (if JSMN_NEXT_SIBLING cfg then jsmn_next_sibling fuel p toks else Done toks)
    = Done toks' /\
    same_from k toks toks' /\
    (JSMN_NEXT_SIBLING cfg = true -> chained toks' (k + 1)) /\
    (forall k', linked toks k' -> linked toks' k').
Proof.
  intros Hnext Hsup Hlen Hk Hfuel Htk Hch.
  destruct (JSMN_NEXT_SIBLING cfg) eqn:Hns; [| by exists toks].
  destruct (Hch eq_refl) as [Hc Hnew]. unfold jsmn_next_sibling.
  assert ((toksuper p =? JSMN_NEG) = false) as ->
    by (apply Z.eqb_neq; rewrite neg_value; lia).
  rewrite Hnext, !wrap_small by lia. replace (k + 1 - 1) with k by lia.
  assert (Hgrown : chained toks (k + 1)).
  { apply chained_grow; [lia | done |]. intros t Ht. by simplify_eq. }
  destruct (Z.eqb_spec (toksuper p + 1) k) as [Heq | Hne]; [by exists toks |].
  destruct (last_sibling_total fuel toks k (toksuper p + 1)) as (last & tl & -> & Hl & Htl & Hnil);
    [done | lia | lia | lia |].
  cbn [bind]. upd_tok t Ht. rewrite Htl in Ht. injection Ht as <-.
  eexists. split; [done |]. split; [apply same_from_insert; lia |]. split.
  - intros _. apply chained_insert; [done |]. intros _. right. cbn. lia.
  - intros k' Hlk. by apply (linked_same _ _ _ tl).
Qed.

Lemma after_scalar_total len count r parser0 toks0 parser toks :
  safe_after cfg num_tokens len parser0 toks0 (parser, Some toks) ->
  exists fl, after_scalar count (r, parser, Some toks) = Done fl /\
             safe_after cfg num_tokens len parser0 toks0 (flow_state fl).
Proof.
  intros (? & [= <-] & Hsafe & Hsame0 & Hpos). cbn [fst] in *.
  pose proof Hsafe as (Hk & Hpool & Hs & He & Hl & Hc). unfold after_scalar.
  assert (Hsame : safe_after cfg num_tokens len parser0 toks0 (parser, Some toks))
    by (by eexists).
  destruct r; try (by eexists).
  destruct (Z.eqb_spec (toksuper parser) JSMN_NEG) as [Heq | Hne]; [by eexists |].
  destruct Hs as [Hs | Hs]; [done |].
  upd_tok t Ht. eexists. split; [done |]. eexists. split; [done |].
  cbn [fst flow_state]. split; [| split; [| done]].
  2: { apply (same_from_trans (toknext parser) _ _ toks); [done | | lia].
       apply same_from_insert. lia. }
  split; [done |]. split; [by rewrite length_insert |]. split; [by right |].
  split; [done |]. split.
  - intros Hpl. apply (linked_same _ _ _ t); [by apply Hl | done ..].
  - intros Hns. apply (chained_same _ _ _ t); [by apply Hc | done ..].
Qed.

Lemma safe_set_pos parser toks q :
  safe cfg num_tokens parser toks -> safe cfg num_tokens (set_pos parser q) toks.
Proof. done. Qed.

(** The state after a token was added at [toknext] under the superior
    token [toksuper], once its links are set. *)
Lemma token_added fuel len parser toks T tk q e :
  safe cfg num_tokens parser toks -> toknext parser < num_tokens ->
  0 <= toksuper parser < toknext parser ->
  (Z.to_nat num_tokens < fuel)%nat ->
  length T = length toks ->
  (forall i : nat, toknext parser + 1 <= Z.of_nat i -> T !! i = toks !! i) ->
  T !! Z.to_nat (toknext parser) = Some tk ->
  (JSMN_PARENT_LINKS cfg = true ->
   linked T (toknext parser) /\ tok_parent tk = toksuper parser) ->
  (JSMN_NEXT_SIBLING cfg = true ->
   chained T (toknext parser) /\ tok_next_sibling tk = JSMN_NEG) ->
  pos parser <= q < len ->
  exists toks',
    (if JSMN_NEXT_SIBLING cfg
     then jsmn_next_sibling fuel
            (mk_parser q (toknext parser + 1) (toksuper parser) e) T
     else Done T) = Done toks' /\
    safe_after cfg num_tokens len parser toks
      (mk_parser q (toknext parser + 1) (toksuper parser) e, Some toks').
Proof.
  intros Hsafe Hlt Hs Hfuel HlenT HT Htk Hpl Hns Hq.
  pose proof Hsafe as (Hk & Hpool & _).
  destruct (sibling_step fuel (mk_parser q (toknext parser + 1) (toksuper parser) e) T
              (toknext parser) tk) as (toks' & -> & [Hlen' Hsame'] & Hc' & Hl');
    [done | done | lia | done | done | done | done |].
  exists toks'. split; [done |]. exists toks'. split; [done |]. cbn [fst].
  split; [| split; [| cbn; lia]].
  - split; [cbn; lia |]. split; [lia |]. split; [cbn; right; lia |].
    split; [cbn; rewrite neg_value; lia |]. split; [| done].
    intros Hp. destruct (Hpl Hp) as [HlT Hpar]. cbn [toknext]. apply Hl'.
    apply linked_grow; [lia | done |]. intros t Ht. rewrite Htk in Ht. injection Ht as <-.
    split; rewrite Hpar; [right; lia | rewrite neg_value; lia].
  - split; [lia |]. intros i Hi. cbn in Hi. rewrite Hsame' by lia. by apply HT.
Qed.

Lemma safe_after_set_pos len parser toks p t q :
  safe_after cfg num_tokens len parser toks (p, t) -> pos parser <= q < len ->
  safe_after cfg num_tokens len parser toks (set_pos p q, t).
Proof.
  intros (toks' & Ht & Hsafe & Hsame & _ & Hnext) Hq. exists toks'.
  split; [done |]. split; [done |]. split; [done |]. cbn. split; [lia | done].
Qed.

Section Scan.
Variable js : list Z.
Variable len : Z.
Variable fuel : nat.
Hypothesis Hjs : len <= Z.of_nat (length js).
Hypothesis Hlen : len < 2 ^ 32.
Hypothesis Hfuel : (Z.to_nat len < fuel)%nat.
Hypothesis Hfuel' : (Z.to_nat num_tokens < fuel)%nat.

Lemma jsmn_parse_string_total parser toks :
  safe cfg num_tokens parser toks -> 0 <= pos parser < len ->
  exists r p toks',
    jsmn_parse_string fuel cfg parser js len (Some toks) num_tokens
    = Done (r, p, Some toks') /\
    safe_after cfg num_tokens len parser toks (p, Some toks').
Proof.
  intros Hsafe Hp. pose proof Hsafe as (Hk & Hpool & _ & _ & Hl & Hc).
  pose proof (safe_set_pos parser toks (pos parser) Hsafe) as Hback.
  unfold jsmn_parse_string.
  destruct (nz (jsmn_is_expected parser JSMN_STRING)) eqn:He; cbn [negb];
    [| unchanged].
  pose proof (safe_not_top parser toks _ Hsafe He eq_refl) as Hs.
  rewrite Hstrict. cbn [andb bind]. rewrite wrap_small by lia.
  destruct (string_loop_total fuel js len (pos parser + 1)) as (r & -> & Hr);
    [lia | done | done | lia |].
  cbn [bind]. destruct r as [q | |]; [| unchanged ..].
  specialize (Hr q eq_refl).
  destruct (jsmn_alloc_token_total (set_pos parser q) toks)
    as [[_ ->] | (Hlt & x & Hx & Hx' & ->)]; [cbn; lia | done | unchanged |].
  cbn in Hlt. cbn [bind]. norm.
  upd_tok t1 Ht1. norm. get_tok sup Hsup. norm.
  assert (Hdone : forall T e,
             length T = length toks ->
             (forall i : nat, toknext parser + 1 <= Z.of_nat i -> T !! i = toks !! i) ->
             (exists tk, T !! Z.to_nat (toknext parser) = Some tk /\
                         (JSMN_PARENT_LINKS cfg = true -> tok_parent tk = JSMN_NEG) /\
                         (JSMN_NEXT_SIBLING cfg = true -> tok_next_sibling tk = JSMN_NEG)) ->
             (JSMN_PARENT_LINKS cfg = true -> linked T (toknext parser)) ->
             (JSMN_NEXT_SIBLING cfg = true -> chained T (toknext parser)) ->
             exists r p toks',
               (do toks0 <-
                  (if JSMN_PARENT_LINKS cfg
                   then tok_upd T (toknext parser)
                          (fun t => mk_tok (tok_type t) (tok_start t) (tok_end t) (tok_size t)
                                      (toksuper parser) (tok_next_sibling t))
                   else Done T);
                do toks1 <-
                  (if JSMN_NEXT_SIBLING cfg
                   then jsmn_next_sibling fuel
                          (mk_parser q (toknext parser + 1) (toksuper parser) e) toks0
                   else Done toks0);
                Done (JSMN_SUCCESS, mk_parser q (toknext parser + 1) (toksuper parser) e,
                      Some toks1))
               = Done (r, p, Some toks') /\
               safe_after cfg num_tokens len parser toks (p, Some toks')).
  { intros T e HlenT HT (tk & Htk & Hpar & Hsib) HlT HcT.
    destruct (JSMN_PARENT_LINKS cfg) eqn:Hpl.
    - upd_tok t3 Ht3. rewrite Htk in Ht3. injection Ht3 as <-.
      edestruct (token_added fuel len parser toks) as (toks' & -> & Hafter);
        [done | done | done | done | | | by apply list_lookup_insert_eq; in_pool | | | |].
      + by rewrite length_insert.
      + intros i Hi. rewrite list_lookup_insert_ne by lia. by apply HT.
      + rewrite Hpl. intros _. split; [| done]. apply linked_insert; [by apply HlT | lia].
      + intros Hns. split; [| by apply Hsib].
        apply chained_insert; [by apply HcT | lia].
      + split; [| exact (proj2 Hr)]. lia.
      + cbn [bind]. by eexists _, _, _.
    - cbn [bind].
      edestruct (token_added fuel len parser toks T tk) as (toks' & -> & Hafter);
        [done | done | done | done | done | done | done | | | |].
      + rewrite Hpl. by intros [=].
      + intros Hns. split; [by apply HcT | by apply Hsib].
      + split; [| exact (proj2 Hr)]. lia.
      + cbn [bind]. by eexists _, _, _. }
  assert (Hold : forall T y, (JSMN_PARENT_LINKS cfg = true -> linked T (toknext parser)) ->
             JSMN_PARENT_LINKS cfg = true ->
             linked (<[Z.to_nat (toknext parser) := y]> T) (toknext parser)).
  { intros T y HT Hpl. apply linked_insert; [by apply HT | lia]. }
  assert (Hold' : forall T y, (JSMN_NEXT_SIBLING cfg = true -> chained T (toknext parser)) ->
             JSMN_NEXT_SIBLING cfg = true ->
             chained (<[Z.to_nat (toknext parser) := y]> T) (toknext parser)).
  { intros T y HT Hns. apply chained_insert; [by apply HT | lia]. }
  lookups.
  case_nz Hobj; cbn [bind].
  - rewrite wrap_small by lia. get_tok prev Hprev.
    case_nz Hkey; cbn [bind]; upd_tok t2 Ht2; norm; lookups;
      (apply Hdone;
       [ by rewrite !length_insert
       | intros i Hi; rewrite !list_lookup_insert_ne by lia; done
       | eexists; split; [by apply list_lookup_insert_eq; in_pool |]; split; done
       | by repeat (apply Hold)
       | by repeat (apply Hold') ]).
  - upd_tok t2 Ht2; norm; lookups;
      (apply Hdone;
       [ by rewrite !length_insert
       | intros i Hi; rewrite !list_lookup_insert_ne by lia; done
       | eexists; split; [by apply list_lookup_insert_eq; in_pool |]; split; done
       | by repeat (apply Hold)
       | by repeat (apply Hold') ]).
Qed.

Lemma jsmn_parse_primitive_total parser toks c :
  safe cfg num_tokens parser toks -> 0 <= pos parser < len ->
  js_at js (pos parser) = Done c -> c <> 0 -> primitive_end cfg c = false ->
  exists r p toks',
    jsmn_parse_primitive fuel cfg parser js len (Some toks) num_tokens
    = Done (r, p, Some toks') /\
    safe_after cfg num_tokens len parser toks (p, Some toks').
Proof.
  intros Hsafe Hp Hc Hc0 Hcend. pose proof Hsafe as (Hk & Hpool & _ & _ & Hl & Hch).
  pose proof (safe_set_pos parser toks (pos parser) Hsafe) as Hback.
  unfold jsmn_parse_primitive.
  destruct (nz (jsmn_is_expected parser JSMN_PRIMITIVE)) eqn:He; cbn [negb];
    [| unchanged].
  pose proof (safe_not_top parser toks _ Hsafe He eq_refl) as Hs.
  rewrite Hstrict. cbn [andb bind negb].
  destruct (primitive_loop_total fuel cfg js len (pos parser)) as (r & Hloop & _);
    [lia | done | done | lia |].
  pose proof (primitive_loop_advance fuel cfg js len (pos parser) c r Hp Hlen Hc Hc0 Hcend Hloop)
    as Hadv.
  pose proof (primitive_loop_range fuel cfg js len (pos parser) r ltac:(lia) Hlen Hloop)
    as [Hfound _].
  rewrite Hloop. cbn [bind]. destruct r as [q | | q]; [| unchanged ..].
  specialize (Hfound q eq_refl). specialize (Hadv q (or_introl eq_refl)).
  destruct (jsmn_alloc_token_total (set_pos parser q) toks)
    as [[_ ->] | (Hlt & x & Hx & Hx' & ->)]; [cbn; lia | done | unchanged |].
  cbn in Hlt. cbn [bind]. norm.
  upd_tok t1 Ht1. norm. upd_tok t2 Ht2. norm. lookups.
  rewrite wrap_small by lia.
  destruct (JSMN_PARENT_LINKS cfg) eqn:Hpl; [upd_tok t3 Ht3; lookups |]; cbn [bind].
  - edestruct (token_added fuel len parser toks) as (toks' & -> & Hafter);
      [done | done | done | done | | | by apply list_lookup_insert_eq; in_pool | | | |].
    + by rewrite !length_insert.
    + intros i Hi. by rewrite !list_lookup_insert_ne by lia.
    + rewrite Hpl. intros _. split; [| done].
      repeat (apply linked_insert; [| lia]). by apply Hl.
    + intros Hns. split; [| by apply Hx'].
      repeat (apply chained_insert; [| lia]). by apply Hch.
    + split; [| exact (proj2 Hfound)]. lia.
    + cbn [bind]. eexists _, _, _. split; [done |].
      apply (safe_after_set_pos _ _ _ _ _ (q - 1)) in Hafter; [done | lia].
  - edestruct (token_added fuel len parser toks) as (toks' & -> & Hafter);
      [done | done | done | done | | | by apply list_lookup_insert_eq; in_pool | | | |].
    + by rewrite !length_insert.
    + intros i Hi. by rewrite !list_lookup_insert_ne by lia.
    + rewrite Hpl. by intros [=].
    + intros Hns. split; [| by apply Hx'].
      repeat (apply chained_insert; [| lia]). by apply Hch.
    + split; [| exact (proj2 Hfound)]. lia.
    + cbn [bind]. eexists _, _, _. split; [done |].
      apply (safe_after_set_pos _ _ _ _ _ (q - 1)) in Hafter; [done | lia].
Qed.
End Scan.
End Safe.
Section SafeCases.
Variable cfg : config.
Variable num_tokens : Z.
Variable len : Z.
Hypothesis Hstrict : JSMN_PERMISSIVE cfg = false.
Hypothesis Hnum : num_tokens < 2 ^ 32.

Lemma container_type_bits c :
  let type := if c =? LBRACE then JSMN_OBJECT else JSMN_ARRAY in
  nz (Z.land type JSMN_CONTAINER) = true /\
  nz (Z.land (Z.lor type JSMN_VALUE) JSMN_CONTAINER) = true.
Proof. by destruct (c =? LBRACE). Qed.

Lemma safe_after_same parser toks p :
  safe cfg num_tokens parser toks -> pos parser < len -> pos p = pos parser ->
  toknext p = toknext parser -> toksuper p = toksuper parser ->
  expected p = expected parser ->
  safe_after cfg num_tokens len parser toks (p, Some toks).
Proof.
  intros Hsafe Hp H1 H2 H3 H4. exists toks. split; [done |].
  split; [| split; [done | cbn; lia]].
  unfold safe in *. cbn [fst]. by rewrite H2, H3, H4.
Qed.

(** The links of a container allocated at the top level. *)
Lemma fresh_links toks (k : Z) tk :
  0 <= k ->
  (JSMN_PARENT_LINKS cfg = true -> linked toks k) ->
  (JSMN_NEXT_SIBLING cfg = true -> chained toks k) ->
  toks !! Z.to_nat k = Some tk ->
  (JSMN_PARENT_LINKS cfg = true ->
   tok_parent tk = JSMN_NEG /\ nz (jsmn_is_type tk JSMN_CONTAINER) = true) ->
  (JSMN_NEXT_SIBLING cfg = true -> tok_next_sibling tk = JSMN_NEG) ->
  (JSMN_PARENT_LINKS cfg = true -> linked toks (k + 1)) /\
  (JSMN_NEXT_SIBLING cfg = true -> chained toks (k + 1)).
Proof.
  intros Hk Hl Hc Htk Hpar Hsib. split.
  - intros Hpl. apply linked_grow; [done | by apply Hl |].
    intros t Ht. rewrite Htk in Ht. injection Ht as <-.
    destruct (Hpar Hpl) as [Hp Hty]. split; [by left | congruence].
  - intros Hns. apply chained_grow; [done | by apply Hc |].
    intros t Ht. rewrite Htk in Ht. injection Ht as <-. by apply Hsib.
Qed.

(** The state after an opening bracket, once the start of its token is
    set. *)
Lemma opened parser toks T t t' e :
  safe cfg num_tokens parser toks -> toknext parser < num_tokens ->
  0 <= pos parser < len ->
  same_from (toknext parser + 1) toks T ->
  (JSMN_PARENT_LINKS cfg = true -> linked T (toknext parser + 1)) ->
  (JSMN_NEXT_SIBLING cfg = true -> chained T (toknext parser + 1)) ->
  T !! Z.to_nat (toknext parser) = Some t ->
  tok_parent t' = tok_parent t -> tok_type t' = tok_type t ->
  tok_next_sibling t' = tok_next_sibling t ->
  safe_after cfg num_tokens len parser toks
    (mk_parser (pos parser) (toknext parser + 1) (toknext parser) e,
     Some (<[Z.to_nat (toknext parser) := t']> T)).
Proof.
  intros (Hk & Hpool & _) Hlt Hp HT Hl Hc Ht Hpar Hty Hsib.
  pose proof HT as [HlenT _]. eexists. split; [done |]. cbn [fst].
  split; [| split; [| cbn; lia]].
  - split; [cbn; lia |]. split; [in_pool |]. split; [cbn; right; lia |].
    split; [cbn; rewrite neg_value; lia |]. cbn [toknext]. split.
    + intros Hpl. by apply (linked_same _ _ _ t); [apply Hl | ..].
    + intros Hns. by apply (chained_same _ _ _ t); [apply Hc | ..].
  - apply (same_from_trans (toknext parser + 1) _ _ T); [done | | cbn; lia].
    apply same_from_insert. cbn. lia.
Qed.

Lemma parse_open_total fuel parser toks count c :
  safe cfg num_tokens parser toks -> 0 <= pos parser < len ->
  (Z.to_nat num_tokens < fuel)%nat ->
  exists fl, parse_open fuel cfg parser (Some toks) num_tokens count c = Done fl /\
             safe_after cfg num_tokens len parser toks (flow_state fl).
Proof.
  intros Hsafe Hp Hfuel. pose proof Hsafe as (Hk & Hpool & Hs & He & Hl & Hc).
  unfold parse_open.
  destruct (jsmn_alloc_token_total cfg num_tokens Hnum parser toks)
    as [[_ ->] | (Hlt & x & Hx & Hx' & ->)];
    [lia | done | by eexists; split; [done | apply safe_after_same; [done | lia | done ..]] |].
  cbn [bind]. norm. upd_tok t1 Ht1. norm. lookups.
  pose proof (container_type_bits c) as [Hbits Hbits']. cbv zeta in Hbits, Hbits'.
  set (type := if c =? LBRACE then JSMN_OBJECT else JSMN_ARRAY) in *.
  assert (Hold : forall T y, (JSMN_PARENT_LINKS cfg = true -> linked T (toknext parser)) ->
             JSMN_PARENT_LINKS cfg = true ->
             linked (<[Z.to_nat (toknext parser) := y]> T) (toknext parser)).
  { intros T y HT Hpl. apply linked_insert; [by apply HT | lia]. }
  assert (Hold' : forall T y, (JSMN_NEXT_SIBLING cfg = true -> chained T (toknext parser)) ->
             JSMN_NEXT_SIBLING cfg = true ->
             chained (<[Z.to_nat (toknext parser) := y]> T) (toknext parser)).
  { intros T y HT Hns. apply chained_insert; [by apply HT | lia]. }
  destruct (nz (Z.land (expected parser) type)) eqn:Hexp; cbn [negb].
  2: { eexists. split; [done |]. eexists. split; [done |]. cbn [fst flow_state].
       split; [| split; [frame | cbn; lia]].
       split; [cbn; lia |]. split; [in_pool |].
       split; [cbn; destruct Hs; [by left | right; lia] |].
       split; [done |]. cbn [toknext].
       eapply fresh_links; [lia | by repeat (apply Hold) | by repeat (apply Hold')
                           | by apply list_lookup_insert_eq; in_pool | |].
       - intros Hpl. split; [by apply Hx | done].
       - done. }
  upd_tok t2 Ht2. norm. get_tok t3 Ht3. norm. lookups.
  destruct (Z.eqb_spec (toksuper parser) JSMN_NEG) as [Htop | Hsub]; cbn [bind].
  - upd_tok t4 Ht4. norm. rewrite wrap_small by lia.
    replace (toknext parser + 1 - 1) with (toknext parser) by lia.
    eexists. split; [done |]. cbn [flow_state].
    edestruct (fresh_links (<[Z.to_nat (toknext parser) :=
                               mk_tok (Z.lor type JSMN_VALUE) (tok_start x) (tok_end x)
                                 (tok_size x) (tok_parent x) (tok_next_sibling x)]>
                             (<[Z.to_nat (toknext parser) :=
                                  mk_tok type (tok_start x) (tok_end x) (tok_size x)
                                    (tok_parent x) (tok_next_sibling x)]>
                                (<[Z.to_nat (toknext parser) := x]> toks)))
                 (toknext parser)) as [Hl1 Hc1];
      [lia | by repeat (apply Hold) | by repeat (apply Hold')
      | by apply list_lookup_insert_eq; in_pool | | |].
    + intros Hpl. split; [by apply Hx | done].
    + done.
    + by eapply opened; [| | | frame | | | exact Ht4 | ..].
  - destruct Hs as [Hs | Hs]; [done |].
    upd_tok t4 Ht4. norm.
    assert (Hl4 : JSMN_PARENT_LINKS cfg = true ->
              linked (<[Z.to_nat (toksuper parser) :=
                          mk_tok (tok_type t4) (tok_start t4) (tok_end t4)
                            (wrap (tok_size t4 + 1)) (tok_parent t4) (tok_next_sibling t4)]>
                        (<[Z.to_nat (toknext parser) :=
                             mk_tok (Z.lor type JSMN_VALUE) (tok_start x) (tok_end x)
                               (tok_size x) (tok_parent x) (tok_next_sibling x)]>
                           (<[Z.to_nat (toknext parser) :=
                                mk_tok type (tok_start x) (tok_end x) (tok_size x)
                                  (tok_parent x) (tok_next_sibling x)]>
                              (<[Z.to_nat (toknext parser) := x]> toks))))
                (toknext parser)).
    { intros Hpl. apply (linked_same _ _ _ t4); [by repeat (apply Hold) | done ..]. }
    assert (Hc4 : JSMN_NEXT_SIBLING cfg = true ->
              chained (<[Z.to_nat (toksuper parser) :=
                          mk_tok (tok_type t4) (tok_start t4) (tok_end t4)
                            (wrap (tok_size t4 + 1)) (tok_parent t4) (tok_next_sibling t4)]>
                        (<[Z.to_nat (toknext parser) :=
                             mk_tok (Z.lor type JSMN_VALUE) (tok_start x) (tok_end x)
                               (tok_size x) (tok_parent x) (tok_next_sibling x)]>
                           (<[Z.to_nat (toknext parser) :=
                                mk_tok type (tok_start x) (tok_end x) (tok_size x)
                                  (tok_parent x) (tok_next_sibling x)]>
                              (<[Z.to_nat (toknext parser) := x]> toks))))
                (toknext parser)).
    { intros Hns. apply (chained_same _ _ _ t4); [by repeat (apply Hold') | done ..]. }
    clear Ht4.
    destruct (JSMN_PARENT_LINKS cfg) eqn:Hpl; [upd_tok t5 Ht5; lookups |]; cbn [bind].
    + edestruct (token_added cfg num_tokens Hnum fuel len parser toks)
        as (toks' & -> & T' & [= <-] & Hsafe' & Hsame' & _);
        [done | done | done | done | | | by apply list_lookup_insert_eq; in_pool | | | |].
      * by rewrite !length_insert.
      * intros i Hi. by rewrite !list_lookup_insert_ne by lia.
      * rewrite Hpl. intros _. split; [| done]. apply linked_insert; [by apply Hl4 | lia].
      * intros Hns. split; [| by apply Hx']. apply chained_insert; [by apply Hc4 | lia].
      * split; [| exact (proj2 Hp)]. lia.
      * cbn [bind fst] in *. destruct Hsafe' as (_ & _ & _ & _ & Hl' & Hc').
        pose proof Hsame' as [Hlen' _]. cbn [toknext] in *.
        match goal with
        | |- context [tok_upd ?T ?i ?f] =>
          destruct (tok_upd_total T i f) as (t6 & Ht6 & ->); [lia |]
        end.
        cbn [bind]. norm. rewrite wrap_small by lia.
        replace (toknext parser + 1 - 1) with (toknext parser) by lia.
        eexists. split; [done |]. cbn [flow_state].
        by eapply opened; [| | | | | | exact Ht6 | ..].
    + edestruct (token_added cfg num_tokens Hnum fuel len parser toks)
        as (toks' & -> & T' & [= <-] & Hsafe' & Hsame' & _);
        [done | done | done | done | |
        | by rewrite list_lookup_insert_ne by lia; apply list_lookup_insert_eq; in_pool
        | | | |].
      * by rewrite !length_insert.
      * intros i Hi. by rewrite !list_lookup_insert_ne by lia.
      * rewrite Hpl. by intros [=].
      * intros Hns. split; [by apply Hc4 | by apply Hx'].
      * split; [| exact (proj2 Hp)]. lia.
      * cbn [bind fst] in *. destruct Hsafe' as (_ & _ & _ & _ & Hl' & Hc').
        pose proof Hsame' as [Hlen' _]. cbn [toknext] in *.
        match goal with
        | |- context [tok_upd ?T ?i ?f] =>
          destruct (tok_upd_total T i f) as (t6 & Ht6 & ->); [lia |]
        end.
        cbn [bind]. norm. rewrite wrap_small by lia.
        replace (toknext parser + 1 - 1) with (toknext parser) by lia.
        eexists. split; [done |]. cbn [flow_state].
        by eapply opened; [| | | | | | exact Ht6 | ..].
Qed.

Lemma find_open_total toks k :
  (k <= length toks)%nat ->
  exists o, find_open toks k = Done o /\ forall j, o = Some j -> 0 <= j < Z.of_nat k.
Proof.
  induction k as [| k IH]; intros Hk; cbn [find_open]; [by eexists |].
  get_tok t Ht. destruct (is_open t).
  - eexists. split; [done |]. intros j [= <-]. lia.
  - destruct IH as (o & -> & Ho); [lia |]. eexists. split; [done |].
    intros j Hj. specialize (Ho j Hj). lia.
Qed.

Lemma find_open_container_total toks k :
  (k <= length toks)%nat ->
  exists o, find_open_container toks k = Done o /\
            forall j, o = Some j -> 0 <= j < Z.of_nat k.
Proof.
  induction k as [| k IH]; intros Hk; cbn [find_open_container]; [by eexists |].
  get_tok t Ht. destruct (nz (jsmn_is_type t JSMN_CONTAINER) && is_open t).
  - eexists. split; [done |]. intros j [= <-]. lia.
  - destruct IH as (o & -> & Ho); [lia |]. eexists. split; [done |].
    intros j Hj. specialize (Ho j Hj). lia.
Qed.

(** What a closing bracket leaves when it found its token. *)
Lemma close_by_parent_total fuel parser toks type token :
  linked toks (toknext parser) ->
  toknext parser <= Z.of_nat (length toks) ->
  toksuper parser = JSMN_NEG \/ 0 <= toksuper parser < toknext parser ->
  0 <= token < toknext parser -> (Z.to_nat token < fuel)%nat ->
  exists o, close_by_parent fuel parser toks type token = Done o /\
    forall p toks', o = Some (p, toks') ->
      same_from (toknext parser) toks toks' /\ linked toks' (toknext parser) /\
      (forall k', chained toks k' -> chained toks' k') /\
      pos p = pos parser /\ toknext p = toknext parser /\
      (toksuper p = JSMN_NEG \/ 0 <= toksuper p < toknext parser).
Proof.
  intros Hl Hpool Hs. revert token.
  induction fuel as [| fuel IH]; intros token Htok Hfuel; [lia |].
  cbn [close_by_parent]. get_tok t Ht.
  pose proof (Hl (Z.to_nat token) t ltac:(lia) Ht) as Hlink. pose proof Hlink as [Hpar _].
  destruct (is_open t).
  - destruct (nz (jsmn_is_type t type)); cbn [negb]; [| by eexists].
    upd_tok t' Ht'. rewrite Ht in Ht'. injection Ht' as <-.
    eexists. split; [done |]. intros p toks' [= <- <-].
    split; [apply same_from_insert; lia |].
    split; [apply linked_insert; [done |]; intros _; by apply (link_ok_same _ t) |].
    split; [intros k' Hc; by apply (chained_same _ _ _ t) |].
    cbn. split; [done |]. split; [done |]. lia.
  - destruct (Z.eqb_spec (tok_parent t) JSMN_NEG) as [Heq | Hne].
    + destruct (negb _ || _); [by eexists |]. eexists. split; [done |].
      by intros p toks' [= <- <-].
    + apply IH; lia.
Qed.

Lemma close_by_scan_total parser toks type :
  0 <= toknext parser <= Z.of_nat (length toks) ->
  exists o, close_by_scan parser toks type = Done o /\
    forall p toks', o = Some (p, toks') ->
      same_from (toknext parser) toks toks' /\
      (forall k', chained toks k' -> chained toks' k') /\
      pos p = pos parser /\ toknext p = toknext parser /\
      (toksuper p = JSMN_NEG \/ 0 <= toksuper p < toknext parser).
Proof.
  intros Hk. unfold close_by_scan.
  destruct (find_open_total toks (Z.to_nat (toknext parser))) as (o & -> & Ho); [lia |].
  cbn [bind]. destruct o as [i |]; [| by eexists].
  specialize (Ho i eq_refl). get_tok t Ht.
  destruct (nz (jsmn_is_type t type)); cbn [negb]; [| by eexists].
  upd_tok t' Ht'.
  destruct (find_open_total (<[Z.to_nat i := set_end t' (wrap (pos (set_toksuper parser JSMN_NEG) + 1))]> toks) (S (Z.to_nat i))) as (o & -> & Ho'); [in_pool |].
  cbn [bind]. destruct o as [j |].
  - specialize (Ho' j eq_refl). eexists. split; [done |]. intros p toks' [= <- <-].
    split; [apply same_from_insert; lia |].
    split; [intros k' Hc; by apply (chained_same _ _ _ t') |].
    cbn. split; [done |]. split; [done |]. lia.
  - eexists. split; [done |]. intros p toks' [= <- <-].
    split; [apply same_from_insert; lia |].
    split; [intros k' Hc; by apply (chained_same _ _ _ t') |].
    cbn. split; [done |]. split; [done |]. by left.
Qed.

Lemma parse_close_total fuel parser toks count c :
  safe cfg num_tokens parser toks -> 0 <= pos parser < len ->
  (Z.to_nat num_tokens < fuel)%nat ->
  exists fl, parse_close fuel cfg parser (Some toks) count c = Done fl /\
             safe_after cfg num_tokens len parser toks (flow_state fl).
Proof.
  intros Hsafe Hp Hfuel. pose proof Hsafe as (Hk & Hpool & Hs & He & Hl & Hc).
  assert (Hsame : safe_after cfg num_tokens len parser toks (parser, Some toks))
    by (apply safe_after_same; [done | lia | done ..]).
  unfold parse_close.
  destruct (nz (jsmn_is_expected parser JSMN_CLOSE)); cbn [negb]; [| by eexists].
  set (type := if c =? RBRACE then JSMN_OBJECT else JSMN_ARRAY).
  assert (exists o,
             (if JSMN_PARENT_LINKS cfg
              then if toknext parser <? 1 then Done None
                   else close_by_parent fuel parser toks type (wrap (toknext parser - 1))
              else close_by_scan parser toks type) = Done o /\
             forall p toks', o = Some (p, toks') ->
               same_from (toknext parser) toks toks' /\
               (JSMN_PARENT_LINKS cfg = true -> linked toks' (toknext parser)) /\
               (JSMN_NEXT_SIBLING cfg = true -> chained toks' (toknext parser)) /\
               pos p = pos parser /\ toknext p = toknext parser /\
               (toksuper p = JSMN_NEG \/ 0 <= toksuper p < toknext parser))
    as (o & -> & Ho).
  { destruct (JSMN_PARENT_LINKS cfg) eqn:Hpl.
    - destruct (Z.ltb_spec (toknext parser) 1); [by eexists |].
      rewrite wrap_small by lia.
      destruct (close_by_parent_total fuel parser toks type (toknext parser - 1))
        as (o & -> & Ho); [by apply Hl | lia | done | lia | lia |].
      eexists. split; [done |]. intros p toks' Hp'.
      destruct (Ho p toks' Hp') as (? & ? & Hc' & ? & ? & ?).
      split; [done |]. split; [done |]. split; [| done]. intros Hns. by apply Hc', Hc.
    - destruct (close_by_scan_total parser toks type) as (o & -> & Ho); [lia |].
      eexists. split; [done |]. intros p toks' Hp'.
      destruct (Ho p toks' Hp') as (? & Hc' & ? & ? & ?).
      split; [done |]. split; [done |]. split; [| done]. intros Hns. by apply Hc', Hc. }
  cbn [bind]. destruct o as [[p toks'] |]; [| by eexists].
  destruct (Ho p toks' eq_refl) as (Hsame' & Hl' & Hc' & Hpos' & Hnext' & Hsup').
  pose proof Hsame' as [Hlen' _]. rewrite Hstrict.
  destruct (Z.eqb_spec (toksuper p) JSMN_NEG) as [Htop | Hsub];
    eexists; (split; [done |]); eexists; (split; [done |]); cbn [fst flow_state];
    (split; [| split; [cbn; by rewrite Hnext' | cbn; lia]]);
    (split; [cbn; lia |]); (split; [lia |]);
    (split; [cbn; rewrite Hnext'; done |]); (split; [done |]);
    cbn [toknext set_expected]; by rewrite Hnext'.
Qed.

Lemma parse_colon_total parser toks count :
  safe cfg num_tokens parser toks -> 0 <= pos parser < len ->
  exists fl, parse_colon cfg parser (Some toks) count = Done fl /\
             safe_after cfg num_tokens len parser toks (flow_state fl).
Proof.
  intros Hsafe Hp. pose proof Hsafe as (Hk & Hpool & Hs & He & Hl & Hc).
  assert (Hsame : safe_after cfg num_tokens len parser toks (parser, Some toks))
    by (apply safe_after_same; [done | lia | done ..]).
  unfold parse_colon.
  destruct (nz (jsmn_is_expected parser JSMN_DELIMITER)); cbn [negb]; [| by eexists].
  rewrite Hstrict.
  destruct (Z.eqb_spec (toksuper parser) JSMN_NEG) as [Htop | Hsub]; [by eexists |].
  destruct Hs as [Hs | Hs]; [done |]. rewrite wrap_small by lia.
  get_tok prev Hprev.
  destruct (nz (jsmn_is_type prev JSMN_KEY)); cbn [negb]; [| by eexists].
  eexists. split; [done |]. eexists. split; [done |]. cbn [fst flow_state].
  split; [| split; [done | cbn; lia]].
  split; [done |]. split; [done |]. split; [cbn; right; lia |].
  split; [cbn; rewrite neg_value; lia |]. done.
Qed.

Lemma parse_comma_total parser toks count :
  safe cfg num_tokens parser toks -> 0 <= pos parser < len ->
  exists fl, parse_comma cfg parser (Some toks) count = Done fl /\
             safe_after cfg num_tokens len parser toks (flow_state fl).
Proof.
  intros Hsafe Hp. pose proof Hsafe as (Hk & Hpool & Hs & He & Hl & Hc).
  assert (Hsame : safe_after cfg num_tokens len parser toks (parser, Some toks))
    by (apply safe_after_same; [done | lia | done ..]).
  unfold parse_comma.
  destruct (Z.eqb_spec (toksuper parser) JSMN_NEG) as [Htop | Hsub]; [by eexists |].
  destruct Hs as [Hs | Hs]; [done |].
  destruct (nz (jsmn_is_expected parser JSMN_DELIMITER)); cbn [negb]; [| by eexists].
  rewrite Hstrict. rewrite wrap_small by lia. get_tok prev Hprev.
  destruct (nz (jsmn_is_type prev JSMN_KEY)); cbn [bind]; [by eexists |].
  get_tok sup Hsup.
  assert (Hgo : forall e, exists fl,
             (do sup0 <- tok_get toks (toksuper (set_expected parser e));
              if negb (nz (jsmn_is_type sup0 JSMN_CONTAINER))
              then if JSMN_PARENT_LINKS cfg
                   then Done (Next (set_toksuper (set_expected parser e) (tok_parent sup0))
                                (Some toks) count)
                   else do o <- find_open_container toks
                                  (Z.to_nat (toknext (set_expected parser e)));
                        match o with
                        | Some i => Done (Next (set_toksuper (set_expected parser e) i)
                                            (Some toks) count)
                        | None => Done (Next (set_expected parser e) (Some toks) count)
                        end
              else Done (Next (set_expected parser e) (Some toks) count)) = Done fl /\
             safe_after cfg num_tokens len parser toks (flow_state fl)).
  { intros e. cbn [toksuper toknext set_expected].
    assert (Hnew : forall s, 0 <= s < toknext parser ->
               safe_after cfg num_tokens len parser toks
                 (mk_parser (pos parser) (toknext parser) s e, Some toks)).
    { intros s Hs'. eexists. split; [done |]. cbn [fst].
      split; [| split; [done | cbn; lia]].
      split; [done |]. split; [done |]. split; [cbn; right; lia |].
      split; [cbn; rewrite neg_value; lia |]. done. }
    get_tok sup' Hsup'. destruct (nz (jsmn_is_type sup' JSMN_CONTAINER)) eqn:Hcont; cbn [negb].
    - eexists. split; [done |]. by apply Hnew.
    - destruct (JSMN_PARENT_LINKS cfg) eqn:Hpl.
      + eexists. split; [done |]. apply Hnew.
        destruct (Hl eq_refl (Z.to_nat (toksuper parser)) sup' ltac:(lia) Hsup')
          as [[Hneg | Hin] Hnot]; [by destruct (Hnot Hcont) | lia].
      + destruct (find_open_container_total toks (Z.to_nat (toknext parser)))
          as (o & -> & Ho); [lia |].
        cbn [bind]. destruct o as [i |]; (eexists; split; [done |]); apply Hnew; [| done].
        specialize (Ho i eq_refl). lia. }
  destruct (nz (jsmn_is_type sup JSMN_OBJECT)); apply Hgo.
Qed.
End SafeCases.

Section SafeLoop.
Variable cfg : config.
Variable js : list Z.
Variable len : Z.
Variable num_tokens : Z.
Variable fuel : nat.
Hypothesis Hstrict : JSMN_PERMISSIVE cfg = false.
Hypothesis Hjs : len <= Z.of_nat (length js).
Hypothesis Hlen : len < 2 ^ 32.
Hypothesis Hnum : num_tokens < 2 ^ 32.
Hypothesis Hfuel : (Z.to_nat len < fuel)%nat.
Hypothesis Hfuel' : (Z.to_nat num_tokens < fuel)%nat.

Lemma primitive_start_not_end c :
  primitive_start c = true -> primitive_end cfg c = false.
Proof.
  unfold primitive_start, primitive_end. rewrite Hstrict. cbn [andb orb].
  intros H. apply not_true_is_false. intros E.
  rewrite !orb_true_iff, ?andb_true_iff, ?Z.eqb_eq, ?Z.leb_le in E, H. lia.
Qed.

Lemma jsmn_step_total parser toks count c :
  safe cfg num_tokens parser toks -> 0 <= pos parser < len ->
  js_at js (pos parser) = Done c -> c <> 0 ->
  exists fl, jsmn_step fuel cfg js len num_tokens parser (Some toks) count c = Done fl /\
             safe_after cfg num_tokens len parser toks (flow_state fl).
Proof.
  intros Hsafe Hp Hc Hc0. unfold jsmn_step.
  destruct (_ || _); [by apply parse_open_total |].
  destruct (_ || _); [by apply parse_close_total |].
  destruct (c =? QUOTE).
  { destruct (jsmn_parse_string_total cfg num_tokens Hstrict Hnum js len fuel Hjs Hlen Hfuel
                Hfuel' parser toks Hsafe Hp) as (r & p & toks' & -> & Hkept).
    cbn [bind]. by apply after_scalar_total. }
  destruct (is_space c).
  { eexists. split; [done |]. apply safe_after_same; [done | lia | done ..]. }
  destruct (c =? COLON); [by apply parse_colon_total |].
  destruct (c =? COMMA); [by apply parse_comma_total |].
  rewrite Hstrict. cbn [orb].
  destruct (primitive_start c) eqn:Hstart.
  - destruct (jsmn_parse_primitive_total cfg num_tokens Hstrict Hnum js len fuel Hjs Hlen
                Hfuel Hfuel' parser toks c Hsafe Hp Hc Hc0 (primitive_start_not_end c Hstart))
      as (r & p & toks' & -> & Hkept).
    cbn [bind]. by apply after_scalar_total.
  - eexists. split; [done |]. apply safe_after_same; [done | lia | done ..].
Qed.

Lemma jsmn_finish_total parser toks count :
  0 <= toknext parser <= Z.of_nat (length toks) ->
  exists r, jsmn_finish parser (Some toks) count = Done (r, parser, Some toks).
Proof.
  intros Hk. unfold jsmn_finish.
  destruct (find_open_total toks (Z.to_nat (toknext parser))) as (o & -> & _); [lia |].
  cbn [bind]. destruct o; by eexists.
Qed.

Lemma jsmn_loop_total n parser toks count :
  safe cfg num_tokens parser toks -> 0 <= pos parser <= len ->
  (Z.to_nat (len - pos parser) < n)%nat ->
  exists r p toks',
    jsmn_loop n fuel cfg js len num_tokens parser (Some toks) count
    = Done (r, p, Some toks') /\
    safe cfg num_tokens p toks' /\ same_from (toknext p) toks toks' /\
    pos parser <= pos p <= len /\ toknext parser <= toknext p.
Proof.
  revert parser toks count.
  induction n as [| n IH]; intros parser toks count Hsafe Hp Hn; [lia |].
  cbn [jsmn_loop].
  assert (Hfin : exists r p toks',
             jsmn_finish parser (Some toks) count = Done (r, p, Some toks') /\
             safe cfg num_tokens p toks' /\ same_from (toknext p) toks toks' /\
             pos parser <= pos p <= len /\ toknext parser <= toknext p).
  { destruct (jsmn_finish_total parser toks count) as [r ->].
    - destruct Hsafe as (? & ? & _). lia.
    - exists r, parser, toks. split; [done |]. split; [done |]. split; [done |]. lia. }
  destruct (Z.ltb_spec (pos parser) len) as [Hlt | Hge]; [| done].
  destruct (js_at_in js (pos parser)) as [c Hc]; [lia |]. rewrite Hc. cbn [bind].
  destruct (Z.eqb_spec c NUL) as [Hnul | Hc0]; [done |].
  destruct (jsmn_step_total parser toks count c)
    as (fl & -> & toks' & Ht & Hs' & Hl' & Hp' & Hk'); [done | lia | done | done |].
  cbn [bind]. destruct fl as [p t count' | r p t]; cbn [flow_state fst snd] in *; subst t.
  - rewrite wrap_small by lia.
    destruct (IH (set_pos p (pos p + 1)) toks' count')
      as (r & p' & toks'' & -> & ? & ? & ? & ?); [done | cbn; lia | cbn; lia |].
    exists r, p', toks''. split; [done |]. split; [done |]. cbn in *.
    split; [by apply (same_from_trans (toknext p) _ _ toks') |]. lia.
  - exists r, p, toks'. split; [done |]. split; [done |]. split; [done |]. lia.
Qed.

Lemma jsmn_parse_total parser toks :
  safe cfg num_tokens parser toks -> 0 <= pos parser <= len ->
  exists r p toks',
    jsmn_parse fuel cfg parser js len (Some toks) num_tokens = Done (r, p, Some toks') /\
    safe cfg num_tokens p toks' /\ same_from (toknext p) toks toks' /\
    pos parser <= pos p <= len /\ toknext parser <= toknext p.
Proof. intros Hsafe Hp. apply jsmn_loop_total; [done | done | lia]. Qed.

End SafeLoop.

Lemma safe_init cfg num_tokens toks :
  JSMN_PERMISSIVE cfg = false -> 0 <= num_tokens <= Z.of_nat (length toks) ->
  safe cfg num_tokens (jsmn_init cfg) toks.
Proof.
  intros Hstrict Hn. unfold jsmn_init. rewrite Hstrict.
  split; [cbn; lia |]. split; [lia |]. split; [by left |]. split; [done |].
  split; intros _ i t Hi; cbn in Hi; lia.
Qed.
(** X7. The strict parser stays inside the buffer and the pool, with or
    without parent links and sibling links.  From a fresh parser, on any
    input of [len] bytes and any pool of at least [num_tokens] slots (both
    below 2^32), [jsmn_parse] returns: it reads no byte at or after [len],
    touches no token outside the pool (either would make the run [Undef]),
    and none of its loops, the walks along the parent links and the
    sibling links included, goes on for ever.  The pool keeps its length,
    its slots from [toknext] on (so every slot from [num_tokens] on) are
    unchanged, [pos] is at most [len], [toknext] at most [num_tokens], and
    [toksuper] is [JSMN_NEG] or below [toknext]. *)
Theorem strict_parse_stays_in_bounds (fuel : nat) (cfg : config) (js : list Z) (len : Z)
    (toks : list jsmntok_t) (num_tokens : Z) :
  JSMN_PERMISSIVE cfg = false ->
  0 <= len <= Z.of_nat (length js) -> len < 2 ^ 32 ->
  0 <= num_tokens <= Z.of_nat (length toks) -> num_tokens < 2 ^ 32 ->
  (Z.to_nat len < fuel)%nat -> (Z.to_nat num_tokens < fuel)%nat ->
  exists r p toks',
    jsmn_parse fuel cfg (jsmn_init cfg) js len (Some toks) num_tokens
    = Done (r, p, Some toks') /\
    length toks' = length toks /\
    (forall i : nat, toknext p <= Z.of_nat i -> toks' !! i = toks !! i) /\
    0 <= pos p <= len /\ 0 <= toknext p <= num_tokens /\
    (toksuper p = JSMN_NEG \/ 0 <= toksuper p < toknext p).
Proof.
  intros Hstrict Hlen Hmax Hnum Hnmax Hfuel Hfuel'.
  destruct (jsmn_parse_total cfg js len num_tokens fuel Hstrict ltac:(lia) Hmax Hnmax
              Hfuel Hfuel' (jsmn_init cfg) toks)
    as (r & p & toks' & Hrun & Hsafe & [Hl Hsame] & Hpos & Hnext).
  { by apply safe_init. }
  { cbn. lia. }
  exists r, p, toks'. destruct Hsafe as (Hk & _ & Hs & _).
  cbn in Hpos. repeat split; try done; lia.
Qed.

Lemma strict_parse_stays_in_bounds_witness :
  exists r p toks',
    jsmn_parse 10 (strict true true) (jsmn_init (strict true true))
      (js_of "{'a':[1]}") 9 (Some (replicate 5 blank)) 3
    = Done (r, p, Some toks') /\
    length toks' = length (replicate 5 blank) /\
    (forall i : nat, toknext p <= Z.of_nat i -> toks' !! i = replicate 5 blank !! i) /\
    0 <= pos p <= 9 /\ 0 <= toknext p <= 3 /\
    (toksuper p = JSMN_NEG \/ 0 <= toksuper p < toknext p).
Proof.
  apply (strict_parse_stays_in_bounds 10 (strict true true) (js_of "{'a':[1]}") 9
           (replicate 5 blank) 3); try reflexivity; try (vm_compute; lia).
  all: split; vm_compute; congruence.
Defined.

(** X8. The safe states are kept by the strict parser, whatever the
    input.  A state is safe when [toknext] is at most [num_tokens], the
    pool has at least [num_tokens] slots, [toksuper] is [JSMN_NEG] or
    below [toknext], [expected] is [JSMN_CONTAINER] when [toksuper] is
    [JSMN_NEG], with parent links the parent of every allocated token is
    [JSMN_NEG] or an earlier token, the former for a container only, and
    with sibling links the next sibling of every allocated token is
    [JSMN_NEG] or a later allocated token.  From a safe state with the
    cursor inside the input [jsmn_parse] returns, in a safe state again, so
    that a call can follow a call (on more input, after [JSMN_ERROR_PART],
    or on the same input); the pool has changed below the new [toknext]
    only, and neither [pos] nor [toknext] has decreased. *)
Theorem strict_parse_keeps_safe (fuel : nat) (cfg : config) (parser : jsmn_parser)
    (js : list Z) (len : Z) (toks : list jsmntok_t) (num_tokens : Z) :
  JSMN_PERMISSIVE cfg = false ->
  len <= Z.of_nat (length js) -> len < 2 ^ 32 -> num_tokens < 2 ^ 32 ->
  (Z.to_nat len < fuel)%nat -> (Z.to_nat num_tokens < fuel)%nat ->
  safe cfg num_tokens parser toks -> 0 <= pos parser <= len ->
  exists r p toks',
    jsmn_parse fuel cfg parser js len (Some toks) num_tokens = Done (r, p, Some toks') /\
    safe cfg num_tokens p toks' /\ same_from (toknext p) toks toks' /\
    pos parser <= pos p <= len /\ toknext parser <= toknext p.
Proof.
  intros Hstrict Hlen Hmax Hnmax Hfuel Hfuel' Hsafe Hpos.
  by apply jsmn_parse_total.
Qed.

Lemma strict_parse_keeps_safe_witness :
  let parser := mk_parser 4 3 2 79 in
  let toks := [mk_tok 34 0 JSMN_NEG 2 JSMN_NEG JSMN_NEG; mk_tok 40 1 2 0 0 2;
               mk_tok 34 3 JSMN_NEG 0 0 JSMN_NEG; blank] in
  exists r p toks',
    jsmn_parse 8 (strict true true) parser (js_of "[1,[2]]") 7 (Some toks) 4
    = Done (r, p, Some toks') /\
    safe (strict true true) 4 p toks' /\ same_from (toknext p) toks toks' /\
    pos parser <= pos p <= 7 /\ toknext parser <= toknext p.
Proof.
  intros parser toks.
  apply (strict_parse_keeps_safe 8 (strict true true) parser (js_of "[1,[2]]") 7 toks 4);
    try reflexivity; try (vm_compute; lia).
  - split; [vm_compute; split; congruence |]. split; [vm_compute; congruence |].
    split; [right; vm_compute; split; [congruence | reflexivity] |].
    split; [intros [=] |].
    split; intros _ i t Hi Ht; (destruct i as [| [| [| i]]]; [| | | cbn in Hi; lia]);
      injection Ht as <-; vm_compute; intuition congruence.
  - split; vm_compute; congruence.
Defined.

(** ** A token takes at least one byte *)

Lemma wrap_le x : 0 <= x -> 0 <= wrap x <= x.
Proof.
  intros Hx. unfold wrap. split; [apply Z.mod_pos_bound; lia |].
  apply Z.mod_le; lia.
Qed.

Lemma hex_loop_bound n js len p q :
  0 <= p <= len -> len < 2 ^ 32 -> hex_loop n js len p = Done (Some q) -> p <= q <= len.
Proof.
  revert p. induction n as [| n IH]; intros p Hp Hmax H; cbn [hex_loop] in H.
  { simplify_eq. lia. }
  destruct (Z.ltb_spec p len) as [Hlt | Hge]; [| simplify_eq; lia].
  destruct (js_at js p) as [c | |]; [| done..]. cbn [bind] in H.
  destruct (c =? 0); [simplify_eq; lia |].
  destruct (is_hex c); [| done].
  rewrite wrap_small in H by lia. apply IH in H; lia.
Qed.

Lemma string_loop_range fuel js len p q :
  0 <= p -> len < 2 ^ 32 -> string_loop fuel js len p = Done (StrQuote q) -> p <= q < len.
Proof.
  revert p. induction fuel as [| fuel IH]; intros p Hp Hmax H; [done |].
  cbn [string_loop] in H.
  destruct (Z.ltb_spec p len) as [Hlt | Hge]; [| done].
  destruct (js_at js p) as [c | |]; [| done..]. cbn [bind] in H.
  destruct (c =? 0); [done |].
  destruct (c =? 34); [simplify_eq; lia |].
  rewrite (wrap_small (p + 1)) in H by lia.
  assert (Hnext : string_loop fuel js len (p + 1) = Done (StrQuote q) -> p <= q < len).
  { intros H'. apply IH in H'; lia. }
  destruct (c =? 92); [| by apply Hnext]. cbn [andb] in H.
  destruct (Z.ltb_spec (p + 1) len) as [Hlt1 | Hge1]; [| by apply Hnext].
  destruct (js_at js (p + 1)) as [e | |]; [| done..]. cbn [bind] in H.
  rewrite (wrap_small (p + 1 + 1)) in H by lia.
  destruct (simple_escape e); [apply IH in H; lia |].
  destruct (e =? 117); [| done].
  destruct (hex_loop 4 js len (p + 1 + 1)) as [[h |] | |] eqn:Hh; [| done..].
  cbn [bind] in H. apply hex_loop_bound in Hh; [| lia | done].
  rewrite wrap_pred_succ in H by lia. apply IH in H; lia.
Qed.

Lemma jsmn_parse_string_grows fuel cfg parser js len tokens num_tokens p t :
  jsmn_parse_string fuel cfg parser js len tokens num_tokens = Done (JSMN_SUCCESS, p, t) ->
  0 <= pos parser < len -> len < 2 ^ 32 -> 0 <= toknext parser ->
  pos parser < pos p < len /\ 0 <= toknext p <= toknext parser + 1.
Proof.
  unfold jsmn_parse_string. intros H Hp Hmax Hk. run_inv_all;
    repeat match goal with
           | E : jsmn_alloc_token _ _ _ _ = Done (Some _) |- _ =>
             apply jsmn_alloc_token_some in E as (-> & -> & _)
           | E : string_loop _ _ _ _ = Done (StrQuote _) |- _ =>
             rewrite wrap_small in E by (cbn; lia);
             apply string_loop_range in E; [| cbn; lia | done]
           end; cbn in *;
    (split; [lia |]);
    first [lia | apply wrap_le; lia | pose proof (wrap_le (toknext parser + 1)); lia].
Qed.

Lemma jsmn_parse_primitive_grows fuel cfg parser js len tokens num_tokens p t c :
  jsmn_parse_primitive fuel cfg parser js len tokens num_tokens
    = Done (JSMN_SUCCESS, p, t) ->
  0 <= pos parser < len -> len < 2 ^ 32 -> 0 <= toknext parser ->
  js_at js (pos parser) = Done c -> c <> 0 -> primitive_end cfg c = false ->
  pos parser <= pos p < len /\ 0 <= toknext p <= toknext parser + 1.
Proof.
  unfold jsmn_parse_primitive. intros H Hp Hmax Hk Hc Hc0 Hend.
  pose proof (wrap_le (toknext parser + 1)) as Hw.
  run_inv_all;
    repeat match goal with
           | E : jsmn_alloc_token _ _ _ _ = Done (Some _) |- _ =>
             apply jsmn_alloc_token_some in E as (-> & -> & _)
           | E : primitive_loop _ _ _ _ _ = Done ?r |- _ =>
             cbn in E;
             pose proof (primitive_loop_advance _ _ _ _ _ _ _ Hp Hmax Hc Hc0 Hend E) as Hadv;
             clear E
           end; cbn in *;
    match goal with
    | Hadv : forall q, PrimFound ?x = _ \/ _ -> _ |- _ => specialize (Hadv x (or_introl eq_refl))
    | Hadv : forall q, _ \/ PrimEnd ?x = _ -> _ |- _ => specialize (Hadv x (or_intror eq_refl))
    end;
    rewrite wrap_small by lia; lia.
Qed.

Lemma parse_open_grows fuel cfg parser tokens num_tokens count c p t n :
  parse_open fuel cfg parser tokens num_tokens count c = Done (Next p t n) ->
  0 <= toknext parser ->
  pos p = pos parser /\ 0 <= toknext p <= toknext parser + 1.
Proof.
  unfold parse_open. intros H Hk.
  pose proof (wrap_le (toknext parser + 1)) as Hw.
  run_inv_all;
    repeat match goal with
           | E : jsmn_alloc_token _ _ _ _ = Done (Some _) |- _ =>
             apply jsmn_alloc_token_some in E as (-> & -> & _)
           end; cbn in *; (split; [done | lia]).
Qed.

(** The dispatch sends no byte that ends a primitive to the primitive
    scanner. *)
Lemma dispatch_primitive_end cfg c :
  ((c =? RBRACE) || (c =? RBRACKET)) = false -> is_space c = false ->
  (c =? COLON) = false -> (c =? COMMA) = false -> primitive_end cfg c = false.
Proof.
  unfold primitive_end, is_space. intros H1 H2 H3 H4.
  apply orb_false_iff in H1 as [H1 H1']. rewrite H1, H1', H3, H4.
  rewrite andb_false_r. cbn [orb]. rewrite orb_false_r. by rewrite !orb_false_r.
Qed.

(** A pass that goes on moves the cursor inside the input, not back, and
    takes at most one token. *)
Lemma jsmn_step_grows fuel cfg js len num_tokens parser tokens count c p t n :
  jsmn_step fuel cfg js len num_tokens parser tokens count c = Done (Next p t n) ->
  0 <= pos parser < len -> len < 2 ^ 32 -> 0 <= toknext parser ->
  js_at js (pos parser) = Done c -> c <> 0 ->
  pos parser <= pos p < len /\ 0 <= toknext p <= toknext parser + 1.
Proof.
  unfold jsmn_step. intros H Hp Hmax Hk Hc Hc0.
  destruct ((c =? 123) || (c =? 91)).
  { apply parse_open_grows in H as [-> ?]; [lia | done]. }
  destruct ((c =? 125) || (c =? 93)) eqn:Hclose.
  { apply parse_close_next in H as (_ & -> & -> & _). lia. }
  destruct (c =? 34).
  { apply bind_done in H as ([[r p'] t'] & Hs & H).
    pose proof (after_scalar_parser _ _ _ _ _ H) as Hsame. cbn in Hsame. subst p'.
    apply after_scalar_next in H as (-> & _).
    apply jsmn_parse_string_grows in Hs; [lia | done..]. }
  destruct (is_space c) eqn:Hspace; [simplify_eq; lia |].
  destruct (c =? 58) eqn:Hcolon.
  { apply parse_colon_next in H as (_ & -> & -> & _). lia. }
  destruct (c =? 44) eqn:Hcomma.
  { apply parse_comma_next in H as (_ & -> & -> & _). lia. }
  destruct (JSMN_PERMISSIVE cfg || primitive_start c); [| done].
  apply bind_done in H as ([[r p'] t'] & Hs & H).
  pose proof (after_scalar_parser _ _ _ _ _ H) as Hsame. cbn in Hsame. subst p'.
  apply after_scalar_next in H as (-> & _).
  eapply jsmn_parse_primitive_grows in Hs; [done | done.. |].
  by apply dispatch_primitive_end.
Qed.

Lemma reaches_grows fuel cfg js len num_tokens s s' :
  reaches fuel cfg js len num_tokens s s' -> len < 2 ^ 32 ->
  0 <= toknext (it_parser s) <= pos (it_parser s) ->
  0 <= toknext (it_parser s') <= pos (it_parser s') /\
  pos (it_parser s) <= pos (it_parser s').
Proof.
  intros H Hmax. induction H as [s | s s' s'' Hpass _ IH]; intros Hs; [lia |].
  destruct Hpass as (Hlt & c & p & t & n & Hc & Hc0 & Hstep & ->).
  apply jsmn_step_grows in Hstep; [| lia | done | lia | done | done].
  cbn [it_parser pos toknext set_pos] in IH. rewrite wrap_small in IH by lia.
  destruct IH; lia.
Qed.

(** X9. A token takes at least one byte, so a pool with as many slots as
    the input has bytes never runs out.  In every configuration, when
    [jsmn_parse] is entered with [toknext <= pos] (a fresh parser, or a
    parser the parser itself left) and returns [JSMN_ERROR_NOMEM], the
    pool has at most [pos] slots, where [pos] is the cursor it returns
    with, which is below [len]. *)
Theorem nomem_needs_fewer_tokens_than_bytes (fuel : nat) (cfg : config)
    (parser : jsmn_parser) (js : list Z) (len : Z) (tokens : option (list jsmntok_t))
    (num_tokens : Z) (p : jsmn_parser) (t : option (list jsmntok_t)) :
  len < 2 ^ 32 -> 0 <= toknext parser <= pos parser ->
  jsmn_parse fuel cfg parser js len tokens num_tokens
    = Done (Err JSMN_ERROR_NOMEM, p, t) ->
  num_tokens <= toknext p <= pos p /\ pos p < len.
Proof.
  intros Hmax Hk H. unfold jsmn_parse in H.
  apply (jsmn_loop_nomem _ _ _ _ _ _ (entry parser tokens)) in H
    as (s & c & Hreach & Hlt & _ & _ & Hpos & Hnext & _ & Hnum).
  apply reaches_grows in Hreach as [Hs _]; [| done | done]. lia.
Qed.

Lemma nomem_needs_fewer_tokens_than_bytes_witness :
  2 <= toknext (mk_parser 3 2 0 15) <= pos (mk_parser 3 2 0 15) /\
  pos (mk_parser 3 2 0 15) < 5.
Proof.
  apply (nomem_needs_fewer_tokens_than_bytes 6 (strict false false)
           (jsmn_init (strict false false)) (js_of "[1,2]") 5 (Some (replicate 2 blank)) 2
           (mk_parser 3 2 0 15)
           (Some [mk_tok 34 0 JSMN_NEG 1 0 0; mk_tok 40 1 2 0 0 0]));
    [reflexivity | vm_compute; split; congruence | vm_compute; reflexivity].
Defined.

(** ** The offsets of the tokens *)

Lemma ranged_spans p k toks : ranged p k toks <-> spans_ranged p k (span <$> toks).
Proof.
  split.
  - intros H i se Hi Hse. rewrite list_lookup_fmap in Hse.
    destruct (toks !! i) as [t |] eqn:Ht; [| done]. injection Hse as <-. by apply (H i).
  - intros H i t Hi Ht. apply (H i); [done |]. by rewrite list_lookup_fmap, Ht.
Qed.

Lemma span_ok_mono p p' se : span_ok p se -> p <= p' -> span_ok p' se.
Proof. unfold span_ok. intros [? [? | ?]] ?; (split; [lia |]); [by left | right; lia]. Qed.

Lemma spans_ranged_mono p p' k k' S :
  spans_ranged p k S -> p <= p' -> k' <= k -> spans_ranged p' k' S.
Proof. intros H Hp Hk i se Hi Hse. apply (span_ok_mono p); [| done]. apply (H i); [lia | done]. Qed.

Lemma ranged_mono p p' k k' toks :
  ranged p k toks -> p <= p' -> k' <= k -> ranged p' k' toks.
Proof. rewrite !ranged_spans. apply spans_ranged_mono. Qed.

(** One more token. *)
Lemma spans_ranged_new p p' k k' (j : nat) S se :
  spans_ranged p k S -> p <= p' -> Z.of_nat j = k -> k' <= k + 1 -> span_ok p' se ->
  spans_ranged p' k' (<[j := se]> S).
Proof.
  intros H Hp Hj Hk Hse i x Hi Hx.
  apply list_lookup_insert_Some in Hx as [(-> & <- & _) | [Hne Hx]]; [done |].
  apply (span_ok_mono p); [| done]. apply (H i); [lia | done].
Qed.

(** A token closed after the byte at [p]. *)
Lemma spans_ranged_close p k (j : nat) S a b :
  spans_ranged p k S -> S !! j = Some (a, b) -> 0 <= p ->
  spans_ranged (p + 1) k (<[j := (a, p + 1)]> S).
Proof.
  intros H Hj Hp i x Hi Hx.
  apply list_lookup_insert_Some in Hx as [(-> & <- & _) | [Hne Hx]].
  - destruct (H i (a, b) Hi Hj) as [Ha _]. cbn in *. split; [cbn; lia |]. right. cbn. lia.
  - apply (span_ok_mono p); [| lia]. by apply (H i).
Qed.

Lemma tok_upd_span toks i f toks' :
  tok_upd toks i f = Done toks' ->
  exists t, toks !! Z.to_nat i = Some t /\
            span <$> toks' = <[Z.to_nat i := span (f t)]> (span <$> toks).
Proof.
  unfold tok_upd. destruct (toks !! Z.to_nat i) as [t |] eqn:Ht; [| done].
  intros [= <-]. exists t. split; [done |]. by rewrite list_fmap_insert.
Qed.

Lemma tok_upd_same toks i f toks' :
  tok_upd toks i f = Done toks' -> (forall t, span (f t) = span t) ->
  span <$> toks' = span <$> toks.
Proof.
  intros H Hf. apply tok_upd_span in H as (t & Ht & ->). rewrite Hf.
  apply list_insert_id. by rewrite list_lookup_fmap, Ht.
Qed.

Lemma jsmn_next_sibling_span fuel parser toks toks' :
  jsmn_next_sibling fuel parser toks = Done toks' -> span <$> toks' = span <$> toks.
Proof.
  unfold jsmn_next_sibling. intros H.
  destruct (_ =? _); [by simplify_eq |].
  apply bind_done in H as (s & _ & H). by apply tok_upd_same in H.
Qed.

Lemma jsmn_alloc_token_span cfg parser toks num_tokens p toks' i :
  jsmn_alloc_token cfg parser toks num_tokens = Done (Some (p, toks', i)) ->
  span <$> toks' = <[Z.to_nat (toknext parser) := (JSMN_NEG, JSMN_NEG)]> (span <$> toks) /\
  (Z.to_nat (toknext parser) < length toks)%nat.
Proof.
  unfold jsmn_alloc_token. intros H.
  destruct (num_tokens <=? toknext parser); [done |].
  apply bind_done in H as (T & Hupd & H). simplify_eq.
  apply tok_upd_span in Hupd as (t & Ht & ->). split; [| by eapply lookup_lt_Some].
  f_equal. by destruct (JSMN_PARENT_LINKS cfg), (JSMN_NEXT_SIBLING cfg).
Qed.

(** Turns what the hypotheses say of the pool into equations on the lists
    of the offsets. *)
Ltac spans :=
  repeat match goal with
         | E : jsmn_alloc_token _ _ _ _ = Done (Some _) |- _ =>
           let Hs := fresh "Hs" in
           let Hl := fresh "Hl" in
           pose proof (jsmn_alloc_token_span _ _ _ _ _ _ _ E) as [Hs Hl];
           apply jsmn_alloc_token_some in E as (-> & -> & ?)
         | E : jsmn_next_sibling _ _ _ = Done _ |- _ => apply jsmn_next_sibling_span in E
         | E : tok_upd _ _ _ = Done _ |- _ =>
           first [ apply tok_upd_same in E; [| intros; reflexivity]
                 | apply tok_upd_span in E as (? & ? & E) ]
         end.

Ltac chain :=
  repeat match goal with
         | E : span <$> _ = _ |- _ => rewrite E; clear E
         end;
  rewrite ?list_insert_insert_eq.

Lemma jsmn_parse_string_span fuel cfg parser js len toks num_tokens p t :
  jsmn_parse_string fuel cfg parser js len (Some toks) num_tokens
    = Done (JSMN_SUCCESS, p, t) ->
  exists toks', t = Some toks' /\
    span <$> toks'
    = <[Z.to_nat (toknext parser) := (wrap (pos parser + 1), pos p)]> (span <$> toks).
Proof.
  unfold jsmn_parse_string. intros H. run_inv_all; spans; cbn in *;
    (eexists; split; [reflexivity |]); chain; reflexivity.
Qed.

Lemma jsmn_parse_primitive_span fuel cfg parser js len toks num_tokens p t c :
  jsmn_parse_primitive fuel cfg parser js len (Some toks) num_tokens
    = Done (JSMN_SUCCESS, p, t) ->
  0 <= pos parser < len -> len < 2 ^ 32 ->
  js_at js (pos parser) = Done c -> c <> 0 -> primitive_end cfg c = false ->
  exists toks', t = Some toks' /\
    span <$> toks'
    = <[Z.to_nat (toknext parser) := (pos parser, pos p + 1)]> (span <$> toks).
Proof.
  unfold jsmn_parse_primitive. intros H Hp Hmax Hc Hc0 Hend.
  run_inv_all; spans;
    repeat match goal with
           | E : primitive_loop _ _ _ _ _ = Done ?r |- _ =>
             cbn in E;
             pose proof (primitive_loop_advance _ _ _ _ _ _ _ Hp Hmax Hc Hc0 Hend E) as Hadv;
             clear E
           end; cbn in *;
    match goal with
    | Hadv : forall q, PrimFound ?x = _ \/ _ -> _ |- _ => specialize (Hadv x (or_introl eq_refl))
    | Hadv : forall q, _ \/ PrimEnd ?x = _ -> _ |- _ => specialize (Hadv x (or_intror eq_refl))
    end;
    (eexists; split; [reflexivity |]); chain;
    rewrite wrap_small by lia; f_equal; unfold span; cbn; f_equal; lia.
Qed.

Lemma after_scalar_span count r p toks p' t' count' :
  after_scalar count (r, p, Some toks) = Done (Next p' t' count') ->
  exists toks', t' = Some toks' /\ span <$> toks' = span <$> toks.
Proof.
  unfold after_scalar. intros H. run_inv_all; spans; eexists; (split; [reflexivity |]); done.
Qed.

Lemma parse_open_span fuel cfg parser toks num_tokens count c p t n :
  parse_open fuel cfg parser (Some toks) num_tokens count c = Done (Next p t n) ->
  exists toks', t = Some toks' /\
    span <$> toks'
    = <[Z.to_nat (toknext parser) := (pos parser, JSMN_NEG)]> (span <$> toks).
Proof.
  unfold parse_open. intros H. run_inv_all; spans; cbn in *;
    (eexists; split; [reflexivity |]).
  all: match goal with
       | H0 : ?a !! ?k = Some ?x, E : span <$> _ = <[_ := span (set_start ?x _)]> _ |- _ =>
         assert (Hx : (span <$> a) !! k = Some (span x))
           by (by rewrite list_lookup_fmap, H0)
       end.
  all: repeat match goal with
              | E : span <$> ?T = _, Hx : context [span <$> ?T] |- _ => rewrite E in Hx
              end.
  all: rewrite list_lookup_insert_eq in Hx by (by rewrite length_fmap).
  all: injection Hx as Hstart Hend; chain; unfold span; cbn; by rewrite Hend.
Qed.

Lemma close_by_parent_span fuel parser toks type token p toks' :
  close_by_parent fuel parser toks type token = Done (Some (p, toks')) ->
  span <$> toks' = span <$> toks \/
  exists (i : nat) a b,
    (span <$> toks) !! i = Some (a, b) /\
    span <$> toks' = <[i := (a, wrap (pos parser + 1))]> (span <$> toks).
Proof.
  revert token. induction fuel as [| fuel IH]; intros token H; [done |].
  cbn [close_by_parent] in H. run_inv H; simplify_eq; [| by left | by eapply IH].
  match goal with E : tok_upd _ _ _ = Done _ |- _ => apply tok_upd_span in E as (t & Ht & ->) end.
  right. exists (Z.to_nat token), (tok_start t), (tok_end t).
  split; [by rewrite list_lookup_fmap, Ht | done].
Qed.

Lemma close_by_scan_span parser toks type p toks' :
  close_by_scan parser toks type = Done (Some (p, toks')) ->
  exists (i : nat) a b,
    (span <$> toks) !! i = Some (a, b) /\
    span <$> toks' = <[i := (a, wrap (pos parser + 1))]> (span <$> toks).
Proof.
  unfold close_by_scan. intros H. run_inv H; simplify_eq.
  all: match goal with
       | E : tok_upd _ ?i _ = Done _ |- _ =>
         apply tok_upd_span in E as (t & Ht & ->);
         exists (Z.to_nat i), (tok_start t), (tok_end t);
         split; [by rewrite list_lookup_fmap, Ht | done]
       end.
Qed.

Lemma parse_close_span fuel cfg parser toks count c p t n :
  parse_close fuel cfg parser (Some toks) count c = Done (Next p t n) ->
  exists toks', t = Some toks' /\
    (span <$> toks' = span <$> toks \/
     exists (i : nat) a b,
       (span <$> toks) !! i = Some (a, b) /\
       span <$> toks' = <[i := (a, wrap (pos parser + 1))]> (span <$> toks)).
Proof.
  unfold parse_close. intros H. run_inv_all;
    repeat match goal with
           | E : close_by_parent _ _ _ _ _ = Done (Some _) |- _ =>
             apply close_by_parent_span in E
           | E : close_by_scan _ _ _ = Done (Some _) |- _ =>
             apply close_by_scan_span in E
           end; spans;
    (eexists; split; [reflexivity |]); chain; eauto.
Qed.

Lemma parse_colon_span cfg parser toks count p t n :
  parse_colon cfg parser (Some toks) count = Done (Next p t n) ->
  exists toks', t = Some toks' /\ span <$> toks' = span <$> toks.
Proof.
  unfold parse_colon. intros H. run_inv_all; spans;
    (eexists; split; [reflexivity |]); chain; done.
Qed.

Lemma parse_comma_span cfg parser toks count p t n :
  parse_comma cfg parser (Some toks) count = Done (Next p t n) ->
  exists toks', t = Some toks' /\ span <$> toks' = span <$> toks.
Proof.
  unfold parse_comma. intros H. run_inv_all; spans;
    (eexists; split; [reflexivity |]); chain; done.
Qed.

(** A pass that goes on keeps the offsets of the tokens before the cursor. *)
Lemma jsmn_step_ranged fuel cfg js len num_tokens parser toks count c p t n :
  jsmn_step fuel cfg js len num_tokens parser (Some toks) count c = Done (Next p t n) ->
  0 <= pos parser < len -> len < 2 ^ 32 -> 0 <= toknext parser ->
  js_at js (pos parser) = Done c -> c <> 0 ->
  ranged (pos parser) (toknext parser) toks ->
  exists toks', t = Some toks' /\ ranged (pos p + 1) (toknext p) toks'.
Proof.
  intros H Hp Hmax Hk Hc Hc0 Hr.
  pose proof (jsmn_step_grows _ _ _ _ _ _ _ _ _ _ _ _ H Hp Hmax Hk Hc Hc0) as [Hpos Hnext].
  apply ranged_spans in Hr. unfold jsmn_step in H.
  destruct ((c =? 123) || (c =? 91)).
  { pose proof (parse_open_grows _ _ _ _ _ _ _ _ _ _ H Hk) as [Hsame _].
    apply parse_open_span in H as (toks' & -> & Hs). exists toks'. split; [done |].
    apply ranged_spans. rewrite Hs.
    apply (spans_ranged_new (pos parser) _ (toknext parser)); [done | lia | lia | lia |].
    split; [cbn; lia | by left]. }
  destruct ((c =? 125) || (c =? 93)) eqn:Hclose.
  { pose proof (parse_close_next _ _ _ _ _ _ _ _ _ H) as (_ & Hsame & Hksame & _).
    apply parse_close_span in H as (toks' & -> & [Hs | (i & a & b & Hi & Hs)]);
      exists toks'; (split; [done |]); apply ranged_spans; rewrite Hs, Hsame, Hksame.
    - apply (spans_ranged_mono (pos parser) _ (toknext parser)); [done | lia | lia].
    - rewrite wrap_small by lia. by apply (spans_ranged_close _ _ _ _ a b); [| | lia]. }
  destruct (c =? 34).
  { apply bind_done in H as ([[r p'] t'] & Hs & H).
    pose proof (after_scalar_parser _ _ _ _ _ H) as Hsame. cbn in Hsame. subst p'.
    pose proof (after_scalar_next _ _ _ _ _ _ _ H) as (-> & _).
    pose proof (jsmn_parse_string_grows _ _ _ _ _ _ _ _ _ Hs Hp Hmax Hk) as [Hq _].
    apply jsmn_parse_string_span in Hs as (toks1 & -> & Hs).
    apply after_scalar_span in H as (toks' & -> & H). exists toks'. split; [done |].
    apply ranged_spans. rewrite H, Hs. rewrite wrap_small by lia.
    apply (spans_ranged_new (pos parser) _ (toknext parser)); [done | lia | lia | lia |].
    split; [cbn; lia | right; cbn; lia]. }
  destruct (is_space c) eqn:Hspace.
  { simplify_eq. exists toks. split; [done |]. apply ranged_spans.
    apply (spans_ranged_mono (pos p) _ (toknext p)); [done | lia | lia]. }
  destruct (c =? 58) eqn:Hcolon.
  { pose proof (parse_colon_next _ _ _ _ _ _ _ H) as (_ & Hsame & Hksame & _).
    apply parse_colon_span in H as (toks' & -> & Hs). exists toks'. split; [done |].
    apply ranged_spans. rewrite Hs, Hsame, Hksame.
    apply (spans_ranged_mono (pos parser) _ (toknext parser)); [done | lia | lia]. }
  destruct (c =? 44) eqn:Hcomma.
  { pose proof (parse_comma_next _ _ _ _ _ _ _ H) as (_ & Hsame & Hksame & _).
    apply parse_comma_span in H as (toks' & -> & Hs). exists toks'. split; [done |].
    apply ranged_spans. rewrite Hs, Hsame, Hksame.
    apply (spans_ranged_mono (pos parser) _ (toknext parser)); [done | lia | lia]. }
  destruct (JSMN_PERMISSIVE cfg || primitive_start c); [| done].
  apply bind_done in H as ([[r p'] t'] & Hs & H).
  pose proof (after_scalar_parser _ _ _ _ _ H) as Hsame. cbn in Hsame. subst p'.
  pose proof (after_scalar_next _ _ _ _ _ _ _ H) as (-> & _).
  pose proof (dispatch_primitive_end cfg c Hclose Hspace Hcolon Hcomma) as Hend.
  apply (jsmn_parse_primitive_span _ _ _ _ _ _ _ _ _ c) in Hs as (toks1 & -> & Hs);
    [| done..].
  apply after_scalar_span in H as (toks' & -> & H). exists toks'. split; [done |].
  apply ranged_spans. rewrite H, Hs.
  apply (spans_ranged_new (pos parser) _ (toknext parser)); [done | lia | lia | lia |].
  split; [cbn; lia | right; cbn; lia].
Qed.

(** ** A call that does not end in [JSMN_ERROR_INVAL] *)

Lemma jsmn_parse_string_error fuel cfg parser js len tokens num_tokens e p t :
  jsmn_parse_string fuel cfg parser js len tokens num_tokens = Done (e, p, t) ->
  e <> JSMN_SUCCESS -> e <> JSMN_ERROR_INVAL ->
  pos p = pos parser /\ toknext p = toknext parser /\ t = tokens.
Proof. unfold jsmn_parse_string. intros H H1 H2. run_inv_all; cbn; done. Qed.

Lemma jsmn_parse_primitive_error fuel cfg parser js len tokens num_tokens e p t :
  jsmn_parse_primitive fuel cfg parser js len tokens num_tokens = Done (e, p, t) ->
  e <> JSMN_SUCCESS -> e <> JSMN_ERROR_INVAL ->
  pos p = pos parser /\ toknext p = toknext parser /\ t = tokens.
Proof. unfold jsmn_parse_primitive. intros H H1 H2. run_inv_all; cbn; done. Qed.

Lemma after_scalar_error count e p t r p' t' :
  after_scalar count (e, p, t) = Done (Return r p' t') ->
  r = Err e /\ p' = p /\ t' = t /\ e <> JSMN_SUCCESS.
Proof. unfold after_scalar. intros H. run_inv H; by simplify_eq. Qed.

Lemma jsmn_step_error fuel cfg js len num_tokens parser tokens count c r p t :
  jsmn_step fuel cfg js len num_tokens parser tokens count c = Done (Return r p t) ->
  r <> Err JSMN_ERROR_INVAL ->
  pos p = pos parser /\ toknext p = toknext parser /\ t = tokens.
Proof.
  unfold jsmn_step. intros H Hr.
  destruct ((c =? 123) || (c =? 91)).
  { unfold parse_open in H. run_inv_all; done. }
  destruct ((c =? 125) || (c =? 93)); [by apply parse_close_inval in H |].
  destruct (c =? 34).
  { apply bind_done in H as ([[e p'] t'] & Hs & H).
    apply after_scalar_error in H as (-> & -> & -> & He).
    apply jsmn_parse_string_error in Hs; [done | done | congruence]. }
  destruct (is_space c); [done |].
  destruct (c =? 58); [by apply parse_colon_inval in H |].
  destruct (c =? 44); [by apply parse_comma_inval in H |].
  destruct (JSMN_PERMISSIVE cfg || primitive_start c); [| by simplify_eq].
  apply bind_done in H as ([[e p'] t'] & Hs & H).
  apply after_scalar_error in H as (-> & -> & -> & He).
  apply jsmn_parse_primitive_error in Hs; [done | done | congruence].
Qed.

Lemma jsmn_loop_ranged n fuel cfg js len num_tokens parser toks count r p t :
  jsmn_loop n fuel cfg js len num_tokens parser (Some toks) count = Done (r, p, t) ->
  r <> Err JSMN_ERROR_INVAL -> len < 2 ^ 32 ->
  0 <= pos parser <= len -> 0 <= toknext parser ->
  ranged (pos parser) (toknext parser) toks ->
  exists toks', t = Some toks' /\ ranged (pos p) (toknext p) toks' /\
                pos parser <= pos p <= len.
Proof.
  revert parser toks count.
  induction n as [| n IH]; intros parser toks count H Hr Hmax Hp Hk Hrg; [done |].
  cbn [jsmn_loop] in H.
  assert (Hfin : jsmn_finish parser (Some toks) count = Done (r, p, t) ->
                 exists toks', t = Some toks' /\ ranged (pos p) (toknext p) toks' /\
                               pos parser <= pos p <= len).
  { unfold jsmn_finish. intros Hf. run_inv Hf; simplify_eq; (eexists; split; [done |]);
      (split; [done | lia]). }
  destruct (Z.ltb_spec (pos parser) len) as [Hlt | Hge]; [| by apply Hfin].
  destruct (js_at js (pos parser)) as [c | |] eqn:Hc; [| done..]. cbn [bind] in H.
  destruct (Z.eqb_spec c 0) as [-> | Hc0]; [by apply Hfin |].
  apply bind_done in H as (fl & Hstep & H). destruct fl as [p' t' n' | r' p' t'].
  - pose proof (jsmn_step_grows _ _ _ _ _ _ _ _ _ _ _ _ Hstep ltac:(lia) Hmax Hk Hc Hc0)
      as [Hpos Hnext].
    apply jsmn_step_ranged in Hstep as (toks' & -> & Hrg'); [| lia | done..].
    rewrite wrap_small in H by lia.
    apply IH in H as (toks'' & -> & ? & ?);
      [| done | done | cbn; lia | cbn; lia | exact Hrg'].
    exists toks''. split; [done |]. split; [done |]. cbn [pos set_pos] in *. lia.
  - simplify_eq. apply jsmn_step_error in Hstep as (Hpos & Hnext & ->); [| done].
    exists toks. rewrite Hpos, Hnext. split; [done |]. split; [done | lia].
Qed.

(** X10. The offsets of the tokens lie in the input that was read.  In
    every configuration: when [jsmn_parse] is entered with a pool in which
    each of the first [toknext] tokens starts before [pos] and either is
    open (its end is [JSMN_NEG]) or ends between its start and [pos] (a
    fresh parser with any pool is such a state), and it returns anything
    but [JSMN_ERROR_INVAL], then the same holds of the parser and the pool
    it leaves, and [pos] is at most [len].  So [js[start..end)] of a
    closed token is a slice of the input. *)
Theorem token_offsets_in_input (fuel : nat) (cfg : config) (parser : jsmn_parser)
    (js : list Z) (len : Z) (toks : list jsmntok_t) (num_tokens : Z) (r : jsmn_result)
    (p : jsmn_parser) (t : option (list jsmntok_t)) :
  len < 2 ^ 32 -> 0 <= pos parser <= len -> 0 <= toknext parser ->
  ranged (pos parser) (toknext parser) toks ->
  jsmn_parse fuel cfg parser js len (Some toks) num_tokens = Done (r, p, t) ->
  r <> Err JSMN_ERROR_INVAL ->
  exists toks', t = Some toks' /\ ranged (pos p) (toknext p) toks' /\ pos p <= len.
Proof.
  intros Hmax Hp Hk Hrg H Hr. unfold jsmn_parse in H.
  apply jsmn_loop_ranged in H as (toks' & -> & ? & ?); [| done..].
  exists toks'. split; [done |]. split; [done | lia].
Qed.

Lemma token_offsets_in_input_witness :
  let p := mk_parser 7 3 JSMN_NEG 15 in
  let t := [mk_tok 34 0 7 2 0 0; mk_tok 40 1 2 0 0 0; mk_tok 36 4 5 0 0 0] in
  exists toks', Some t = Some toks' /\ ranged (pos p) (toknext p) toks' /\ pos p <= 7.
Proof.
  intros p t.
  apply (token_offsets_in_input 8 (permissive false false) (jsmn_init (permissive false false))
           (js_of "[1,'a']") 7 (replicate 3 blank) 3 (Count 3) p (Some t)).
  - reflexivity.
  - vm_compute. split; congruence.
  - vm_compute. congruence.
  - intros i x Hi. cbn in Hi. lia.
  - vm_compute. reflexivity.
  - discriminate.
Defined.

(** ** Several documents in one input *)

Lemma block_all_length vs n q : length (block_all vs n q) = ntok_all vs.
Proof.
  revert n q. induction vs as [| v vs IH]; intros n q; cbn [block_all ntok_all]; [done |].
  by rewrite length_app, (proj1 block_length), IH.
Qed.

Lemma block_all_closed vs n q :
  Z.of_nat (q + length (print_all vs)) < 2 ^ 32 - 1 ->
  Forall (fun t => is_open t = false) (block_all vs n q).
Proof.
  revert n q. induction vs as [| v vs IH]; intros n q Hq; cbn [block_all print_all] in *;
    [done |].
  rewrite length_app in Hq. apply Forall_app. split.
  - apply (proj1 block_closed). lia.
  - apply IH. lia.
Qed.

Lemma reaches_all js F num_tokens vs :
  Z.of_nat (length js) < 2 ^ 32 - 1 -> (length js < F)%nat -> num_tokens < 2 ^ 32 ->
  forall pre suf U f,
    js = pre ++ print_all vs ++ suf ->
    Forall (fun v => wf v /\ is_container v = true) vs ->
    (ntok_all vs <= f)%nat -> Z.of_nat (length U + ntok_all vs) <= num_tokens ->
    reaches F links js (Z.of_nat (length js)) num_tokens
      (at_state (length pre) (length U) JSMN_NEG JSMN_CONTAINER (U ++ replicate f blank))
      (at_state (length pre + length (print_all vs)) (length U + ntok_all vs) JSMN_NEG
         JSMN_CONTAINER
         (U ++ block_all vs (length U) (length pre) ++ replicate (f - ntok_all vs) blank)).
Proof.
  intros Hjs HF Hnum.
  induction vs as [| v vs IH]; intros pre suf U f Hjs_eq Hall Hf Hn;
    cbn [print_all ntok_all block_all length app] in *.
  { rewrite !Nat.add_0_r, Nat.sub_0_r. apply reaches_here. }
  apply Forall_cons in Hall as [[Hwf Hc] Hall].
  eapply reaches_trans.
  - apply (proj1 (parses_all js F num_tokens Hjs HF Hnum) v pre (print_all vs ++ suf) U f
             JSMN_NEG JSMN_CONTAINER); try done.
    + by rewrite Hjs_eq, <- !app_assoc.
    + intros H. by rewrite (container_not_bare v Hc) in H.
    + by destruct (category_container v Hc) as [-> | ->].
    + by left.
    + lia.
    + lia.
  - change (bump 1 JSMN_NEG U) with U. change (after_value JSMN_NEG) with JSMN_CONTAINER.
    specialize (IH (pre ++ print v) suf (U ++ block v (length U) JSMN_NEG (length pre))
                  (f - ntok v)%nat).
    rewrite !length_app, (proj1 block_length) in IH.
    replace (f - ntok v - ntok_all vs)%nat with (f - (ntok v + ntok_all vs))%nat in IH by lia.
    rewrite <- !app_assoc in IH. rewrite length_app, !Nat.add_assoc, <- !app_assoc.
    apply IH; [by rewrite Hjs_eq, <- !app_assoc | done | lia | lia].
Qed.



(** ** What a count means *)

(** X12. After a count every token delimits a slice of the input.  In
    every configuration, when [jsmn_parse] on a fresh parser and a pool
    returns a count [k], each of the first [k] tokens of the pool is closed
    and has [0 <= start <= end <= len], with [start < len]: neither offset
    is [JSMN_NEG] or outside the input. *)
Theorem count_gives_slices (fuel : nat) (cfg : config) (js : list Z) (len : Z)
    (toks : list jsmntok_t) (num_tokens : Z) (k : Z) (p : jsmn_parser)
    (t : option (list jsmntok_t)) :
  0 <= len < 2 ^ 32 ->
  jsmn_parse fuel cfg (jsmn_init cfg) js len (Some toks) num_tokens
    = Done (Count k, p, t) ->
  exists toks', t = Some toks' /\
    forall (i : nat) x, Z.of_nat i < k -> toks' !! i = Some x ->
      is_open x = false /\ 0 <= tok_start x < len /\ tok_start x <= tok_end x <= len.
Proof.
  intros Hlen H. unfold jsmn_parse in H.
  pose proof (jsmn_loop_count _ _ _ _ _ _ _ _ _ _ _ _ eq_refl H) as (-> & _ & Hfin & _).
  apply jsmn_loop_ranged in H as (toks' & -> & Hrg & Hpos);
    [| done | lia | cbn; lia | cbn; lia | by intros i x Hi; cbn in Hi; lia].
  exists toks'. split; [done |]. intros i x Hi Hx.
  unfold jsmn_finish in Hfin.
  destruct (find_open toks' (Z.to_nat (toknext p))) as [[j |] | |] eqn:Hopen; [done | | done..].
  pose proof (find_open_none _ _ i x Hopen ltac:(lia) Hx) as Hclosed.
  destruct (Hrg i x Hi Hx) as [Hstart Hend]. cbn [span fst snd] in *.
  split; [done |]. split; [lia |].
  unfold is_open in Hclosed. apply andb_false_iff in Hclosed as [Hs | He].
  - apply negb_false_iff, Z.eqb_eq in Hs. rewrite neg_value in Hs. lia.
  - apply Z.eqb_neq in He. destruct Hend as [Hend | Hend]; [done | lia].
Qed.

Lemma count_gives_slices_witness :
  let t := [mk_tok 34 0 7 2 0 0; mk_tok 40 1 2 0 0 0; mk_tok 36 4 5 0 0 0] in
  exists toks', Some t = Some toks' /\
    forall (i : nat) x, Z.of_nat i < 3 -> toks' !! i = Some x ->
      is_open x = false /\ 0 <= tok_start x < 7 /\ tok_start x <= tok_end x <= 7.
Proof.
  intros t.
  apply (count_gives_slices 8 (permissive false false) (js_of "[1,'a']") 7
           (replicate 3 blank) 3 3 (mk_parser 7 3 JSMN_NEG 15) (Some t)).
  - lia.
  - vm_compute. reflexivity.
Defined.

(** ** The size of a token and its children *)

Lemma filter_none (l : list Z) (j : Z) :
  Forall (fun p => p <> j) l -> filter (fun p => p = j) l = [].
Proof. induction 1 as [| p l Hp _ IH]; [done |]. by rewrite filter_cons_False. Qed.

Lemma children_le toks k i : (children toks k i <= k)%nat.
Proof.
  unfold children. etrans; [apply length_filter |]. rewrite length_take. lia.
Qed.

(** No token has a parent at or after [k] when the first [k] tokens are
    linked. *)
Lemma children_none toks (k : nat) (j : Z) :
  linked toks (Z.of_nat k) -> Z.of_nat k <= j < 2 ^ 32 - 1 -> children toks k j = 0%nat.
Proof.
  intros Hl Hj. unfold children. rewrite filter_none; [done |].
  apply Forall_lookup. intros n p Hn.
  apply lookup_take_Some in Hn as [Hn Hlt].
  rewrite list_lookup_fmap in Hn. destruct (toks !! n) as [t |] eqn:Ht; [| done].
  injection Hn as <-. destruct (Hl n t ltac:(lia) Ht) as [[Hneg | Hin] _].
  - rewrite Hneg, neg_value. lia.
  - lia.
Qed.

Lemma children_S toks k tk i :
  toks !! k = Some tk ->
  children toks (S k) i
  = (children toks k i + (if decide (tok_parent tk = i) then 1 else 0))%nat.
Proof.
  intros Htk. unfold children.
  rewrite (take_S_r _ _ (tok_parent tk)) by (by rewrite list_lookup_fmap, Htk).
  rewrite filter_app, length_app. f_equal. rewrite filter_cons, filter_nil.
  by destruct (decide (tok_parent tk = i)).
Qed.

(** The first [k] parents decide the number of children. *)
Lemma children_take toks toks' k i :
  take k (fst <$> (ps <$> toks')) = take k (fst <$> (ps <$> toks)) ->
  children toks' k i = children toks k i.
Proof.
  unfold children. rewrite <- !list_fmap_compose.
  change (fst ∘ ps) with tok_parent. by intros ->.
Qed.

Lemma sized_same toks toks' k :
  ps <$> toks' = ps <$> toks -> sized toks k -> sized toks' k.
Proof.
  intros Heq H i t' Hi Ht'.
  assert (Hps : (ps <$> toks') !! i = Some (ps t')) by (by rewrite list_lookup_fmap, Ht').
  rewrite Heq, list_lookup_fmap in Hps.
  destruct (toks !! i) as [t |] eqn:Ht; [| done]. injection Hps as _ Hsz.
  rewrite (children_take toks toks') by (by rewrite Heq).
  by rewrite <- (H i t Hi Ht).
Qed.

(** One more token, under its superior token. *)
Lemma sized_grown toks toks' (k : nat) (s : Z) :
  sized toks (Z.of_nat k) -> linked toks (Z.of_nat k) ->
  grown (ps <$> toks) (ps <$> toks') k s ->
  s = JSMN_NEG \/ 0 <= s < Z.of_nat k -> Z.of_nat k < 2 ^ 32 - 1 ->
  sized toks' (Z.of_nat k + 1).
Proof.
  intros Hsz Hl (Hnew & Hrest) Hs Hmax i t' Hi Ht'.
  replace (Z.to_nat (Z.of_nat k + 1)) with (S k) by lia.
  assert (Hps : (ps <$> toks') !! i = Some (ps t')) by (by rewrite list_lookup_fmap, Ht').
  destruct (toks' !! k) as [tk |] eqn:Htk; [| by rewrite list_lookup_fmap, Htk in Hnew].
  assert (Hpk : tok_parent tk = s).
  { rewrite list_lookup_fmap, Htk in Hnew. by injection Hnew. }
  assert (Hsame : children toks' k (Z.of_nat i) = children toks k (Z.of_nat i)).
  { apply children_take. apply list_eq. intros n.
    rewrite !lookup_take. destruct (decide (n < k)%nat) as [Hn | Hn]; [| done].
    rewrite (list_lookup_fmap fst (ps <$> toks')), (list_lookup_fmap fst (ps <$> toks)).
    rewrite Hrest by lia.
    destruct (decide (Z.of_nat n = s)); [| done].
    by destruct ((ps <$> toks) !! n). }
  rewrite (children_S _ _ tk) by done. rewrite Hsame, Hpk.
  destruct (decide (i = k)) as [-> | Hik].
  - rewrite Hnew in Hps. injection Hps as _ <-.
    rewrite children_none by (done || lia).
    destruct (decide (s = Z.of_nat k)); [| done]. rewrite neg_value in Hs. lia.
  - rewrite Hrest in Hps by lia.
    rewrite list_lookup_fmap in Hps.
    destruct (toks !! i) as [t |] eqn:Ht; [| by destruct (decide _)].
    pose proof (Hsz i t ltac:(lia) Ht) as Hold. rewrite Nat2Z.id in Hold.
    pose proof (children_le toks k (Z.of_nat i)) as Hle.
    destruct (decide (Z.of_nat i = s)) as [<- | Hne]; cbn in Hps; injection Hps as _ <-.
    + rewrite decide_True by done. rewrite wrap_small by lia. lia.
    + rewrite decide_False by done. lia.
Qed.

Lemma grown_top (P : list (Z * Z)) (k : nat) :
  (k < length P)%nat -> Z.of_nat k < 2 ^ 32 - 1 -> grown P (<[k := (JSMN_NEG, 0)]> P) k JSMN_NEG.
Proof.
  intros Hk Hmax. split; [by apply list_lookup_insert_eq |].
  intros i Hi. rewrite list_lookup_insert_ne by lia.
  rewrite decide_False; [done |]. rewrite neg_value. lia.
Qed.

Lemma grown_sub (P : list (Z * Z)) (k : nat) (s p z : Z) :
  (k < length P)%nat -> 0 <= s < Z.of_nat k -> P !! Z.to_nat s = Some (p, z) ->
  grown P (<[Z.to_nat s := (p, wrap (z + 1))]> (<[k := (s, 0)]> P)) k s.
Proof.
  intros Hk Hs Hps. split.
  - rewrite list_lookup_insert_ne by lia. by apply list_lookup_insert_eq.
  - intros i Hi. destruct (decide (Z.of_nat i = s)) as [<- | Hne].
    + rewrite Nat2Z.id in *. rewrite list_lookup_insert_eq by (rewrite length_insert; lia).
      by rewrite Hps.
    + rewrite !list_lookup_insert_ne by lia. done.
Qed.

Lemma tok_upd_ps toks i f toks' :
  tok_upd toks i f = Done toks' ->
  exists t, toks !! Z.to_nat i = Some t /\
            ps <$> toks' = <[Z.to_nat i := ps (f t)]> (ps <$> toks).
Proof.
  unfold tok_upd. destruct (toks !! Z.to_nat i) as [t |] eqn:Ht; [| done].
  intros [= <-]. exists t. split; [done |]. by rewrite list_fmap_insert.
Qed.

Lemma tok_upd_ps_same toks i f toks' :
  tok_upd toks i f = Done toks' -> (forall t, ps (f t) = ps t) ->
  ps <$> toks' = ps <$> toks.
Proof.
  intros H Hf. apply tok_upd_ps in H as (t & Ht & ->). rewrite Hf.
  apply list_insert_id. by rewrite list_lookup_fmap, Ht.
Qed.

Lemma jsmn_next_sibling_ps fuel parser toks toks' :
  jsmn_next_sibling fuel parser toks = Done toks' -> ps <$> toks' = ps <$> toks.
Proof.
  unfold jsmn_next_sibling. intros H.
  destruct (_ =? _); [by simplify_eq |].
  apply bind_done in H as (s & _ & H). by apply tok_upd_ps_same in H.
Qed.

Lemma jsmn_alloc_token_ps cfg parser toks num_tokens p toks' i :
  JSMN_PARENT_LINKS cfg = true ->
  jsmn_alloc_token cfg parser toks num_tokens = Done (Some (p, toks', i)) ->
  ps <$> toks' = <[Z.to_nat (toknext parser) := (JSMN_NEG, 0)]> (ps <$> toks) /\
  (Z.to_nat (toknext parser) < length toks)%nat.
Proof.
  unfold jsmn_alloc_token. intros Hpl H.
  destruct (num_tokens <=? toknext parser); [done |].
  apply bind_done in H as (T & Hupd & H). simplify_eq.
  apply tok_upd_ps in Hupd as (t & Ht & ->). split; [| by eapply lookup_lt_Some].
  f_equal. rewrite Hpl. by destruct (JSMN_NEXT_SIBLING cfg).
Qed.

(** Turns what the hypotheses say of the pool into equations on the lists
    of the parents and sizes. *)
Ltac pss Hpl :=
  repeat match goal with
         | E : jsmn_alloc_token _ _ _ _ = Done (Some _) |- _ =>
           let Hs := fresh "Hs" in
           let Hl := fresh "Hl" in
           pose proof (jsmn_alloc_token_ps _ _ _ _ _ _ _ Hpl E) as [Hs Hl];
           apply jsmn_alloc_token_some in E as (-> & -> & ?)
         | E : jsmn_next_sibling _ _ _ = Done _ |- _ => apply jsmn_next_sibling_ps in E
         | E : tok_upd _ _ _ = Done _ |- _ =>
           first [ apply tok_upd_ps_same in E; [| intros; reflexivity]
                 | apply tok_upd_ps in E as (? & ? & E) ]
         end.

Ltac chain_ps :=
  repeat match goal with
         | E : ps <$> _ = _ |- _ => rewrite E; clear E
         end;
  rewrite ?list_insert_insert_eq.

(** What is known of the parent and the size of a token that was read
    back from the pool. *)
Ltac read_back :=
  repeat match goal with
         | H0 : ?a !! ?k = Some ?x |- _ =>
           lazymatch type of a with list jsmntok_t => idtac end;
           let Hx := fresh "Hx" in
           assert (Hx : (ps <$> a) !! k = Some (ps x))
             by (by rewrite list_lookup_fmap, H0);
           clear H0;
           repeat match goal with
                  | E : ps <$> ?T = _ |- _ =>
                    match type of Hx with context [ps <$> T] => rewrite E in Hx end
                  end;
           try (rewrite list_lookup_insert_eq in Hx
                  by (rewrite ?length_insert, length_fmap; done);
                unfold ps in Hx; cbn in Hx; injection Hx as ? ?)
         end.

Section Sized.
Variable cfg : config.
Hypothesis Hstrict : JSMN_PERMISSIVE cfg = false.
Hypothesis Hpl : JSMN_PARENT_LINKS cfg = true.

Lemma jsmn_parse_string_ps fuel parser js len toks num_tokens p t :
  jsmn_parse_string fuel cfg parser js len (Some toks) num_tokens
    = Done (JSMN_SUCCESS, p, t) ->
  exists toks', t = Some toks' /\ toksuper p = toksuper parser /\
    (Z.to_nat (toknext parser) < length toks)%nat /\
    ps <$> toks'
    = <[Z.to_nat (toknext parser) := (toksuper parser, 0)]> (ps <$> toks) /\
    toknext parser < num_tokens /\ toknext p = wrap (toknext parser + 1).
Proof.
  unfold jsmn_parse_string. rewrite Hstrict, Hpl. cbn [andb negb].
  intros H. run_inv_all; pss Hpl; read_back; cbn in *;
    (eexists; split; [reflexivity |]; split; [reflexivity |]; split; [done |]);
    (split; [| done]); chain_ps; unfold ps; cbn; congruence.
Qed.

Lemma jsmn_parse_primitive_ps fuel parser js len toks num_tokens p t :
  jsmn_parse_primitive fuel cfg parser js len (Some toks) num_tokens
    = Done (JSMN_SUCCESS, p, t) ->
  exists toks', t = Some toks' /\ toksuper p = toksuper parser /\
    (Z.to_nat (toknext parser) < length toks)%nat /\
    ps <$> toks'
    = <[Z.to_nat (toknext parser) := (toksuper parser, 0)]> (ps <$> toks) /\
    toknext parser < num_tokens /\ toknext p = wrap (toknext parser + 1).
Proof.
  unfold jsmn_parse_primitive. rewrite Hstrict, Hpl. cbn [andb negb].
  intros H. run_inv_all; pss Hpl; read_back; cbn in *;
    (eexists; split; [reflexivity |]; split; [reflexivity |]; split; [done |]);
    (split; [| done]); chain_ps; unfold ps; cbn; congruence.
Qed.

Lemma after_scalar_ps count p toks p' t' count' :
  after_scalar count (JSMN_SUCCESS, p, Some toks) = Done (Next p' t' count') ->
  p' = p /\ exists toks', t' = Some toks' /\
    ((toksuper p = JSMN_NEG /\ toks' = toks) \/
     (toksuper p <> JSMN_NEG /\ exists ts, toks !! Z.to_nat (toksuper p) = Some ts /\
        ps <$> toks'
        = <[Z.to_nat (toksuper p) := (tok_parent ts, wrap (tok_size ts + 1))]>
            (ps <$> toks))).
Proof.
  unfold after_scalar. intros H. run_inv_all; (split; [done |]).
  - exists toks. split; [done |]. left. split; [lia | done].
  - match goal with E : tok_upd _ _ _ = Done _ |- _ => apply tok_upd_ps in E as (ts & Hts & E) end.
    eexists. split; [done |]. right. split; [lia |]. by exists ts.
Qed.

Lemma parse_open_grown fuel parser toks num_tokens count c p t n :
  parse_open fuel cfg parser (Some toks) num_tokens count c = Done (Next p t n) ->
  toksuper parser = JSMN_NEG \/ 0 <= toksuper parser < toknext parser ->
  0 <= toknext parser -> num_tokens < 2 ^ 32 ->
  exists toks', t = Some toks' /\ toknext p = toknext parser + 1 /\
    toknext parser < num_tokens /\
    grown (ps <$> toks) (ps <$> toks') (Z.to_nat (toknext parser)) (toksuper parser).
Proof.
  unfold parse_open. rewrite Hpl. intros H Hs Hk Hnum.
  run_inv_all; pss Hpl; cbn in *;
    (eexists; split; [reflexivity |]; split; [by rewrite wrap_small by lia |];
     split; [done |]).
  1: { match goal with
       | E : (toksuper parser =? JSMN_NEG) = true |- _ =>
         apply Z.eqb_eq in E; chain_ps; rewrite E
       end.
       apply grown_top; [by rewrite length_fmap | lia]. }
  all: destruct Hs as [Hs | Hs];
    [match goal with
     | E : (toksuper _ =? JSMN_NEG) = false |- _ => by apply Z.eqb_neq in E
     end |].
  all: match goal with
       | H1 : ?a1 !! Z.to_nat (toksuper ?p) = Some ?x0,
         H0 : ?a5 !! Z.to_nat (toknext ?p) = Some ?x |- _ =>
         assert (Hx0 : (ps <$> a1) !! Z.to_nat (toksuper p) = Some (ps x0))
           by (by rewrite list_lookup_fmap, H1);
         assert (Hx : (ps <$> a5) !! Z.to_nat (toknext p) = Some (ps x))
           by (by rewrite list_lookup_fmap, H0);
         clear H0 H1
       end.
  all: repeat match goal with
              | E : ps <$> ?T = _ |- _ =>
                match type of Hx with context [ps <$> T] => rewrite E in Hx end
              end.
  all: repeat match goal with
              | E : ps <$> ?T = _ |- _ =>
                match type of Hx0 with context [ps <$> T] => rewrite E in Hx0 end
              end.
  all: rewrite list_lookup_insert_ne in Hx0 by lia.
  all: rewrite list_lookup_insert_ne, list_lookup_insert_eq in Hx
         by (lia || by rewrite length_fmap).
  all: injection Hx as _ Hx; chain_ps.
  all: match goal with
       | |- context [<[Z.to_nat (toknext ?p) := _]> (<[Z.to_nat (toksuper ?p) := _]> _)] =>
         rewrite (list_insert_insert_ne _ (Z.to_nat (toknext p))) by lia
       end.
  all: rewrite list_insert_insert_eq.
  all: match goal with
       | |- context [ps (set_parent ?x (toksuper ?p))] =>
         change (ps (set_parent x (toksuper p))) with (toksuper p, tok_size x)
       end.
  all: rewrite <- Hx.
  all: match goal with
       | |- context [ps (incr_size ?x0)] =>
         change (ps (incr_size x0)) with (tok_parent x0, wrap (tok_size x0 + 1))
       end.
  all: apply grown_sub; [by rewrite length_fmap | lia | done].
Qed.

Lemma parse_open_return_ps fuel parser toks num_tokens count c r p t :
  parse_open fuel cfg parser (Some toks) num_tokens count c = Done (Return r p t) ->
  0 <= toknext parser -> num_tokens < 2 ^ 32 ->
  (t = Some toks /\ toknext p = toknext parser) \/
  (exists toks', t = Some toks' /\ toknext p = toknext parser + 1 /\
     toknext parser < num_tokens /\
     grown (ps <$> toks) (ps <$> toks') (Z.to_nat (toknext parser)) JSMN_NEG).
Proof.
  unfold parse_open. intros H Hk Hnum. run_inv_all; pss Hpl; cbn in *;
    first
      [ by left
      | right; eexists; split; [reflexivity |]; split; [by rewrite wrap_small by lia |];
        split; [done |];
        chain_ps; apply grown_top; [by rewrite length_fmap | lia] ].
Qed.

Lemma close_by_parent_ps fuel parser toks type token p toks' :
  close_by_parent fuel parser toks type token = Done (Some (p, toks')) ->
  ps <$> toks' = ps <$> toks.
Proof.
  revert token. induction fuel as [| fuel IH]; intros token H; [done |].
  cbn [close_by_parent] in H. run_inv H; simplify_eq; [| done | by eapply IH].
  match goal with E : tok_upd _ _ _ = Done _ |- _ => by apply tok_upd_ps_same in E end.
Qed.

Lemma close_by_scan_ps parser toks type p toks' :
  close_by_scan parser toks type = Done (Some (p, toks')) -> ps <$> toks' = ps <$> toks.
Proof.
  unfold close_by_scan. intros H. run_inv H; simplify_eq.
  all: match goal with E : tok_upd _ _ _ = Done _ |- _ => by apply tok_upd_ps_same in E end.
Qed.

Lemma parse_close_ps fuel parser toks count c fl :
  parse_close fuel cfg parser (Some toks) count c = Done fl ->
  exists toks', snd (flow_state fl) = Some toks' /\ ps <$> toks' = ps <$> toks /\
                toknext (fst (flow_state fl)) = toknext parser.
Proof.
  unfold parse_close. rewrite Hstrict. intros H. run_inv_all;
    repeat match goal with
           | E : close_by_parent _ _ _ _ _ = Done (Some _) |- _ =>
             pose proof (close_by_parent_ps _ _ _ _ _ _ _ E);
             apply close_by_parent_parser in E as [? ->]
           | E : close_by_scan _ _ _ = Done (Some _) |- _ =>
             pose proof (close_by_scan_ps _ _ _ _ _ E);
             apply close_by_scan_parser in E as [? ->]
           end; cbn; eauto.
Qed.

Lemma parse_colon_ps parser toks count fl :
  parse_colon cfg parser (Some toks) count = Done fl ->
  snd (flow_state fl) = Some toks /\ toknext (fst (flow_state fl)) = toknext parser.
Proof. unfold parse_colon. rewrite Hstrict. intros H. run_inv_all; by cbn. Qed.

Lemma parse_comma_ps parser toks count fl :
  parse_comma cfg parser (Some toks) count = Done fl ->
  snd (flow_state fl) = Some toks /\ toknext (fst (flow_state fl)) = toknext parser.
Proof. unfold parse_comma. rewrite Hstrict. intros H. run_inv_all; by cbn. Qed.

Lemma jsmn_parse_string_fail fuel parser js len tokens num_tokens e p t :
  jsmn_parse_string fuel cfg parser js len tokens num_tokens = Done (e, p, t) ->
  e <> JSMN_SUCCESS -> toknext p = toknext parser /\ t = tokens.
Proof. unfold jsmn_parse_string. intros H H1. run_inv_all; cbn; done. Qed.

Lemma jsmn_parse_primitive_fail fuel parser js len tokens num_tokens e p t :
  jsmn_parse_primitive fuel cfg parser js len tokens num_tokens = Done (e, p, t) ->
  e <> JSMN_SUCCESS -> toknext p = toknext parser /\ t = tokens.
Proof. unfold jsmn_parse_primitive. intros H H1. run_inv_all; cbn; done. Qed.

(** A token added by the scanner of strings or of primitives, and counted
    by the size of its superior token. *)
Lemma scalar_sized num_tokens parser toks p toks1 count fl :
  safe cfg num_tokens parser toks -> num_tokens < 2 ^ 32 ->
  sized toks (toknext parser) ->
  toksuper p = toksuper parser ->
  (Z.to_nat (toknext parser) < length toks)%nat ->
  ps <$> toks1 = <[Z.to_nat (toknext parser) := (toksuper parser, 0)]> (ps <$> toks) ->
  toknext parser < num_tokens -> toknext p = wrap (toknext parser + 1) ->
  after_scalar count (JSMN_SUCCESS, p, Some toks1) = Done fl ->
  exists toks', snd (flow_state fl) = Some toks' /\
                sized toks' (toknext (fst (flow_state fl))).
Proof.
  intros (Hk & Hpool & Hs & _ & Hl & _) Hnum Hsz Hsup Hlen Hps Hlt Hnext Hfl.
  destruct fl as [p' t' n' | r p' t'];
    [| by apply after_scalar_error in Hfl as (_ & _ & _ & ?)].
  apply after_scalar_ps in Hfl as (-> & toks' & -> & Hcase).
  exists toks'. split; [done |]. cbn [flow_state fst]. rewrite Hnext, wrap_small by lia.
  rewrite <- (Z2Nat.id (toknext parser)) at 1 by lia.
  apply (sized_grown toks _ _ (toksuper parser));
    rewrite ?Z2Nat.id by lia; [done | by apply Hl | | done | lia].
  rewrite Hsup in Hcase. destruct Hcase as [[Htop ->] | (Hsub & ts & Hts & ->)].
  - rewrite Hps, Htop. apply grown_top; [by rewrite length_fmap | lia].
  - destruct Hs as [Hs | Hs]; [done |]. rewrite Hps.
    apply grown_sub; [by rewrite length_fmap | lia |].
    rewrite <- (list_lookup_insert_ne _ (Z.to_nat (toknext parser)) _
                  (toksuper parser, 0)) by lia.
    by rewrite <- Hps, list_lookup_fmap, Hts.
Qed.

Lemma jsmn_step_sized fuel js len num_tokens parser toks count c fl :
  jsmn_step fuel cfg js len num_tokens parser (Some toks) count c = Done fl ->
  safe cfg num_tokens parser toks -> num_tokens < 2 ^ 32 ->
  sized toks (toknext parser) ->
  exists toks', snd (flow_state fl) = Some toks' /\
                sized toks' (toknext (fst (flow_state fl))).
Proof.
  intros H Hsafe Hnum Hsz. pose proof Hsafe as (Hk & Hpool & Hs & _ & Hl & _).
  assert (Hsame : exists toks', Some toks = Some toks' /\ sized toks' (toknext parser))
    by (by exists toks).
  unfold jsmn_step in H.
  destruct ((c =? 123) || (c =? 91)).
  { destruct fl as [p t n | r p t]; cbn [flow_state fst snd].
    - apply parse_open_grown in H as (toks' & -> & -> & Hlt & Hg); [| done | lia | done].
      exists toks'. split; [done |].
      rewrite <- (Z2Nat.id (toknext parser)) at 1 by lia.
      apply (sized_grown toks _ _ (toksuper parser));
        rewrite ?Z2Nat.id by lia; [done | by apply Hl | done | done | lia].
    - apply parse_open_return_ps in H as [[-> ->] | (toks' & -> & -> & Hlt & Hg)];
        [done | | lia | done].
      exists toks'. split; [done |].
      rewrite <- (Z2Nat.id (toknext parser)) at 1 by lia.
      apply (sized_grown toks _ _ JSMN_NEG);
        rewrite ?Z2Nat.id by lia; [done | by apply Hl | done | by left | lia]. }
  destruct ((c =? 125) || (c =? 93)).
  { apply parse_close_ps in H as (toks' & Ht & Hps & ->). exists toks'.
    split; [done |]. by apply (sized_same toks). }
  destruct (c =? 34).
  { apply bind_done in H as ([[e p1] t1] & Hscan & H). destruct e.
    - apply jsmn_parse_string_ps in Hscan as (toks1 & -> & ? & ? & ? & ? & ?).
      by eapply scalar_sized.
    - cbn in H. simplify_eq. apply jsmn_parse_string_fail in Hscan as [Hn ->]; [| done].
      cbn [flow_state fst snd]. by rewrite Hn.
    - cbn in H. simplify_eq. apply jsmn_parse_string_fail in Hscan as [Hn ->]; [| done].
      cbn [flow_state fst snd]. by rewrite Hn.
    - cbn in H. simplify_eq. apply jsmn_parse_string_fail in Hscan as [Hn ->]; [| done].
      cbn [flow_state fst snd]. by rewrite Hn. }
  destruct (is_space c); [by simplify_eq |].
  destruct (c =? 58); [apply parse_colon_ps in H as [-> ->]; by exists toks |].
  destruct (c =? 44); [apply parse_comma_ps in H as [-> ->]; by exists toks |].
  destruct (JSMN_PERMISSIVE cfg || primitive_start c); [| by simplify_eq].
  apply bind_done in H as ([[e p1] t1] & Hscan & H). destruct e.
  - apply jsmn_parse_primitive_ps in Hscan as (toks1 & -> & ? & ? & ? & ? & ?).
    by eapply scalar_sized.
  - cbn in H. simplify_eq. apply jsmn_parse_primitive_fail in Hscan as [Hn ->]; [| done].
    cbn [flow_state fst snd]. by rewrite Hn.
  - cbn in H. simplify_eq. apply jsmn_parse_primitive_fail in Hscan as [Hn ->]; [| done].
    cbn [flow_state fst snd]. by rewrite Hn.
  - cbn in H. simplify_eq. apply jsmn_parse_primitive_fail in Hscan as [Hn ->]; [| done].
    cbn [flow_state fst snd]. by rewrite Hn.
Qed.
End Sized.

Lemma jsmn_loop_sized n fuel cfg js len num_tokens parser toks count r p t :
  JSMN_PERMISSIVE cfg = false -> JSMN_PARENT_LINKS cfg = true ->
  len <= Z.of_nat (length js) -> len < 2 ^ 32 -> num_tokens < 2 ^ 32 ->
  (Z.to_nat len < fuel)%nat -> (Z.to_nat num_tokens < fuel)%nat ->
  jsmn_loop n fuel cfg js len num_tokens parser (Some toks) count = Done (r, p, t) ->
  safe cfg num_tokens parser toks -> 0 <= pos parser ->
  sized toks (toknext parser) ->
  exists toks', t = Some toks' /\ sized toks' (toknext p).
Proof.
  intros Hstrict Hpl Hjs Hlen Hnum Hfuel Hfuel'. revert parser toks count.
  induction n as [| n IH]; intros parser toks count H Hsafe Hp Hsz; [done |].
  cbn [jsmn_loop] in H.
  assert (Hfin : jsmn_finish parser (Some toks) count = Done (r, p, t) ->
                 exists toks', t = Some toks' /\ sized toks' (toknext p)).
  { unfold jsmn_finish. intros Hf. run_inv Hf; simplify_eq; by exists toks. }
  destruct (Z.ltb_spec (pos parser) len) as [Hlt | Hge]; [| by apply Hfin].
  destruct (js_at js (pos parser)) as [c | |] eqn:Hc; [| done..]. cbn [bind] in H.
  destruct (Z.eqb_spec c 0) as [-> | Hc0]; [by apply Hfin |].
  apply bind_done in H as (fl & Hstep & H).
  destruct (jsmn_step_total cfg js len num_tokens fuel Hstrict Hjs Hlen Hnum Hfuel Hfuel'
              parser toks count c Hsafe ltac:(lia) Hc Hc0)
    as (fl' & Hstep' & toks1 & Ht1 & Hsafe1 & _ & Hpos1 & _).
  rewrite Hstep in Hstep'. injection Hstep' as <-.
  destruct (jsmn_step_sized cfg Hstrict Hpl _ _ _ _ _ _ _ _ _ Hstep Hsafe Hnum Hsz)
    as (toks' & Ht' & Hsz').
  rewrite Ht1 in Ht'. injection Ht' as <-.
  destruct fl as [p1 t1 n1 | r1 p1 t1]; cbn [flow_state fst snd] in *; subst t1.
  - apply IH in H; [done | done | cbn; rewrite wrap_small by lia; lia | done].
  - simplify_eq. by exists toks1.
Qed.

(** X13. With parent links the size of a token counts its children.  In
    the strict dialect with parent links (sibling links on or off), from
    a safe state in which the size of each allocated token is the number of
    allocated tokens whose parent it is (a fresh parser is such a state),
    [jsmn_parse] returns on every input, and whatever it returns, the same
    holds of the parser and the pool it leaves: for every [i] below
    [toknext], [tokens[i].size] is the number of the tokens [j] below
    [toknext] with [tokens[j].parent == i]. *)
Theorem size_counts_children (fuel : nat) (cfg : config) (parser : jsmn_parser)
    (js : list Z) (len : Z) (toks : list jsmntok_t) (num_tokens : Z) :
  JSMN_PERMISSIVE cfg = false -> JSMN_PARENT_LINKS cfg = true ->
  len <= Z.of_nat (length js) -> len < 2 ^ 32 -> num_tokens < 2 ^ 32 ->
  (Z.to_nat len < fuel)%nat -> (Z.to_nat num_tokens < fuel)%nat ->
  safe cfg num_tokens parser toks -> 0 <= pos parser <= len ->
  sized toks (toknext parser) ->
  exists r p toks',
    jsmn_parse fuel cfg parser js len (Some toks) num_tokens = Done (r, p, Some toks') /\
    sized toks' (toknext p).
Proof.
  intros Hstrict Hpl Hjs Hlen Hnum Hfuel Hfuel' Hsafe Hpos Hsz.
  destruct (jsmn_parse_total cfg js len num_tokens fuel Hstrict Hjs Hlen Hnum Hfuel Hfuel'
              parser toks Hsafe Hpos) as (r & p & toks' & Hrun & _).
  exists r, p, toks'. split; [done |]. unfold jsmn_parse in Hrun.
  apply jsmn_loop_sized in Hrun as (toks'' & [= <-] & Hsz'); [done | done.. | lia | done].
Qed.

Lemma size_counts_children_witness :
  exists r p toks',
    jsmn_parse 12 (strict true false) (jsmn_init (strict true false))
      (js_of "{'a':[1,2]}") 11 (Some (replicate 5 blank)) 5
    = Done (r, p, Some toks') /\
    sized toks' (toknext p).
Proof.
  apply (size_counts_children 12 (strict true false) (jsmn_init (strict true false))
           (js_of "{'a':[1,2]}") 11 (replicate 5 blank) 5);
    try reflexivity; try (vm_compute; lia).
  - split; [vm_compute; split; congruence |]. split; [vm_compute; congruence |].
    split; [by left |]. split; [intros _; reflexivity |].
    split; intros _ i t Hi; cbn in Hi; lia.
  - split; vm_compute; congruence.
  - intros i t Hi. cbn in Hi. lia.
Defined.

(** ** The types of the tokens of the strict dialect *)

Lemma tok_upd_type toks i f toks' :
  tok_upd toks i f = Done toks' ->
  exists t, toks !! Z.to_nat i = Some t /\
            tok_type <$> toks' = <[Z.to_nat i := tok_type (f t)]> (tok_type <$> toks).
Proof.
  unfold tok_upd. destruct (toks !! Z.to_nat i) as [t |] eqn:Ht; [| done].
  intros [= <-]. exists t. split; [done |]. by rewrite list_fmap_insert.
Qed.

Lemma tok_upd_type_same toks i f toks' :
  tok_upd toks i f = Done toks' -> (forall t, tok_type (f t) = tok_type t) ->
  tok_type <$> toks' = tok_type <$> toks.
Proof.
  intros H Hf. apply tok_upd_type in H as (t & Ht & ->). rewrite Hf.
  apply list_insert_id. by rewrite list_lookup_fmap, Ht.
Qed.

Lemma jsmn_next_sibling_type fuel parser toks toks' :
  jsmn_next_sibling fuel parser toks = Done toks' -> tok_type <$> toks' = tok_type <$> toks.
Proof.
  unfold jsmn_next_sibling. intros H.
  destruct (_ =? _); [by simplify_eq |].
  apply bind_done in H as (s & _ & H). by apply tok_upd_type_same in H.
Qed.

Lemma jsmn_alloc_token_type cfg parser toks num_tokens p toks' i :
  jsmn_alloc_token cfg parser toks num_tokens = Done (Some (p, toks', i)) ->
  tok_type <$> toks' = tok_type <$> toks /\
  (Z.to_nat (toknext parser) < length toks)%nat.
Proof.
  unfold jsmn_alloc_token. intros H.
  destruct (num_tokens <=? toknext parser); [done |].
  apply bind_done in H as (T & Hupd & H). simplify_eq.
  pose proof Hupd as Hupd'. apply tok_upd_type in Hupd' as (t & Ht & _).
  split; [| by eapply lookup_lt_Some].
  apply tok_upd_type_same in Hupd; [done |].
  intros t'. by destruct (JSMN_PARENT_LINKS cfg), (JSMN_NEXT_SIBLING cfg).
Qed.

Ltac types :=
  repeat match goal with
         | E : jsmn_alloc_token _ _ _ _ = Done (Some _) |- _ =>
           let Hs := fresh "Hs" in
           let Hl := fresh "Hl" in
           pose proof (jsmn_alloc_token_type _ _ _ _ _ _ _ E) as [Hs Hl];
           apply jsmn_alloc_token_some in E as (-> & -> & ?)
         | E : jsmn_next_sibling _ _ _ = Done _ |- _ => apply jsmn_next_sibling_type in E
         | E : tok_upd _ _ _ = Done _ |- _ =>
           first [ apply tok_upd_type_same in E; [| intros; reflexivity]
                 | apply tok_upd_type in E as (? & ? & E) ]
         end.

Ltac read_types :=
  repeat match goal with
         | H0 : ?a !! ?k = Some ?x |- _ =>
           lazymatch type of a with list jsmntok_t => idtac end;
           let Hx := fresh "Hx" in
           assert (Hx : (tok_type <$> a) !! k = Some (tok_type x))
             by (by rewrite list_lookup_fmap, H0);
           clear H0;
           repeat match goal with
                  | E : tok_type <$> ?T = _ |- _ =>
                    match type of Hx with context [tok_type <$> T] => rewrite E in Hx end
                  end;
           try (rewrite list_lookup_insert_eq in Hx
                  by (rewrite ?length_insert, length_fmap; done);
                cbn in Hx; injection Hx as ?)
         end.

Ltac chain_types :=
  repeat match goal with
         | E : tok_type <$> _ = _ |- _ => rewrite E; clear E
         end;
  rewrite ?list_insert_insert_eq.

Lemma strict_type_cases ty :
  ty = Z.lor JSMN_OBJECT JSMN_VALUE \/ ty = Z.lor JSMN_ARRAY JSMN_VALUE \/
  ty = Z.lor JSMN_STRING JSMN_KEY \/ ty = Z.lor JSMN_STRING JSMN_VALUE \/
  ty = Z.lor JSMN_PRIMITIVE JSMN_VALUE -> strict_type ty.
Proof. done. Qed.

Ltac new_type :=
  repeat match goal with
         | H0 : _ = tok_type _ |- _ => rewrite <- H0 in *; clear H0
         end;
  eexists _, _; split; [reflexivity |];
  match goal with
  | |- ?S /\ ?L /\ ?E => cut (L /\ E /\ S); [intros (? & ? & ?); done |]
  end;
  split; [done |]; split; [chain_types; reflexivity |];
  apply strict_type_cases; auto 7.

Section Typed.
Variable cfg : config.
Hypothesis Hstrict : JSMN_PERMISSIVE cfg = false.

Lemma jsmn_parse_string_type fuel parser js len toks num_tokens p t :
  jsmn_parse_string fuel cfg parser js len (Some toks) num_tokens
    = Done (JSMN_SUCCESS, p, t) ->
  exists toks' ty, t = Some toks' /\ strict_type ty /\
    (Z.to_nat (toknext parser) < length toks)%nat /\
    tok_type <$> toks' = <[Z.to_nat (toknext parser) := ty]> (tok_type <$> toks).
Proof.
  unfold jsmn_parse_string. rewrite Hstrict. cbn [andb negb].
  intros H. run_inv_all; types; read_types; cbn in *; new_type.
Qed.

Lemma jsmn_parse_primitive_type fuel parser js len toks num_tokens p t :
  jsmn_parse_primitive fuel cfg parser js len (Some toks) num_tokens
    = Done (JSMN_SUCCESS, p, t) ->
  exists toks' ty, t = Some toks' /\ strict_type ty /\
    (Z.to_nat (toknext parser) < length toks)%nat /\
    tok_type <$> toks' = <[Z.to_nat (toknext parser) := ty]> (tok_type <$> toks).
Proof.
  unfold jsmn_parse_primitive. rewrite Hstrict. cbn [andb negb].
  intros H. run_inv_all; types; read_types; cbn in *; new_type.
Qed.

Lemma after_scalar_type count r p toks p' t' count' :
  after_scalar count (r, p, Some toks) = Done (Next p' t' count') ->
  exists toks', t' = Some toks' /\ tok_type <$> toks' = tok_type <$> toks.
Proof.
  unfold after_scalar. intros H. run_inv_all; types; eexists; (split; [reflexivity |]); done.
Qed.

Lemma parse_open_type fuel parser toks num_tokens count c p t n :
  parse_open fuel cfg parser (Some toks) num_tokens count c = Done (Next p t n) ->
  exists toks' ty, t = Some toks' /\ strict_type ty /\
    (Z.to_nat (toknext parser) < length toks)%nat /\
    tok_type <$> toks' = <[Z.to_nat (toknext parser) := ty]> (tok_type <$> toks).
Proof.
  unfold parse_open. rewrite Hstrict. cbn [andb negb].
  intros H. run_inv_all; types; read_types; cbn in *; destruct (c =? 123); new_type.
Qed.

Lemma close_by_parent_type fuel parser toks type token p toks' :
  close_by_parent fuel parser toks type token = Done (Some (p, toks')) ->
  tok_type <$> toks' = tok_type <$> toks.
Proof.
  revert token. induction fuel as [| fuel IH]; intros token H; [done |].
  cbn [close_by_parent] in H. run_inv H; simplify_eq; [| done | by eapply IH].
  by types.
Qed.

Lemma close_by_scan_type parser toks type p toks' :
  close_by_scan parser toks type = Done (Some (p, toks')) ->
  tok_type <$> toks' = tok_type <$> toks.
Proof. unfold close_by_scan. intros H. run_inv H; simplify_eq; by types. Qed.

Lemma parse_close_type fuel parser toks count c p t n :
  parse_close fuel cfg parser (Some toks) count c = Done (Next p t n) ->
  exists toks', t = Some toks' /\ tok_type <$> toks' = tok_type <$> toks.
Proof.
  unfold parse_close. rewrite Hstrict. cbn [andb negb]. intros H. run_inv_all;
    repeat match goal with
           | E : close_by_parent _ _ _ _ _ = Done (Some _) |- _ =>
             apply close_by_parent_type in E
           | E : close_by_scan _ _ _ = Done (Some _) |- _ =>
             apply close_by_scan_type in E
           end; types;
    (eexists; split; [reflexivity |]); chain_types; done.
Qed.

Lemma parse_colon_type parser toks count p t n :
  parse_colon cfg parser (Some toks) count = Done (Next p t n) ->
  exists toks', t = Some toks' /\ tok_type <$> toks' = tok_type <$> toks.
Proof.
  unfold parse_colon. rewrite Hstrict. cbn [andb negb]. intros H. run_inv_all; types;
    (eexists; split; [reflexivity |]); chain_types; done.
Qed.

Lemma parse_comma_type parser toks count p t n :
  parse_comma cfg parser (Some toks) count = Done (Next p t n) ->
  exists toks', t = Some toks' /\ tok_type <$> toks' = tok_type <$> toks.
Proof.
  unfold parse_comma. rewrite Hstrict. cbn [andb negb]. intros H. run_inv_all; types;
    (eexists; split; [reflexivity |]); chain_types; done.
Qed.

Lemma typed_same toks toks' k k' :
  typed toks k -> tok_type <$> toks' = tok_type <$> toks -> k' <= k -> typed toks' k'.
Proof.
  intros Ht Hs Hk i t Hi Hl.
  assert (Hx : (tok_type <$> toks) !! i = Some (tok_type t))
    by (by rewrite <- Hs, list_lookup_fmap, Hl).
  rewrite list_lookup_fmap in Hx. destruct (toks !! i) as [x |] eqn:Hx'; [| done].
  cbn in Hx. injection Hx as <-. apply (Ht i x); [lia | done].
Qed.

Lemma typed_new toks toks' k k' ty :
  typed toks k -> strict_type ty ->
  tok_type <$> toks' = <[Z.to_nat k := ty]> (tok_type <$> toks) ->
  0 <= k -> k' <= k + 1 -> typed toks' k'.
Proof.
  intros Ht Hty Hs Hk Hk' i t Hi Hl.
  assert (Hx : (<[Z.to_nat k := ty]> (tok_type <$> toks)) !! i = Some (tok_type t))
    by (by rewrite <- Hs, list_lookup_fmap, Hl).
  destruct (decide (i = Z.to_nat k)) as [-> | Hne].
  - rewrite list_lookup_insert_eq in Hx; [by injection Hx as <- |].
    apply lookup_lt_Some in Hx. by rewrite length_insert in Hx.
  - rewrite list_lookup_insert_ne in Hx by done.
    rewrite list_lookup_fmap in Hx. destruct (toks !! i) as [x |] eqn:Hx'; [| done].
    cbn in Hx. injection Hx as <-. apply (Ht i x); [lia | done].
Qed.

(** A pass that goes on keeps the types of the tokens and gives the token
    it takes one of them. *)
Lemma jsmn_step_typed fuel js len num_tokens parser toks count c p t n :
  jsmn_step fuel cfg js len num_tokens parser (Some toks) count c = Done (Next p t n) ->
  0 <= pos parser < len -> len < 2 ^ 32 -> 0 <= toknext parser ->
  js_at js (pos parser) = Done c -> c <> 0 ->
  typed toks (toknext parser) ->
  exists toks', t = Some toks' /\ typed toks' (toknext p).
Proof.
  intros H Hp Hmax Hk Hc Hc0 Hr.
  pose proof (jsmn_step_grows _ _ _ _ _ _ _ _ _ _ _ _ H Hp Hmax Hk Hc Hc0) as [Hpos Hnext].
  unfold jsmn_step in H.
  destruct ((c =? 123) || (c =? 91)).
  { apply parse_open_type in H as (toks' & ty & -> & Hty & _ & Hs). exists toks'.
    split; [done |]. by apply (typed_new toks _ (toknext parser) _ ty); [| | | | lia]. }
  destruct ((c =? 125) || (c =? 93)) eqn:Hclose.
  { pose proof (parse_close_next _ _ _ _ _ _ _ _ _ H) as (_ & _ & Hksame & _).
    apply parse_close_type in H as (toks' & -> & Hs). exists toks'. split; [done |].
    apply (typed_same toks _ (toknext parser)); [done | done | lia]. }
  destruct (c =? 34).
  { apply bind_done in H as ([[r p'] t'] & Hs & H).
    pose proof (after_scalar_parser _ _ _ _ _ H) as Hsame. cbn in Hsame. subst p'.
    pose proof (after_scalar_next _ _ _ _ _ _ _ H) as (-> & _).
    apply jsmn_parse_string_type in Hs as (toks1 & ty & -> & Hty & _ & Hs).
    apply after_scalar_type in H as (toks' & -> & H). exists toks'. split; [done |].
    apply (typed_same toks1 _ (toknext p)); [| done | lia].
    by apply (typed_new toks _ (toknext parser) _ ty); [| | | | lia]. }
  destruct (is_space c) eqn:Hspace.
  { simplify_eq. by exists toks. }
  destruct (c =? 58) eqn:Hcolon.
  { pose proof (parse_colon_next _ _ _ _ _ _ _ H) as (_ & _ & Hksame & _).
    apply parse_colon_type in H as (toks' & -> & Hs). exists toks'. split; [done |].
    apply (typed_same toks _ (toknext parser)); [done | done | lia]. }
  destruct (c =? 44) eqn:Hcomma.
  { pose proof (parse_comma_next _ _ _ _ _ _ _ H) as (_ & _ & Hksame & _).
    apply parse_comma_type in H as (toks' & -> & Hs). exists toks'. split; [done |].
    apply (typed_same toks _ (toknext parser)); [done | done | lia]. }
  destruct (JSMN_PERMISSIVE cfg || primitive_start c); [| done].
  apply bind_done in H as ([[r p'] t'] & Hs & H).
  pose proof (after_scalar_parser _ _ _ _ _ H) as Hsame. cbn in Hsame. subst p'.
  pose proof (after_scalar_next _ _ _ _ _ _ _ H) as (-> & _).
  apply jsmn_parse_primitive_type in Hs as (toks1 & ty & -> & Hty & _ & Hs).
  apply after_scalar_type in H as (toks' & -> & H). exists toks'. split; [done |].
  apply (typed_same toks1 _ (toknext p)); [| done | lia].
  by apply (typed_new toks _ (toknext parser) _ ty); [| | | | lia].
Qed.

Lemma jsmn_loop_typed n fuel js len num_tokens parser toks count r p t :
  jsmn_loop n fuel cfg js len num_tokens parser (Some toks) count = Done (r, p, t) ->
  r <> Err JSMN_ERROR_INVAL -> len < 2 ^ 32 ->
  0 <= pos parser <= len -> 0 <= toknext parser ->
  typed toks (toknext parser) ->
  exists toks', t = Some toks' /\ typed toks' (toknext p).
Proof.
  revert parser toks count.
  induction n as [| n IH]; intros parser toks count H Hr Hmax Hp Hk Hrg; [done |].
  cbn [jsmn_loop] in H.
  assert (Hfin : jsmn_finish parser (Some toks) count = Done (r, p, t) ->
                 exists toks', t = Some toks' /\ typed toks' (toknext p)).
  { unfold jsmn_finish. intros Hf. run_inv Hf; simplify_eq; by eexists. }
  destruct (Z.ltb_spec (pos parser) len) as [Hlt | Hge]; [| by apply Hfin].
  destruct (js_at js (pos parser)) as [c | |] eqn:Hc; [| done..]. cbn [bind] in H.
  destruct (Z.eqb_spec c 0) as [-> | Hc0]; [by apply Hfin |].
  apply bind_done in H as (fl & Hstep & H). destruct fl as [p' t' n' | r' p' t'].
  - pose proof (jsmn_step_grows _ _ _ _ _ _ _ _ _ _ _ _ Hstep ltac:(lia) Hmax Hk Hc Hc0)
      as [Hpos Hnext].
    apply jsmn_step_typed in Hstep as (toks' & -> & Hrg'); [| lia | done..].
    rewrite wrap_small in H by lia.
    apply IH in H as (toks'' & -> & ?);
      [| done | done | cbn; lia | cbn; lia | exact Hrg'].
    by exists toks''.
  - simplify_eq. apply jsmn_step_error in Hstep as (Hpos & Hnext & ->); [| done].
    exists toks. rewrite Hnext. by split.
Qed.
End Typed.

(** X14. The types of the tokens of the strict dialect.  Without
    [JSMN_PERMISSIVE], with or without parent and sibling links: when
    [jsmn_parse] is entered with a pool in which the type of each of the
    first [toknext] tokens is one of [JSMN_OBJECT | JSMN_VALUE],
    [JSMN_ARRAY | JSMN_VALUE], [JSMN_STRING | JSMN_KEY],
    [JSMN_STRING | JSMN_VALUE] and [JSMN_PRIMITIVE | JSMN_VALUE] (a fresh
    parser with any pool is such a state), and it returns anything but
    [JSMN_ERROR_INVAL], then the same holds of the parser and the pool it
    leaves.  So a key is a string, and a container or a primitive is a
    value and never a key. *)
Theorem strict_token_types (fuel : nat) (cfg : config) (parser : jsmn_parser)
    (js : list Z) (len : Z) (toks : list jsmntok_t) (num_tokens : Z) (r : jsmn_result)
    (p : jsmn_parser) (t : option (list jsmntok_t)) :
  JSMN_PERMISSIVE cfg = false ->
  len < 2 ^ 32 -> 0 <= pos parser <= len -> 0 <= toknext parser ->
  typed toks (toknext parser) ->
  jsmn_parse fuel cfg parser js len (Some toks) num_tokens = Done (r, p, t) ->
  r <> Err JSMN_ERROR_INVAL ->
  exists toks', t = Some toks' /\ typed toks' (toknext p).
Proof.
  intros Hstrict Hmax Hp Hk Hrg H Hr. unfold jsmn_parse in H.
  by apply jsmn_loop_typed in H.
Qed.

Lemma strict_token_types_witness :
  let p := mk_parser 11 5 JSMN_NEG 3 in
  let t := [mk_tok 33 0 11 1 0 0; mk_tok 20 2 3 1 0 0; mk_tok 34 5 10 2 0 0;
            mk_tok 40 6 7 0 0 0; mk_tok 40 8 9 0 0 0] in
  exists toks', Some t = Some toks' /\ typed toks' (toknext p).
Proof.
  intros p t.
  apply (strict_token_types 12 (strict false false) (jsmn_init (strict false false))
           (js_of "{'a':[1,2]}") 11 (replicate 5 blank) 5 (Count 5) p (Some t)).
  - reflexivity.
  - reflexivity.
  - vm_compute. split; congruence.
  - vm_compute. congruence.
  - intros i x Hi. cbn in Hi. lia.
  - vm_compute. reflexivity.
  - discriminate.
Defined.

(** ** Calling again after a lack of slots *)

(** Without a pool a pass allocates nothing. *)
Lemma jsmn_step_none fuel cfg js len num_tokens parser count c fl :
  jsmn_step fuel cfg js len num_tokens parser None count c = Done fl ->
  match fl with
  | Next _ t _ => t = None
  | Return r _ _ => r <> Err JSMN_ERROR_NOMEM
  end.
Proof.
  unfold jsmn_step, parse_open, parse_close, parse_colon, parse_comma,
    jsmn_parse_string, jsmn_parse_primitive.
  intros H. run_inv_all; unfold after_scalar in *; run_inv_all; done.
Qed.

Lemma jsmn_loop_none n fuel cfg js len num_tokens parser count p t :
  jsmn_loop n fuel cfg js len num_tokens parser None count
    <> Done (Err JSMN_ERROR_NOMEM, p, t).
Proof.
  revert parser count. induction n as [| n IH]; intros parser count H; [done |].
  cbn [jsmn_loop] in H.
  destruct (pos parser <? len); [| by simplify_eq].
  destruct (js_at js (pos parser)) as [c | |]; [| done..]. cbn [bind] in H.
  destruct (c =? 0); [by simplify_eq |].
  apply bind_done in H as (fl & Hs & H). apply jsmn_step_none in Hs.
  destruct fl as [p' t' n' | r p' t']; [subst; by eapply IH | by simplify_eq].
Qed.

Section Retry.
Variable cfg : config.
Variable js : list Z.
Variables len num1 num2 : Z.
Hypothesis Hcfg : JSMN_PERMISSIVE cfg && JSMN_PARENT_LINKS cfg = false.
Hypothesis Hnum : num1 <= num2.

Lemma jsmn_alloc_token_more parser tokens x :
  jsmn_alloc_token cfg parser tokens num1 = Done (Some x) ->
  jsmn_alloc_token cfg parser tokens num2 = Done (Some x).
Proof.
  unfold jsmn_alloc_token. intros H.
  destruct (num1 <=? toknext parser) eqn:Hn; [done |].
  by assert ((num2 <=? toknext parser) = false) as -> by lia.
Qed.

Lemma jsmn_parse_string_retry fuel parser tokens r p t :
  jsmn_parse_string fuel cfg parser js len tokens num1 = Done (r, p, t) ->
  (r = JSMN_ERROR_NOMEM -> p = parser /\ t = tokens) /\
  (r <> JSMN_ERROR_NOMEM ->
   jsmn_parse_string fuel cfg parser js len tokens num2 = Done (r, p, t)).
Proof.
  unfold jsmn_parse_string. rewrite Hcfg. cbn [bind]. intros H.
  match type of H with (if ?b then _ else _) = _ => destruct b end.
  { by simplify_eq. }
  destruct (string_loop fuel js len _) as [scan | |] eqn:Es; [| done..].
  cbn [bind] in *. destruct scan as [q | |]; [| by simplify_eq..].
  destruct tokens as [toks |]; [| by simplify_eq].
  destruct (jsmn_alloc_token cfg _ toks num1) as [[[[parser' toks'] token] |] | |] eqn:Ea;
    [| | done..]; cbn [bind] in *.
  - rewrite (jsmn_alloc_token_more _ _ _ Ea). cbn [bind]. split; [| done].
    intros ->. exfalso. run_inv H; simplify_eq.
  - simplify_eq. by rewrite set_pos_set_pos, set_pos_same.
Qed.

Lemma jsmn_parse_primitive_retry fuel parser tokens r p t :
  jsmn_parse_primitive fuel cfg parser js len tokens num1 = Done (r, p, t) ->
  (r = JSMN_ERROR_NOMEM -> p = parser /\ t = tokens) /\
  (r <> JSMN_ERROR_NOMEM ->
   jsmn_parse_primitive fuel cfg parser js len tokens num2 = Done (r, p, t)).
Proof.
  unfold jsmn_parse_primitive. rewrite Hcfg. cbn [bind]. intros H.
  match type of H with (if ?b then _ else _) = _ => destruct b end.
  { by simplify_eq. }
  destruct (primitive_loop fuel cfg js len _) as [scan | |] eqn:Es; [| done..].
  cbn [bind] in *.
  destruct scan as [q | | q]; [| by simplify_eq |]; cbv beta iota in H;
    try (match type of H with (if ?b then _ else _) = _ => destruct b end;
         [by simplify_eq |]);
    (destruct tokens as [toks |]; [| by simplify_eq]);
    (destruct (jsmn_alloc_token cfg _ toks num1) as [[[[parser' toks'] token] |] | |] eqn:Ea;
     [| | done..]; cbn [bind] in *;
     [ rewrite (jsmn_alloc_token_more _ _ _ Ea); cbn [bind]; split; [| done];
       intros ->; exfalso; run_inv H; simplify_eq
     | simplify_eq; by rewrite set_pos_set_pos, set_pos_same ]).
Qed.

Lemma jsmn_step_retry fuel parser tokens count c fl :
  jsmn_step fuel cfg js len num1 parser tokens count c = Done fl ->
  match fl with
  | Return (Err JSMN_ERROR_NOMEM) p t => p = parser /\ t = tokens
  | _ => jsmn_step fuel cfg js len num2 parser tokens count c = Done fl
  end.
Proof.
  unfold jsmn_step. intros H.
  assert (Hscalar : forall (scan1 scan2 : run (jsmnerr * jsmn_parser * option (list jsmntok_t))),
             (forall r p t, scan1 = Done (r, p, t) ->
                (r = JSMN_ERROR_NOMEM -> p = parser /\ t = tokens) /\
                (r <> JSMN_ERROR_NOMEM -> scan2 = Done (r, p, t))) ->
             (do res <- scan1; after_scalar count res) = Done fl ->
             match fl with
             | Return (Err JSMN_ERROR_NOMEM) p t => p = parser /\ t = tokens
             | _ => (do res <- scan2; after_scalar count res) = Done fl
             end).
  { intros scan1 scan2 Hscan Hb.
    apply bind_done in Hb as ([[r p] t] & Hs & Hb).
    destruct (Hscan _ _ _ Hs) as [Hno Hyes].
    destruct r; cbn in Hb.
    - rewrite Hyes by done. cbn [bind]. unfold after_scalar.
      run_inv Hb; simplify_eq; by replay.
    - simplify_eq. by apply Hno.
    - simplify_eq. by rewrite Hyes.
    - simplify_eq. by rewrite Hyes. }
  destruct ((c =? 123) || (c =? 91)).
  { unfold parse_open in *.
    destruct tokens as [toks |]; [| by simplify_eq].
    destruct (jsmn_alloc_token cfg _ toks num1) as [[[[parser' toks'] token] |] | |] eqn:Ea;
      [| | done..]; cbn [bind] in *.
    - rewrite (jsmn_alloc_token_more _ _ _ Ea). cbn [bind].
      destruct fl as [| [| []] ]; try done. exfalso. run_inv H; simplify_eq.
    - by simplify_eq. }
  destruct ((c =? 125) || (c =? 93)).
  { pose proof H as H'. destruct fl as [| [| []] ]; try done.
    by apply parse_close_inval in H'. }
  destruct (c =? 34).
  { apply (Hscalar (jsmn_parse_string fuel cfg parser js len tokens num1)); [| done].
    intros r p t. apply jsmn_parse_string_retry. }
  destruct (is_space c); [by simplify_eq |].
  destruct (c =? 58).
  { pose proof H as H'. destruct fl as [| [| []] ]; try done.
    by apply parse_colon_inval in H'. }
  destruct (c =? 44).
  { pose proof H as H'. destruct fl as [| [| []] ]; try done.
    by apply parse_comma_inval in H'. }
  destruct (JSMN_PERMISSIVE cfg || primitive_start c); [| by simplify_eq].
  apply (Hscalar (jsmn_parse_primitive fuel cfg parser js len tokens num1)); [| done].
  intros r p t. apply jsmn_parse_primitive_retry.
Qed.

(** A run that stopped for lack of slots is continued by the next call as
    the single run with the larger pool would have gone on. *)
Lemma jsmn_loop_retry n1 fuel1 parser toks count p1 t1 :
  jsmn_loop n1 fuel1 cfg js len num1 parser (Some toks) count
    = Done (Err JSMN_ERROR_NOMEM, p1, t1) ->
  count = toknext parser ->
  forall n fuel R,
    jsmn_loop n fuel cfg js len num2 p1 t1 (toknext p1) = Done R ->
    jsmn_loop (n1 + n) (fuel1 + fuel) cfg js len num2 parser (Some toks) count = Done R.
Proof.
  revert parser toks count.
  induction n1 as [| n1 IH]; intros parser toks count H Hc n fuel R HR; [done |].
  assert (p1 = parser /\ t1 = Some toks ->
          jsmn_loop (S n1 + n) (fuel1 + fuel) cfg js len num2 parser (Some toks) count
          = Done R) as Hsame.
  { intros [-> ->]. rewrite Hc. eapply refines_done; [| exact HR].
    apply jsmn_loop_fuel; lia. }
  cbn [jsmn_loop] in H.
  assert (jsmn_finish parser (Some toks) count <> Done (Err JSMN_ERROR_NOMEM, p1, t1))
    as Hfin.
  { unfold jsmn_finish. intros Hf. run_inv Hf; by simplify_eq. }
  destruct (pos parser <? len) eqn:Hp; [| done].
  destruct (js_at js (pos parser)) as [c | |] eqn:Hc0; [| done..]. cbn [bind] in H.
  destruct (c =? 0) eqn:Hnul; [done |].
  apply bind_done in H as (fl & Hs & H).
  pose proof (jsmn_step_retry _ _ _ _ _ _ Hs) as Hs2.
  destruct fl as [p' t' c' | [k | e'] p' t'].
  - destruct (jsmn_step_count _ _ _ _ _ _ _ _ _ _ _ _ Hs Hc) as [-> [toks' ->]].
    change (S n1 + n)%nat with (S (n1 + n)). cbn [jsmn_loop].
    rewrite Hp, Hc0. cbn [bind]. rewrite Hnul.
    assert (jsmn_step (fuel1 + fuel) cfg js len num2 parser (Some toks) count c
            = Done (Next p' (Some toks') (toknext p'))) as ->.
    { eapply refines_done; [| exact Hs2]. apply jsmn_step_fuel. lia. }
    cbn [bind]. by eapply IH.
  - done.
  - simplify_eq. by apply Hsame.
Qed.

(** Conversely the next call returns what the single run returns. *)
Lemma jsmn_loop_retry_conv n1 fuel1 parser toks count p1 t1 :
  jsmn_loop n1 fuel1 cfg js len num1 parser (Some toks) count
    = Done (Err JSMN_ERROR_NOMEM, p1, t1) ->
  count = toknext parser ->
  forall n fuel R,
    jsmn_loop n fuel cfg js len num2 parser (Some toks) count = Done R ->
    jsmn_loop n fuel cfg js len num2 p1 t1 (toknext p1) = Done R.
Proof.
  revert parser toks count.
  induction n1 as [| n1 IH]; intros parser toks count H Hc n fuel R HR; [done |].
  cbn [jsmn_loop] in H.
  assert (jsmn_finish parser (Some toks) count <> Done (Err JSMN_ERROR_NOMEM, p1, t1))
    as Hfin.
  { unfold jsmn_finish. intros Hf. run_inv Hf; by simplify_eq. }
  destruct (pos parser <? len) eqn:Hp; [| done].
  destruct (js_at js (pos parser)) as [c | |] eqn:Hc0; [| done..]. cbn [bind] in H.
  destruct (c =? 0) eqn:Hnul; [done |].
  apply bind_done in H as (fl & Hs & H).
  pose proof (jsmn_step_retry _ _ _ _ _ _ Hs) as Hs2.
  destruct fl as [p' t' c' | [k | e'] p' t'].
  - destruct (jsmn_step_count _ _ _ _ _ _ _ _ _ _ _ _ Hs Hc) as [-> [toks' ->]].
    destruct n as [| n]; [done |]. cbn [jsmn_loop] in HR.
    rewrite Hp, Hc0 in HR. cbn [bind] in HR. rewrite Hnul in HR.
    apply bind_done in HR as (fl2 & Hs3 & HR).
    assert (fl2 = Next p' (Some toks') (toknext p')) as ->.
    { destruct (Nat.le_ge_cases fuel fuel1) as [Hf | Hf].
      - pose proof (refines_done _ _ _ (jsmn_step_fuel _ _ cfg js len num2 parser
                      (Some toks) count c Hf) Hs3). congruence.
      - pose proof (refines_done _ _ _ (jsmn_step_fuel _ _ cfg js len num2 parser
                      (Some toks) count c Hf) Hs2). congruence. }
    eapply refines_done; [| eapply IH; [exact H | done | exact HR]].
    apply jsmn_loop_fuel; lia.
  - done.
  - simplify_eq. by destruct Hs2 as [-> ->].
Qed.

(** The state a run that stopped for lack of slots leaves is the one at
    the head of the pass on the token. *)
Lemma jsmn_loop_nomem_state n fuel s p t :
  jsmn_loop n fuel cfg js len num1 (it_parser s) (it_tokens s) (it_count s)
    = Done (Err JSMN_ERROR_NOMEM, p, t) ->
  exists s', reaches fuel cfg js len num1 s s' /\ p = it_parser s' /\ t = it_tokens s'.
Proof.
  revert s. induction n as [| n IH]; intros [parser tokens count] H; [done |].
  cbn [jsmn_loop it_parser it_tokens it_count] in H.
  assert (jsmn_finish parser tokens count <> Done (Err JSMN_ERROR_NOMEM, p, t)) as Hfin.
  { unfold jsmn_finish. intros Hf. run_inv Hf; by simplify_eq. }
  destruct (pos parser <? len) eqn:Hlt; [| done].
  destruct (js_at js (pos parser)) as [c | |] eqn:Hc; [| done..]. cbn [bind] in H.
  destruct (c =? 0) eqn:Hnul; [done |].
  apply bind_done in H as (fl & Hs & H). destruct fl as [p' t' c' | r p' t'].
  - destruct (IH (mk_iter (set_pos p' (wrap (pos p' + 1))) t' c') H)
      as (s' & Hreach & Hrest).
    exists s'. split; [| exact Hrest].
    eapply reaches_pass; [| exact Hreach].
    split; [simpl; lia |]. exists c, p', t', c'. simpl. repeat split; try done. lia.
  - simplify_eq. apply jsmn_step_retry in Hs as [-> ->].
    exists (mk_iter parser tokens count). split; [apply reaches_here | done].
Qed.
End Retry.




(** ** The categories of the expected mask *)

Lemma has_category_any x : has_category (Z.lor x JSMN_ANY_TYPE).
Proof.
  unfold has_category. rewrite Z.land_lor_distr_l, Z.lor_eq_0_iff. by intros [_ ?].
Qed.

(** Closes the goals [has_category (expected p)] left by an inversion. *)
Ltac mask_category :=
  simpl in *; try done; try apply has_category_any;
  try (by repeat match goal with |- context [if ?b then _ else _] => destruct b end).

Lemma jsmn_parse_string_category fuel cfg parser js len tokens num_tokens r p t :
  has_category (expected parser) ->
  jsmn_parse_string fuel cfg parser js len tokens num_tokens = Done (r, p, t) ->
  has_category (expected p).
Proof.
  unfold jsmn_parse_string. intros Hne H. run_inv_all;
    repeat match goal with
           | E : jsmn_alloc_token _ _ _ _ = Done (Some _) |- _ =>
             apply jsmn_alloc_token_some in E as (-> & -> & _)
           end; mask_category.
Qed.

Lemma jsmn_parse_primitive_category fuel cfg parser js len tokens num_tokens r p t :
  has_category (expected parser) ->
  jsmn_parse_primitive fuel cfg parser js len tokens num_tokens = Done (r, p, t) ->
  has_category (expected p).
Proof.
  unfold jsmn_parse_primitive. intros Hne H. run_inv_all;
    repeat match goal with
           | E : jsmn_alloc_token _ _ _ _ = Done (Some _) |- _ =>
             apply jsmn_alloc_token_some in E as (-> & -> & _)
           end; mask_category.
Qed.

Lemma jsmn_step_category fuel cfg js len num_tokens parser tokens count c fl :
  has_category (expected parser) ->
  jsmn_step fuel cfg js len num_tokens parser tokens count c = Done fl ->
  match fl with Next p _ _ | Return _ p _ => has_category (expected p) end.
Proof.
  unfold jsmn_step. intros Hne H.
  destruct ((c =? 123) || (c =? 91)).
  { unfold parse_open in H. run_inv_all;
      repeat match goal with
             | E : jsmn_alloc_token _ _ _ _ = Done (Some _) |- _ =>
               apply jsmn_alloc_token_some in E as (-> & -> & _)
             end; mask_category. }
  destruct ((c =? 125) || (c =? 93)).
  { unfold parse_close in H. run_inv_all;
      repeat match goal with
             | E : close_by_parent _ _ _ _ _ = Done (Some _) |- _ =>
               apply close_by_parent_parser in E as [? ->]
             | E : close_by_scan _ _ _ = Done (Some _) |- _ =>
               apply close_by_scan_parser in E as [? ->]
             end; mask_category. }
  destruct (c =? 34).
  { apply bind_done in H as ([[r p] t] & Hs & H).
    apply after_scalar_parser in H.
    apply jsmn_parse_string_category in Hs; [| done]. by destruct fl; subst. }
  destruct (is_space c); [by simplify_eq |].
  destruct (c =? 58).
  { unfold parse_colon in H. run_inv_all; mask_category. }
  destruct (c =? 44).
  { unfold parse_comma in H. run_inv_all; mask_category. }
  destruct (JSMN_PERMISSIVE cfg || primitive_start c); [| by simplify_eq].
  apply bind_done in H as ([[r p] t] & Hs & H).
  apply after_scalar_parser in H.
  apply jsmn_parse_primitive_category in Hs; [| done]. by destruct fl; subst.
Qed.

Lemma reaches_category fuel cfg js len num_tokens s s' :
  has_category (expected (it_parser s)) ->
  reaches fuel cfg js len num_tokens s s' ->
  has_category (expected (it_parser s')).
Proof.
  intros Hne H. induction H as [| s s' s'' (_ & c & p & t & n & _ & _ & Hs & ->) _ IH]; [done |].
  apply IH. by apply (jsmn_step_category _ _ _ _ _ _ _ _ _ _ Hne) in Hs.
Qed.

Lemma jsmn_loop_category n fuel cfg js len num_tokens parser tokens count r p t :
  has_category (expected parser) ->
  jsmn_loop n fuel cfg js len num_tokens parser tokens count = Done (r, p, t) ->
  has_category (expected p).
Proof.
  revert parser tokens count. induction n as [| n IH]; intros parser tokens count Hne H; [done |].
  cbn [jsmn_loop] in H.
  assert (jsmn_finish parser tokens count = Done (r, p, t) -> has_category (expected p))
    as Hfin.
  { unfold jsmn_finish. intros Hf. run_inv Hf; by simplify_eq. }
  destruct (pos parser <? len); [| by auto].
  destruct (js_at js (pos parser)) as [c | |]; [| done..]. cbn [bind] in H.
  destruct (c =? 0); [by auto |].
  apply bind_done in H as (fl & Hs & H).
  apply (jsmn_step_category _ _ _ _ _ _ _ _ _ _ Hne) in Hs.
  destruct fl; [eapply IH; [| exact H]; done | by simplify_eq].
Qed.

(** With a pool a pass goes on only on white space, on a comma outside
    every container, or on a byte whose category is expected. *)
Lemma jsmn_step_accepts fuel cfg js len num_tokens parser toks count c p t n :
  jsmn_step fuel cfg js len num_tokens parser (Some toks) count c = Done (Next p t n) ->
  is_space c = true \/ (c = COMMA /\ toksuper parser = JSMN_NEG) \/
  nz (jsmn_is_expected parser (byte_category c)) = true.
Proof.
  unfold jsmn_step, byte_category. intros H.
  destruct (Z.eqb_spec c 123) as [-> | H123].
  { right. right. unfold parse_open in H. cbn in H |- *. run_inv_all.
    all: match goal with
         | E : jsmn_alloc_token _ _ _ _ = Done (Some _) |- _ =>
           apply jsmn_alloc_token_some in E as (-> & -> & _)
         end.
    all: match goal with E : negb _ = false |- _ => by apply negb_false_iff in E end. }
  destruct (Z.eqb_spec c 91) as [-> | H91].
  { right. right. unfold parse_open in H. cbn in H |- *. run_inv_all.
    all: match goal with
         | E : jsmn_alloc_token _ _ _ _ = Done (Some _) |- _ =>
           apply jsmn_alloc_token_some in E as (-> & -> & _)
         end.
    all: match goal with E : negb _ = false |- _ => by apply negb_false_iff in E end. }
  cbn [orb] in *.
  destruct ((c =? 125) || (c =? 93)).
  { right. right. unfold parse_close in H.
    destruct (nz (jsmn_is_expected parser JSMN_CLOSE)); [done | by simplify_eq]. }
  destruct (c =? 34).
  { right. right. apply bind_done in H as ([[r p'] t'] & Hs & H).
    unfold jsmn_parse_string in Hs.
    destruct (nz (jsmn_is_expected parser JSMN_STRING)); [done |].
    cbn in Hs. simplify_eq. }
  destruct (is_space c); [by left |]. right.
  destruct (Z.eqb_spec c 58) as [-> | H58].
  { right. unfold parse_colon in H. cbn [orb].
    destruct (nz (jsmn_is_expected parser JSMN_DELIMITER)); [done | by simplify_eq]. }
  destruct (Z.eqb_spec c 44) as [-> | H44].
  { unfold parse_comma in H. cbn [orb].
    destruct (Z.eqb_spec (toksuper parser) JSMN_NEG) as [Hs | Hs]; [by left |]. right.
    destruct (nz (jsmn_is_expected parser JSMN_DELIMITER)); [done | by simplify_eq]. }
  right. cbn [orb].
  destruct (JSMN_PERMISSIVE cfg || primitive_start c); [| done].
  apply bind_done in H as ([[r p'] t'] & Hs & H).
  unfold jsmn_parse_primitive in Hs.
  destruct (nz (jsmn_is_expected parser JSMN_PRIMITIVE)); [done |].
  cbn in Hs. simplify_eq.
Qed.




(** ** The string scanner on the contents of a string *)

Lemma js_at_nth (js pre mid rest : list Z) (i : nat) (c : Z) :
  js = pre ++ mid ++ rest -> mid !! i = Some c ->
  js_at js (Z.of_nat (length pre + i)) = Done c.
Proof.
  intros -> Hc. unfold js_at. rewrite Nat2Z.id.
  rewrite lookup_app_r by lia.
  replace (length pre + i - length pre)%nat with i by lia.
  by rewrite (lookup_app_l_Some _ _ _ _ Hc).
Qed.

Lemma js_at_here (js pre mid rest : list Z) (c : Z) :
  js = pre ++ mid ++ rest -> mid !! 0%nat = Some c ->
  js_at js (Z.of_nat (length pre)) = Done c.
Proof.
  intros Hjs Hc. rewrite <- (Nat.add_0_r (length pre)). by eapply js_at_nth.
Qed.

Lemma string_byte_tests c :
  string_byte c = true -> (c =? 0) = false /\ (c =? 34) = false /\ (c =? 92) = false.
Proof.
  unfold string_byte. intros Hc. apply negb_true_iff in Hc.
  apply orb_false_iff in Hc as [Hc H92]. by apply orb_false_iff in Hc as [H0 H34].
Qed.

Lemma string_loop_S fuel js len p :
  string_loop (S fuel) js len p
  = if p <? len then
      do c <- js_at js p;
      if c =? NUL then Done StrEnd
      else if c =? QUOTE then Done (StrQuote p)
      else if (c =? BACKSLASH) && (wrap (p + 1) <? len) then
        do e <- js_at js (wrap (p + 1));
        if simple_escape e then string_loop fuel js len (wrap (wrap (p + 1) + 1))
        else if e =? 117 then
          do h <- hex_loop 4 js len (wrap (wrap (p + 1) + 1));
          match h with
          | None => Done StrInval
          | Some q => string_loop fuel js len (wrap (wrap (q - 1) + 1))
          end
        else Done StrInval
      else string_loop fuel js len (wrap (p + 1))
    else Done StrEnd.
Proof. reflexivity. Qed.

(** The string scanner steps over the contents of a string, whatever
    follows them. *)
Lemma string_loop_body len (body : list Z) :
  string_body body -> forall fuel (js pre rest : list Z) R,
  js = pre ++ body ++ rest ->
  Z.of_nat (length pre + length body) <= len ->
  Z.of_nat (length pre + length body) < 2 ^ 32 - 1 ->
  string_loop fuel js len (Z.of_nat (length pre + length body)) = Done R ->
  string_loop (length body + fuel) js len (Z.of_nat (length pre)) = Done R.
Proof.
  induction 1 as [| c b Hc _ IH | e b He _ IH | h1 h2 h3 h4 b H1 H2 H3 H4 _ IH];
    intros fuel js pre rest R Hjs Hlen Hmax HR; cbn [length] in *.
  - by rewrite Nat.add_0_r in HR.
  - cbn [Nat.add]. rewrite string_loop_S. change NUL with 0. change QUOTE with 34. change BACKSLASH with 92.
    assert ((Z.of_nat (length pre) <? len) = true) as -> by (apply Z.ltb_lt; lia).
    rewrite (js_at_here js pre (c :: b) rest c Hjs eq_refl). cbn [bind].
    destruct (string_byte_tests c Hc) as (-> & -> & ->). cbn [andb].
    rewrite wrap_succ_nat by lia.
    replace (S (length pre)) with (length (pre ++ [c]))
      by (rewrite length_app; cbn [length]; lia).
    apply (IH fuel js (pre ++ [c]) rest R).
    + by rewrite Hjs, <- app_assoc.
    + rewrite length_app. cbn [length]. lia.
    + rewrite length_app. cbn [length]. lia.
    + rewrite length_app. cbn [length].
      by replace (length pre + 1 + length b)%nat with (length pre + S (length b))%nat by lia.
  - cbn [Nat.add]. rewrite string_loop_S. change NUL with 0. change QUOTE with 34. change BACKSLASH with 92.
    assert ((Z.of_nat (length pre) <? len) = true) as -> by (apply Z.ltb_lt; lia).
    rewrite (js_at_here js pre (92 :: e :: b) rest 92 Hjs eq_refl). cbn [bind].
    change (92 =? 0) with false. change (92 =? 34) with false. change (92 =? 92) with true.
    cbn [andb]. rewrite wrap_succ_nat by lia.
    assert ((Z.of_nat (S (length pre)) <? len) = true) as -> by (apply Z.ltb_lt; lia).
    replace (S (length pre)) with (length pre + 1)%nat by lia.
    rewrite (js_at_nth js pre (92 :: e :: b) rest 1 e Hjs eq_refl). cbn [bind]. rewrite He.
    rewrite wrap_succ_nat by lia.
    eapply refines_done; [apply (string_loop_fuel (length b + fuel)); lia |].
    replace (S (length pre + 1)) with (length (pre ++ [92; e]))
      by (rewrite length_app; cbn [length]; lia).
    apply (IH fuel js (pre ++ [92; e]) rest R).
    + by rewrite Hjs, <- app_assoc.
    + rewrite length_app. cbn [length]. lia.
    + rewrite length_app. cbn [length]. lia.
    + rewrite length_app. cbn [length].
      by replace (length pre + 2 + length b)%nat with (length pre + S (S (length b)))%nat
        by lia.
  - cbn [Nat.add]. rewrite string_loop_S. change NUL with 0. change QUOTE with 34. change BACKSLASH with 92.
    assert ((Z.of_nat (length pre) <? len) = true) as -> by (apply Z.ltb_lt; lia).
    rewrite (js_at_here js pre (92 :: 117 :: h1 :: h2 :: h3 :: h4 :: b) rest 92 Hjs eq_refl).
    cbn [bind].
    change (92 =? 0) with false. change (92 =? 34) with false. change (92 =? 92) with true.
    cbn [andb]. rewrite wrap_succ_nat by lia.
    assert ((Z.of_nat (S (length pre)) <? len) = true) as -> by (apply Z.ltb_lt; lia).
    replace (S (length pre)) with (length pre + 1)%nat by lia.
    rewrite (js_at_nth js pre (92 :: 117 :: h1 :: h2 :: h3 :: h4 :: b) rest 1 117 Hjs eq_refl).
    cbn [bind]. change (simple_escape 117) with false. change (117 =? 117) with true.
    cbv iota. rewrite wrap_succ_nat by lia.
    assert (hex_loop 4 js len (Z.of_nat (S (length pre + 1)))
            = Done (Some (Z.of_nat (length pre + 6)))) as ->.
    { replace (S (length pre + 1)) with (length (pre ++ [92; 117]))
        by (rewrite length_app; cbn [length]; lia).
      replace js with ((pre ++ [92; 117]) ++ h1 :: h2 :: h3 :: h4 :: b ++ rest)
        by (rewrite Hjs, <- app_assoc; reflexivity).
      rewrite hex_loop_four; try done; rewrite length_app; cbn [length]; try lia.
      do 2 f_equal. lia. }
    cbn [bind]. rewrite wrap_pred_succ by lia.
    eapply refines_done; [apply (string_loop_fuel (length b + fuel)); lia |].
    replace (length pre + 6)%nat with (length (pre ++ [92; 117; h1; h2; h3; h4]))
      by (rewrite length_app; cbn [length]; lia).
    apply (IH fuel js (pre ++ [92; 117; h1; h2; h3; h4]) rest R).
    + by rewrite Hjs, <- app_assoc.
    + rewrite length_app. cbn [length]. lia.
    + rewrite length_app. cbn [length]. lia.
    + rewrite length_app. cbn [length].
      by replace (length pre + 6 + length b)%nat
        with (length pre + S (S (S (S (S (S (length b)))))))%nat by lia.
Qed.

(** A backslash followed by a byte that begins no escape, after the
    contents of a string. *)
Lemma string_loop_escape_inval len fuel (js pre body rest : list Z) (x : Z) :
  js = pre ++ body ++ BACKSLASH :: x :: rest ->
  string_body body ->
  simple_escape x = false -> x <> 117 ->
  Z.of_nat (length pre + length body) + 1 < len ->
  Z.of_nat (length pre + length body) + 1 < 2 ^ 32 - 1 ->
  string_loop (length body + S fuel) js len (Z.of_nat (length pre)) = Done StrInval.
Proof.
  intros Hjs Hbody Hx Hu Hlen Hmax.
  apply (string_loop_body len body Hbody (S fuel) js pre (BACKSLASH :: x :: rest));
    [done | lia | lia |].
  rewrite string_loop_S.
  assert ((Z.of_nat (length pre + length body) <? len) = true) as -> by (apply Z.ltb_lt; lia).
  assert (Hjs' : js = (pre ++ body) ++ [BACKSLASH; x] ++ rest)
    by (rewrite Hjs, <- ?app_assoc; reflexivity).
  rewrite <- length_app.
  rewrite (js_at_here js (pre ++ body) [BACKSLASH; x] rest BACKSLASH Hjs' eq_refl).
  cbn [bind]. change (BACKSLASH =? NUL) with false. change (BACKSLASH =? QUOTE) with false.
  change (BACKSLASH =? BACKSLASH) with true. cbn [andb].
  rewrite wrap_succ_nat by (rewrite length_app; lia).
  assert ((Z.of_nat (S (length (pre ++ body))) <? len) = true) as ->
    by (apply Z.ltb_lt; rewrite length_app; lia).
  replace (S (length (pre ++ body))) with (length (pre ++ body) + 1)%nat by lia.
  rewrite (js_at_nth js (pre ++ body) [BACKSLASH; x] rest 1 x Hjs' eq_refl).
  cbn [bind]. rewrite Hx.
  by assert ((x =? 117) = false) as -> by lia.
Qed.

Lemma hex_loop_S n js len p :
  hex_loop (S n) js len p
  = if p <? len then
      do c <- js_at js p;
      if c =? NUL then Done (Some p)
      else if is_hex c then hex_loop n js len (wrap (p + 1))
      else Done None
    else Done (Some p).
Proof. reflexivity. Qed.

(** The loop over the hex digits on fewer digits than it asks for: it
    stops at the end of the input, and refuses any other byte. *)
Lemma hex_loop_digits len (hs : list Z) :
  Forall (fun h => is_hex h = true) hs -> forall n (js pre rest : list Z),
  js = pre ++ hs ++ rest -> (length hs < n)%nat ->
  Z.of_nat (length pre + length hs) < 2 ^ 32 - 1 ->
  Z.of_nat (length pre + length hs) <= len ->
  hex_loop n js len (Z.of_nat (length pre))
  = hex_loop (n - length hs) js len (Z.of_nat (length pre + length hs)).
Proof.
  induction 1 as [| h hs Hh _ IH]; intros n js pre rest Hjs Hn Hmax Hlen; cbn [length] in *.
  - by rewrite Nat.sub_0_r, Nat.add_0_r.
  - destruct n as [| n]; [lia |]. rewrite hex_loop_S.
    assert ((Z.of_nat (length pre) <? len) = true) as -> by (apply Z.ltb_lt; lia).
    rewrite (js_at_here js pre (h :: hs) rest h Hjs eq_refl). cbn [bind].
    change NUL with 0. rewrite (is_hex_not_null h Hh), Hh.
    rewrite wrap_succ_nat by lia.
    replace (S (length pre)) with (length (pre ++ [h]))
      by (rewrite length_app; cbn [length]; lia).
    rewrite (IH n js (pre ++ [h]) rest).
    + rewrite length_app. cbn [length Nat.sub]. do 2 f_equal. lia.
    + by rewrite Hjs, <- app_assoc.
    + lia.
    + rewrite length_app. cbn [length]. lia.
    + rewrite length_app. cbn [length]. lia.
Qed.

(** A backslash, the byte u, fewer than four hex digits and a byte that
    is none, after the contents of a string. *)
Lemma string_loop_unicode_inval len fuel (js pre body hs rest : list Z) (bad : Z) :
  js = pre ++ body ++ BACKSLASH :: 117 :: hs ++ bad :: rest ->
  string_body body ->
  Forall (fun h => is_hex h = true) hs -> (length hs < 4)%nat ->
  is_hex bad = false -> bad <> 0 ->
  Z.of_nat (length pre + length body + 2 + length hs) < len ->
  Z.of_nat (length pre + length body + 2 + length hs) < 2 ^ 32 - 1 ->
  string_loop (length body + S fuel) js len (Z.of_nat (length pre)) = Done StrInval.
Proof.
  intros Hjs Hbody Hhs Hn Hbad Hnz Hlen Hmax.
  apply (string_loop_body len body Hbody (S fuel) js pre
           (BACKSLASH :: 117 :: hs ++ bad :: rest)); [done | lia | lia |].
  rewrite string_loop_S.
  assert ((Z.of_nat (length pre + length body) <? len) = true) as -> by (apply Z.ltb_lt; lia).
  assert (Hjs' : js = (pre ++ body) ++ [BACKSLASH; 117] ++ hs ++ bad :: rest)
    by (rewrite Hjs, <- ?app_assoc; reflexivity).
  rewrite <- length_app.
  rewrite (js_at_here js (pre ++ body) [BACKSLASH; 117] _ BACKSLASH Hjs' eq_refl).
  cbn [bind]. change (BACKSLASH =? NUL) with false. change (BACKSLASH =? QUOTE) with false.
  change (BACKSLASH =? BACKSLASH) with true. cbn [andb].
  rewrite wrap_succ_nat by (rewrite length_app; lia).
  assert ((Z.of_nat (S (length (pre ++ body))) <? len) = true) as ->
    by (apply Z.ltb_lt; rewrite length_app; lia).
  replace (S (length (pre ++ body))) with (length (pre ++ body) + 1)%nat by lia.
  rewrite (js_at_nth js (pre ++ body) [BACKSLASH; 117] _ 1 117 Hjs' eq_refl).
  cbn [bind]. change (simple_escape 117) with false. change (117 =? 117) with true.
  cbv iota. rewrite wrap_succ_nat by (rewrite length_app; lia).
  assert (Hjs2 : js = ((pre ++ body) ++ [BACKSLASH; 117]) ++ hs ++ bad :: rest)
    by (rewrite Hjs, <- ?app_assoc; reflexivity).
  replace (S (length (pre ++ body) + 1)) with (length ((pre ++ body) ++ [BACKSLASH; 117]))
    by (rewrite !length_app; cbn [length]; lia).
  rewrite (hex_loop_digits len hs Hhs 4 js _ (bad :: rest) Hjs2 Hn);
    [| rewrite !length_app; cbn [length]; lia..].
  destruct (4 - length hs)%nat as [| k] eqn:Hk; [lia |]. rewrite hex_loop_S.
  assert ((Z.of_nat (length ((pre ++ body) ++ [BACKSLASH; 117%Z]) + length hs) <? len) = true)
    as -> by (apply Z.ltb_lt; rewrite !length_app; cbn [length]; lia).
  assert (Hjs3 : js = (((pre ++ body) ++ [BACKSLASH; 117]) ++ hs) ++ [bad] ++ rest)
    by (rewrite Hjs, <- ?app_assoc; reflexivity).
  rewrite <- length_app.
  rewrite (js_at_here js _ [bad] rest bad Hjs3 eq_refl). cbn [bind].
  assert ((bad =? NUL) = false) as -> by (apply Z.eqb_neq; done).
  by rewrite Hbad.
Qed.

(** The string scanner reaches the end of an input that ends in a
    string. *)
Lemma string_loop_cut len fuel (js pre body tail rest : list Z) :
  js = pre ++ body ++ tail ++ rest ->
  string_body body ->
  Z.of_nat (length pre + length body + length tail) < 2 ^ 32 - 1 ->
  (cut_escape tail /\ ends_at js len (length pre + length body + length tail)) \/
  (tail = [BACKSLASH] /\ len = Z.of_nat (length pre + length body + length tail)) ->
  string_loop (length body + S (S fuel)) js len (Z.of_nat (length pre)) = Done StrEnd.
Proof.
  intros Hjs Hbody Hmax Hcut.
  assert (Hend : forall f e, ends_at js len e ->
                 string_loop (S f) js len (Z.of_nat e) = Done StrEnd).
  { intros f e [-> | [Hlt Hnul]]; rewrite string_loop_S.
    - by rewrite Z.ltb_irrefl.
    - assert ((Z.of_nat e <? len) = true) as -> by (apply Z.ltb_lt; lia).
      unfold js_at. by rewrite Nat2Z.id, Hnul. }
  assert (Hle : Z.of_nat (length pre + length body + length tail) <= len).
  { destruct Hcut as [[_ [-> | [? _]]] | [_ ->]]; lia. }
  apply (string_loop_body len body Hbody (S (S fuel)) js pre (tail ++ rest));
    [done | lia | lia |].
  assert (Hjs' : js = (pre ++ body) ++ tail ++ rest)
    by (rewrite Hjs, <- ?app_assoc; reflexivity).
  destruct Hcut as [[Htail He] | [-> ->]].
  - destruct Htail as [| hs Hhs Hn].
    + cbn [length] in He. rewrite Nat.add_0_r in He. by apply Hend.
    + cbn [length] in *. rewrite string_loop_S.
      assert ((Z.of_nat (length pre + length body) <? len) = true) as ->
        by (apply Z.ltb_lt; lia).
      rewrite <- length_app.
      rewrite (js_at_here js (pre ++ body) (BACKSLASH :: 117 :: hs) rest BACKSLASH Hjs' eq_refl).
      cbn [bind]. change (BACKSLASH =? NUL) with false.
      change (BACKSLASH =? QUOTE) with false.
      change (BACKSLASH =? BACKSLASH) with true. cbn [andb].
      rewrite wrap_succ_nat by (rewrite length_app; lia).
      assert ((Z.of_nat (S (length (pre ++ body))) <? len) = true) as ->
        by (apply Z.ltb_lt; rewrite length_app; lia).
      replace (S (length (pre ++ body))) with (length (pre ++ body) + 1)%nat by lia.
      rewrite (js_at_nth js (pre ++ body) (BACKSLASH :: 117 :: hs) rest 1 117 Hjs' eq_refl).
      cbn [bind]. change (simple_escape 117) with false. change (117 =? 117) with true.
      cbv iota. rewrite wrap_succ_nat by (rewrite length_app; lia).
      assert (Hjs2 : js = ((pre ++ body) ++ [BACKSLASH; 117]) ++ hs ++ rest).
      { rewrite Hjs, <- ?app_assoc. reflexivity. }
      replace (S (length (pre ++ body) + 1))
        with (length ((pre ++ body) ++ [BACKSLASH; 117]))
        by (rewrite !length_app; cbn [length]; lia).
      rewrite (hex_loop_digits len hs Hhs 4 js _ rest Hjs2 Hn);
        [| rewrite !length_app; cbn [length]; lia..].
      destruct (4 - length hs)%nat as [| k] eqn:Hk; [lia |]. rewrite hex_loop_S.
      replace (length ((pre ++ body) ++ [BACKSLASH; 117%Z]) + length hs)%nat
        with (length pre + length body + S (S (length hs)))%nat
        by (rewrite !length_app; cbn [length]; lia).
      set (e := (length pre + length body + S (S (length hs)))%nat) in *.
      assert (string_loop (S fuel) js len (wrap (wrap (Z.of_nat e - 1) + 1)) = Done StrEnd)
        as Hgo.
      { rewrite wrap_pred_succ by lia. by apply Hend. }
      destruct He as [-> | [Hlt Hnul]].
      * by rewrite Z.ltb_irrefl.
      * assert ((Z.of_nat e <? len) = true) as -> by (apply Z.ltb_lt; lia).
        unfold js_at. rewrite Nat2Z.id, Hnul. by cbn [bind].
  - cbn [length] in *. rewrite <- length_app in *. rewrite string_loop_S.
    assert ((Z.of_nat (length (pre ++ body))
             <? Z.of_nat (length (pre ++ body) + 1)) = true) as ->
      by (apply Z.ltb_lt; lia).
    rewrite (js_at_here js (pre ++ body) [BACKSLASH] rest BACKSLASH Hjs' eq_refl).
    cbn [bind]. change (BACKSLASH =? NUL) with false.
    change (BACKSLASH =? QUOTE) with false.
    change (BACKSLASH =? BACKSLASH) with true. cbn [andb].
    rewrite wrap_succ_nat by lia.
    assert ((Z.of_nat (S (length (pre ++ body)))
             <? Z.of_nat (length (pre ++ body) + 1)) = false) as Hge
      by (apply Z.ltb_ge; lia).
    rewrite Hge. rewrite string_loop_S. by rewrite Hge.
Qed.

(** ** A pass that returns *)

(** What the pass on the byte under the cursor returns, [jsmn_parse]
    returns. *)
Lemma jsmn_loop_return_at fuel cfg js len num_tokens s0 s c r p t :
  reaches fuel cfg js len num_tokens s0 s ->
  pos (it_parser s) < len -> js_at js (pos (it_parser s)) = Done c -> c <> 0 ->
  jsmn_step fuel cfg js len num_tokens (it_parser s) (it_tokens s) (it_count s) c
    = Done (Return r p t) ->
  exists fuel0, forall fuel', (fuel0 <= fuel')%nat ->
    jsmn_loop fuel' fuel' cfg js len num_tokens (it_parser s0) (it_tokens s0) (it_count s0)
    = Done (r, p, t).
Proof.
  intros Hreach Hlt Hc Hnz Hstep.
  destruct (reaches_loop _ _ _ _ _ _ _ Hreach) as [n Hn].
  exists (fuel + S n)%nat. intros fuel' Hle.
  eapply refines_done; [apply (jsmn_loop_fuel (n + 1) _ fuel); lia |].
  apply (Hn 1%nat). cbn [jsmn_loop].
  assert ((pos (it_parser s) <? len) = true) as -> by (apply Z.ltb_lt; lia).
  rewrite Hc. cbn [bind].
  assert ((c =? NUL) = false) as -> by (by apply Z.eqb_neq).
  by rewrite Hstep.
Qed.

Lemma reaches_none fuel cfg js len num_tokens s s' :
  it_tokens s = None -> reaches fuel cfg js len num_tokens s s' -> it_tokens s' = None.
Proof.
  intros Ht H.
  induction H as [| s s' s'' (_ & c & p & t & n & _ & _ & Hs & ->) _ IH]; [done |].
  rewrite Ht in Hs. apply jsmn_step_none in Hs. by apply IH.
Qed.

(** The fix-up of [toksuper] changes nothing else. *)
Lemma fixup_done cfg parser toks :
  fixup_in_pool cfg parser toks ->
  exists p',
    (if JSMN_PERMISSIVE cfg && JSMN_PARENT_LINKS cfg then
       if (2 <=? toknext parser) && nz (jsmn_is_expected parser JSMN_DELIMITER) then
         do prev <- tok_get toks (wrap (toknext parser - 2));
         if nz (jsmn_is_type prev JSMN_KEY) then
           do sup <- tok_get toks (toksuper parser);
           Done (set_toksuper parser (tok_parent sup))
         else Done parser
       else Done parser
     else Done parser) = Done p' /\
    pos p' = pos parser /\ toknext p' = toknext parser /\ expected p' = expected parser /\
    (JSMN_PERMISSIVE cfg && JSMN_PARENT_LINKS cfg = false -> p' = parser).
Proof.
  unfold fixup_in_pool. intros Hfix.
  destruct (JSMN_PERMISSIVE cfg && JSMN_PARENT_LINKS cfg); [| by exists parser].
  destruct ((2 <=? toknext parser) && nz (jsmn_is_expected parser JSMN_DELIMITER));
    [| by exists parser].
  destruct (Hfix eq_refl eq_refl) as (prev & Hprev & Hsup).
  unfold tok_get at 1. rewrite Hprev. cbn [bind].
  destruct (nz (jsmn_is_type prev JSMN_KEY)); [| by exists parser].
  destruct (Hsup eq_refl) as [sup Hs]. unfold tok_get. rewrite Hs. cbn [bind].
  by eexists.
Qed.

(** The string scanner on a string it does not find the end of: a
    malformed escape is [JSMN_ERROR_INVAL], the end of the input is
    [JSMN_ERROR_PART], and the cursor and the pool are left as they were. *)
Lemma jsmn_parse_string_stops fuel cfg parser js len tokens num_tokens scan e :
  string_loop fuel js len (wrap (pos parser + 1)) = Done scan ->
  (scan = StrInval /\ e = JSMN_ERROR_INVAL) \/ (scan = StrEnd /\ e = JSMN_ERROR_PART) ->
  match tokens with
  | Some toks =>
    nz (jsmn_is_expected parser JSMN_STRING) = true /\ fixup_in_pool cfg parser toks
  | None => True
  end ->
  exists p',
    jsmn_parse_string fuel cfg parser js len tokens num_tokens = Done (e, p', tokens) /\
    pos p' = pos parser /\ toknext p' = toknext parser /\ expected p' = expected parser /\
    (tokens = None \/ JSMN_PERMISSIVE cfg && JSMN_PARENT_LINKS cfg = false -> p' = parser).
Proof.
  intros Hscan He Htok. unfold jsmn_parse_string.
  destruct tokens as [toks |].
  - destruct Htok as [-> Hfix]. cbn [negb].
    destruct (fixup_done cfg parser toks Hfix) as (p' & -> & Hpos & Hnext & Hexp & Hsame).
    cbn [bind]. rewrite Hpos, Hscan. cbn [bind]. rewrite <- Hpos.
    exists p'. rewrite set_pos_same.
    destruct He as [[-> ->] | [-> ->]]; (split; [done |]); repeat split; try done;
      by intros [|]; auto.
  - assert ((if JSMN_PERMISSIVE cfg && JSMN_PARENT_LINKS cfg then Done parser else Done parser)
            = Done parser) as -> by (by destruct (_ && _)).
    cbn [bind]. rewrite Hscan. cbn [bind]. exists parser. rewrite set_pos_same.
    destruct He as [[-> ->] | [-> ->]]; done.
Qed.

(** The primitive scanner on a byte outside 32..126. *)
Lemma jsmn_parse_primitive_stops fuel cfg parser js len tokens num_tokens :
  primitive_loop fuel cfg js len (pos parser) = Done PrimInval ->
  match tokens with
  | Some toks =>
    nz (jsmn_is_expected parser JSMN_PRIMITIVE) = true /\ fixup_in_pool cfg parser toks
  | None => True
  end ->
  exists p',
    jsmn_parse_primitive fuel cfg parser js len tokens num_tokens
      = Done (JSMN_ERROR_INVAL, p', tokens) /\
    pos p' = pos parser /\ toknext p' = toknext parser /\ expected p' = expected parser /\
    (tokens = None \/ JSMN_PERMISSIVE cfg && JSMN_PARENT_LINKS cfg = false -> p' = parser).
Proof.
  intros Hscan Htok. unfold jsmn_parse_primitive.
  destruct tokens as [toks |].
  - destruct Htok as [-> Hfix]. cbn [negb].
    destruct (fixup_done cfg parser toks Hfix) as (p' & -> & Hpos & Hnext & Hexp & Hsame).
    cbn [bind]. rewrite Hpos, Hscan. cbn [bind]. rewrite <- Hpos.
    exists p'. rewrite set_pos_same. repeat split; try done. by intros [|]; auto.
  - assert ((if JSMN_PERMISSIVE cfg && JSMN_PARENT_LINKS cfg then Done parser else Done parser)
            = Done parser) as -> by (by destruct (_ && _)).
    cbn [bind]. rewrite Hscan. cbn [bind]. exists parser. by rewrite set_pos_same.
Qed.

(** A scanner that refuses bytes found a malformed escape or a byte
    outside 32..126, unless its token was not expected. *)
Lemma jsmn_parse_string_inval_scan fuel cfg parser js len tokens num_tokens p t :
  jsmn_parse_string fuel cfg parser js len tokens num_tokens
    = Done (JSMN_ERROR_INVAL, p, t) ->
  match tokens with
  | Some _ => nz (jsmn_is_expected parser JSMN_STRING) = true
  | None => True
  end ->
  string_loop fuel js len (wrap (pos parser + 1)) = Done StrInval.
Proof.
  unfold jsmn_parse_string. intros H Hexp.
  assert (match tokens with
          | Some _ => negb (nz (jsmn_is_expected parser JSMN_STRING))
          | None => false
          end = false) as Hne by (destruct tokens; [by rewrite Hexp | done]).
  rewrite Hne in H.
  apply bind_done in H as (p' & Hfix & H).
  assert (pos p' = pos parser) as Hpos.
  { destruct (JSMN_PERMISSIVE cfg && JSMN_PARENT_LINKS cfg); [| by simplify_eq].
    destruct tokens; [| by simplify_eq]. run_inv Hfix; by simplify_eq. }
  rewrite Hpos in H.
  destruct (string_loop fuel js len (wrap (pos parser + 1))) as [[q | |] | |];
    [| done | by simplify_eq | done..].
  exfalso. cbn [bind] in H. run_inv_all.
Qed.

Lemma jsmn_parse_primitive_inval_scan fuel cfg parser js len tokens num_tokens p t :
  jsmn_parse_primitive fuel cfg parser js len tokens num_tokens
    = Done (JSMN_ERROR_INVAL, p, t) ->
  match tokens with
  | Some _ => nz (jsmn_is_expected parser JSMN_PRIMITIVE) = true
  | None => True
  end ->
  primitive_loop fuel cfg js len (pos parser) = Done PrimInval.
Proof.
  unfold jsmn_parse_primitive. intros H Hexp.
  assert (match tokens with
          | Some _ => negb (nz (jsmn_is_expected parser JSMN_PRIMITIVE))
          | None => false
          end = false) as Hne by (destruct tokens; [by rewrite Hexp | done]).
  rewrite Hne in H.
  apply bind_done in H as (p' & Hfix & H).
  assert (pos p' = pos parser) as Hpos.
  { destruct (JSMN_PERMISSIVE cfg && JSMN_PARENT_LINKS cfg); [| by simplify_eq].
    destruct tokens; [| by simplify_eq]. run_inv Hfix; by simplify_eq. }
  rewrite Hpos in H.
  destruct (primitive_loop fuel cfg js len (pos parser)) as [[q | | q] | |];
    [| done | | done..]; exfalso; cbn [bind] in H; run_inv_all.
Qed.

(** ** The scanners at a state of the loop *)

(** The pass on a quote whose string has no end. *)
Lemma jsmn_step_string_stops fuel cfg js len num_tokens parser tokens count scan e :
  string_loop fuel js len (wrap (pos parser + 1)) = Done scan ->
  (scan = StrInval /\ e = JSMN_ERROR_INVAL) \/ (scan = StrEnd /\ e = JSMN_ERROR_PART) ->
  match tokens with
  | Some toks =>
    nz (jsmn_is_expected parser JSMN_STRING) = true /\ fixup_in_pool cfg parser toks
  | None => True
  end ->
  exists p',
    jsmn_step fuel cfg js len num_tokens parser tokens count QUOTE
      = Done (Return (Err e) p' tokens) /\
    pos p' = pos parser /\ toknext p' = toknext parser /\ expected p' = expected parser /\
    (tokens = None \/ JSMN_PERMISSIVE cfg && JSMN_PARENT_LINKS cfg = false -> p' = parser).
Proof.
  intros Hscan He Htok.
  destruct (jsmn_parse_string_stops fuel cfg parser js len tokens num_tokens scan e
              Hscan He Htok) as (p' & Hs & Hrest).
  exists p'. split; [| exact Hrest].
  unfold jsmn_step. cbn [Z.eqb Pos.eqb orb]. change (QUOTE =? QUOTE) with true.
  cbv iota. rewrite Hs. cbn [bind].
  by destruct He as [[_ ->] | [_ ->]].
Qed.

(** The pass on a run of primitive bytes that a byte outside 32..126
    follows, or on such a byte. *)
Lemma jsmn_step_primitive_illegal fuel cfg parser tokens count (pre b rest : list Z)
    bad c len num_tokens :
  pos parser = Z.of_nat (length pre) ->
  Forall (fun c => primitive_byte cfg c = true) b ->
  match b with [] => True | c0 :: _ => primitive_first cfg c0 = true end ->
  head (b ++ [bad]) = Some c ->
  illegal_byte bad = true ->
  Z.of_nat (length pre + length b) < len ->
  Z.of_nat (length pre + length b) < 2 ^ 32 ->
  match tokens with
  | Some toks =>
    nz (jsmn_is_expected parser JSMN_PRIMITIVE) = true /\ fixup_in_pool cfg parser toks
  | None => True
  end ->
  exists p',
    jsmn_step (length b + S fuel) cfg (pre ++ b ++ bad :: rest) len num_tokens parser tokens
      count c = Done (Return (Err JSMN_ERROR_INVAL) p' tokens) /\
    pos p' = pos parser /\ toknext p' = toknext parser /\ expected p' = expected parser /\
    (tokens = None \/ JSMN_PERMISSIVE cfg && JSMN_PARENT_LINKS cfg = false -> p' = parser).
Proof.
  intros Hpos Hall Hfirst Hhead Hbad Hlen Hmax Htok.
  assert (Hscan : primitive_loop (length b + S fuel) cfg (pre ++ b ++ bad :: rest) len
                    (pos parser) = Done PrimInval).
  { rewrite Hpos. by apply primitive_loop_illegal. }
  destruct (jsmn_parse_primitive_stops _ cfg parser _ len tokens num_tokens Hscan Htok)
    as (p' & Hs & Hrest).
  assert (Hill : ((bad <? 32) || (127 <=? bad)) = true /\ is_space bad = false /\ bad <> 0).
  { unfold illegal_byte in Hbad. apply andb_true_iff in Hbad as [Hout Hws].
    apply negb_true_iff in Hws. unfold is_space. split; [done |]. split; lia. }
  unfold jsmn_step.
  destruct b as [| c0 b'].
  - cbn in Hhead. simplify_eq. destruct Hill as (Hout & Hsp & Hnz).
    assert ((c =? 123) || (c =? 91) = false) as -> by lia.
    assert ((c =? 125) || (c =? 93) = false) as -> by lia.
    assert ((c =? 34) = false) as -> by lia. rewrite Hsp.
    assert ((c =? 58) = false) as -> by lia.
    assert ((c =? 44) = false) as -> by lia.
    assert (primitive_start c = false) as -> by (unfold primitive_start; lia).
    destruct (JSMN_PERMISSIVE cfg) eqn:Hperm; cbn [orb].
    + exists p'. split; [| exact Hrest]. rewrite Hs. by cbn [bind].
    + by exists parser.
  - cbn in Hhead. simplify_eq. unfold primitive_first in Hfirst.
    apply andb_true_iff in Hfirst as [Hno Hyes]. apply negb_true_iff in Hno.
    repeat (apply orb_false_iff in Hno as [Hno ?]).
    assert ((c =? 123) || (c =? 91) = false) as -> by (apply orb_false_iff; done).
    assert ((c =? 125) || (c =? 93) = false) as -> by (apply orb_false_iff; done).
    assert ((c =? 34) = false) as -> by done.
    assert (is_space c = false) as -> by done.
    assert ((c =? 58) = false) as -> by done.
    assert ((c =? 44) = false) as -> by done.
    rewrite Hyes. exists p'. split; [| exact Hrest]. rewrite Hs. by cbn [bind].
Qed.

(** [jsmn_parse] on a string that the scanner does not find the end of:
    the loop reaches the quote, and the call returns what the scanner
    returns there. *)
Lemma jsmn_parse_string_stops_at fuel F cfg parser js len tokens num_tokens s (q : nat)
    scan e :
  reaches fuel cfg js len num_tokens (entry parser tokens) s ->
  pos (it_parser s) = Z.of_nat q -> js !! q = Some QUOTE ->
  Z.of_nat q < len -> Z.of_nat q + 1 < 2 ^ 32 ->
  string_loop F js len (Z.of_nat (S q)) = Done scan ->
  (scan = StrInval /\ e = JSMN_ERROR_INVAL) \/ (scan = StrEnd /\ e = JSMN_ERROR_PART) ->
  match it_tokens s with
  | Some toks =>
    nz (jsmn_is_expected (it_parser s) JSMN_STRING) = true /\
    fixup_in_pool cfg (it_parser s) toks
  | None => True
  end ->
  exists fuel0 p',
    (forall fuel', (fuel0 <= fuel')%nat ->
       jsmn_parse fuel' cfg parser js len tokens num_tokens
       = Done (Err e, p', it_tokens s)) /\
    pos p' = Z.of_nat q /\ toknext p' = toknext (it_parser s) /\
    expected p' = expected (it_parser s) /\
    (it_tokens s = None \/ JSMN_PERMISSIVE cfg && JSMN_PARENT_LINKS cfg = false ->
     p' = it_parser s).
Proof.
  intros Hreach Hpos Hq Hlt Hmax Hscan He Htok.
  apply (reaches_fuel fuel (fuel + F)) in Hreach; [| lia].
  assert (Hscan' : string_loop (fuel + F) js len (wrap (pos (it_parser s) + 1)) = Done scan).
  { rewrite Hpos, wrap_succ_nat by lia.
    eapply refines_done; [apply (string_loop_fuel F); lia | done]. }
  destruct (jsmn_step_string_stops (fuel + F) cfg js len num_tokens (it_parser s)
              (it_tokens s) (it_count s) scan e Hscan' He Htok)
    as (p' & Hstep & Hp & Hn & Hx & Hsame).
  assert (Hc : js_at js (pos (it_parser s)) = Done QUOTE).
  { unfold js_at. by rewrite Hpos, Nat2Z.id, Hq. }
  destruct (jsmn_loop_return_at _ _ _ _ _ _ _ QUOTE (Err e) p' (it_tokens s) Hreach
              ltac:(lia) Hc ltac:(done) Hstep) as [fuel0 Hf].
  exists fuel0, p'. split; [| by rewrite Hp]. intros fuel' Hle. by apply Hf.
Qed.

(** [jsmn_parse] on a primitive that holds a byte outside 32..126. *)
Lemma jsmn_parse_primitive_illegal_at fuel cfg parser js len tokens num_tokens s
    (pre b rest : list Z) bad :
  reaches fuel cfg js len num_tokens (entry parser tokens) s ->
  pos (it_parser s) = Z.of_nat (length pre) ->
  js = pre ++ b ++ bad :: rest ->
  Forall (fun c => primitive_byte cfg c = true) b ->
  match b with [] => True | c0 :: _ => primitive_first cfg c0 = true end ->
  illegal_byte bad = true ->
  Z.of_nat (length pre + length b) < len ->
  Z.of_nat (length pre + length b) < 2 ^ 32 ->
  match it_tokens s with
  | Some toks =>
    nz (jsmn_is_expected (it_parser s) JSMN_PRIMITIVE) = true /\
    fixup_in_pool cfg (it_parser s) toks
  | None => True
  end ->
  exists fuel0 p',
    (forall fuel', (fuel0 <= fuel')%nat ->
       jsmn_parse fuel' cfg parser js len tokens num_tokens
       = Done (Err JSMN_ERROR_INVAL, p', it_tokens s)) /\
    pos p' = Z.of_nat (length pre) /\ toknext p' = toknext (it_parser s) /\
    expected p' = expected (it_parser s) /\
    (it_tokens s = None \/ JSMN_PERMISSIVE cfg && JSMN_PARENT_LINKS cfg = false ->
     p' = it_parser s).
Proof.
  intros Hreach Hpos Hjs Hall Hfirst Hbad Hlen Hmax Htok.
  apply (reaches_fuel fuel (length b + S fuel)) in Hreach; [| lia].
  destruct (head (b ++ [bad])) as [c |] eqn:Hhead; [| by destruct b].
  destruct (jsmn_step_primitive_illegal fuel cfg (it_parser s) (it_tokens s) (it_count s)
              pre b rest bad c len num_tokens Hpos Hall Hfirst Hhead Hbad Hlen Hmax Htok)
    as (p' & Hstep & Hp & Hn & Hx & Hsame).
  rewrite <- Hjs in Hstep.
  assert (Hc : js_at js (pos (it_parser s)) = Done c /\ c <> 0).
  { rewrite Hpos. destruct b as [| c0 b']; cbn in Hhead; simplify_eq.
    - split; [by apply (js_at_here _ pre [c] rest) |].
      unfold illegal_byte in Hbad. lia.
    - split; [by apply (js_at_here _ pre (c :: b') (bad :: rest)) |].
      apply Forall_cons in Hall as [Hc _]. unfold primitive_byte in Hc. lia. }
  destruct Hc as [Hc Hnz].
  destruct (jsmn_loop_return_at _ _ _ _ _ _ _ c (Err JSMN_ERROR_INVAL) p' (it_tokens s)
              Hreach ltac:(lia) Hc Hnz Hstep) as [fuel0 Hf].
  exists fuel0, p'. split; [| by rewrite Hp]. intros fuel' Hle. by apply Hf.
Qed.

(** C7 (amended). Without a pool [jsmn_parse] still validates bytes, in
    every configuration: when its loop reaches a primitive that holds a
    byte outside 32..126, or a string that holds a backslash before a byte
    that begins no escape, or a backslash, the byte u, fewer than four hex
    digits and a byte that is neither a hex digit nor the terminator, it
    returns [JSMN_ERROR_INVAL] with the cursor at the start of the token.
    A scanner that refuses an input without a pool refuses it with one
    (the reads of the fix-up of [toksuper] being inside the pool), and
    where its token is expected a scanner that refuses an input with a
    pool refuses it without one.  Brackets are not matched: an opening
    bracket is only counted, a closing bracket is skipped, and no open
    container is looked for at the end of the input. *)
Theorem dry_run_validates_bytes_only :
  (forall fuel cfg parser js len num_tokens s pre b bad rest,
     reaches fuel cfg js len num_tokens (entry parser None) s ->
     pos (it_parser s) = Z.of_nat (length pre) ->
     js = pre ++ b ++ bad :: rest ->
     Forall (fun c => primitive_byte cfg c = true) b ->
     match b with [] => True | c0 :: _ => primitive_first cfg c0 = true end ->
     illegal_byte bad = true ->
     Z.of_nat (length pre + length b) < len ->
     Z.of_nat (length pre + length b) < 2 ^ 32 ->
     exists fuel0, forall fuel', (fuel0 <= fuel')%nat ->
       jsmn_parse fuel' cfg parser js len None num_tokens
       = Done (Err JSMN_ERROR_INVAL, it_parser s, None)) /\
  (forall fuel cfg parser js len num_tokens s pre body x rest,
     reaches fuel cfg js len num_tokens (entry parser None) s ->
     pos (it_parser s) = Z.of_nat (length pre) ->
     js = pre ++ QUOTE :: body ++ BACKSLASH :: x :: rest ->
     string_body body ->
     simple_escape x = false -> x <> 117 ->
     Z.of_nat (length pre + length body) + 2 < len ->
     Z.of_nat (length pre + length body) + 2 < 2 ^ 32 - 1 ->
     exists fuel0, forall fuel', (fuel0 <= fuel')%nat ->
       jsmn_parse fuel' cfg parser js len None num_tokens
       = Done (Err JSMN_ERROR_INVAL, it_parser s, None)) /\
  (forall fuel cfg parser js len num_tokens s pre body hs bad rest,
     reaches fuel cfg js len num_tokens (entry parser None) s ->
     pos (it_parser s) = Z.of_nat (length pre) ->
     js = pre ++ QUOTE :: body ++ BACKSLASH :: 117 :: hs ++ bad :: rest ->
     string_body body ->
     Forall (fun h => is_hex h = true) hs -> (length hs < 4)%nat ->
     is_hex bad = false -> bad <> 0 ->
     Z.of_nat (length pre + length body + length hs) + 3 < len ->
     Z.of_nat (length pre + length body + length hs) + 3 < 2 ^ 32 - 1 ->
     exists fuel0, forall fuel', (fuel0 <= fuel')%nat ->
       jsmn_parse fuel' cfg parser js len None num_tokens
       = Done (Err JSMN_ERROR_INVAL, it_parser s, None)) /\
  (forall fuel cfg parser js len toks num_tokens,
     fixup_in_pool cfg parser toks ->
     jsmn_parse_primitive fuel cfg parser js len None num_tokens
       = Done (JSMN_ERROR_INVAL, parser, None) ->
     exists p,
       jsmn_parse_primitive fuel cfg parser js len (Some toks) num_tokens
         = Done (JSMN_ERROR_INVAL, p, Some toks) /\
       pos p = pos parser /\ toknext p = toknext parser) /\
  (forall fuel cfg parser js len toks num_tokens p t,
     nz (jsmn_is_expected parser JSMN_PRIMITIVE) = true ->
     jsmn_parse_primitive fuel cfg parser js len (Some toks) num_tokens
       = Done (JSMN_ERROR_INVAL, p, t) ->
     jsmn_parse_primitive fuel cfg parser js len None num_tokens
       = Done (JSMN_ERROR_INVAL, parser, None)) /\
  (forall fuel cfg parser js len toks num_tokens,
     fixup_in_pool cfg parser toks ->
     jsmn_parse_string fuel cfg parser js len None num_tokens
       = Done (JSMN_ERROR_INVAL, parser, None) ->
     exists p,
       jsmn_parse_string fuel cfg parser js len (Some toks) num_tokens
         = Done (JSMN_ERROR_INVAL, p, Some toks) /\
       pos p = pos parser /\ toknext p = toknext parser) /\
  (forall fuel cfg parser js len toks num_tokens p t,
     nz (jsmn_is_expected parser JSMN_STRING) = true ->
     jsmn_parse_string fuel cfg parser js len (Some toks) num_tokens
       = Done (JSMN_ERROR_INVAL, p, t) ->
     jsmn_parse_string fuel cfg parser js len None num_tokens
       = Done (JSMN_ERROR_INVAL, parser, None)) /\
  (forall fuel cfg js len num_tokens parser count,
     (forall c, c = LBRACE \/ c = LBRACKET ->
        jsmn_step fuel cfg js len num_tokens parser None count c
        = Done (Next parser None (wrap (count + 1)))) /\
     (forall c, c = RBRACE \/ c = RBRACKET ->
        jsmn_step fuel cfg js len num_tokens parser None count c
        = Done (Next parser None count)) /\
     jsmn_finish parser None count = Done (Count count, parser, None)).
Proof.
  repeat apply conj.
  - intros fuel cfg parser js len num_tokens s pre b bad rest Hreach Hpos Hjs Hall Hfirst
      Hbad Hlen Hmax.
    pose proof (reaches_none _ _ _ _ _ (entry parser None) s eq_refl Hreach) as Hnone.
    destruct (jsmn_parse_primitive_illegal_at fuel cfg parser js len None num_tokens s
                pre b rest bad Hreach Hpos Hjs Hall Hfirst Hbad Hlen Hmax)
      as (fuel0 & p' & Hf & _ & _ & _ & Hsame); [by rewrite Hnone |].
    exists fuel0. intros fuel' Hle.
    rewrite (Hf fuel' Hle), Hnone. by rewrite (Hsame (or_introl Hnone)).
  - intros fuel cfg parser js len num_tokens s pre body x rest Hreach Hpos Hjs Hbody Hx Hu
      Hlen Hmax.
    pose proof (reaches_none _ _ _ _ _ (entry parser None) s eq_refl Hreach) as Hnone.
    destruct (jsmn_parse_string_stops_at fuel (length body + 1) cfg parser js len None
                num_tokens s (length pre) StrInval JSMN_ERROR_INVAL Hreach Hpos)
      as (fuel0 & p' & Hf & _ & _ & _ & Hsame).
    + rewrite Hjs. by apply list_lookup_middle.
    + lia.
    + lia.
    + replace (S (length pre)) with (length (pre ++ [QUOTE]))
        by (rewrite length_app; cbn [length]; lia).
      apply (string_loop_escape_inval len 0 js (pre ++ [QUOTE]) body rest x); try done;
        rewrite ?length_app; cbn [length]; try lia.
      rewrite Hjs, <- ?app_assoc. reflexivity.
    + by left.
    + by rewrite Hnone.
    + exists fuel0. intros fuel' Hle.
      rewrite (Hf fuel' Hle), Hnone. by rewrite (Hsame (or_introl Hnone)).
  - intros fuel cfg parser js len num_tokens s pre body hs bad rest Hreach Hpos Hjs Hbody
      Hhs Hn Hbad Hnz Hlen Hmax.
    pose proof (reaches_none _ _ _ _ _ (entry parser None) s eq_refl Hreach) as Hnone.
    destruct (jsmn_parse_string_stops_at fuel (length body + 1) cfg parser js len None
                num_tokens s (length pre) StrInval JSMN_ERROR_INVAL Hreach Hpos)
      as (fuel0 & p' & Hf & _ & _ & _ & Hsame).
    + rewrite Hjs. by apply list_lookup_middle.
    + lia.
    + lia.
    + replace (S (length pre)) with (length (pre ++ [QUOTE]))
        by (rewrite length_app; cbn [length]; lia).
      apply (string_loop_unicode_inval len 0 js (pre ++ [QUOTE]) body hs rest bad); try done;
        rewrite ?length_app; cbn [length]; try lia.
      rewrite Hjs, <- ?app_assoc. reflexivity.
    + by left.
    + by rewrite Hnone.
    + exists fuel0. intros fuel' Hle.
      rewrite (Hf fuel' Hle), Hnone. by rewrite (Hsame (or_introl Hnone)).
  - intros fuel cfg parser js len toks num_tokens Hfix H.
    apply jsmn_parse_primitive_inval_scan in H; [| done].
    destruct (nz (jsmn_is_expected parser JSMN_PRIMITIVE)) eqn:He.
    + destruct (jsmn_parse_primitive_stops fuel cfg parser js len (Some toks) num_tokens H)
        as (p' & Hs & Hp & Hn & _); [done |]. by exists p'.
    + exists parser. unfold jsmn_parse_primitive. by rewrite He.
  - intros fuel cfg parser js len toks num_tokens p t He H.
    apply jsmn_parse_primitive_inval_scan in H; [| done].
    destruct (jsmn_parse_primitive_stops fuel cfg parser js len None num_tokens H)
      as (p' & Hs & _ & _ & _ & Hsame); [done |].
    by rewrite <- (Hsame (or_introl eq_refl)) at 2.
  - intros fuel cfg parser js len toks num_tokens Hfix H.
    apply jsmn_parse_string_inval_scan in H; [| done].
    destruct (nz (jsmn_is_expected parser JSMN_STRING)) eqn:He.
    + destruct (jsmn_parse_string_stops fuel cfg parser js len (Some toks) num_tokens
                  StrInval JSMN_ERROR_INVAL H)
        as (p' & Hs & Hp & Hn & _); [by left | done |]. by exists p'.
    + exists parser. unfold jsmn_parse_string. by rewrite He.
  - intros fuel cfg parser js len toks num_tokens p t He H.
    apply jsmn_parse_string_inval_scan in H; [| done].
    destruct (jsmn_parse_string_stops fuel cfg parser js len None num_tokens
                StrInval JSMN_ERROR_INVAL H)
      as (p' & Hs & _ & _ & _ & Hsame); [by left | done |].
    by rewrite <- (Hsame (or_introl eq_refl)) at 2.
  - exact jsmn_step_dry_brackets.
Qed.

Lemma dry_run_validates_bytes_only_witness :
  let cfg := permissive true false in
  let js := [91; 34; 97; 92; 117; 49; 50; 120; 34; 93] in
  let s := mk_iter (mk_parser 1 0 JSMN_NEG JSMN_ANY_TYPE) None 1 in
  exists fuel0, forall fuel', (fuel0 <= fuel')%nat ->
    jsmn_parse fuel' cfg (jsmn_init cfg) js 10 None 0
    = Done (Err JSMN_ERROR_INVAL, it_parser s, None).
Proof.
  intros cfg js s.
  apply (proj1 (proj2 (proj2 dry_run_validates_bytes_only)) 4%nat cfg (jsmn_init cfg) js 10 0
           s [91] [97] [49; 50] 120 [34; 93]).
  - eapply reaches_pass; [| apply reaches_here].
    split; [reflexivity |]. exists 91, (jsmn_init cfg), None, 1.
    repeat split; try reflexivity. discriminate.
  - reflexivity.
  - reflexivity.
  - repeat constructor.
  - repeat constructor.
  - cbn. lia.
  - reflexivity.
  - discriminate.
  - reflexivity.
  - reflexivity.
Defined.



